(** * Migration audit backend: verification of the analysis pipeline's core

    A shallow embedding of the services the migration pipeline is built from:

    - [services/sitemapParser.js]: [parseSitemap], [extractUrls], [normalizeUrl];
    - [services/urlComparisonService.js]: [compareUrls], [findSimilarUrl],
      [calculateSimilarity], [levenshteinDistance], [detectPatternChanges],
      [extractPatterns], [findSimilarPattern];
    - [services/statusChecker.js]: [checkUrlStatus], the retry loop of
      [checkMultipleUrls], [categorizeResults], [findBrokenLinks],
      [analyzeRedirects];
    - [services/seoComparisonService.js]: [calculateTextSimilarity],
      [compareTitles], [compareDescriptions], [validateH1], [compareH1Tags],
      [compareCanonical], [calculateMatchScore], [compareSEOData],
      [generateSummary];
    - [services/exportService.js]: [escapeCSV], [generateURLComparisonCSV];
    - [services/csvParser.js]: [parseRedirectMapping];
    - [controllers/processingController.js]: [selectImportantUrls].

    Conventions of the embedding.

    - A JavaScript string is a [string]: a sequence of 8-bit code units.  The
      model is exact on ASCII text; [toLowerCase] only touches [A-Z].
    - A JavaScript number is an exact rational ([Q]) or integer ([Z]).  Every
      number these services compute is a quotient of two small integers (string
      lengths, counts, milliseconds).  Where such a quotient is compared with
      a threshold or rounded to an integer, its IEEE rounding is not
      modelled; where it is printed with [toFixed], as [matchRate] is, the
      division and the multiplication are the binary64 ones ([JS.div],
      [JS.mul]).
    - A JavaScript [Map] is an association list in insertion order with unique
      keys ([Map_set] overwrites in place); a [Set] is a duplicate-free list in
      insertion order.
    - [null]/[undefined] are [None].
    - The platform's [new URL(s)] is a parameter [newURL : string -> option URL]
      of the services ([None] = the constructor throws), and what is proved of
      [compareUrls] holds for any such function.  [WHATWG.parse] is a model of
      it, used to run the services on concrete inputs and to study
      [normalizeUrl] on its own output.
    - Calls that may not come back ([parseSitemap]) or that loop
      ([checkMultipleUrls]) take fuel; the properties say how much is enough. *)

From Stdlib Require Import Bool Arith NArith ZArith QArith Lia List Ascii String.
From Stdlib Require Import Qround Qabs Qpower Lqa Permutation Numbers.DecimalString.
From Stdlib Require Import Floats.SpecFloat.
Import ListNotations.

Local Open Scope string_scope.
Local Open Scope list_scope.
Local Open Scope bool_scope.

Local Infix "+++" := String.append (at level 60, right associativity).

(** ** JavaScript strings *)

Module JS.

Definition code (c : ascii) : N := N_of_ascii c.

Definition isAsciiUpper (c : ascii) : bool := (65 <=? code c)%N && (code c <=? 90)%N.
Definition isAsciiLower (c : ascii) : bool := (97 <=? code c)%N && (code c <=? 122)%N.
Definition isAsciiAlpha (c : ascii) : bool := isAsciiUpper c || isAsciiLower c.
Definition isAsciiDigit (c : ascii) : bool := (48 <=? code c)%N && (code c <=? 57)%N.

Definition lowerChar (c : ascii) : ascii :=
  if isAsciiUpper c then ascii_of_N (code c + 32) else c.

(** [s.toLowerCase()] *)
Fixpoint toLowerCase (s : string) : string :=
  match s with
  | "" => ""
  | String c s' => String (lowerChar c) (toLowerCase s')
  end.

(** [s.startsWith(p)] *)
Fixpoint startsWith (s p : string) {struct p} : bool :=
  match p with
  | "" => true
  | String a p' =>
      match s with
      | "" => false
      | String b s' => Ascii.eqb a b && startsWith s' p'
      end
  end.

(** [s.endsWith(suffix)] *)
Fixpoint endsWith (s suffix : string) : bool :=
  (s =? suffix) ||
  match s with
  | "" => false
  | String _ s' => endsWith s' suffix
  end.

(** [s.slice(b, e)], with JavaScript's treatment of negative indices. *)
Definition slice (s : string) (b e : Z) : string :=
  let len := Z.of_nat (String.length s) in
  let from := if (b <? 0)%Z then Z.max (len + b) 0 else Z.min b len in
  let to := if (e <? 0)%Z then Z.max (len + e) 0 else Z.min e len in
  substring (Z.to_nat from) (Z.to_nat (to - from)) s.

(** [s.replace(/^www\./, '')] *)
Definition replace_leading_www (s : string) : string :=
  if startsWith s "www." then substring 4 (String.length s - 4) s else s.

(** [!s] for a value that is a string, [null] or [undefined]. *)
Definition falsy (s : option string) : bool :=
  match s with
  | None => true
  | Some s => s =? ""
  end.

Fixpoint filterString (keep : ascii -> bool) (s : string) : string :=
  match s with
  | "" => ""
  | String c s' => if keep c then String c (filterString keep s') else filterString keep s'
  end.

Fixpoint dropWhile (p : ascii -> bool) (s : string) : string :=
  match s with
  | "" => ""
  | String c s' => if p c then dropWhile p s' else s
  end.

Fixpoint trimEnd (p : ascii -> bool) (s : string) : string :=
  match s with
  | "" => ""
  | String c s' =>
      let t := trimEnd p s' in
      if p c && (t =? "") then "" else String c t
  end.

(** The longest prefix whose characters satisfy [p], and the rest. *)
Fixpoint span (p : ascii -> bool) (s : string) : string * string :=
  match s with
  | "" => ("", "")
  | String c s' =>
      if p c then let (a, b) := span p s' in (String c a, b) else ("", s)
  end.

Fixpoint allChars (p : ascii -> bool) (s : string) : bool :=
  match s with
  | "" => true
  | String c s' => p c && allChars p s'
  end.

Fixpoint anyChar (p : ascii -> bool) (s : string) : bool :=
  match s with
  | "" => false
  | String c s' => p c || anyChar p s'
  end.

(** [s.split(sep)] for a one-character separator. *)
Fixpoint splitOn (sep : ascii) (s : string) : list string :=
  match s with
  | "" => [""]
  | String c s' =>
      if Ascii.eqb c sep then "" :: splitOn sep s'
      else match splitOn sep s' with
           | p :: ps => String c p :: ps
           | [] => [String c ""]
           end
  end.

(** Decimal rendering of a natural number, as [String(n)] prints it. *)
Definition decimal (n : N) : string := NilEmpty.string_of_uint (N.to_uint n).

(** ** JavaScript [Map] and [Set] over string keys *)

Definition Map (V : Type) : Type := list (string * V).

Fixpoint Map_set {V} (m : Map V) (k : string) (v : V) : Map V :=
  match m with
  | [] => [(k, v)]
  | (k', v') :: m' => if k' =? k then (k, v) :: m' else (k', v') :: Map_set m' k v
  end.

Fixpoint Map_get {V} (m : Map V) (k : string) : option V :=
  match m with
  | [] => None
  | (k', v') :: m' => if k' =? k then Some v' else Map_get m' k
  end.

Definition Map_has {V} (m : Map V) (k : string) : bool :=
  match Map_get m k with Some _ => true | None => false end.

Definition Map_values {V} (m : Map V) : list V := map snd m.

(** [new Map(entries)] *)
Definition Map_from {V} (entries : list (string * V)) : Map V :=
  fold_left (fun m kv => Map_set m (fst kv) (snd kv)) entries [].

Definition Set_ : Type := list string.

Definition Set_has (s : Set_) (k : string) : bool := existsb (String.eqb k) s.

Definition Set_add (s : Set_) (k : string) : Set_ :=
  if Set_has s k then s else s ++ [k].

(** [new Set(items)] *)
Definition Set_from (items : list string) : Set_ := fold_left Set_add items [].

(** ** JavaScript numbers *)

(** [x < y] *)
Definition Qltb (x y : Q) : bool := negb (Qle_bool y x).

(** [Math.round(x)] *)
Definition roundHalfUp (x : Q) : Z := Qfloor (x + (1 # 2)).

(** *** Binary64

    Where a number is printed digit by digit, as [matchRate] is, the
    rounding of the arithmetic shows, and the operations are taken as the
    language has them: the exact result, rounded to the nearest binary64
    number.  The value of a binary64 number is kept as the rational it is. *)

(** [floor (log2 x)] for a positive [x]. *)
Definition floorLog2 (x : Q) : Z :=
  let k := (Z.log2 (Qnum x) - Z.log2 (Zpos (Qden x)))%Z in
  if Qltb x (2 ^ k) then (k - 1)%Z else k.

(** The integer nearest to [x], the even one on a tie. *)
Definition roundHalfEven (x : Q) : Z :=
  let f := Qfloor x in
  match (x - inject_Z f ?= 1 # 2)%Q with
  | Lt => f
  | Gt => (f + 1)%Z
  | Eq => if Z.even f then f else (f + 1)%Z
  end.

(** The exponent of the last place of the binary64 numbers around [x]: 52
    places below the leading bit of [x], and [-1074] for the subnormal
    numbers. *)
Definition lastPlace (x : Q) : Z := Z.max (floorLog2 (Qabs x) - 52) (-1074).

(** The binary64 number nearest to [x], the one with the even significand
    on a tie: what an arithmetic operation of the language returns when its
    exact result is [x], for [|x| < 2^1024]. *)
Definition binary64 (x : Q) : Q :=
  if Qeq_bool x 0 then 0%Q
  else
    let e := lastPlace x in
    let m := roundHalfEven (Qabs x / 2 ^ e) in
    ((if Qltb x 0 then - inject_Z m else inject_Z m) * 2 ^ e)%Q.

(** The binary64 numbers, as rationals: a significand of at most 53 bits and
    an exponent from [-1074] on.  (Overflow is left out: the numbers here
    stay far below [2^1024].) *)
Definition representable (y : Q) : Prop :=
  exists m e : Z, (Z.abs m <= 2 ^ 53)%Z /\ (-1074 <= e)%Z /\ (y == inject_Z m * 2 ^ e)%Q.

(** [b] is a binary64 number, and no binary64 number is nearer to [x]. *)
Definition nearest64 (x b : Q) : Prop :=
  representable b
  /\ forall y, representable y -> (Qabs (b - x) <= Qabs (y - x))%Q.

(** [x / y] and [x * y] *)
Definition div (x y : Q) : Q := binary64 (x / y).
Definition mul (x y : Q) : Q := binary64 (x * y).

(** [a / b * 100] for two counts, by the Standard Library's specification of
    binary64 arithmetic: what [div] and [mul] are checked against. *)
Definition valueOf (f : SpecFloat.spec_float) : Q :=
  match f with
  | SpecFloat.S754_finite sign m e =>
      ((if sign then - inject_Z (Zpos m) else inject_Z (Zpos m)) * 2 ^ e)%Q
  | _ => 0%Q
  end.

Definition ofCount (n : nat) : SpecFloat.spec_float :=
  SpecFloat.binary_normalize 53 1024 (Z.of_nat n) 0 false.

Definition percentage64 (a b : nat) : Q :=
  valueOf (SpecFloat.SFmul 53 1024 (SpecFloat.SFdiv 53 1024 (ofCount a) (ofCount b))
                           (ofCount 100)).

(** *** Printing *)

Fixpoint zeros (n : nat) : string :=
  match n with
  | O => ""
  | S n' => String "0" (zeros n')
  end.

(** The digits [m] with a decimal point [fractionDigits] places from the
    right, filled up with zeros on the left when there are too few. *)
Definition withPoint (m : string) (fractionDigits : nat) : string :=
  match fractionDigits with
  | O => m
  | _ =>
      let m := if (String.length m <=? fractionDigits)%nat
               then zeros (fractionDigits + 1 - String.length m) +++ m else m in
      let k := String.length m in
      substring 0 (k - fractionDigits) m +++ "." +++ substring (k - fractionDigits) fractionDigits m
  end.

(** [x.toFixed(fractionDigits)] for [|x| < 10^21], [x] being the exact value
    of the number: the integer nearest to [|x| * 10^fractionDigits], the
    larger one on a tie, printed with the decimal point [fractionDigits]
    places from the right. *)
Definition toFixed (x : Q) (fractionDigits : nat) : string :=
  let sign := if Qltb x 0 then "-" else "" in
  let n := roundHalfUp (Qabs x * inject_Z (10 ^ Z.of_nat fractionDigits)) in
  sign +++ withPoint (decimal (Z.to_N n)) fractionDigits.

End JS.

(** ** The platform's URL record

    The fields of a [URL] object the services read ([protocol], [hostname],
    [pathname]), and [port], which they never read. *)

Record URL : Type := mkURL {
  protocol : string;
  hostname : string;
  port : string;
  pathname : string
}.

(** ** A model of the URL constructor

    [WHATWG.parse] follows the URL Standard's basic parser, without a base
    URL, for the schemes [http], [https], [ws], [wss] and [ftp]: input
    clean-up, scheme, any number of slashes, authority (credentials are read
    and dropped), host and port, and the path with its dot segments and
    percent-encoding.  The query and the fragment are cut off and not kept.

    Not covered: other schemes ([file:], [mailto:], ...), IPv6 literals, and
    hosts that need IDNA processing (non-ASCII or punycode labels).  On such
    an input the model answers [None], which then says nothing about the
    platform: the model is run on inputs it covers only, and what is proved
    of [normalizeUrl] and [compareUrls] in general is proved for any URL
    constructor, not for this one.  A string is read as the
    bytes of its UTF-8 encoding, which is what the path's percent-encoding
    works on.  The path percent-encode set is the current standard's, with
    [^] in it. *)

Module WHATWG.
Import JS.

Definition isC0ControlOrSpace (c : ascii) : bool := (code c <=? 32)%N.
Definition isTabOrNewline (c : ascii) : bool :=
  (code c =? 9)%N || (code c =? 10)%N || (code c =? 13)%N.

Definition preprocess (input : string) : string :=
  filterString (fun c => negb (isTabOrNewline c))
    (trimEnd isC0ControlOrSpace (dropWhile isC0ControlOrSpace input)).

Definition isSchemeChar (c : ascii) : bool :=
  isAsciiAlpha c || isAsciiDigit c ||
  Ascii.eqb c "+" || Ascii.eqb c "-" || Ascii.eqb c ".".

(** Scheme start state and scheme state: the lower-cased scheme and what
    follows the colon.  Without a base URL anything else is a failure. *)
Definition parseScheme (s : string) : option (string * string) :=
  match s with
  | String c _ =>
      if isAsciiAlpha c then
        let (buffer, rest) := span isSchemeChar s in
        match rest with
        | String ":" rest' => Some (toLowerCase buffer, rest')
        | _ => None
        end
      else None
  | "" => None
  end.

Definition defaultPort (scheme : string) : option N :=
  if scheme =? "http" then Some 80%N
  else if scheme =? "https" then Some 443%N
  else if scheme =? "ws" then Some 80%N
  else if scheme =? "wss" then Some 443%N
  else if scheme =? "ftp" then Some 21%N
  else None.

Definition isSlash (c : ascii) : bool := Ascii.eqb c "/" || Ascii.eqb c "\".
Definition isAuthorityEnd (c : ascii) : bool :=
  isSlash c || Ascii.eqb c "?" || Ascii.eqb c "#".

(** What follows the last [@] of the authority, when there is one. *)
Fixpoint afterLastAt (s : string) : option string :=
  match s with
  | "" => None
  | String c s' =>
      match afterLastAt s' with
      | Some r => Some r
      | None => if Ascii.eqb c "@" then Some s' else None
      end
  end.

Definition isHexDigit (c : ascii) : bool :=
  isAsciiDigit c
  || ((65 <=? code c)%N && (code c <=? 70)%N)
  || ((97 <=? code c)%N && (code c <=? 102)%N).

Definition hexValue (c : ascii) : N :=
  if isAsciiDigit c then (code c - 48)%N
  else if (code c <=? 70)%N then (code c - 55)%N
  else (code c - 87)%N.

Fixpoint percentDecode (s : string) : string :=
  match s with
  | "" => ""
  | String c s' =>
      match s' with
      | String h (String l rest) =>
          if Ascii.eqb c "%" && isHexDigit h && isHexDigit l
          then String (ascii_of_N (16 * hexValue h + hexValue l)) (percentDecode rest)
          else String c (percentDecode s')
      | _ => String c (percentDecode s')
      end
  end.

Definition isForbiddenDomainCodePoint (c : ascii) : bool :=
  (code c <=? 32)%N || (code c =? 127)%N ||
  anyChar (Ascii.eqb c) "#/:<>?@[\]^|%".

(** The value of a string of radix-[r] digits; [None] on any other character. *)
Fixpoint digitsValue (r : N) (acc : N) (s : string) : option N :=
  match s with
  | "" => Some acc
  | String c s' =>
      if isHexDigit c && (hexValue c <? r)%N
      then digitsValue r (acc * r + hexValue c)%N s'
      else None
  end.

(** The IPv4 number parser. *)
Definition parseIPv4Number (input : string) : option N :=
  match input with
  | "" => None
  | String "0" (String x rest) =>
      if Ascii.eqb x "x" || Ascii.eqb x "X" then digitsValue 16 0 rest
      else digitsValue 8 0 (String x rest)
  | _ => digitsValue 10 0 input
  end.

Definition dropEmptyLast (parts : list string) : list string :=
  match rev parts with
  | "" :: ((_ :: _) as front) => rev front
  | _ => parts
  end.

(** The ends-in-a-number checker. *)
Definition endsInNumber (input : string) : bool :=
  let parts := splitOn "." input in
  match rev parts with
  | [""] => false
  | rparts =>
      let last := match rparts with
                  | "" :: l :: _ => l
                  | l :: _ => l
                  | [] => ""
                  end in
      (negb (last =? "") && allChars isAsciiDigit last)
      || match parseIPv4Number last with Some _ => true | None => false end
  end.

(** The IPv4 parser: the address as a number below 2^32. *)
Definition parseIPv4 (input : string) : option N :=
  let parts := dropEmptyLast (splitOn "." input) in
  if (4 <? List.length parts)%nat then None
  else
    let numbers := map parseIPv4Number parts in
    if existsb (fun n => match n with None => true | Some _ => false end) numbers then None
    else
      let numbers := map (fun n => match n with Some v => v | None => 0%N end) numbers in
      let front := removelast numbers in
      let last := List.last numbers 0%N in
      if existsb (fun n => (255 <? n)%N) front then None
      else if (256 ^ (5 - N.of_nat (List.length numbers)) <=? last)%N then None
      else
        Some (fst (fold_left
                     (fun (st : N * N) n => (fst st + n * 256 ^ (3 - snd st), snd st + 1)%N)
                     front (last, 0%N))).

Definition serializeIPv4 (a : N) : string :=
  decimal (a / 16777216 mod 256) +++ "." +++ decimal (a / 65536 mod 256) +++ "."
  +++ decimal (a / 256 mod 256) +++ "." +++ decimal (a mod 256).

Definition hasPunycodeLabel (domain : string) : bool :=
  existsb (fun label => startsWith label "xn--") (splitOn "." domain).

(** The host parser for a special scheme. *)
Definition parseHost (input : string) : option string :=
  if startsWith input "[" then None
  else
    let domain := percentDecode input in
    if anyChar (fun c => (127 <? code c)%N) domain then None
    else
      let asciiDomain := toLowerCase domain in
      if hasPunycodeLabel asciiDomain then None
      else if asciiDomain =? "" then None
      else if anyChar isForbiddenDomainCodePoint asciiDomain then None
      else if endsInNumber asciiDomain
           then option_map serializeIPv4 (parseIPv4 asciiDomain)
           else Some asciiDomain.

(** The port state: the [port] getter's string, empty for the default port. *)
Definition parsePort (scheme : string) (buffer : string) : option string :=
  if allChars isAsciiDigit buffer then
    if buffer =? "" then Some ""
    else match digitsValue 10 0 buffer with
         | Some n =>
             if (65535 <? n)%N then None
             else match defaultPort scheme with
                  | Some d => if (n =? d)%N then Some "" else Some (decimal n)
                  | None => Some (decimal n)
                  end
         | None => None
         end
  else None.

Definition inPathPercentEncodeSet (c : ascii) : bool :=
  (code c <=? 32)%N || (126 <? code c)%N || (code c =? 34)%N ||
  anyChar (Ascii.eqb c) "#<>?^`{}".

Definition hexDigit (n : N) : ascii :=
  if (n <? 10)%N then ascii_of_N (48 + n) else ascii_of_N (55 + n).

Definition percentEncode (c : ascii) : string :=
  if inPathPercentEncodeSet c
  then String "%" (String (hexDigit (code c / 16)) (String (hexDigit (code c mod 16)) ""))
  else String c "".

Definition isSingleDotSegment (buffer : string) : bool :=
  let b := toLowerCase buffer in (b =? ".") || (b =? "%2e").

Definition isDoubleDotSegment (buffer : string) : bool :=
  let b := toLowerCase buffer in
  (b =? "..") || (b =? ".%2e") || (b =? "%2e.") || (b =? "%2e%2e").

(** What the path state does with the buffer when a segment ends, at a slash
    ([atSlash]) or at the end of the path. *)
Definition segmentEnd (buffer : string) (path : list string) (atSlash : bool) : list string :=
  if isDoubleDotSegment buffer then
    if atSlash then removelast path else removelast path ++ [""]
  else if isSingleDotSegment buffer then
    if atSlash then path else path ++ [""]
  else path ++ [buffer].

Fixpoint pathState (s : string) (buffer : string) (path : list string) : list string :=
  match s with
  | "" => segmentEnd buffer path false
  | String c s' =>
      if isSlash c then pathState s' "" (segmentEnd buffer path true)
      else pathState s' (buffer +++ percentEncode c) path
  end.

Definition serializePath (path : list string) : string :=
  fold_right (fun segment acc => "/" +++ segment +++ acc) "" path.

Definition parse (input : string) : option URL :=
  match parseScheme (preprocess input) with
  | None => None
  | Some (scheme, rest) =>
      match defaultPort scheme with
      | None => None
      | Some _ =>
          let (authority, rest) :=
            span (fun c => negb (isAuthorityEnd c)) (dropWhile isSlash rest) in
          let (atSignSeen, buffer) :=
            match afterLastAt authority with
            | Some b => (true, b)
            | None => (false, authority)
            end in
          if atSignSeen && (buffer =? "") then None
          else
            let (host, afterHost) := span (fun c => negb (Ascii.eqb c ":")) buffer in
            match parseHost host with
            | None => None
            | Some h =>
                match (match afterHost with
                       | "" => Some ""
                       | String _ p => parsePort scheme p
                       end) with
                | None => None
                | Some prt =>
                    let (pathPart, _) :=
                      span (fun c => negb (Ascii.eqb c "?" || Ascii.eqb c "#")) rest in
                    let segments :=
                      match pathPart with
                      | String c p => if isSlash c then p else pathPart
                      | "" => ""
                      end in
                    Some {| protocol := scheme +++ ":";
                            hostname := h;
                            port := prt;
                            pathname := serializePath (pathState segments "" []) |}
                end
            end
      end
  end.

(** ** The shape of what the parser returns *)

(** The characters of a parsed host name: ASCII, lower case, none forbidden. *)
Definition hostChar (c : ascii) : bool :=
  negb (isForbiddenDomainCodePoint c) && (code c <=? 127)%N && negb (isAsciiUpper c).

(** A domain name the host parser returns as it is. *)
Definition domainOK (h : string) : Prop :=
  h <> "" /\ allChars hostChar h = true /\ hasPunycodeLabel h = false
  /\ endsInNumber h = false.

(** The text of a byte: digits that the IPv4 number parser reads back. *)
Definition byteText (s : string) (n : N) : Prop :=
  s <> "" /\ allChars isAsciiDigit s = true /\ parseIPv4Number s = Some n /\ (n < 256)%N.

(** The same for the decimal rendering of [n], as a test. *)
Definition byteTextb (n : N) : bool :=
  negb (decimal n =? "") && allChars isAsciiDigit (decimal n)
  && match parseIPv4Number (decimal n) with Some m => (m =? n)%N | None => false end.

(** The characters of a parsed path segment: not a slash, and in no need of
    percent-encoding. *)
Definition segmentChar (c : ascii) : bool :=
  negb (inPathPercentEncodeSet c) && negb (isSlash c).

(** A path segment the path state keeps as it is. *)
Definition cleanSegment (s : string) : Prop :=
  allChars segmentChar s = true /\ isSingleDotSegment s = false /\ isDoubleDotSegment s = false.

End WHATWG.

(** ** services/sitemapParser.js *)

(** What [xml2js] hands back for a sitemap document.  An element's [loc] is
    [None] when the child is absent, and reading [loc[0]] then throws. *)

Record SitemapRef : Type := mkSitemapRef { sitemap_loc : option string }.

Record UrlElement : Type := mkUrlElement {
  url_loc : option string;
  url_lastmod : option string;
  url_changefreq : option string;
  url_priority : option string
}.

Inductive XmlRoot : Type :=
| SitemapIndex (sitemap : list SitemapRef)
| UrlSet (url : list UrlElement)
| OtherRoot.

(** The outside world of [parseSitemap]: reading a file ([isFile = true]) or
    fetching a URL, and parsing the XML; [inl message] when any of the three
    throws. *)
Definition World : Type := bool -> string -> string + XmlRoot.

Record SitemapEntry : Type := mkSitemapEntry {
  url : string;
  lastmod : option string;
  changefreq : option string;
  priority : option string  (* the text handed to [parseFloat] *)
}.

(** How a call ends: it returns, it throws, or it is still running when the
    fuel is used up. *)
Inductive outcome (A : Type) : Type :=
| Returned (a : A)
| Thrown (message : string)
| Pending.
Arguments Returned {A} a.
Arguments Thrown {A} message.
Arguments Pending {A}.

Definition failedToParse {A} (message : string) : outcome A :=
  Thrown ("Failed to parse sitemap: " +++ message).

Definition typeErrorLoc : string :=
  "Cannot read properties of undefined (reading '0')".

(** [urlElements.map(urlElement => ...)]; [None] when a [loc[0]] throws. *)
Fixpoint mapUrlElements (urlElements : list UrlElement) : option (list SitemapEntry) :=
  match urlElements with
  | [] => Some []
  | e :: rest =>
      match url_loc e, mapUrlElements rest with
      | Some l, Some entries =>
          Some ({| url := l; lastmod := url_lastmod e;
                   changefreq := url_changefreq e; priority := url_priority e |} :: entries)
      | _, _ => None
      end
  end.

Section ParseSitemap.
Variable world : World.

(** The [for (const sitemap of sitemaps)] loop, given the recursive call. *)
Fixpoint nestedSitemaps (recurse : string -> bool -> outcome (list SitemapEntry))
    (sitemaps : list SitemapRef) (urls : list SitemapEntry) : outcome (list SitemapEntry) :=
  match sitemaps with
  | [] => Returned urls
  | sitemap :: rest =>
      match sitemap_loc sitemap with
      | None => failedToParse typeErrorLoc
      | Some sitemapUrl =>
          match recurse sitemapUrl false with
          | Returned nestedUrls => nestedSitemaps recurse rest (urls ++ nestedUrls)
          | Thrown _ => nestedSitemaps recurse rest urls
          | Pending => Pending
          end
      end
  end.

Fixpoint parseSitemap (fuel : nat) (filePath : string) (isFile : bool)
  : outcome (list SitemapEntry) :=
  match fuel with
  | O => Pending
  | S fuel' =>
      match world isFile filePath with
      | inl message => failedToParse message
      | inr (SitemapIndex sitemaps) => nestedSitemaps (parseSitemap fuel') sitemaps []
      | inr (UrlSet urlElements) =>
          match mapUrlElements urlElements with
          | Some urls => Returned urls
          | None => failedToParse typeErrorLoc
          end
      | inr OtherRoot =>
          failedToParse "Invalid sitemap format: no urlset or sitemapindex found"
      end
  end.

(** The sitemaps reachable from a document lie at most [d] references deep. *)
Fixpoint depthAtMost (d : nat) (filePath : string) (isFile : bool) : Prop :=
  match world isFile filePath with
  | inr (SitemapIndex sitemaps) =>
      match d with
      | O => False
      | S d' =>
          Forall (fun sitemap =>
                    match sitemap_loc sitemap with
                    | Some sitemapUrl => depthAtMost d' sitemapUrl false
                    | None => True
                    end) sitemaps
      end
  | _ => True
  end.

End ParseSitemap.

(** [extractUrls]: the distinct non-empty [url]s, in order of first occurrence. *)
Definition extractUrls (sitemapData : list SitemapEntry) : list string :=
  fold_left (fun urlSet item => if url item =? "" then urlSet else JS.Set_add urlSet (url item))
            sitemapData [].

Section Services.
Variable newURL : string -> option URL.

Definition normalizeUrl (url : string) : string :=
  match newURL url with
  | Some urlObj =>
      let pathname := pathname urlObj in
      let pathname :=
        if JS.endsWith pathname "/" && (1 <? String.length pathname)%nat
        then JS.slice pathname 0 (-1)
        else pathname in
      let hostname := JS.replace_leading_www (hostname urlObj) in
      protocol urlObj +++ "//" +++ hostname +++ pathname
  | None => url
  end.

(** What [normalizeUrl] does to the path. *)
Definition trimPath (pathname : string) : string :=
  if JS.endsWith pathname "/" && (1 <? String.length pathname)%nat
  then JS.slice pathname 0 (-1)
  else pathname.

(** The URL constructor reads the normal form of [url] back as it was
    written: as [again], whose protocol, host name and path are the three
    parts the normal form was put together from. *)
Definition readBack (url : string) (urlObj again : URL) : Prop :=
  newURL (normalizeUrl url) = Some again
  /\ protocol again = protocol urlObj
  /\ hostname again = JS.replace_leading_www (hostname urlObj)
  /\ pathname again = trimPath (pathname urlObj).

(** ** services/urlComparisonService.js *)

(** One row of the matrix from the row above it: [diag] is
    [matrix[i-1][j-1]], [left] is [matrix[i][j-1]], [above] holds
    [matrix[i-1][j..]], and [c2] is [str2.charAt(i-1)]. *)
Fixpoint fillRow (c2 : ascii) (str1 : string) (above : list nat) (diag left : nat) : list nat :=
  match str1, above with
  | String c1 str1', up :: above' =>
      let cell :=
        if Ascii.eqb c2 c1 then diag
        else Nat.min (Nat.min (diag + 1) (left + 1)) (up + 1) in
      cell :: fillRow c2 str1' above' up cell
  | _, _ => []
  end.

Definition nextRow (i : nat) (c2 : ascii) (str1 : string) (row : list nat) : list nat :=
  match row with
  | diag :: above => i :: fillRow c2 str1 above diag i
  | [] => [i]
  end.

Fixpoint matrixRows (str2 : string) (i : nat) (str1 : string) (row : list nat) : list nat :=
  match str2 with
  | "" => row
  | String c2 str2' => matrixRows str2' (S i) str1 (nextRow (S i) c2 str1 row)
  end.

(** [levenshteinDistance]: the last cell of the last row. *)
Definition levenshteinDistance (str1 str2 : string) : nat :=
  List.last (matrixRows str2 0 str1 (seq 0 (S (String.length str1)))) 0%nat.

Definition calculateSimilarity (str1 str2 : string) : Q :=
  let longer := if (String.length str2 <? String.length str1)%nat then str1 else str2 in
  let shorter := if (String.length str2 <? String.length str1)%nat then str2 else str1 in
  if (String.length longer =? 0)%nat then 1%Q
  else
    let editDistance := levenshteinDistance longer shorter in
    ((inject_Z (Z.of_nat (String.length longer)) - inject_Z (Z.of_nat editDistance))
     / inject_Z (Z.of_nat (String.length longer)))%Q.

(** One turn of the loop of [findSimilarUrl] over the pair
    [(maxSimilarity, mostSimilar)]. *)
Definition similarStep (targetPath : string) (st : Q * option string) (candidateUrl : string)
  : Q * option string :=
  match newURL candidateUrl with
  | Some c =>
      let similarity := calculateSimilarity targetPath (pathname c) in
      if JS.Qltb (fst st) similarity && JS.Qltb (1 # 2) similarity
      then (similarity, Some candidateUrl)
      else st
  | None => st
  end.

(** What the loop knows after the candidates [seen]. *)
Definition similarInv (targetPath : string) (seen : list string)
    (st : Q * option string) : Prop :=
  match snd st with
  | None =>
      fst st = 0%Q
      /\ forall x c, In x seen -> newURL x = Some c ->
                     (calculateSimilarity targetPath (pathname c) <= 1 # 2)%Q
  | Some s =>
      In s seen
      /\ (exists c, newURL s = Some c /\ fst st = calculateSimilarity targetPath (pathname c))
      /\ (1 # 2 < fst st)%Q
      /\ forall x c, In x seen -> newURL x = Some c ->
                     (calculateSimilarity targetPath (pathname c) <= fst st)%Q
  end.

Definition findSimilarUrl (targetUrl : string) (candidateUrls : list string) : option string :=
  match candidateUrls with
  | [] => None
  | _ =>
      match newURL targetUrl with
      | Some t => snd (fold_left (similarStep (pathname t)) candidateUrls (0%Q, None))
      | None => None
      end
  end.

Record MatchEntry : Type := mkMatchEntry {
  oldUrl : string;
  newUrl : string;
  matchType : string
}.

Record MissingEntry : Type := mkMissingEntry {
  missing_oldUrl : string;
  suggestion : option string
}.

Record NewEntry : Type := mkNewEntry {
  new_newUrl : string;
  new_type : string
}.

(** [summary.matchRate] is the number [0] or the string [toFixed] returns. *)
Inductive Rate : Type :=
| RateNumber (q : Q)
| RateString (s : string).

Record Summary : Type := mkSummary {
  totalOldUrls : nat;
  totalNewUrls : nat;
  matchedCount : nat;
  missingCount : nat;
  newCount : nat;
  redirectedCount : nat;
  matchRate : Rate
}.

Record Results : Type := mkResults {
  matched : list MatchEntry;
  missing : list MissingEntry;
  new : list NewEntry;
  redirected : list MatchEntry;
  summary : Summary
}.

(** The three arrays the first loop pushes to. *)
Record Buckets : Type := mkBuckets {
  b_matched : list MatchEntry;
  b_redirected : list MatchEntry;
  b_missing : list MissingEntry
}.

Definition directMatch (originalOld : string) : MatchEntry :=
  {| oldUrl := originalOld; newUrl := originalOld; matchType := "direct" |}.

Definition mappedMatch (originalOld mappedUrl : string) : MatchEntry :=
  {| oldUrl := originalOld; newUrl := mappedUrl; matchType := "mapped" |}.

Definition pushMatched (results : Buckets) (e : MatchEntry) : Buckets :=
  {| b_matched := b_matched results ++ [e];
     b_redirected := b_redirected results;
     b_missing := b_missing results |}.

Definition pushRedirected (results : Buckets) (e : MatchEntry) : Buckets :=
  {| b_matched := b_matched results;
     b_redirected := b_redirected results ++ [e];
     b_missing := b_missing results |}.

Definition pushMissing (results : Buckets) (e : MissingEntry) : Buckets :=
  {| b_matched := b_matched results;
     b_redirected := b_redirected results;
     b_missing := b_missing results ++ [e] |}.

(** The body of [for (const [normalizedOld, originalOld] of normalizedOldUrls)]. *)
Definition classifyOld (normalizedNewUrls : JS.Set_) (redirectMap : option (JS.Map string))
    (results : Buckets) (entry : string * string) : Buckets :=
  let normalizedOld := fst entry in
  let originalOld := snd entry in
  let '(results, isMatched) :=
    if JS.Set_has normalizedNewUrls normalizedOld then
      (pushMatched results (directMatch originalOld), true)
    else
      match redirectMap with
      | Some redirects =>
          match JS.Map_get redirects originalOld with
          | Some mappedUrl =>
              let normalizedMapped := normalizeUrl mappedUrl in
              if JS.Set_has normalizedNewUrls normalizedMapped then
                (pushRedirected results (mappedMatch originalOld mappedUrl), true)
              else (results, false)
          | None => (results, false)
          end
      | None => (results, false)
      end in
  if negb isMatched then
    pushMissing results
      {| missing_oldUrl := originalOld;
         suggestion := findSimilarUrl normalizedOld normalizedNewUrls |}
  else results.

(** The bucket an entry of [normalizedOldUrls] ends up in. *)
Inductive Verdict : Type :=
| Direct
| Mapped (mappedUrl : string)
| Missing.

Definition verdict (normalizedNewUrls : JS.Set_) (redirectMap : option (JS.Map string))
    (entry : string * string) : Verdict :=
  if JS.Set_has normalizedNewUrls (fst entry) then Direct
  else
    match redirectMap with
    | Some redirects =>
        match JS.Map_get redirects (snd entry) with
        | Some mappedUrl =>
            if JS.Set_has normalizedNewUrls (normalizeUrl mappedUrl)
            then Mapped mappedUrl else Missing
        | None => Missing
        end
    | None => Missing
    end.

Definition matchedOf (normalizedNewUrls : JS.Set_) (redirectMap : option (JS.Map string))
    (m : JS.Map string) : list MatchEntry :=
  flat_map (fun entry =>
              match verdict normalizedNewUrls redirectMap entry with
              | Direct => [directMatch (snd entry)]
              | _ => []
              end) m.

Definition redirectedOf (normalizedNewUrls : JS.Set_) (redirectMap : option (JS.Map string))
    (m : JS.Map string) : list MatchEntry :=
  flat_map (fun entry =>
              match verdict normalizedNewUrls redirectMap entry with
              | Mapped mappedUrl => [mappedMatch (snd entry) mappedUrl]
              | _ => []
              end) m.

Definition missingOf (normalizedNewUrls : JS.Set_) (redirectMap : option (JS.Map string))
    (m : JS.Map string) : list MissingEntry :=
  flat_map (fun entry =>
              match verdict normalizedNewUrls redirectMap entry with
              | Missing => [{| missing_oldUrl := snd entry;
                               suggestion := findSimilarUrl (fst entry) normalizedNewUrls |}]
              | _ => []
              end) m.

(** The body of [for (const newUrl of newUrls)]. *)
Definition isNewContent (normalizedOldUrls : JS.Map string) (redirectMap : option (JS.Map string))
    (newUrl : string) : bool :=
  let normalized := normalizeUrl newUrl in
  if negb (JS.Map_has normalizedOldUrls normalized) then
    let isRedirectTarget :=
      match redirectMap with
      | Some redirects =>
          existsb (fun mappedUrl => normalizeUrl mappedUrl =? normalized) (JS.Map_values redirects)
      | None => false
      end in
    negb isRedirectTarget
  else false.

Definition compareUrls (oldUrls newUrls : list string) (redirectMap : option (JS.Map string))
  : Results :=
  let normalizedOldUrls := JS.Map_from (map (fun url => (normalizeUrl url, url)) oldUrls) in
  let normalizedNewUrls := JS.Set_from (map normalizeUrl newUrls) in
  let buckets :=
    fold_left (classifyOld normalizedNewUrls redirectMap) normalizedOldUrls
              {| b_matched := []; b_redirected := []; b_missing := [] |} in
  let newOnly :=
    map (fun newUrl => {| new_newUrl := newUrl; new_type := "new_content" |})
        (filter (isNewContent normalizedOldUrls redirectMap) newUrls) in
  {| matched := b_matched buckets;
     missing := b_missing buckets;
     new := newOnly;
     redirected := b_redirected buckets;
     summary :=
       {| totalOldUrls := List.length oldUrls;
          totalNewUrls := List.length newUrls;
          matchedCount := List.length (b_matched buckets);
          missingCount := List.length (b_missing buckets);
          newCount := List.length newOnly;
          redirectedCount := List.length (b_redirected buckets);
          matchRate :=
            if (0 <? List.length oldUrls)%nat
            then RateString
                   (JS.toFixed
                      (JS.mul (JS.div (inject_Z (Z.of_nat (List.length (b_matched buckets)
                                                           + List.length (b_redirected buckets))))
                                      (inject_Z (Z.of_nat (List.length oldUrls))))
                              (inject_Z 100)) 2)
            else RateNumber 0 |} |}.

End Services.

(** ** services/statusChecker.js *)

Module StatusChecker.

(** A probe result: the fields the retry loop and the categorisation read,
    and the URLs. *)
Record ProbeResult : Type := mkProbeResult {
  url : string;
  statusCode : Z;
  statusText : string;
  responseTime : Z;
  finalUrl : string;
  isRedirect : bool
}.

(** The options [checkMultipleUrls] reads, [onProgress] apart.  [PQueue]
    takes a [concurrency] of at least 1 and throws on anything else. *)
Record Options : Type := mkOptions {
  concurrency : positive;
  delay : Z;
  retryAttempts : Z
}.

Definition defaultOptions : Options :=
  {| concurrency := 5; delay := 100; retryAttempts := 3 |}.

(** What a task does while it retries: a call of [checkUrlStatus] with the
    result it gave, or a [setTimeout] of so many milliseconds. *)
Inductive Event : Type :=
| Probe (result : ProbeResult)
| Sleep (ms : Z).

Definition probes (log : list Event) : list ProbeResult :=
  flat_map (fun e => match e with Probe r => [r] | Sleep _ => [] end) log.

Definition sleeps (log : list Event) : list Z :=
  flat_map (fun e => match e with Probe _ => [] | Sleep ms => [ms] end) log.

(** The test that sends the loop round again. *)
Definition retryable (result : ProbeResult) : bool :=
  (statusCode result =? 0)%Z || (500 <=? statusCode result)%Z.

(** The log of a retry loop that probed [results] in turn and slept
    [delay * k] before its [k]-th retry, [k] counted from [attempt]. *)
Fixpoint expectedLog (delay : Z) (attempt : Z) (results : list ProbeResult)
  : list Event :=
  match results with
  | [] => []
  | r :: rest =>
      Probe r ::
      match rest with
      | [] => []
      | _ :: _ => Sleep (delay * attempt) :: expectedLog delay (attempt + 1) rest
      end
  end.

(** [checkMultipleUrls] hands the queue one task per URL.  A task keeps its
    [result] and [attempts] to itself, and all it shares with the others is
    the array it pushes its result to: what a task observes and records
    depends on the answers to its own requests only.  The network is any
    function from the task (its place in the queue), the number of the
    request among those of the task, and the URL, to the answer.

    The queue starts the tasks in the order they were added, [concurrency]
    of them at once, and the next one each time a task is over.  A task
    pushes its result, calls the progress callback, waits [delay] and is
    over; so the task that takes its place can push before or after the
    tasks that were running beside it.  Which of the running tasks pushes
    next is up to the network and the timers: [finish] tells it, push by
    push, as a place among the running tasks (taken modulo their number).
    The progress callback is not modelled. *)

Section Batch.
(** [checkUrlStatus]: the answer to request [attempt] of task [index]. *)
Variable checkUrlStatus : nat -> nat -> string -> ProbeResult.
Variable options : Options.
Variable finish : nat -> nat.

(** The state of one task's [while] loop, and its log so far. *)
Record LoopState : Type := mkLoopState {
  result : option ProbeResult;
  attempts : Z;
  calls : nat;
  log : list Event
}.

Fixpoint retryLoop (fuel : nat) (index : nat) (url : string) (st : LoopState)
  : option LoopState :=
  match fuel with
  | O => None
  | S fuel' =>
      if (attempts st <? retryAttempts options)%Z then
        let result := checkUrlStatus index (calls st) url in
        let st := {| result := Some result; attempts := attempts st;
                     calls := S (calls st); log := log st ++ [Probe result] |} in
        if retryable result then
          let attempts := (attempts st + 1)%Z in
          if (attempts <? retryAttempts options)%Z then
            retryLoop fuel' index url
              {| result := Some result; attempts := attempts; calls := calls st;
                 log := log st ++ [Sleep (delay options * attempts)] |}
          else Some {| result := Some result; attempts := attempts;
                       calls := calls st; log := log st |}
        else Some st
      else Some st
  end.

(** What one task leaves behind: the result it pushes, and the log of its
    retry loop. *)
Record Run : Type := mkRun {
  run_url : string;
  run_result : option ProbeResult;
  run_log : list Event
}.

(** The task [queue.add] is given for the URL at place [index], up to its
    push. *)
Definition task (fuel : nat) (index : nat) (url : string) : option Run :=
  match retryLoop fuel index url {| result := None; attempts := 0; calls := 0; log := [] |} with
  | Some st => Some {| run_url := url; run_result := result st; run_log := log st |}
  | None => None
  end.

(** The tasks of [urls], the first of them at place [index]. *)
Fixpoint tasks (fuel : nat) (index : nat) (urls : list string) : option (list Run) :=
  match urls with
  | [] => Some []
  | url :: rest =>
      match task fuel index url, tasks fuel (S index) rest with
      | Some run, Some runs => Some (run :: runs)
      | _, _ => None
      end
  end.

(** The tasks in the order of their pushes: [n] pushes are still to come,
    [step] have been made, [running] are the tasks under way in the order
    they started, [waiting] those the queue has not started yet. *)
Fixpoint pushOrder (n step : nat) (running waiting : list Run) : list Run :=
  match n with
  | O => []
  | S n' =>
      match running with
      | [] => []
      | first :: _ =>
          let chosen := (finish step mod List.length running)%nat in
          nth chosen running first
          :: pushOrder n' (S step)
               (firstn chosen running ++ skipn (S chosen) running ++ firstn 1 waiting)
               (skipn 1 waiting)
      end
  end.

Record Batch : Type := mkBatch {
  results : list (option ProbeResult);
  completed : nat;
  requests : nat;
  runs : list Run
}.

(** [checkMultipleUrls]: [results] in the order of the pushes, [runs] in the
    order of the queue, [requests] the calls of [checkUrlStatus] made. *)
Definition checkMultipleUrls (fuel : nat) (urls : list string) : option Batch :=
  match tasks fuel 0 urls with
  | Some runs =>
      let width := Pos.to_nat (concurrency options) in
      Some {| results :=
                map run_result
                    (pushOrder (List.length runs) 0 (firstn width runs) (skipn width runs));
              completed := List.length runs;
              requests := List.length (flat_map (fun run => probes (run_log run)) runs);
              runs := runs |}
  | None => None
  end.

(** What the retry policy asks of the task at place [index], [attempted]
    being the results it observed in turn: its log is probe, sleep, probe,
    ..., probe; the results are the answers of [checkUrlStatus] to the
    requests of this task for its URL; there is at least one when
    [retryAttempts] is positive, and there are at most [retryAttempts]; every
    result but the last had status 0 or at least 500, none of them a 4xx;
    when the last one has status 0 or at least 500 too, the attempts are
    used up; the [k]-th sleep lasts [delay * k], and there is no sleep at all
    when [retryAttempts] is 1; the result the task records is the last one
    observed. *)
Definition followsPolicy (index : nat) (run : Run) : Prop :=
  let attempted := probes (run_log run) in
  let n := List.length attempted in
  run_log run = expectedLog (delay options) 1 attempted
  /\ attempted = map (fun attempt => checkUrlStatus index attempt (run_url run)) (seq 0 n)
  /\ ((0 < retryAttempts options)%Z -> (0 < n)%nat)
  /\ (n <= Z.to_nat (retryAttempts options))%nat
  /\ Forall (fun r => statusCode r = 0%Z \/ (500 <= statusCode r)%Z) (removelast attempted)
  /\ Forall (fun r => ~ (400 <= statusCode r < 500)%Z) (removelast attempted)
  /\ (forall r, List.last (map Some attempted) None = Some r ->
                statusCode r = 0%Z \/ (500 <= statusCode r)%Z ->
                (retryAttempts options <= Z.of_nat n)%Z)
  /\ sleeps (run_log run)
     = map (fun k => (delay options * Z.of_nat k)%Z) (seq 1 (n - 1))
  /\ (retryAttempts options = 1%Z -> sleeps (run_log run) = [])
  /\ run_result run = List.last (map Some attempted) None.

End Batch.

Record CategorySummary : Type := mkCategorySummary {
  total : nat;
  okCount : nat;
  redirectCount : nat;
  clientErrorCount : nat;
  serverErrorCount : nat;
  networkErrorCount : nat;
  avgResponseTime : Z
}.

Record Categorized : Type := mkCategorized {
  ok : list ProbeResult;
  redirects : list ProbeResult;
  clientErrors : list ProbeResult;
  serverErrors : list ProbeResult;
  networkErrors : list ProbeResult;
  summary : CategorySummary
}.

Definition bumpOk (c : Categorized) (r : ProbeResult) : Categorized :=
  let s := summary c in
  {| ok := ok c ++ [r]; redirects := redirects c; clientErrors := clientErrors c;
     serverErrors := serverErrors c; networkErrors := networkErrors c;
     summary := {| total := total s; okCount := S (okCount s);
                   redirectCount := redirectCount s; clientErrorCount := clientErrorCount s;
                   serverErrorCount := serverErrorCount s;
                   networkErrorCount := networkErrorCount s;
                   avgResponseTime := avgResponseTime s |} |}.

Definition bumpRedirect (c : Categorized) (r : ProbeResult) : Categorized :=
  let s := summary c in
  {| ok := ok c; redirects := redirects c ++ [r]; clientErrors := clientErrors c;
     serverErrors := serverErrors c; networkErrors := networkErrors c;
     summary := {| total := total s; okCount := okCount s;
                   redirectCount := S (redirectCount s); clientErrorCount := clientErrorCount s;
                   serverErrorCount := serverErrorCount s;
                   networkErrorCount := networkErrorCount s;
                   avgResponseTime := avgResponseTime s |} |}.

Definition bumpClientError (c : Categorized) (r : ProbeResult) : Categorized :=
  let s := summary c in
  {| ok := ok c; redirects := redirects c; clientErrors := clientErrors c ++ [r];
     serverErrors := serverErrors c; networkErrors := networkErrors c;
     summary := {| total := total s; okCount := okCount s;
                   redirectCount := redirectCount s; clientErrorCount := S (clientErrorCount s);
                   serverErrorCount := serverErrorCount s;
                   networkErrorCount := networkErrorCount s;
                   avgResponseTime := avgResponseTime s |} |}.

Definition bumpServerError (c : Categorized) (r : ProbeResult) : Categorized :=
  let s := summary c in
  {| ok := ok c; redirects := redirects c; clientErrors := clientErrors c;
     serverErrors := serverErrors c ++ [r]; networkErrors := networkErrors c;
     summary := {| total := total s; okCount := okCount s;
                   redirectCount := redirectCount s; clientErrorCount := clientErrorCount s;
                   serverErrorCount := S (serverErrorCount s);
                   networkErrorCount := networkErrorCount s;
                   avgResponseTime := avgResponseTime s |} |}.

Definition bumpNetworkError (c : Categorized) (r : ProbeResult) : Categorized :=
  let s := summary c in
  {| ok := ok c; redirects := redirects c; clientErrors := clientErrors c;
     serverErrors := serverErrors c; networkErrors := networkErrors c ++ [r];
     summary := {| total := total s; okCount := okCount s;
                   redirectCount := redirectCount s; clientErrorCount := clientErrorCount s;
                   serverErrorCount := serverErrorCount s;
                   networkErrorCount := S (networkErrorCount s);
                   avgResponseTime := avgResponseTime s |} |}.

(** The body of [for (const result of results)]. *)
Definition categorizeStep (st : Categorized * Z) (result : ProbeResult) : Categorized * Z :=
  let categorized := fst st in
  let totalResponseTime := (snd st + responseTime result)%Z in
  (if (statusCode result =? 200)%Z then bumpOk categorized result
   else if (300 <=? statusCode result)%Z && (statusCode result <? 400)%Z
        then bumpRedirect categorized result
   else if (400 <=? statusCode result)%Z && (statusCode result <? 500)%Z
        then bumpClientError categorized result
   else if (500 <=? statusCode result)%Z then bumpServerError categorized result
   else bumpNetworkError categorized result,
   totalResponseTime).

Definition categorizeResults (results : list ProbeResult) : Categorized :=
  let initial :=
    {| ok := []; redirects := []; clientErrors := []; serverErrors := [];
       networkErrors := [];
       summary := {| total := List.length results; okCount := 0; redirectCount := 0;
                     clientErrorCount := 0; serverErrorCount := 0;
                     networkErrorCount := 0; avgResponseTime := 0 |} |} in
  let '(categorized, totalResponseTime) := fold_left categorizeStep results (initial, 0%Z) in
  let s := summary categorized in
  {| ok := ok categorized; redirects := redirects categorized;
     clientErrors := clientErrors categorized; serverErrors := serverErrors categorized;
     networkErrors := networkErrors categorized;
     summary := {| total := total s; okCount := okCount s;
                   redirectCount := redirectCount s; clientErrorCount := clientErrorCount s;
                   serverErrorCount := serverErrorCount s;
                   networkErrorCount := networkErrorCount s;
                   avgResponseTime :=
                     if (0 <? List.length results)%nat
                     then JS.roundHalfUp (inject_Z totalResponseTime
                                          / inject_Z (Z.of_nat (List.length results)))
                     else 0%Z |} |}.

(** The five tests of the categorisation, each on its own. *)
Definition isOk (r : ProbeResult) : bool := (statusCode r =? 200)%Z.
Definition isRedirection (r : ProbeResult) : bool :=
  (300 <=? statusCode r)%Z && (statusCode r <? 400)%Z.
Definition isClientError (r : ProbeResult) : bool :=
  (400 <=? statusCode r)%Z && (statusCode r <? 500)%Z.
Definition isServerError (r : ProbeResult) : bool := (500 <=? statusCode r)%Z.
(** Whatever is left: status 0, and also every status below 300 other than 200. *)
Definition isLeftOver (r : ProbeResult) : bool :=
  negb (statusCode r =? 200)%Z && (statusCode r <? 300)%Z.

End StatusChecker.

(** ** services/seoComparisonService.js

    The file carries its own copy of [levenshteinDistance], the same text as
    the one in urlComparisonService.js. *)

Module SeoComparison.

Definition calculateTextSimilarity (str1 str2 : string) : Q :=
  if (str1 =? "") || (str2 =? "") then 0%Q
  else if str1 =? str2 then 1%Q
  else
    let longer := if (String.length str2 <? String.length str1)%nat then str1 else str2 in
    let shorter := if (String.length str2 <? String.length str1)%nat then str2 else str1 in
    if (String.length longer =? 0)%nat then 1%Q
    else
      let editDistance := levenshteinDistance longer shorter in
      ((inject_Z (Z.of_nat (String.length longer)) - inject_Z (Z.of_nat editDistance))
       / inject_Z (Z.of_nat (String.length longer)))%Q.

Record Comparison : Type := mkComparison {
  match_ : bool;
  similarity : Q;
  issue : option string
}.

(** The string behind a truthy value. *)
Definition text (s : option string) : string :=
  match s with Some s => s | None => "" end.

(** [Math.round(similarity * 100) / 100] *)
Definition round2 (similarity : Q) : Q :=
  (inject_Z (JS.roundHalfUp (similarity * inject_Z 100)) / inject_Z 100)%Q.

Definition lengthDiff (a b : string) : Z :=
  Z.abs (Z.of_nat (String.length a) - Z.of_nat (String.length b)).

Definition compareTitles (oldTitle newTitle : option string) : Comparison :=
  if JS.falsy oldTitle && JS.falsy newTitle then
    {| match_ := true; similarity := 1; issue := None |}
  else if JS.falsy oldTitle then
    {| match_ := false; similarity := 0; issue := Some "Old page missing title tag" |}
  else if JS.falsy newTitle then
    {| match_ := false; similarity := 0; issue := Some "New page missing title tag" |}
  else
    let similarity :=
      calculateTextSimilarity (JS.toLowerCase (text oldTitle)) (JS.toLowerCase (text newTitle)) in
    let lengthDiff := lengthDiff (text oldTitle) (text newTitle) in
    let issue :=
      if JS.Qltb similarity (1 # 2) then Some "Title significantly changed"
      else if (20 <? lengthDiff)%Z then Some "Title length differs significantly"
      else if JS.Qltb similarity (8 # 10) then Some "Title partially changed"
      else None in
    {| match_ := Qle_bool (8 # 10) similarity; similarity := round2 similarity; issue := issue |}.

Definition compareDescriptions (oldDesc newDesc : option string) : Comparison :=
  if JS.falsy oldDesc && JS.falsy newDesc then
    {| match_ := true; similarity := 1; issue := None |}
  else if JS.falsy oldDesc then
    {| match_ := false; similarity := 0; issue := Some "Old page missing meta description" |}
  else if JS.falsy newDesc then
    {| match_ := false; similarity := 0; issue := Some "New page missing meta description" |}
  else
    let similarity :=
      calculateTextSimilarity (JS.toLowerCase (text oldDesc)) (JS.toLowerCase (text newDesc)) in
    let lengthDiff := lengthDiff (text oldDesc) (text newDesc) in
    let issue :=
      if JS.Qltb similarity (1 # 2) then Some "Description significantly changed"
      else if (30 <? lengthDiff)%Z then Some "Description length differs significantly"
      else if JS.Qltb similarity (8 # 10) then Some "Description partially changed"
      else None in
    {| match_ := Qle_bool (8 # 10) similarity; similarity := round2 similarity; issue := issue |}.

End SeoComparison.

(** ** Worlds and logs the properties below are stated with *)

(** A sitemap index that lists itself. *)
Definition selfReferencing : World :=
  fun isFile filePath =>
    if filePath =? "https://site.example/sitemap.xml"
    then inr (SitemapIndex [{| sitemap_loc := Some "https://site.example/sitemap.xml" |}])
    else inl "Request failed with status code 404".

Definition pageEntry : UrlElement :=
  {| url_loc := Some "https://site.example/page"; url_lastmod := None;
     url_changefreq := None; url_priority := None |}.

(** Six sitemap indices in a chain, and a sitemap with one page at the end. *)
Definition sixDeep : World :=
  fun isFile filePath =>
    if filePath =? "sitemap.xml"
    then inr (SitemapIndex [{| sitemap_loc := Some "https://site.example/1.xml" |}])
    else if filePath =? "https://site.example/1.xml"
    then inr (SitemapIndex [{| sitemap_loc := Some "https://site.example/2.xml" |}])
    else if filePath =? "https://site.example/2.xml"
    then inr (SitemapIndex [{| sitemap_loc := Some "https://site.example/3.xml" |}])
    else if filePath =? "https://site.example/3.xml"
    then inr (SitemapIndex [{| sitemap_loc := Some "https://site.example/4.xml" |}])
    else if filePath =? "https://site.example/4.xml"
    then inr (SitemapIndex [{| sitemap_loc := Some "https://site.example/5.xml" |}])
    else if filePath =? "https://site.example/5.xml"
    then inr (SitemapIndex [{| sitemap_loc := Some "https://site.example/6.xml" |}])
    else if filePath =? "https://site.example/6.xml"
    then inr (UrlSet [pageEntry])
    else inl "Request failed with status code 404".

(** A sitemap index that lists the same sitemap twice. *)
Definition listedTwice : World :=
  fun isFile filePath =>
    if filePath =? "sitemap.xml"
    then inr (SitemapIndex [{| sitemap_loc := Some "https://site.example/pages.xml" |};
                            {| sitemap_loc := Some "https://site.example/pages.xml" |}])
    else if filePath =? "https://site.example/pages.xml"
    then inr (UrlSet [pageEntry])
    else inl "Request failed with status code 404".

(** The URLs [prefix0], [prefix1], ..., [n] of them. *)
Definition numbered (prefix : string) (n : nat) : list string :=
  map (fun i => prefix +++ JS.decimal (N.of_nat i)) (seq 0 n).

(** A server that answers every task 500 twice and then 200. *)
Definition answer (code : Z) (url : string) : StatusChecker.ProbeResult :=
  {| StatusChecker.url := url; StatusChecker.statusCode := code;
     StatusChecker.statusText := ""; StatusChecker.responseTime := 10;
     StatusChecker.finalUrl := url; StatusChecker.isRedirect := false |}.

Definition failsTwice (index attempt : nat) (url : string) : StatusChecker.ProbeResult :=
  match attempt with
  | 0%nat | 1%nat => answer 500 url
  | _ => answer 200 url
  end.


(** ** Edit scripts

    What [levenshteinDistance] is documented to compute: the least number of
    single-character insertions, deletions and substitutions that turn one
    string into the other. *)

Definition chars : string -> list ascii := list_ascii_of_string.

(** [Edit n s t]: some script of cost [n] turns [s] into [t]. *)
Inductive Edit : nat -> list ascii -> list ascii -> Prop :=
| Edit_done : Edit 0 [] []
| Edit_keep (c : ascii) (n : nat) (s t : list ascii) :
    Edit n s t -> Edit n (c :: s) (c :: t)
| Edit_substitute (a b : ascii) (n : nat) (s t : list ascii) :
    Edit n s t -> Edit (S n) (a :: s) (b :: t)
| Edit_delete (a : ascii) (n : nat) (s t : list ascii) :
    Edit n s t -> Edit (S n) (a :: s) t
| Edit_insert (b : ascii) (n : nat) (s t : list ascii) :
    Edit n s t -> Edit (S n) s (b :: t).

(** The recurrence the matrix is filled with, read as a function of the two
    prefixes (last character first). *)
Fixpoint lev (s : list ascii) : list ascii -> nat :=
  fix inner (t : list ascii) : nat :=
    match s, t with
    | [], _ => List.length t
    | _, [] => List.length s
    | a :: s', b :: t' =>
        if Ascii.eqb a b then lev s' t'
        else Nat.min (Nat.min (lev s' t' + 1) (inner t' + 1)) (lev s' t + 1)
    end.

(** The prefixes of [v ++ rest] longer than [v], each last character first. *)
Fixpoint exts (v : list ascii) (rest : string) : list (list ascii) :=
  match rest with
  | "" => []
  | String c rest' => (c :: v) :: exts (c :: v) rest'
  end.

(** [(longer.length - editDistance) / longer.length] *)
Definition ratioOf (L d : nat) : Q :=
  ((inject_Z (Z.of_nat L) - inject_Z (Z.of_nat d)) / inject_Z (Z.of_nat L))%Q.

(** ** services/urlComparisonService.js: URL patterns

    [patterns] is a plain object used as a map from pattern to count.  Its
    keys all begin with a slash, so none is an array index and
    [Object.entries] and [Object.keys] give them in insertion order. *)

Module Patterns.

Record PatternChange : Type := mkPatternChange {
  oldPattern : string;
  newPattern : string;
  oldCount : nat;
  newCount : option nat;  (* [newPatterns[similarNewPattern]] *)
  confidence : Q
}.

Record PatternAnalysis : Type := mkPatternAnalysis {
  changes : list PatternChange;
  oldPatterns : JS.Map nat;
  newPatterns : JS.Map nat
}.

(** [patterns[p] || 0] *)
Definition stored (m : JS.Map nat) (p : string) : nat :=
  match JS.Map_get m p with Some n => n | None => 0 end.

(** [patterns[pattern] = (patterns[pattern] || 0) + 1] *)
Definition countPattern (patterns : JS.Map nat) (pattern : string) : JS.Map nat :=
  JS.Map_set patterns pattern (stored patterns pattern + 1)%nat.

(** One turn of the loop of [findSimilarPattern] over the pair
    [(maxSimilarity, mostSimilar)]. *)
Definition patternStep (targetPattern : string) (st : Q * option string) (pattern : string)
  : Q * option string :=
  let similarity := calculateSimilarity targetPattern pattern in
  if JS.Qltb (fst st) similarity then (similarity, Some pattern) else st.

Definition findSimilarPattern (targetPattern : string) (patterns : list string) : option string :=
  let st := fold_left (patternStep targetPattern) patterns (0%Q, None) in
  if JS.Qltb (6 # 10) (fst st) then snd st else None.

(** What the loop of [findSimilarPattern] knows after the patterns [seen]:
    [maxSimilarity] bounds their similarities, and [mostSimilar] is the first
    of them that reaches it. *)
Definition patternInv (target : string) (seen : list string) (st : Q * option string) : Prop :=
  (forall x, In x seen -> (calculateSimilarity target x <= fst st)%Q)
  /\ match snd st with
     | None => fst st = 0%Q
     | Some p =>
         (exists before after,
             seen = before ++ p :: after
             /\ forall x, In x before ->
                  (calculateSimilarity target x < calculateSimilarity target p)%Q)
         /\ fst st = calculateSimilarity target p /\ (0 < fst st)%Q
     end.

Section WithURL.
Variable newURL : string -> option URL.

(** The pattern a URL counts for: its first non-empty path segment between
    slashes; none when the URL does not parse or has no such segment. *)
Definition patternOf (url : string) : option string :=
  match newURL url with
  | Some urlObj =>
      let pathParts :=
        filter (fun part => (0 <? String.length part)%nat) (JS.splitOn "/" (pathname urlObj)) in
      match pathParts with
      | first :: _ => Some ("/" +++ first +++ "/")
      | [] => None
      end
  | None => None
  end.

(** The body of [for (const url of urls)]. *)
Definition extractStep (patterns : JS.Map nat) (url : string) : JS.Map nat :=
  match patternOf url with
  | Some pattern => countPattern patterns pattern
  | None => patterns
  end.

Definition extractPatterns (urls : list string) : JS.Map nat :=
  fold_left extractStep urls [].

(** The number of URLs of [urls] that count for [pattern]. *)
Definition patternCount (pattern : string) (urls : list string) : nat :=
  List.length (filter (fun url => match patternOf url with
                                  | Some p => p =? pattern
                                  | None => false
                                  end) urls).

(** The body of [for (const [oldPattern, oldCount] of Object.entries(oldPatterns))]. *)
Definition changeOf (newPatterns : JS.Map nat) (entry : string * nat) : list PatternChange :=
  let oldPattern := fst entry in
  let oldCount := snd entry in
  match findSimilarPattern oldPattern (map fst newPatterns) with
  | Some similarNewPattern =>
      if negb (similarNewPattern =? "") && negb (similarNewPattern =? oldPattern)
      then [{| oldPattern := oldPattern;
               newPattern := similarNewPattern;
               oldCount := oldCount;
               newCount := JS.Map_get newPatterns similarNewPattern;
               confidence := calculateSimilarity oldPattern similarNewPattern |}]
      else []
  | None => []
  end.

Definition detectPatternChanges (oldUrls newUrls : list string) : PatternAnalysis :=
  let oldPatterns := extractPatterns oldUrls in
  let newPatterns := extractPatterns newUrls in
  {| changes := flat_map (changeOf newPatterns) oldPatterns;
     oldPatterns := oldPatterns;
     newPatterns := newPatterns |}.

End WithURL.

End Patterns.

(** ** services/sitemapParser.js: what an index collects *)

Section Collected.
Variable world : World.

(** What a sitemap index collects from one of its references. *)
Definition collected (fuel : nat) (sitemap : SitemapRef) : list SitemapEntry :=
  match sitemap_loc sitemap with
  | Some sitemapUrl =>
      match parseSitemap world fuel sitemapUrl false with
      | Returned nestedUrls => nestedUrls
      | _ => []
      end
  | None => []
  end.

End Collected.

(** ** services/exportService.js: the URL comparison CSV *)

Module ExportService.

Definition dquote : ascii := ascii_of_nat 34.
Definition newline : ascii := ascii_of_nat 10.

(** The [replace] of [escapeCSV]: every double quote becomes two. *)
Fixpoint doubleQuotes (str : string) : string :=
  match str with
  | "" => ""
  | String c str' =>
      if Ascii.eqb c dquote then String dquote (String dquote (doubleQuotes str'))
      else String c (doubleQuotes str')
  end.

(** The test of [escapeCSV]: the string includes a comma, a double quote or
    a line feed. *)
Definition needsQuotes (str : string) : bool :=
  JS.anyChar (Ascii.eqb ",") str || JS.anyChar (Ascii.eqb dquote) str
  || JS.anyChar (Ascii.eqb newline) str.

(** [escapeCSV], on a field that is a string, [null] or [undefined]. *)
Definition escapeCSV (field : option string) : string :=
  match field with
  | None => ""
  | Some str =>
      if needsQuotes str then String dquote (doubleQuotes str +++ String dquote "")
      else str
  end.

(** [row.map(escapeCSV).join(',')] *)
Definition line (row : list (option string)) : string :=
  String.concat "," (map escapeCSV row).

(** An entry of [urlComparison.newOnly]. *)
Record NewOnly : Type := mkNewOnly { no_url : option string }.

(** The object handed to [generateURLComparisonCSV]: each of the four arrays
    may be absent.  The entries of [matched], [redirected] and [missing] are
    those [compareUrls] builds. *)
Record UrlComparison : Type := mkUrlComparison {
  uc_matched : option (list MatchEntry);
  uc_redirected : option (list MatchEntry);
  uc_missing : option (list MissingEntry);
  uc_newOnly : option (list NewOnly)
}.

(** [array?.forEach(...)]: nothing to visit when the array is absent. *)
Definition each {A} (array : option (list A)) : list A :=
  match array with Some l => l | None => [] end.

(** [value || ''] *)
Definition orEmpty (value : option string) : string :=
  match value with Some s => s | None => "" end.

Definition headers : list (option string) :=
  [Some "Old URL"; Some "New URL"; Some "Match Type"; Some "Status"; Some "Notes"].

(** The rows pushed, in order. *)
Definition rowsOf (urlComparison : UrlComparison) : list (list (option string)) :=
  map (fun m => [Some (oldUrl m); Some (newUrl m); Some "Direct Match"; Some "OK"; Some ""])
      (each (uc_matched urlComparison))
  ++ map (fun r => [Some (oldUrl r); Some (newUrl r); Some "Redirected"; Some "Mapped";
                    Some "Via redirect mapping"])
         (each (uc_redirected urlComparison))
  ++ map (fun m => [Some (missing_oldUrl m); Some (orEmpty (suggestion m)); Some "Missing";
                    Some "Not Found"; Some "Potential 404"])
         (each (uc_missing urlComparison))
  ++ map (fun n => [Some ""; no_url n; Some "New Content"; Some "New"; Some "Only in new site"])
         (each (uc_newOnly urlComparison)).

Definition generateURLComparisonCSV (urlComparison : option UrlComparison) : string :=
  match urlComparison with
  | None => ""
  | Some urlComparison =>
      String.concat (String newline "")
        ("# URL Comparison Report" :: line headers :: map line (rowsOf urlComparison))
  end.

(** The object [compareUrls] returns, as [generateURLComparisonCSV] reads it:
    its keys are [matched], [missing], [new], [redirected] and [summary], so
    [urlComparison.newOnly] is [undefined]. *)
Definition reportOf (results : Results) : UrlComparison :=
  {| uc_matched := Some (matched results);
     uc_redirected := Some (redirected results);
     uc_missing := Some (missing results);
     uc_newOnly := None |}.

(** *** The records of the text

    The text taken apart the way it was put together: a comma ends a field
    and a line feed ends a record, except between quotes; a quote opens a
    quoted field, the next single quote closes it, and two quotes inside it
    stand for one.  Every other character is data, a carriage return too, and
    no text is turned down: this is not the reader of RFC 4180, which comes
    next.  The records come with the one being read first, its fields
    likewise. *)

Definition pushChar (c : ascii) (records : list (list string)) : list (list string) :=
  match records with
  | (field :: fields) :: records' => (String c field :: fields) :: records'
  | [] :: records' => [String c ""] :: records'
  | [] => [[String c ""]]
  end.

Definition newField (records : list (list string)) : list (list string) :=
  match records with
  | fields :: records' => ("" :: fields) :: records'
  | [] => [[""]]
  end.

Definition newRecord (records : list (list string)) : list (list string) :=
  [""] :: records.

Fixpoint readFrom (quoted : bool) (s : string) : list (list string) :=
  match s with
  | "" => [[""]]
  | String c s' =>
      if quoted then
        if Ascii.eqb c dquote then
          match s' with
          | String c' s'' =>
              if Ascii.eqb c' dquote then pushChar dquote (readFrom true s'')
              else readFrom false s'
          | "" => [[""]]
          end
        else pushChar c (readFrom true s')
      else if Ascii.eqb c dquote then readFrom true s'
      else if Ascii.eqb c "," then newField (readFrom false s')
      else if Ascii.eqb c newline then newRecord (readFrom false s')
      else pushChar c (readFrom false s')
  end.

(** [s] put in front of the field being read. *)
Fixpoint pushStr (s : string) (records : list (list string)) : list (list string) :=
  match s with
  | "" => records
  | String c s' => pushChar c (pushStr s' records)
  end.

Definition readCSV (text : string) : list (list string) := readFrom false text.

(** Where a field may end: at the end of the text, or before a comma or a
    line feed. *)
Definition fieldEnd (rest : string) : Prop :=
  match rest with
  | "" => True
  | String c _ => c = ","%char \/ c = newline
  end.

(** *** Reading CSV the way RFC 4180 writes it

    A reader that keeps to the grammar of RFC 4180: a record ends at a line
    break, which is CR LF or a lone LF, and the last record may do without
    one; a field is either quoted, and then holds any character, two quotes
    standing for one, or it is plain, and then holds no comma, no quote, no
    carriage return and no line feed.  The reader gives up ([None]) on a
    quote inside a plain field, on a carriage return outside quotes that no
    line feed follows, on text between a closing quote and the end of its
    field, and on a quoted field that is never closed. *)

Definition cr : ascii := ascii_of_nat 13.

Inductive Place : Type :=
| FieldStart   (* nothing of the field has been read *)
| InPlain      (* in a plain field, or behind the closing quote of a quoted one *)
| InQuoted.    (* between the quotes of a quoted field *)

Fixpoint parseFrom (place : Place) (s : string) : option (list (list string)) :=
  match s with
  | "" =>
      match place with
      | InQuoted => None
      | _ => Some [[""]]
      end
  | String c s' =>
      match place with
      | InQuoted =>
          if Ascii.eqb c dquote then
            match s' with
            | "" => Some [[""]]
            | String c' s'' =>
                if Ascii.eqb c' dquote
                then option_map (pushChar dquote) (parseFrom InQuoted s'')
                else if Ascii.eqb c' "," || Ascii.eqb c' newline || Ascii.eqb c' cr
                then parseFrom InPlain s'
                else None
            end
          else option_map (pushChar c) (parseFrom InQuoted s')
      | _ =>
          if Ascii.eqb c dquote then
            match place with
            | FieldStart => parseFrom InQuoted s'
            | _ => None
            end
          else if Ascii.eqb c "," then option_map newField (parseFrom FieldStart s')
          else if Ascii.eqb c newline then
            match s' with
            | "" => Some [[""]]
            | _ => option_map newRecord (parseFrom FieldStart s')
            end
          else if Ascii.eqb c cr then
            match s' with
            | String c' s'' =>
                if Ascii.eqb c' newline then
                  match s'' with
                  | "" => Some [[""]]
                  | _ => option_map newRecord (parseFrom FieldStart s'')
                  end
                else None
            | "" => None
            end
          else option_map (pushChar c) (parseFrom InPlain s')
      end
  end.

Definition parseCSV (text : string) : option (list (list string)) :=
  parseFrom FieldStart text.

(** A field with a carriage return that [escapeCSV] leaves without quotes:
    it has no comma, no quote and no line feed. *)
Definition strayCR (str : string) : bool :=
  JS.anyChar (Ascii.eqb cr) str && negb (needsQuotes str).

Definition clean (row : list (option string)) : bool :=
  forallb (fun field => negb (strayCR (orEmpty field))) row.

(** Where a record may end: at the end of the text, or before a line feed
    that more text follows. *)
Definition recordEnd (rest : string) : Prop :=
  rest = "" \/ exists c rest', rest = String newline (String c rest').

Definition afterRecord (rest : string) : option (list (list string)) :=
  match rest with
  | "" => Some []
  | String _ rest' => parseFrom FieldStart rest'
  end.

End ExportService.

(** ** services/statusChecker.js: the whole result, broken links, redirects *)

Module StatusReport.
Import StatusChecker.

(** An entry of [response.request._redirectable._redirects]. *)
Record RedirectEntry : Type := mkRedirect {
  redirect_url : string;
  redirect_statusCode : Z
}.

(** An entry of [redirectChain]. *)
Record Hop : Type := mkHop {
  hop_url : string;
  hop_statusCode : Z;
  hop_index : nat
}.

Record ErrorInfo : Type := mkErrorInfo {
  error_message : string;
  error_code : option string;
  error_type : string
}.

(** What [axios.get] resolves to: the parts of the response that
    [checkUrlStatus] reads.  [redirectable] is [request._redirectable]
    ([None] when it is missing) with its [_redirects] ([None] when that is
    missing); [res] is [request.res] with its [responseUrl]. *)
Record Response : Type := mkResponse {
  status : Z;
  response_statusText : string;
  redirectable : option (option (list RedirectEntry));
  res : option (option string);
  header_contentType : option string;
  header_contentLength : option string;
  header_server : option string
}.

(** What [axios.get] rejects with: [failure_status] is [error.response.status]
    when the error carries a response. *)
Record Failure : Type := mkFailure {
  failure_message : string;
  failure_code : option string;
  failure_status : option Z
}.

(** The object [checkUrlStatus] returns: the fields of [ProbeResult] and the
    others. *)
Record CheckResult : Type := mkCheckResult {
  probe : ProbeResult;
  redirectChain : list Hop;
  contentType : option string;
  contentLength : option string;
  server : option string;
  timestamp : string;
  error : option ErrorInfo
}.

(** The [catch] branch. *)
Definition failed (url : string) (failure : Failure) (responseTime : Z) (timestamp : string)
  : CheckResult :=
  {| probe := {| url := url;
                 statusCode := match failure_status failure with
                               | Some s => if (s =? 0)%Z then 0%Z else s
                               | None => 0%Z
                               end;
                 statusText := failure_message failure;
                 responseTime := responseTime;
                 finalUrl := url;
                 isRedirect := false |};
     redirectChain := [];
     contentType := None;
     contentLength := None;
     server := None;
     timestamp := timestamp;
     error := Some {| error_message := failure_message failure;
                      error_code := failure_code failure;
                      error_type := match failure_status failure with
                                    | Some _ => "http_error"
                                    | None => "network_error"
                                    end |} |}.

(** [redirects.forEach((redirect, index) => redirectChain.push(...))], from
    [index] on. *)
Fixpoint chainFrom (index : nat) (redirects : list RedirectEntry) : list Hop :=
  match redirects with
  | [] => []
  | redirect :: rest =>
      {| hop_url := redirect_url redirect;
         hop_statusCode := redirect_statusCode redirect;
         hop_index := index + 1 |} :: chainFrom (S index) rest
  end.

(** [checkUrlStatus], given what [axios.get] did, the two readings of the
    clock it subtracts and the time stamp.  Reading [responseUrl] off a
    missing [request.res] throws a [TypeError], which the [catch] branch
    turns into a result like any other failure. *)
Definition checkUrlStatus (url : string) (outcome : Failure + Response)
    (startTime endTime : Z) (timestamp : string) : CheckResult :=
  let responseTime := (endTime - startTime)%Z in
  match outcome with
  | inr response =>
      let redirectChain :=
        match redirectable response with
        | Some (Some redirects) => chainFrom 0 redirects
        | Some None => []
        | None => []
        end in
      match res response with
      | Some responseUrl =>
          {| probe := {| url := url;
                         statusCode := status response;
                         statusText := response_statusText response;
                         responseTime := responseTime;
                         finalUrl := match responseUrl with
                                     | Some final => if final =? "" then url else final
                                     | None => url
                                     end;
                         isRedirect := (300 <=? status response)%Z && (status response <? 400)%Z |};
             redirectChain := redirectChain;
             contentType := header_contentType response;
             contentLength := header_contentLength response;
             server := header_server response;
             timestamp := timestamp;
             error := None |}
      | None =>
          failed url
            {| failure_message := "Cannot read properties of undefined (reading 'responseUrl')";
               failure_code := None;
               failure_status := None |}
            responseTime timestamp
      end
  | inl failure => failed url failure responseTime timestamp
  end.

Record BrokenLink : Type := mkBrokenLink {
  broken_url : string;
  broken_statusCode : Z;
  broken_statusText : string;
  broken_error : option ErrorInfo
}.

Definition findBrokenLinks (results : list CheckResult) : list BrokenLink :=
  map (fun result => {| broken_url := url (probe result);
                        broken_statusCode := statusCode (probe result);
                        broken_statusText := statusText (probe result);
                        broken_error := error result |})
      (filter (fun result => (400 <=? statusCode (probe result))%Z
                             && (statusCode (probe result) <? 500)%Z) results).

Record RedirectTypes : Type := mkRedirectTypes {
  r301 : nat;
  r302 : nat;
  r307 : nat;
  r308 : nat
}.

Record ChainInfo : Type := mkChainInfo {
  originalUrl : string;
  chain_finalUrl : string;
  chainLength : nat;
  chain : list Hop
}.

Record RedirectAnalysis : Type := mkRedirectAnalysis {
  totalRedirects : nat;
  redirectTypes : RedirectTypes;
  redirectChains : list ChainInfo;
  longChains : list CheckResult
}.

Definition hasStatus (code : Z) (r : CheckResult) : bool := (statusCode (probe r) =? code)%Z.

Definition analyzeRedirects (results : list CheckResult) : RedirectAnalysis :=
  let redirectResults := filter (fun r => isRedirect (probe r)) results in
  {| totalRedirects := List.length redirectResults;
     redirectTypes :=
       {| r301 := List.length (filter (hasStatus 301) redirectResults);
          r302 := List.length (filter (hasStatus 302) redirectResults);
          r307 := List.length (filter (hasStatus 307) redirectResults);
          r308 := List.length (filter (hasStatus 308) redirectResults) |};
     redirectChains :=
       map (fun r => {| originalUrl := url (probe r);
                        chain_finalUrl := finalUrl (probe r);
                        chainLength := List.length (redirectChain r);
                        chain := redirectChain r |}) redirectResults;
     longChains := filter (fun r => (2 <? List.length (redirectChain r))%nat) redirectResults |}.

(** A result that some call of [checkUrlStatus] returned. *)
Definition checked (r : CheckResult) : Prop :=
  exists url outcome startTime endTime timestamp,
    r = checkUrlStatus url outcome startTime endTime timestamp.

End StatusReport.

(** ** services/seoComparisonService.js: headings, canonical URLs, scores *)

Module SeoValidation.
Import SeoComparison.

(** [s.includes(sub)] *)
Fixpoint includes (s sub : string) : bool :=
  JS.startsWith s sub
  || match s with
     | "" => false
     | String _ s' => includes s' sub
     end.

Record H1Validation : Type := mkH1Validation {
  valid : bool;
  count : nat;
  h1_issue : option string
}.

Definition validateH1 (h1Array : option (list string)) : H1Validation :=
  match h1Array with
  | None | Some [] => {| valid := false; count := 0; h1_issue := Some "Missing H1 tag" |}
  | Some h1Array =>
      if (1 <? List.length h1Array)%nat then
        {| valid := false;
           count := List.length h1Array;
           h1_issue := Some ("Multiple H1 tags found ("
                             +++ JS.decimal (N.of_nat (List.length h1Array)) +++ ")") |}
      else {| valid := true; count := 1; h1_issue := None |}
  end.

Record H1Comparison : Type := mkH1Comparison {
  h1_match : bool;
  h1_similarity : Q;
  oldValid : bool;
  newValid : bool;
  h1_issues : option (list string)
}.

(** [h1?.[0]], when it is truthy. *)
Definition firstHeading (h1 : option (list string)) : option string :=
  match h1 with
  | Some (first :: _) => if first =? "" then None else Some first
  | _ => None
  end.

(** [issues.length > 0 ? issues : null] *)
Definition orNull (issues : list string) : option (list string) :=
  match issues with
  | [] => None
  | _ => Some issues
  end.

(** [if (issue) issues.push(label + issue)] *)
Definition pushIssue (label : string) (issue : option string) (issues : list string)
  : list string :=
  match issue with
  | Some issue => if issue =? "" then issues else issues ++ [label +++ issue]
  | None => issues
  end.

(** The similarity [compareH1Tags] computes, before it is rounded. *)
Definition h1Similarity (oldH1 newH1 : option (list string)) : Q :=
  match firstHeading oldH1, firstHeading newH1 with
  | Some oldFirst, Some newFirst =>
      calculateTextSimilarity (JS.toLowerCase oldFirst) (JS.toLowerCase newFirst)
  | _, _ => 0%Q
  end.

Definition compareH1Tags (oldH1 newH1 : option (list string)) : H1Comparison :=
  let oldValidation := validateH1 oldH1 in
  let newValidation := validateH1 newH1 in
  let issues := pushIssue "Old: " (h1_issue oldValidation) [] in
  let issues := pushIssue "New: " (h1_issue newValidation) issues in
  let similarity := h1Similarity oldH1 newH1 in
  {| h1_match := valid oldValidation && valid newValidation && Qle_bool (8 # 10) similarity;
     h1_similarity := round2 similarity;
     oldValid := valid oldValidation;
     newValid := valid newValidation;
     h1_issues := orNull issues |}.

Record CanonicalComparison : Type := mkCanonicalComparison {
  canonical_match : bool;
  oldCanonical : option string;
  newCanonical : option string;
  canonical_issues : option (list string)
}.

(** [s.replace(/\/$/, '')]: a slash at the very end is dropped. *)
Definition dropEndSlash (s : string) : string :=
  if JS.endsWith s "/" then JS.slice s 0 (-1) else s.

Definition compareCanonical (oldCanonical newCanonical newUrl : option string)
  : CanonicalComparison :=
  let issues := if JS.falsy oldCanonical then ["Old page missing canonical tag"] else [] in
  let issues := if JS.falsy newCanonical then issues ++ ["New page missing canonical tag"]
                else issues in
  let '(canonicalMatchesUrl, issues) :=
    if negb (JS.falsy newCanonical) && negb (JS.falsy newUrl) then
      let normalizedCanonical := dropEndSlash (text newCanonical) in
      let normalizedUrl := dropEndSlash (text newUrl) in
      let canonicalMatchesUrl := normalizedCanonical =? normalizedUrl in
      (canonicalMatchesUrl,
       if negb canonicalMatchesUrl then issues ++ ["Canonical URL does not match page URL"]
       else issues)
    else (false, issues) in
  {| canonical_match := canonicalMatchesUrl;
     oldCanonical := oldCanonical;
     newCanonical := newCanonical;
     canonical_issues := orNull issues |}.

(** The object [compareSEOData] calls [comparison]. *)
Record Comparisons : Type := mkComparisons {
  title : Comparison;
  description : Comparison;
  h1 : H1Comparison;
  canonical : CanonicalComparison
}.

(** The points the four parts earn, out of 30, 25, 25 and 20. *)
Definition titlePoints (c : Comparison) : Q :=
  if match_ c then 30 else (similarity c * 30)%Q.

Definition descriptionPoints (c : Comparison) : Q :=
  if match_ c then 25 else (similarity c * 25)%Q.

Definition h1Points (c : H1Comparison) : Q :=
  if h1_match c then 25
  else if oldValid c && newValid c then (h1_similarity c * 25)%Q
  else if oldValid c || newValid c then 25 # 2
  else 0.

Definition canonicalPoints (c : CanonicalComparison) : Q :=
  if canonical_match c then 20 else 0.

Definition calculateMatchScore (comparison : Comparisons) : Z :=
  let score := 0%Q in
  let maxScore := 0%Q in
  let maxScore := (maxScore + 30)%Q in
  let score := (score + titlePoints (title comparison))%Q in
  let maxScore := (maxScore + 25)%Q in
  let score := (score + descriptionPoints (description comparison))%Q in
  let maxScore := (maxScore + 25)%Q in
  let score := (score + h1Points (h1 comparison))%Q in
  let maxScore := (maxScore + 20)%Q in
  let score := (score + canonicalPoints (canonical comparison))%Q in
  JS.roundHalfUp (score / maxScore * 100).

Record SEOData : Type := mkSEOData {
  seo_title : option string;
  seo_description : option string;
  seo_h1 : option (list string);
  canonicalUrl : option string
}.

(** The object [compareSEOData] returns: [comparison] spread out, and three
    more keys. *)
Record SEOResult : Type := mkSEOResult {
  compared : Comparisons;
  matchScore : Z;
  issues : list string;
  severity : string
}.

(** [if (issues) allIssues.push(...issues)] *)
Definition spread (issues : option (list string)) : list string :=
  match issues with Some l => l | None => [] end.

Definition compareSEOData (oldSEO newSEO : SEOData) (newUrl : option string) : SEOResult :=
  let comparison :=
    {| title := compareTitles (seo_title oldSEO) (seo_title newSEO);
       description := compareDescriptions (seo_description oldSEO) (seo_description newSEO);
       h1 := compareH1Tags (seo_h1 oldSEO) (seo_h1 newSEO);
       canonical := compareCanonical (canonicalUrl oldSEO) (canonicalUrl newSEO) newUrl |} in
  let allIssues := pushIssue "" (issue (title comparison)) [] in
  let allIssues := pushIssue "" (issue (description comparison)) allIssues in
  let allIssues := allIssues ++ spread (h1_issues (h1 comparison)) in
  let allIssues := allIssues ++ spread (canonical_issues (canonical comparison)) in
  let matchScore := calculateMatchScore comparison in
  {| compared := comparison;
     matchScore := matchScore;
     issues := allIssues;
     severity := if (90 <=? matchScore)%Z then "none"
                 else if (75 <=? matchScore)%Z then "minor"
                 else if (50 <=? matchScore)%Z then "moderate"
                 else "major" |}.

(** The counters [generateSummary] keeps only for a batch that is not empty. *)
Record IssueCounts : Type := mkIssueCounts {
  missingTitles : nat;
  missingDescriptions : nat;
  missingH1s : nat;
  multipleH1s : nat;
  canonicalMismatches : nat
}.

Record SeoSummary : Type := mkSeoSummary {
  totalCompared : nat;
  perfectMatches : nat;
  minorIssues : nat;
  moderateIssues : nat;
  majorIssues : nat;
  issueCounts : option IssueCounts;
  avgMatchScore : Z
}.

(** [issue?.includes(word)] *)
Definition mentions (word : string) (issue : option string) : bool :=
  match issue with
  | Some issue => includes issue word
  | None => false
  end.

(** [issues?.some(i => i.includes(word))] *)
Definition someMention (word : string) (issues : option (list string)) : bool :=
  match issues with
  | Some issues => existsb (fun i => includes i word) issues
  | None => false
  end.

(** [if (b) n++] *)
Definition bump (b : bool) (n : nat) : nat := if b then S n else n.

(** The state of the loop of [generateSummary]: the four severity counters,
    the five issue counters and [totalScore]. *)
Record Tally : Type := mkTally {
  t_perfect : nat;
  t_minor : nat;
  t_moderate : nat;
  t_major : nat;
  t_counts : IssueCounts;
  t_totalScore : Z
}.

(** The body of [comparisons.forEach(comp => ...)]. *)
Definition tallyStep (t : Tally) (comp : SEOResult) : Tally :=
  let totalScore := (t_totalScore t + matchScore comp)%Z in
  let '(perfect, minor, moderate, major) :=
    if (95 <=? matchScore comp)%Z then (S (t_perfect t), t_minor t, t_moderate t, t_major t)
    else if severity comp =? "minor" then (t_perfect t, S (t_minor t), t_moderate t, t_major t)
    else if severity comp =? "moderate"
         then (t_perfect t, t_minor t, S (t_moderate t), t_major t)
    else if severity comp =? "major" then (t_perfect t, t_minor t, t_moderate t, S (t_major t))
    else (t_perfect t, t_minor t, t_moderate t, t_major t) in
  let counts := t_counts t in
  {| t_perfect := perfect;
     t_minor := minor;
     t_moderate := moderate;
     t_major := major;
     t_counts :=
       {| missingTitles :=
            bump (mentions "missing" (issue (title (compared comp)))) (missingTitles counts);
          missingDescriptions :=
            bump (mentions "missing" (issue (description (compared comp))))
                 (missingDescriptions counts);
          missingH1s :=
            bump (someMention "Missing" (h1_issues (h1 (compared comp)))) (missingH1s counts);
          multipleH1s :=
            bump (someMention "Multiple" (h1_issues (h1 (compared comp)))) (multipleH1s counts);
          canonicalMismatches :=
            bump (someMention "Canonical" (canonical_issues (canonical (compared comp))))
                 (canonicalMismatches counts) |};
     t_totalScore := totalScore |}.

Definition generateSummary (comparisons : option (list SEOResult)) : SeoSummary :=
  match comparisons with
  | None | Some [] =>
      {| totalCompared := 0; perfectMatches := 0; minorIssues := 0; moderateIssues := 0;
         majorIssues := 0; issueCounts := None; avgMatchScore := 0 |}
  | Some comparisons =>
      let t := fold_left tallyStep comparisons
                 {| t_perfect := 0; t_minor := 0; t_moderate := 0; t_major := 0;
                    t_counts := {| missingTitles := 0; missingDescriptions := 0;
                                   missingH1s := 0; multipleH1s := 0;
                                   canonicalMismatches := 0 |};
                    t_totalScore := 0 |} in
      {| totalCompared := List.length comparisons;
         perfectMatches := t_perfect t;
         minorIssues := t_minor t;
         moderateIssues := t_moderate t;
         majorIssues := t_major t;
         issueCounts := Some (t_counts t);
         avgMatchScore :=
           JS.roundHalfUp (inject_Z (t_totalScore t)
                           / inject_Z (Z.of_nat (List.length comparisons))) |}
  end.

End SeoValidation.

(** What it means for a title or description comparison to hang together:
    the reported similarity is a proportion; a comparison without issue is a
    match; a match has no issue but, possibly, the one about lengths; and a
    comparison that is no match reports a similarity of at most 0.8. *)
Definition coherent (lengthIssue : string) (c : SeoComparison.Comparison) : Prop :=
  (0 <= SeoComparison.similarity c)%Q /\ (SeoComparison.similarity c <= 1)%Q
  /\ (SeoComparison.issue c = None -> SeoComparison.match_ c = true)
  /\ (SeoComparison.match_ c = true ->
      SeoComparison.issue c = None \/ SeoComparison.issue c = Some lengthIssue)
  /\ (SeoComparison.match_ c = false -> (SeoComparison.similarity c <= 8 # 10)%Q).

(** A comparison that found nothing to report. *)
Definition perfect (c : SeoComparison.Comparison) : Prop :=
  SeoComparison.match_ c = true /\ (SeoComparison.similarity c == 1)%Q
  /\ SeoComparison.issue c = None.

(** *** Batches of page comparisons *)

Module SeoBatch.
Import SeoValidation.

(** The arguments of one call of [compareSEOData]. *)
Record Pages : Type := mkPages {
  oldSEO : SEOData;
  newSEO : SEOData;
  pageUrl : option string
}.

Definition comparisonsOf (pages : list Pages) : list SEOResult :=
  map (fun p => compareSEOData (oldSEO p) (newSEO p) (pageUrl p)) pages.

Definition howMany {A} (f : A -> bool) (l : list A) : nat := List.length (filter f l).

(** How many comparisons score from [lo] up to, but not including, [hi]. *)
Definition scored (lo hi : Z) (comparisons : list SEOResult) : nat :=
  howMany (fun c => (lo <=? matchScore c)%Z && (matchScore c <? hi)%Z) comparisons.

(** The comparisons [generateSummary] counts as perfect, and those it
    counts under a severity. *)
Definition isPerfect (c : SEOResult) : bool := (95 <=? matchScore c)%Z.

Definition rated (word : string) (c : SEOResult) : bool :=
  negb (isPerfect c) && (severity c =? word).

(** A page without any H1, and one with several. *)
Definition lacksH1 (h1 : option (list string)) : bool :=
  match h1 with
  | None | Some [] => true
  | Some (_ :: _) => false
  end.

Definition severalH1 (h1 : option (list string)) : bool :=
  match h1 with
  | Some (_ :: _ :: _) => true
  | _ => false
  end.

(** The new canonical URL and the page URL are both there, and differ by
    more than a final slash. *)
Definition canonicalDiffers (p : Pages) : bool :=
  negb (JS.falsy (canonicalUrl (newSEO p))) && negb (JS.falsy (pageUrl p))
  && negb (dropEndSlash (SeoComparison.text (canonicalUrl (newSEO p)))
           =? dropEndSlash (SeoComparison.text (pageUrl p))).

End SeoBatch.

(** ** controllers/processingController.js: the URLs picked for testing *)

Module Processing.

(** A row of the Search Console data: the fields [selectImportantUrls]
    reads.  [clicks] and [impressions] come out of [parseInt]; [None] is
    [NaN]. *)
Record GscEntry : Type := mkGscEntry {
  gsc_url : string;
  clicks : option Z;
  impressions : option Z
}.

(** [n || 0] *)
Definition orZero (n : option Z) : Z :=
  match n with Some n => n | None => 0%Z end.

(** [(a.clicks || 0) + (a.impressions || 0)] *)
Definition traffic (a : GscEntry) : Z := (orZero (clicks a) + orZero (impressions a))%Z.

(** [[...gscData].sort((a, b) => bTraffic - aTraffic)]: the sort is stable,
    so the entries come by falling traffic and, among equals, in their
    order. *)
Fixpoint insertByTraffic (a : GscEntry) (sorted : list GscEntry) : list GscEntry :=
  match sorted with
  | [] => [a]
  | b :: rest =>
      if (traffic b <=? traffic a)%Z then a :: b :: rest
      else b :: insertByTraffic a rest
  end.

Definition sortByTraffic (gscData : list GscEntry) : list GscEntry :=
  fold_right insertByTraffic [] gscData.

Definition maxUrls : nat := 10.

(** The loop [for (const gscEntry of sortedGSC)]. *)
Fixpoint addByTraffic (candidates : list MatchEntry) (sortedGSC : list GscEntry)
    (urlsToTest : list MatchEntry) (urlPaths : JS.Set_) : list MatchEntry :=
  match sortedGSC with
  | [] => urlsToTest
  | gscEntry :: rest =>
      if (maxUrls <=? List.length urlsToTest)%nat then urlsToTest
      else
        match find (fun u => oldUrl u =? gsc_url gscEntry) candidates with
        | Some matchedUrl =>
            if negb (JS.Set_has urlPaths (oldUrl matchedUrl))
            then addByTraffic candidates rest (urlsToTest ++ [matchedUrl])
                              (JS.Set_add urlPaths (oldUrl matchedUrl))
            else addByTraffic candidates rest urlsToTest urlPaths
        | None => addByTraffic candidates rest urlsToTest urlPaths
        end
  end.

Definition selectImportantUrls (comparison : Results) (gscData : option (list GscEntry))
  : list MatchEntry :=
  let candidates := matched comparison ++ redirected comparison in
  let homepageUrls :=
    filter (fun u => JS.endsWith (oldUrl u) "/" || JS.endsWith (newUrl u) "/")
           candidates in
  let urlsToTest := firstn 1 homepageUrls in
  let urlsToTest :=
    match gscData with
    | Some ((_ :: _) as gscData) =>
        let urlPaths := JS.Set_from (map oldUrl urlsToTest) in
        let sortedGSC := sortByTraffic gscData in
        addByTraffic candidates sortedGSC urlsToTest urlPaths
    | _ => urlsToTest
    end in
  let urlPaths := JS.Set_from (map oldUrl urlsToTest) in
  let remainingUrls :=
    filter (fun u => negb (JS.Set_has urlPaths (oldUrl u))) candidates in
  let urlsToTest := urlsToTest ++ firstn (maxUrls - List.length urlsToTest) remainingUrls in
  firstn maxUrls urlsToTest.

(** What the traffic loop keeps true of [urlsToTest] and [urlPaths]. *)
Definition picked (candidates urlsToTest : list MatchEntry) (urlPaths : JS.Set_) : Prop :=
  incl urlsToTest candidates
  /\ NoDup (map oldUrl urlsToTest)
  /\ (forall k, In k urlPaths <-> In k (map oldUrl urlsToTest)).

(** The entries [selectImportantUrls] takes for home pages: either URL ends
    with a slash. *)
Definition isHomepage (u : MatchEntry) : bool :=
  JS.endsWith (oldUrl u) "/" || JS.endsWith (newUrl u) "/".

(** The three stages of [selectImportantUrls], each under a name: the first
    home page, the entries added by traffic, and the filling up to ten. *)
Definition homepageFirst (candidates : list MatchEntry) : list MatchEntry :=
  firstn 1 (filter isHomepage candidates).

Definition afterTraffic (candidates : list MatchEntry) (gscData : option (list GscEntry))
  : list MatchEntry :=
  match gscData with
  | Some (g :: gs) =>
      addByTraffic candidates (sortByTraffic (g :: gs)) (homepageFirst candidates)
                   (JS.Set_from (map oldUrl (homepageFirst candidates)))
  | _ => homepageFirst candidates
  end.

Definition filledUp (candidates chosen : list MatchEntry) : list MatchEntry :=
  firstn maxUrls
    (chosen
     ++ firstn (maxUrls - List.length chosen)
          (filter (fun u => negb (JS.Set_has (JS.Set_from (map oldUrl chosen)) (oldUrl u)))
                  candidates)).

End Processing.

(** ** services/csvParser.js: the redirect mapping

    [csv-parser] hands [parseRedirectMapping] one object per line of the
    file, with the header of each column as key and the cell as value.  The
    model takes the rows the stream emits before it ends. *)

Module CsvParser.

Definition Row : Type := JS.Map string.

(** ASCII white space, which [trim] strips. *)
Definition isWhiteSpace (c : ascii) : bool :=
  ((9 <=? JS.code c) && (JS.code c <=? 13))%N || (JS.code c =? 32)%N.

(** [s.trim()] *)
Definition trim (s : string) : string :=
  JS.trimEnd isWhiteSpace (JS.dropWhile isWhiteSpace s).

(** [row.A || row.B || ...], when some cell is truthy: the first such cell. *)
Fixpoint firstTruthy (row : Row) (columns : list string) : option string :=
  match columns with
  | [] => None
  | column :: rest =>
      match JS.Map_get row column with
      | Some cell => if cell =? "" then firstTruthy row rest else Some cell
      | None => firstTruthy row rest
      end
  end.

Definition oldUrlOf (row : Row) : option string :=
  firstTruthy row ["OldURL"; "Old URL"; "oldUrl"; "old_url"; "from"].

Definition newUrlOf (row : Row) : option string :=
  firstTruthy row ["NewURL"; "New URL"; "newUrl"; "new_url"; "to"].

(** The handler of the [data] event. *)
Definition redirectRow (redirectMap : JS.Map string) (row : Row) : JS.Map string :=
  match oldUrlOf row, newUrlOf row with
  | Some oldUrl, Some newUrl => JS.Map_set redirectMap (trim oldUrl) (trim newUrl)
  | _, _ => redirectMap
  end.

Definition parseRedirectMapping (rows : list Row) : JS.Map string :=
  fold_left redirectRow rows [].

(** Where an entry of the map comes from: a row with both cells, trimmed. *)
Definition written (rows : list Row) (entry : string * string) : Prop :=
  exists row oldUrl newUrl,
    In row rows /\ oldUrlOf row = Some oldUrl /\ newUrlOf row = Some newUrl
    /\ entry = (trim oldUrl, trim newUrl).

End CsvParser.

(** * Properties *)

(** ** Maps and sets *)

Module JSFacts.
Import JS.

Lemma Set_has_In (s : Set_) (k : string) : Set_has s k = true <-> In k s.
Proof.
  unfold Set_has. rewrite existsb_exists. split.
  - intros [x [Hin Heq]]. apply String.eqb_eq in Heq. now subst.
  - intros Hin. exists k. split; [assumption | apply String.eqb_refl].
Qed.

Lemma Set_has_not_In (s : Set_) (k : string) : Set_has s k = false <-> ~ In k s.
Proof.
  rewrite <- Set_has_In. destruct (Set_has s k); split; congruence.
Qed.

Lemma Set_add_In (s : Set_) (k x : string) : In x (Set_add s k) <-> In x s \/ x = k.
Proof.
  unfold Set_add. destruct (Set_has s k) eqn:E.
  - apply Set_has_In in E. split; [tauto | intros [H | ->]; assumption].
  - rewrite in_app_iff. simpl. split.
    + intros [H | [-> | []]]; auto.
    + intros [H | ->]; auto.
Qed.

Lemma Set_add_NoDup (s : Set_) (k : string) : NoDup s -> NoDup (Set_add s k).
Proof.
  intros Hs. unfold Set_add. destruct (Set_has s k) eqn:E; [assumption |].
  apply Set_has_not_In in E. apply NoDup_app; [assumption | repeat constructor; auto |].
  intros a Ha [<- | []]. contradiction.
Qed.

Lemma fold_Set_add_spec (l : list string) :
  forall acc, NoDup acc ->
    NoDup (fold_left Set_add l acc)
    /\ forall x, In x (fold_left Set_add l acc) <-> In x acc \/ In x l.
Proof.
  induction l as [| k l IH]; intros acc Hacc; simpl.
  - split; [assumption | intros x; tauto].
  - destruct (IH (Set_add acc k) (Set_add_NoDup acc k Hacc)) as [Hnd Hin].
    split; [assumption |]. intros x. rewrite Hin, Set_add_In.
    split; intros H; intuition auto.
Qed.

Lemma Set_from_NoDup (l : list string) : NoDup (Set_from l).
Proof. apply (fold_Set_add_spec l []). constructor. Qed.

Lemma Set_from_In (l : list string) (x : string) : In x (Set_from l) <-> In x l.
Proof.
  unfold Set_from. destruct (fold_Set_add_spec l [] (NoDup_nil _)) as [_ H].
  rewrite H. simpl. tauto.
Qed.

(** A set built from a list holds as many members as the list has distinct
    elements. *)
Lemma Set_from_length (l : list string) :
  List.length (Set_from l) = List.length (nodup string_dec l).
Proof.
  apply Permutation_length, NoDup_Permutation.
  - apply Set_from_NoDup.
  - apply NoDup_nodup.
  - intros x. rewrite Set_from_In, nodup_In. tauto.
Qed.

Lemma Map_set_keys {V} (m : Map V) (k : string) (v : V) :
  map fst (Map_set m k v) = Set_add (map fst m) k.
Proof.
  induction m as [| [k' v'] m IH]; simpl; [reflexivity |].
  unfold Set_add, Set_has. simpl. rewrite (String.eqb_sym k k').
  destruct (String.eqb_spec k' k) as [-> | Hne]; simpl; [reflexivity |].
  rewrite IH. unfold Set_add, Set_has.
  destruct (existsb (String.eqb k) (map fst m)); reflexivity.
Qed.

Lemma Map_from_keys {V} (entries : list (string * V)) :
  map fst (Map_from entries) = Set_from (map fst entries).
Proof.
  unfold Map_from, Set_from. change (@nil string) with (map fst (@nil (string * V))).
  generalize (@nil (string * V)) as m.
  induction entries as [| [k v] entries IH]; intros m; simpl; [reflexivity |].
  rewrite IH, Map_set_keys. reflexivity.
Qed.

(** A map built from entries holds as many entries as there are distinct keys. *)
Lemma Map_from_length {V} (entries : list (string * V)) :
  List.length (Map_from entries) = List.length (nodup string_dec (map fst entries)).
Proof.
  rewrite <- Set_from_length, <- Map_from_keys, length_map. reflexivity.
Qed.

Lemma Map_set_In {V} (m : Map V) (k : string) (v : V) (e : string * V) :
  In e (Map_set m k v) -> In e m \/ e = (k, v).
Proof.
  induction m as [| [k' v'] m IH]; simpl.
  - intros [<- | []]. now right.
  - destruct (k' =? k)%string; simpl.
    + intros [<- | H]; auto.
    + intros [<- | H]; auto. destruct (IH H); auto.
Qed.

Lemma Map_from_In {V} (entries : list (string * V)) (e : string * V) :
  In e (Map_from entries) -> In e entries.
Proof.
  unfold Map_from.
  assert (G : forall m, In e (fold_left (fun m kv => Map_set m (fst kv) (snd kv)) entries m)
                        -> In e m \/ In e entries).
  { induction entries as [| [k v] entries IH]; intros m; simpl; [tauto |].
    intros H. apply IH in H. destruct H as [H | H]; [| tauto].
    apply Map_set_In in H. destruct H as [H | ->]; auto. }
  intros H. apply G in H. destruct H as [[] | H]. exact H.
Qed.

Lemma Map_get_set_same {V} (m : Map V) (k : string) (v : V) :
  Map_get (Map_set m k v) k = Some v.
Proof.
  induction m as [| [k' v'] m IH]; simpl.
  - now rewrite String.eqb_refl.
  - destruct (k' =? k)%string eqn:E; simpl.
    + now rewrite String.eqb_refl.
    + now rewrite E.
Qed.

Lemma Map_get_set_other {V} (m : Map V) (k k' : string) (v : V) :
  k' <> k -> Map_get (Map_set m k v) k' = Map_get m k'.
Proof.
  intros Hne. induction m as [| [k0 v0] m IH]; simpl.
  - destruct (String.eqb_spec k k'); congruence.
  - destruct (String.eqb_spec k0 k) as [-> | Hk]; simpl.
    + destruct (String.eqb_spec k k'); congruence.
    + destruct (k0 =? k')%string; [reflexivity | exact IH].
Qed.

Lemma Map_get_In {V} (m : Map V) (k : string) (v : V) :
  Map_get m k = Some v -> In (k, v) m.
Proof.
  induction m as [| [k' v'] m IH]; simpl; [discriminate |].
  destruct (String.eqb_spec k' k) as [-> | Hne].
  - intros [= ->]. now left.
  - intros H. right. auto.
Qed.

(** The entry a map keeps for a key is the last one written. *)
Lemma Map_from_get_last {V} (before after : list (string * V)) (k : string) (v : V) :
  ~ In k (map fst after) ->
  Map_get (Map_from (before ++ (k, v) :: after)) k = Some v.
Proof.
  intros Hafter. unfold Map_from. rewrite fold_left_app. simpl.
  generalize (fold_left (fun m kv => Map_set m (fst kv) (snd kv)) before []) as m.
  intros m. pose proof (Map_get_set_same m k v) as Hget. revert Hget.
  generalize (Map_set m k v) as m'. clear m.
  induction after as [| [k' v'] after IH]; intros m' Hget; simpl; [exact Hget |].
  apply IH.
  - intros Hin. apply Hafter. simpl. now right.
  - rewrite Map_get_set_other; [exact Hget |].
    intros ->. apply Hafter. simpl. now left.
Qed.

End JSFacts.

(** ** Numbers *)

Lemma Qltb_lt (x y : Q) : JS.Qltb x y = true <-> (x < y)%Q.
Proof.
  unfold JS.Qltb. rewrite negb_true_iff. split.
  - intros H. apply Qnot_le_lt. intros Hle. apply Qle_bool_iff in Hle. congruence.
  - intros H. destruct (Qle_bool y x) eqn:E; [| reflexivity].
    apply Qle_bool_iff in E. exfalso. exact (Qlt_not_le _ _ H E).
Qed.

Lemma Qltb_ge (x y : Q) : JS.Qltb x y = false <-> (y <= x)%Q.
Proof.
  unfold JS.Qltb. rewrite negb_false_iff. apply Qle_bool_iff.
Qed.

Lemma roundHalfUp_nearest (x : Q) :
  (inject_Z (JS.roundHalfUp x) - (1 # 2) <= x)%Q
  /\ (x < inject_Z (JS.roundHalfUp x) + (1 # 2))%Q.
Proof.
  unfold JS.roundHalfUp. split.
  - pose proof (Qfloor_le (x + (1 # 2))) as H.
    apply (Qplus_le_l _ _ (1 # 2)). ring_simplify. ring_simplify in H. exact H.
  - pose proof (Qlt_floor (x + (1 # 2))) as H.
    rewrite inject_Z_plus in H.
    apply (Qplus_lt_l _ _ (1 # 2)). ring_simplify. ring_simplify in H.
    change (inject_Z 1) with 1%Q in H. exact H.
Qed.

Lemma roundHalfUp_unique (x : Q) (j : Z) :
  (inject_Z j - (1 # 2) <= x)%Q -> (x < inject_Z j + (1 # 2))%Q -> JS.roundHalfUp x = j.
Proof.
  intros Hlo Hhi. unfold JS.roundHalfUp.
  pose proof (Qfloor_le (x + (1 # 2))) as Hf. pose proof (Qlt_floor (x + (1 # 2))) as Hc.
  assert (H1 : (inject_Z (Qfloor (x + (1 # 2))) < inject_Z (j + 1))%Q).
  { rewrite inject_Z_plus. change (inject_Z 1) with 1%Q. lra. }
  assert (H2 : (inject_Z j < inject_Z (Qfloor (x + (1 # 2)) + 1))%Q) by lra.
  rewrite <- Zlt_Qlt in H1, H2. lia.
Qed.

(** For a number that is not negative, [toFixed(2)] prints the integer
    nearest to a hundred times the number, with a point before its last two
    digits. *)
Lemma toFixed_2 (x : Q) :
  (0 <= x)%Q ->
  JS.toFixed x 2 = JS.withPoint (JS.decimal (Z.to_N (JS.roundHalfUp (x * inject_Z 100)))) 2.
Proof.
  intros Hx. unfold JS.toFixed.
  assert (Hsign : JS.Qltb x 0 = false) by now apply Qltb_ge.
  rewrite Hsign. unfold JS.roundHalfUp.
  assert (Habs : (Qabs x * inject_Z (10 ^ Z.of_nat 2) + (1 # 2) == x * inject_Z 100 + (1 # 2))%Q).
  { rewrite (Qabs_pos x Hx). reflexivity. }
  rewrite (Qfloor_comp _ _ Habs). reflexivity.
Qed.

Module NumberFacts.
Import JS.

Local Open Scope Q_scope.

Lemma pow2_pos (k : Z) : 0 < 2 ^ k.
Proof. now apply Qpower_0_lt. Qed.

Lemma pow2_plus (a b : Z) : 2 ^ (a + b) == 2 ^ a * 2 ^ b.
Proof. apply Qpower_plus. discriminate. Qed.

Lemma pow2_le (a b : Z) : (a <= b)%Z -> 2 ^ a <= 2 ^ b.
Proof. intros H. apply Qpower_le_compat_l; [exact H|discriminate]. Qed.

Lemma pow2_lt_inv (a b : Z) : 2 ^ a < 2 ^ b -> (a < b)%Z.
Proof.
  intros H. destruct (Z.lt_ge_cases a b) as [Hlt|Hge]; [exact Hlt|].
  apply pow2_le in Hge. apply Qle_not_lt in Hge. contradiction.
Qed.

Lemma pow2_Z (n : Z) : (0 <= n)%Z -> inject_Z (2 ^ n) == 2 ^ n.
Proof. intros H. now rewrite Zpower_Qpower. Qed.

(** [floorLog2] is the position of the leading bit. *)
Lemma floorLog2_spec (x : Q) :
  0 < x -> 2 ^ floorLog2 x <= x /\ x < 2 ^ (floorLog2 x + 1).
Proof.
  intros Hx. unfold floorLog2.
  destruct x as [n d]. cbn [Qnum Qden].
  assert (Hn : (0 < n)%Z) by (unfold Qlt in Hx; cbn in Hx; lia).
  set (a := Z.log2 n). set (b := Z.log2 (Z.pos d)).
  destruct (Z.log2_spec n Hn) as [Ha1 Ha2]. fold a in Ha1, Ha2.
  destruct (Z.log2_spec (Z.pos d) eq_refl) as [Hb1 Hb2]. fold b in Hb1, Hb2.
  assert (Ha0 : (0 <= a)%Z) by apply Z.log2_nonneg.
  assert (Hb0 : (0 <= b)%Z) by apply Z.log2_nonneg.
  assert (Hnd : n # d == inject_Z n / inject_Z (Z.pos d)) by apply Qmake_Qdiv.
  assert (Hd : 0 < inject_Z (Z.pos d)) by reflexivity.
  assert (Qa1 : 2 ^ a <= inject_Z n) by (rewrite <- pow2_Z by lia; now rewrite <- Zle_Qle).
  assert (Qa2 : inject_Z n < 2 ^ (a + 1))
    by (rewrite <- pow2_Z by lia; rewrite <- Zlt_Qlt; now rewrite <- Z.add_1_r in Ha2).
  assert (Qb1 : 2 ^ b <= inject_Z (Z.pos d)) by (rewrite <- pow2_Z by lia; now rewrite <- Zle_Qle).
  assert (Qb2 : inject_Z (Z.pos d) < 2 ^ (b + 1))
    by (rewrite <- pow2_Z by lia; rewrite <- Zlt_Qlt; now rewrite <- Z.add_1_r in Hb2).
  (* x lies strictly between 2^(a-b-1) and 2^(a-b+1) *)
  assert (Hlow : 2 ^ (a - b - 1) < n # d).
  { rewrite Hnd. apply Qlt_shift_div_l; [exact Hd|].
    apply Qlt_le_trans with (2 ^ (a - b - 1) * 2 ^ (b + 1)).
    - apply Qmult_lt_l; [apply pow2_pos|exact Qb2].
    - rewrite <- pow2_plus. replace (a - b - 1 + (b + 1))%Z with a by lia. exact Qa1. }
  assert (Hhigh : n # d < 2 ^ (a - b + 1)).
  { rewrite Hnd. apply Qlt_shift_div_r; [exact Hd|].
    apply Qlt_le_trans with (2 ^ (a + 1)); [exact Qa2|].
    replace (a + 1)%Z with (a - b + 1 + b)%Z by lia. rewrite pow2_plus.
    apply Qmult_le_l; [apply pow2_pos|exact Qb1]. }
  destruct (Qltb (n # d) (2 ^ (a - b))) eqn:E.
  - apply Qltb_lt in E. split; [now apply Qlt_le_weak|].
    now replace (a - b - 1 + 1)%Z with (a - b)%Z by lia.
  - apply Qltb_ge in E. split; assumption.
Qed.

Lemma roundHalfEven_near (x : Q) :
  inject_Z (roundHalfEven x) - (1 # 2) <= x /\ x <= inject_Z (roundHalfEven x) + (1 # 2).
Proof.
  unfold roundHalfEven.
  pose proof (Qfloor_le x) as Hlo. pose proof (Qlt_floor x) as Hhi.
  rewrite inject_Z_plus in Hhi. change (inject_Z 1) with 1 in Hhi.
  set (f := Qfloor x) in *.
  destruct (x - inject_Z f ?= 1 # 2) eqn:E.
  - apply Qeq_alt in E.
    destruct (Z.even f); [|rewrite inject_Z_plus; change (inject_Z 1) with 1]; split; lra.
  - apply Qlt_alt in E. split; lra.
  - apply Qgt_alt in E. rewrite inject_Z_plus. change (inject_Z 1) with 1. split; lra.
Qed.

Lemma roundHalfEven_nonneg (x : Q) : 0 <= x -> (0 <= roundHalfEven x)%Z.
Proof.
  intros Hx. unfold roundHalfEven.
  assert (Hf : (0 <= Qfloor x)%Z).
  { change 0%Z with (Qfloor 0). now apply Qfloor_resp_le. }
  destruct (x - inject_Z (Qfloor x) ?= 1 # 2); [destruct (Z.even (Qfloor x))| |]; lia.
Qed.

Lemma binary64_nonneg (x : Q) : 0 <= x -> 0 <= binary64 x.
Proof.
  intros Hx. unfold binary64. destruct (Qeq_bool x 0); [discriminate|].
  assert (Hs : Qltb x 0 = false) by now apply Qltb_ge.
  rewrite Hs. apply Qmult_le_0_compat; [|apply Qlt_le_weak, pow2_pos].
  change 0 with (inject_Z 0). rewrite <- Zle_Qle. apply roundHalfEven_nonneg.
  apply Qle_shift_div_l; [apply pow2_pos|]. rewrite Qmult_0_l. apply Qabs_nonneg.
Qed.

(** A number below [2^(j+1)], not negative, is off its binary64 value by half
    a unit of the last place at most: [2^(j-53)]. *)
Lemma binary64_near (x : Q) (j : Z) :
  0 <= x -> x < 2 ^ (j + 1) -> (-1022 <= j)%Z ->
  Qabs (binary64 x - x) <= 2 ^ (j - 53).
Proof.
  intros Hx Hj Hnormal. unfold binary64.
  destruct (Qeq_bool x 0) eqn:Hz.
  - apply Qeq_bool_iff in Hz. apply Qabs_Qle_condition.
    pose proof (pow2_pos (j - 53)). split; lra.
  - assert (Hpos : 0 < x).
    { apply Qeq_bool_neq in Hz. apply Qle_lteq in Hx. destruct Hx as [H|H]; [exact H|].
      now contradiction Hz. }
    assert (Hs : Qltb x 0 = false) by now apply Qltb_ge.
    rewrite Hs.
    assert (Habs : Qabs x == x) by now apply Qabs_pos.
    assert (Hapos : 0 < Qabs x) by now rewrite Habs.
    destruct (floorLog2_spec (Qabs x) Hapos) as [Hf _].
    assert (Hfj : (floorLog2 (Qabs x) <= j)%Z).
    { apply Z.lt_succ_r, pow2_lt_inv. rewrite <- Z.add_1_r.
      apply Qle_lt_trans with (Qabs x); [exact Hf|]. now rewrite Habs. }
    set (e := lastPlace x).
    assert (He : (e <= j - 52)%Z) by (unfold e, lastPlace; lia).
    pose proof (pow2_pos e) as Hpe.
    destruct (roundHalfEven_near (Qabs x / 2 ^ e)) as [Hlo Hhi].
    set (m := inject_Z (roundHalfEven (Qabs x / 2 ^ e))) in *.
    assert (Hq : Qabs x / 2 ^ e * 2 ^ e == x).
    { rewrite Habs. field. intros H0. rewrite H0 in Hpe. now apply Qlt_irrefl in Hpe. }
    assert (Hhalf : 2 ^ e * (1 # 2) <= 2 ^ (j - 53)).
    { apply Qle_trans with (2 ^ (j - 52) * (1 # 2)).
      - apply Qmult_le_compat_r; [now apply pow2_le|discriminate].
      - replace (j - 52)%Z with (j - 53 + 1)%Z by lia. rewrite pow2_plus.
        change (2 ^ 1) with 2. pose proof (pow2_pos (j - 53)). lra. }
    apply Qabs_Qle_condition. split.
    + apply (Qmult_le_compat_r _ _ (2 ^ e)) in Hhi; [|now apply Qlt_le_weak].
      rewrite Hq in Hhi. lra.
    + apply (Qmult_le_compat_r _ _ (2 ^ e)) in Hlo; [|now apply Qlt_le_weak].
      rewrite Hq in Hlo. lra.
Qed.

Lemma roundHalfEven_closest (q : Q) (n : Z) :
  Qabs (inject_Z (roundHalfEven q) - q) <= Qabs (inject_Z n - q).
Proof.
  destruct (roundHalfEven_near q) as [Hlo Hhi].
  set (r := roundHalfEven q) in *.
  destruct (Z.eq_dec n r) as [->|Hne]; [apply Qle_refl|].
  apply Qle_trans with (1 # 2).
  - apply Qabs_Qle_condition. split; lra.
  - assert (Hcase : (n + 1 <= r)%Z \/ (r + 1 <= n)%Z) by lia.
    destruct Hcase as [H|H]; rewrite Zle_Qle, inject_Z_plus in H;
      change (inject_Z 1) with 1 in H.
    + rewrite Qabs_neg by lra. lra.
    + rewrite Qabs_pos by lra. lra.
Qed.

Lemma pow2_nonneg_Z (k : Z) : (0 <= k)%Z -> exists n : Z, 2 ^ k == inject_Z n.
Proof. intros H. exists (2 ^ k)%Z. now rewrite pow2_Z. Qed.

(** [binary64 x] is one of the binary64 numbers nearest to [x]. *)
Lemma binary64_nearest (x y : Q) :
  0 <= x -> representable y -> Qabs (binary64 x - x) <= Qabs (y - x).
Proof.
  intros Hx (m' & e' & Hm' & He' & Hy). unfold binary64.
  destruct (Qeq_bool x 0) eqn:Hz.
  { apply Qeq_bool_iff in Hz. rewrite Hz. setoid_replace (0 - 0) with 0 by ring.
    apply Qabs_nonneg. }
  assert (Hpos : 0 < x).
  { apply Qeq_bool_neq in Hz. apply Qle_lteq in Hx. destruct Hx as [H|H]; [exact H|].
    now contradiction Hz. }
  assert (Hs : Qltb x 0 = false) by now apply Qltb_ge.
  rewrite Hs.
  assert (Habs : Qabs x == x) by now apply Qabs_pos.
  assert (Hapos : 0 < Qabs x) by now rewrite Habs.
  destruct (floorLog2_spec (Qabs x) Hapos) as [Hf0 _].
  assert (Hf : 2 ^ floorLog2 (Qabs x) <= x).
  { apply Qle_trans with (Qabs x); [exact Hf0|]. apply Qabs_Qle_condition. split; lra. }
  set (e := lastPlace x).
  pose proof (pow2_pos e) as Hpe.
  assert (Hne : ~ 2 ^ e == 0) by (intros H0; rewrite H0 in Hpe; now apply Qlt_irrefl in Hpe).
  set (q := Qabs x / 2 ^ e).
  assert (Hq : q * 2 ^ e == x) by (unfold q; rewrite Habs; now field).
  (* distances scale with the last place *)
  assert (Hscale : forall n : Z,
             Qabs (inject_Z (roundHalfEven q) * 2 ^ e - x)
             <= Qabs (inject_Z n * 2 ^ e - x)).
  { intros n.
    setoid_replace (inject_Z (roundHalfEven q) * 2 ^ e - x)
      with ((inject_Z (roundHalfEven q) - q) * 2 ^ e) by (rewrite <- Hq; ring).
    setoid_replace (inject_Z n * 2 ^ e - x) with ((inject_Z n - q) * 2 ^ e)
      by (rewrite <- Hq; ring).
    rewrite !Qabs_Qmult. rewrite (Qabs_pos (2 ^ e)) by now apply Qlt_le_weak.
    apply Qmult_le_compat_r; [apply roundHalfEven_closest|now apply Qlt_le_weak]. }
  destruct (Z_le_gt_dec e e') as [Hee|Hee].
  - (* [y] is a multiple of the last place *)
    destruct (pow2_nonneg_Z (e' - e) ltac:(lia)) as [n Hn].
    assert (Hyn : y == inject_Z (m' * n) * 2 ^ e).
    { rewrite Hy, inject_Z_mult, <- Hn. replace e' with (e' - e + e)%Z at 1 by lia.
      rewrite pow2_plus. ring. }
    rewrite Hyn. apply Hscale.
  - (* [y] lies below the binade of [x] *)
    assert (Hfl : e = (floorLog2 (Qabs x) - 52)%Z) by (unfold e, lastPlace in *; lia).
    assert (Hbound : y <= 2 ^ (e + 52)).
    { rewrite Hy. apply Qle_trans with (inject_Z (2 ^ 53) * 2 ^ e').
      - apply Qmult_le_compat_r; [|apply Qlt_le_weak, pow2_pos].
        rewrite <- Zle_Qle. lia.
      - rewrite pow2_Z by lia. rewrite <- pow2_plus. apply pow2_le. lia. }
    assert (Hlow : 2 ^ (e + 52) <= x).
    { replace (e + 52)%Z with (floorLog2 (Qabs x)) by lia. exact Hf. }
    destruct (pow2_nonneg_Z 52 ltac:(lia)) as [n Hn].
    apply Qle_trans with (Qabs (inject_Z n * 2 ^ e - x)); [apply Hscale|].
    rewrite <- Hn, <- pow2_plus. replace (52 + e)%Z with (e + 52)%Z by lia.
    rewrite (Qabs_neg (2 ^ (e + 52) - x)) by lra.
    rewrite (Qabs_neg (y - x)) by lra. lra.
Qed.

Lemma binary64_representable (x : Q) : 0 <= x -> representable (binary64 x).
Proof.
  intros Hx. unfold binary64.
  destruct (Qeq_bool x 0) eqn:Hz.
  { exists 0%Z, 0%Z. split; [cbn; lia|]. split; [lia|reflexivity]. }
  assert (Hpos : 0 < x).
  { apply Qeq_bool_neq in Hz. apply Qle_lteq in Hx. destruct Hx as [H|H]; [exact H|].
    now contradiction Hz. }
  assert (Hs : Qltb x 0 = false) by now apply Qltb_ge.
  rewrite Hs.
  assert (Habs : Qabs x == x) by now apply Qabs_pos.
  assert (Hapos : 0 < Qabs x) by now rewrite Habs.
  destruct (floorLog2_spec (Qabs x) Hapos) as [_ Hf].
  set (e := lastPlace x).
  pose proof (pow2_pos e) as Hpe.
  set (q := Qabs x / 2 ^ e).
  exists (roundHalfEven q), e. split; [|split; [unfold e, lastPlace; lia|reflexivity]].
  assert (Hq0 : 0 <= q).
  { apply Qle_shift_div_l; [exact Hpe|]. rewrite Qmult_0_l. apply Qabs_nonneg. }
  assert (Hq : q < 2 ^ 53).
  { apply Qlt_shift_div_r; [exact Hpe|]. rewrite <- pow2_plus.
    apply Qlt_le_trans with (2 ^ (floorLog2 (Qabs x) + 1)); [exact Hf|].
    apply pow2_le. unfold e, lastPlace. lia. }
  pose proof (roundHalfEven_nonneg q Hq0) as Hr0.
  rewrite Z.abs_eq by exact Hr0.
  destruct (roundHalfEven_near q) as [Hlo _].
  assert (H : inject_Z (roundHalfEven q) < inject_Z (2 ^ 53 + 1)).
  { rewrite inject_Z_plus, pow2_Z by lia. change (inject_Z 1) with 1. lra. }
  rewrite <- Zlt_Qlt in H. lia.
Qed.

Lemma binary64_nearest64 (x : Q) : 0 <= x -> nearest64 x (binary64 x).
Proof.
  intros Hx. split; [now apply binary64_representable|].
  intros y Hy. now apply binary64_nearest.
Qed.

(** The percentage [a / b * 100] as the code computes it, for [a <= b]: it
    is off the exact percentage by [2^-45] at most. *)
Lemma percentage_near (a b : nat) :
  (a <= b)%nat -> (0 < b)%nat ->
  let exact := inject_Z (Z.of_nat a) / inject_Z (Z.of_nat b) * inject_Z 100 in
  let quotient := JS.div (inject_Z (Z.of_nat a)) (inject_Z (Z.of_nat b)) in
  let percentage := JS.mul quotient (inject_Z 100) in
  0 <= percentage /\ Qabs (percentage - exact) <= 2 ^ (-45)
  /\ nearest64 (inject_Z (Z.of_nat a) / inject_Z (Z.of_nat b)) quotient
  /\ nearest64 (quotient * inject_Z 100) percentage.
Proof.
  intros Hab Hb exact quotient percentage. unfold quotient in *. clear quotient.
  set (x := inject_Z (Z.of_nat a) / inject_Z (Z.of_nat b)) in *.
  assert (Hbq : 0 < inject_Z (Z.of_nat b)).
  { change 0 with (inject_Z 0). rewrite <- Zlt_Qlt. lia. }
  assert (Hx0 : 0 <= x).
  { apply Qle_shift_div_l; [exact Hbq|]. rewrite Qmult_0_l.
    change 0 with (inject_Z 0). rewrite <- Zle_Qle. lia. }
  assert (Hx1 : x <= 1).
  { apply Qle_shift_div_r; [exact Hbq|]. rewrite Qmult_1_l. rewrite <- Zle_Qle. lia. }
  set (d := JS.div (inject_Z (Z.of_nat a)) (inject_Z (Z.of_nat b))) in *.
  assert (Hd : Qabs (d - x) <= 2 ^ (-53)).
  { apply (binary64_near x 0); [exact Hx0| |lia]. change (2 ^ (0 + 1)) with 2. lra. }
  assert (Hd0 : 0 <= d) by now apply binary64_nonneg.
  apply Qabs_Qle_condition in Hd. change (2 ^ (-53)) with (1 # 9007199254740992) in Hd.
  assert (Hy0 : 0 <= d * inject_Z 100).
  { apply Qmult_le_0_compat; [exact Hd0|discriminate]. }
  assert (Hp : Qabs (percentage - d * inject_Z 100) <= 2 ^ (-47)).
  { apply (binary64_near (d * inject_Z 100) 6); [exact Hy0| |lia].
    change (2 ^ (6 + 1)) with 128. change (inject_Z 100) with 100. lra. }
  split; [now apply binary64_nonneg|].
  split; [|split; [now apply binary64_nearest64|now apply binary64_nearest64]].
  apply Qabs_Qle_condition in Hp. change (2 ^ (-47)) with (1 # 140737488355328) in Hp.
  apply Qabs_Qle_condition. change (2 ^ (-45)) with (1 # 35184372088832).
  unfold exact. fold x. change (inject_Z 100) with 100 in *. split; lra.
Qed.

(** On the percentages of up to a hundred old URLs, and of 160, [JS.div]
    and [JS.mul] give the numbers the Standard Library's specification of
    binary64 arithmetic gives. *)
Lemma percentage_checked :
  forallb (fun b =>
             forallb (fun a =>
                        Qeq_bool (JS.mul (JS.div (inject_Z (Z.of_nat a)) (inject_Z (Z.of_nat b)))
                                         (inject_Z 100))
                                 (percentage64 a b))
                     (seq 0 (S b)))
          (160%nat :: seq 1 100)
  = true.
Proof. vm_compute. reflexivity. Qed.

End NumberFacts.

(** ** The correspondence report *)

Section ComparisonFacts.
Variable newURL : string -> option URL.

Local Abbreviation normalize := (normalizeUrl newURL).
Local Abbreviation compare := (compareUrls newURL).
Local Abbreviation similar := (findSimilarUrl newURL).

Lemma classifyOld_verdict (S : JS.Set_) (rm : option (JS.Map string)) (b : Buckets)
    (entry : string * string) :
  classifyOld newURL S rm b entry =
  match verdict newURL S rm entry with
  | Direct => pushMatched b (directMatch (snd entry))
  | Mapped mappedUrl => pushRedirected b (mappedMatch (snd entry) mappedUrl)
  | Missing => pushMissing b {| missing_oldUrl := snd entry;
                                suggestion := similar (fst entry) S |}
  end.
Proof.
  unfold classifyOld, verdict.
  destruct (JS.Set_has S (fst entry)); [reflexivity |].
  destruct rm as [redirects |]; [| reflexivity].
  destruct (JS.Map_get redirects (snd entry)) as [mappedUrl |]; [| reflexivity].
  destruct (JS.Set_has S (normalize mappedUrl)); reflexivity.
Qed.

(** The first loop, as three filters over the map's entries. *)
Lemma fold_classifyOld (S : JS.Set_) (rm : option (JS.Map string)) (m : JS.Map string) :
  forall b,
    fold_left (classifyOld newURL S rm) m b =
    {| b_matched := b_matched b ++ matchedOf newURL S rm m;
       b_redirected := b_redirected b ++ redirectedOf newURL S rm m;
       b_missing := b_missing b ++ missingOf newURL S rm m |}.
Proof.
  induction m as [| entry m IH]; intros b; simpl.
  - rewrite !app_nil_r. now destruct b.
  - rewrite IH, classifyOld_verdict.
    destruct (verdict newURL S rm entry); simpl; rewrite <- ?app_assoc; reflexivity.
Qed.

Lemma buckets_length (S : JS.Set_) (rm : option (JS.Map string)) (m : JS.Map string) :
  (List.length (matchedOf newURL S rm m) + List.length (redirectedOf newURL S rm m)
   + List.length (missingOf newURL S rm m) = List.length m)%nat.
Proof.
  induction m as [| entry m IH]; simpl; [reflexivity |].
  unfold matchedOf, redirectedOf, missingOf in *. simpl.
  destruct (verdict newURL S rm entry); simpl; lia.
Qed.

Lemma matchedOf_In (S : JS.Set_) (rm : option (JS.Map string)) (m : JS.Map string)
    (e : MatchEntry) :
  In e (matchedOf newURL S rm m) <->
  exists entry, In entry m /\ verdict newURL S rm entry = Direct /\ e = directMatch (snd entry).
Proof.
  unfold matchedOf. rewrite in_flat_map. split.
  - intros [entry [Hin He]]. exists entry.
    destruct (verdict newURL S rm entry); simpl in He; try contradiction.
    destruct He as [<- | []]. auto.
  - intros [entry [Hin [Hv ->]]]. exists entry. rewrite Hv. simpl. auto.
Qed.

Lemma redirectedOf_In (S : JS.Set_) (rm : option (JS.Map string)) (m : JS.Map string)
    (e : MatchEntry) :
  In e (redirectedOf newURL S rm m) <->
  exists entry mappedUrl,
    In entry m /\ verdict newURL S rm entry = Mapped mappedUrl
    /\ e = mappedMatch (snd entry) mappedUrl.
Proof.
  unfold redirectedOf. rewrite in_flat_map. split.
  - intros [entry [Hin He]]. exists entry.
    destruct (verdict newURL S rm entry) as [| mappedUrl |]; simpl in He; try contradiction.
    destruct He as [<- | []]. exists mappedUrl. auto.
  - intros [entry [mappedUrl [Hin [Hv ->]]]]. exists entry. rewrite Hv. simpl. auto.
Qed.

Lemma missingOf_In (S : JS.Set_) (rm : option (JS.Map string)) (m : JS.Map string)
    (e : MissingEntry) :
  In e (missingOf newURL S rm m) <->
  exists entry,
    In entry m /\ verdict newURL S rm entry = Missing
    /\ e = {| missing_oldUrl := snd entry; suggestion := similar (fst entry) S |}.
Proof.
  unfold missingOf. rewrite in_flat_map. split.
  - intros [entry [Hin He]]. exists entry.
    destruct (verdict newURL S rm entry); simpl in He; try contradiction.
    destruct He as [<- | []]. auto.
  - intros [entry [Hin [Hv ->]]]. exists entry. rewrite Hv. simpl. auto.
Qed.

(** The buckets of the report, read off the map of normalized old URLs. *)
Lemma compareUrls_buckets (oldUrls newUrls : list string) (rm : option (JS.Map string)) :
  let m := JS.Map_from (map (fun url => (normalize url, url)) oldUrls) in
  let S := JS.Set_from (map normalize newUrls) in
  matched (compare oldUrls newUrls rm) = matchedOf newURL S rm m
  /\ redirected (compare oldUrls newUrls rm) = redirectedOf newURL S rm m
  /\ missing (compare oldUrls newUrls rm) = missingOf newURL S rm m.
Proof.
  unfold compareUrls. simpl. rewrite fold_classifyOld. simpl. auto.
Qed.

(** Every entry of the map pairs an old URL with its normal form. *)
Lemma normalizedOldUrls_In (oldUrls : list string) (entry : string * string) :
  In entry (JS.Map_from (map (fun url => (normalize url, url)) oldUrls)) ->
  In (snd entry) oldUrls /\ fst entry = normalize (snd entry).
Proof.
  intros H. apply JSFacts.Map_from_In in H. apply in_map_iff in H.
  destruct H as [u [<- Hin]]. simpl. auto.
Qed.

Lemma normalizedOldUrls_length (oldUrls : list string) :
  List.length (JS.Map_from (map (fun url => (normalize url, url)) oldUrls))
  = List.length (nodup string_dec (map normalize oldUrls)).
Proof.
  rewrite JSFacts.Map_from_length, map_map. reflexivity.
Qed.

(** What does hold of the three buckets: together they have one entry per
    distinct normal form among the old URLs, never more than there are old
    URLs, and exactly as many when no two old URLs share a normal form.  The
    [oldUrl] of every entry is one of the old URLs. *)
Lemma compareUrls_partition (oldUrls newUrls : list string)
    (redirectMap : option (JS.Map string)) :
  let R := compare oldUrls newUrls redirectMap in
  let entries := (List.length (matched R) + List.length (redirected R)
                  + List.length (missing R))%nat in
  entries = List.length (nodup string_dec (map normalize oldUrls))
  /\ (entries <= List.length oldUrls)%nat
  /\ (NoDup (map normalize oldUrls) -> entries = List.length oldUrls)
  /\ Forall (fun e => In (oldUrl e) oldUrls) (matched R)
  /\ Forall (fun e => In (oldUrl e) oldUrls) (redirected R)
  /\ Forall (fun e => In (missing_oldUrl e) oldUrls) (missing R).
Proof.
  intros R entries.
  destruct (compareUrls_buckets oldUrls newUrls redirectMap) as [Hm [Hr Hx]].
  assert (Hlen : entries = List.length (nodup string_dec (map normalize oldUrls))).
  { unfold entries, R. rewrite Hm, Hr, Hx, buckets_length. apply normalizedOldUrls_length. }
  split; [exact Hlen |]. split; [| split; [| repeat split]].
  - rewrite Hlen, <- (length_map normalize oldUrls).
    apply NoDup_incl_length; [apply NoDup_nodup |].
    intros x Hx'. now apply nodup_In in Hx'.
  - intros Hnd. rewrite Hlen, (nodup_fixed_point string_dec Hnd). apply length_map.
  - apply Forall_forall. intros e He. unfold R in He. rewrite Hm in He.
    apply matchedOf_In in He. destruct He as [entry [Hin [_ ->]]].
    apply normalizedOldUrls_In in Hin. apply Hin.
  - apply Forall_forall. intros e He. unfold R in He. rewrite Hr in He.
    apply redirectedOf_In in He. destruct He as [entry [mappedUrl [Hin [_ ->]]]].
    apply normalizedOldUrls_In in Hin. apply Hin.
  - apply Forall_forall. intros e He. unfold R in He. rewrite Hx in He.
    apply missingOf_In in He. destruct He as [entry [Hin [_ ->]]].
    apply normalizedOldUrls_In in Hin. apply Hin.
Qed.

(** *** The redirect rule *)

Lemma normalizedOldUrls_get (before after : list string) (o : string) :
  ~ In (normalize o) (map normalize after) ->
  JS.Map_get (JS.Map_from (map (fun url => (normalize url, url)) (before ++ o :: after)))
             (normalize o) = Some o.
Proof.
  intros Hlast. rewrite map_app. simpl. apply JSFacts.Map_from_get_last.
  now rewrite map_map.
Qed.

Lemma normalizedNewUrls_has (newUrls : list string) (k : string) :
  JS.Set_has (JS.Set_from (map normalize newUrls)) k = true <-> In k (map normalize newUrls).
Proof. rewrite JSFacts.Set_has_In. apply JSFacts.Set_from_In. Qed.

(** An old URL sits in the buckets only through the entry the map keeps for
    its normal form. *)
Lemma oldUrl_verdict (oldUrls newUrls : list string) (rm : option (JS.Map string)) (o : string) :
  let S := JS.Set_from (map normalize newUrls) in
  let R := compare oldUrls newUrls rm in
  (In o (map oldUrl (matched R)) -> verdict newURL S rm (normalize o, o) = Direct)
  /\ (In o (map oldUrl (redirected R)) ->
      exists mappedUrl, verdict newURL S rm (normalize o, o) = Mapped mappedUrl)
  /\ (In o (map missing_oldUrl (missing R)) -> verdict newURL S rm (normalize o, o) = Missing).
Proof.
  intros S R. destruct (compareUrls_buckets oldUrls newUrls rm) as [Hm [Hr Hx]].
  unfold R. rewrite Hm, Hr, Hx. repeat split.
  - intros H. apply in_map_iff in H. destruct H as [e [<- He]].
    apply matchedOf_In in He. destruct He as [[k v] [Hin [Hv ->]]].
    apply normalizedOldUrls_In in Hin. simpl in *. destruct Hin as [_ ->]. exact Hv.
  - intros H. apply in_map_iff in H. destruct H as [e [<- He]].
    apply redirectedOf_In in He. destruct He as [[k v] [mappedUrl [Hin [Hv ->]]]].
    apply normalizedOldUrls_In in Hin. simpl in *. destruct Hin as [_ ->]. eauto.
  - intros H. apply in_map_iff in H. destruct H as [e [<- He]].
    apply missingOf_In in He. destruct He as [[k v] [Hin [Hv ->]]].
    apply normalizedOldUrls_In in Hin. simpl in *. destruct Hin as [_ ->]. exact Hv.
Qed.

(** C2 (as amended).  Let [o] be the last old URL with its normal form, with
    a redirect entry [o -> n] whose target normalizes to a normalized new URL.
    When [normalize o] is not itself a normalized new URL, [o] is classified
    as redirected, with [newUrl = n] and [matchType = "mapped"], and sits in
    no other bucket.  When [normalize o] is a normalized new URL, the direct
    match wins: [o] is classified as matched and is not redirected. *)
Theorem compareUrls_redirect_rule (before after newUrls : list string)
    (redirects : JS.Map string) (o n : string) :
  ~ In (normalize o) (map normalize after) ->
  JS.Map_get redirects o = Some n ->
  In (normalize n) (map normalize newUrls) ->
  let R := compare (before ++ o :: after) newUrls (Some redirects) in
  (~ In (normalize o) (map normalize newUrls) ->
   In (mappedMatch o n) (redirected R)
   /\ ~ In o (map oldUrl (matched R))
   /\ ~ In o (map missing_oldUrl (missing R)))
  /\ (In (normalize o) (map normalize newUrls) ->
      In (directMatch o) (matched R)
      /\ ~ In o (map oldUrl (redirected R))
      /\ ~ In o (map missing_oldUrl (missing R))).
Proof.
  intros Hlast Hget Htarget R.
  set (S := JS.Set_from (map normalize newUrls)).
  assert (Hentry : In (normalize o, o)
                      (JS.Map_from (map (fun url => (normalize url, url)) (before ++ o :: after)))).
  { apply JSFacts.Map_get_In, normalizedOldUrls_get, Hlast. }
  destruct (compareUrls_buckets (before ++ o :: after) newUrls (Some redirects)) as [Hm [Hr Hx]].
  destruct (oldUrl_verdict (before ++ o :: after) newUrls (Some redirects) o) as [Vm [Vr Vx]].
  fold S in Vm, Vr, Vx. fold R in Vm, Vr, Vx, Hm, Hr, Hx.
  apply normalizedNewUrls_has in Htarget. fold S in Htarget.
  split.
  - intros Hnot.
    assert (Hv : verdict newURL S (Some redirects) (normalize o, o) = Mapped n).
    { unfold verdict. simpl.
      destruct (JS.Set_has S (normalize o)) eqn:E.
      - apply normalizedNewUrls_has in E. contradiction.
      - now rewrite Hget, Htarget. }
    repeat split.
    + rewrite Hr. apply redirectedOf_In. exists (normalize o, o), n. auto.
    + intros H. apply Vm in H. congruence.
    + intros H. apply Vx in H. congruence.
  - intros Hin. apply normalizedNewUrls_has in Hin. fold S in Hin.
    assert (Hv : verdict newURL S (Some redirects) (normalize o, o) = Direct).
    { unfold verdict. simpl. now rewrite Hin. }
    repeat split.
    + rewrite Hm. apply matchedOf_In. exists (normalize o, o). auto.
    + intros H. apply Vr in H. destruct H as [mappedUrl H]. congruence.
    + intros H. apply Vx in H. congruence.
Qed.

(** *** The summary *)

(** C4 (as amended).  Each count of the summary is the length of its list.
    With no old URLs the old-side buckets are empty and [matchRate] is the
    number 0, while [newCount] still counts the new URLs.  Otherwise
    [matchRate] is a string: [toFixed(2)] of the percentage the code computes
    in binary64, [(|matched| + |redirected|) / |oldUrls| * 100], that is the
    integer [k] nearest to a hundred times that number, printed with a point
    before its last two digits.  The quotient is a binary64 number nearest to
    the exact quotient, and the percentage a binary64 number nearest to a
    hundred times the quotient.  The percentage is off the exact one by
    [2^-45] at most, so the string is the exact percentage rounded to two
    decimals whenever the exact percentage keeps [2^-45] away from the two
    ends of the range of numbers that round to [k]. *)
Theorem compareUrls_summary (oldUrls newUrls : list string)
    (redirectMap : option (JS.Map string)) :
  let R := compare oldUrls newUrls redirectMap in
  let s := summary R in
  totalOldUrls s = List.length oldUrls
  /\ totalNewUrls s = List.length newUrls
  /\ matchedCount s = List.length (matched R)
  /\ redirectedCount s = List.length (redirected R)
  /\ missingCount s = List.length (missing R)
  /\ newCount s = List.length (new R)
  /\ match oldUrls with
     | [] =>
         matched R = [] /\ redirected R = [] /\ missing R = []
         /\ matchRate s = RateNumber 0
     | _ :: _ =>
         let hits := inject_Z (Z.of_nat (List.length (matched R) + List.length (redirected R))) in
         let all := inject_Z (Z.of_nat (List.length oldUrls)) in
         let exact := (hits / all * inject_Z 100)%Q in
         let quotient := JS.div hits all in
         let percentage := JS.mul quotient (inject_Z 100) in
         let k := JS.roundHalfUp (percentage * inject_Z 100) in
         matchRate s = RateString (JS.withPoint (JS.decimal (Z.to_N k)) 2)
         /\ (inject_Z k - (1 # 2) <= percentage * inject_Z 100)%Q
         /\ (percentage * inject_Z 100 < inject_Z k + (1 # 2))%Q
         /\ JS.nearest64 (hits / all) quotient
         /\ JS.nearest64 (quotient * inject_Z 100) percentage
         /\ (Qabs (percentage - exact) <= 2 ^ (-45))%Q
         /\ (forall j : Z,
               ((inject_Z j - (1 # 2)) / inject_Z 100 + 2 ^ (-45) <= exact)%Q ->
               (exact + 2 ^ (-45) < (inject_Z j + (1 # 2)) / inject_Z 100)%Q ->
               k = j)
     end.
Proof.
  intros R s. repeat (split; [reflexivity |]).
  destruct oldUrls as [| o oldUrls'].
  - repeat split; reflexivity.
  - intros hits all exact quotient percentage k.
    destruct (compareUrls_partition (o :: oldUrls') newUrls redirectMap) as [_ [Hle _]].
    fold R in Hle.
    destruct (NumberFacts.percentage_near
                (List.length (matched R) + List.length (redirected R))
                (List.length (o :: oldUrls'))) as (Hpos & Hnear & Hq & Hp);
      [lia | simpl; lia |].
    fold hits all exact quotient percentage in Hpos, Hnear, Hq, Hp.
    split; [| split; [| split; [| split; [| split; [| split]]]]].
    + unfold k. rewrite <- toFixed_2 by exact Hpos. reflexivity.
    + apply roundHalfUp_nearest.
    + apply roundHalfUp_nearest.
    + exact Hq.
    + exact Hp.
    + exact Hnear.
    + intros j Hlo Hhi. unfold k. apply Qabs_Qle_condition in Hnear.
      change (2 ^ (-45))%Q with (1 # 35184372088832)%Q in *.
      change (inject_Z 100) with 100%Q in *.
      clearbody exact percentage. unfold Qdiv in Hlo, Hhi.
      change (/ 100)%Q with (1 # 100)%Q in Hlo, Hhi.
      apply roundHalfUp_unique; lra.
Qed.

(** *** Suggestions for missing URLs *)

Section FindSimilar.
Variable targetPath : string.

Lemma similarStep_inv (seen : list string) (st : Q * option string) (candidateUrl : string) :
  similarInv newURL targetPath seen st ->
  similarInv newURL targetPath (seen ++ [candidateUrl]) (similarStep newURL targetPath st candidateUrl).
Proof.
  destruct st as [mx best]. unfold similarInv, similarStep. simpl.
  destruct (newURL candidateUrl) as [c |] eqn:Hc.
  - set (q := calculateSimilarity targetPath (pathname c)).
    destruct (JS.Qltb mx q && JS.Qltb (1 # 2) q) eqn:Htest; simpl.
    + apply andb_true_iff in Htest. destruct Htest as [H1 H2].
      apply Qltb_lt in H1. apply Qltb_lt in H2.
      split; [apply in_or_app; right; now left |].
      split; [exists c; auto |]. split; [exact H2 |].
      intros x c' Hx Hc'. apply in_app_or in Hx. destruct Hx as [Hx | [<- | []]].
      * destruct best as [s |].
        -- intros. destruct H as [_ [_ [_ H]]]. apply Qlt_le_weak.
           eapply Qle_lt_trans; [exact (H x c' Hx Hc') | exact H1].
        -- intros. destruct H as [_ H]. apply Qlt_le_weak.
           eapply Qle_lt_trans; [exact (H x c' Hx Hc') | exact H2].
      * intros. rewrite Hc in Hc'. injection Hc' as <-. apply Qle_refl.
    + apply andb_false_iff in Htest.
      destruct best as [s |]; intros H.
      * destruct H as [Hs [Hsc [Hhalf Hall]]].
        split; [apply in_or_app; now left |]. split; [exact Hsc |]. split; [exact Hhalf |].
        intros x c' Hx Hc'. apply in_app_or in Hx. destruct Hx as [Hx | [<- | []]]; [eauto |].
        rewrite Hc in Hc'. injection Hc' as <-. fold q.
        destruct Htest as [H1 | H2].
        -- now apply Qltb_ge in H1.
        -- apply Qltb_ge in H2. apply Qlt_le_weak. eapply Qle_lt_trans; eauto.
      * destruct H as [Hmx Hall]. split; [exact Hmx |].
        intros x c' Hx Hc'. apply in_app_or in Hx. destruct Hx as [Hx | [<- | []]]; [eauto |].
        rewrite Hc in Hc'. injection Hc' as <-. fold q.
        destruct Htest as [H1 | H2].
        -- apply Qltb_ge in H1. subst mx. eapply Qle_trans; [exact H1 | discriminate].
        -- now apply Qltb_ge in H2.
  - destruct best as [s |]; intros H.
    + destruct H as [Hs [Hsc [Hhalf Hall]]].
      split; [apply in_or_app; now left |]. split; [exact Hsc |]. split; [exact Hhalf |].
      intros x c' Hx Hc'. apply in_app_or in Hx. destruct Hx as [Hx | [<- | []]]; [eauto |].
      congruence.
    + destruct H as [Hmx Hall]. split; [exact Hmx |].
      intros x c' Hx Hc'. apply in_app_or in Hx. destruct Hx as [Hx | [<- | []]]; [eauto |].
      congruence.
Qed.

Lemma similarLoop_inv (candidateUrls : list string) :
  forall seen st,
    similarInv newURL targetPath seen st ->
    similarInv newURL targetPath (seen ++ candidateUrls) (fold_left (similarStep newURL targetPath) candidateUrls st).
Proof.
  induction candidateUrls as [| x rest IH]; intros seen st Hinv; simpl.
  - now rewrite app_nil_r.
  - replace (seen ++ x :: rest) with ((seen ++ [x]) ++ rest) by now rewrite <- app_assoc.
    apply IH, similarStep_inv, Hinv.
Qed.

End FindSimilar.

(** [findSimilarUrl] returns the first candidate of greatest path similarity
    above one half, and nothing when no candidate gets above one half or the
    target does not parse. *)
Lemma findSimilarUrl_spec (targetUrl : string) (candidateUrls : list string) :
  match similar targetUrl candidateUrls with
  | Some s =>
      In s candidateUrls
      /\ exists t c,
          newURL targetUrl = Some t /\ newURL s = Some c
          /\ (1 # 2 < calculateSimilarity (pathname t) (pathname c))%Q
          /\ forall x c', In x candidateUrls -> newURL x = Some c' ->
                          (calculateSimilarity (pathname t) (pathname c')
                           <= calculateSimilarity (pathname t) (pathname c))%Q
  | None =>
      newURL targetUrl = None
      \/ exists t,
          newURL targetUrl = Some t
          /\ forall x c', In x candidateUrls -> newURL x = Some c' ->
                          (calculateSimilarity (pathname t) (pathname c') <= 1 # 2)%Q
  end.
Proof.
  unfold findSimilarUrl.
  destruct (newURL targetUrl) as [t |] eqn:Ht.
  - assert (Hinv : similarInv newURL (pathname t) candidateUrls
                     (fold_left (similarStep newURL (pathname t)) candidateUrls (0%Q, None))).
    { apply (similarLoop_inv (pathname t) candidateUrls [] (0%Q, None)).
      split; [reflexivity | intros x c []]. }
    destruct candidateUrls as [| x0 rest] eqn:Hcands.
    + right. exists t. split; [reflexivity | intros x c' []].
    + rewrite <- Hcands in *. unfold similarInv in Hinv.
      destruct (snd (fold_left (similarStep newURL (pathname t)) candidateUrls (0%Q, None)))
        as [s |].
      * destruct Hinv as [Hs [[c [Hc Hq]] [Hhalf Hall]]].
        split; [exact Hs |]. exists t, c. rewrite <- Hq. auto.
      * right. exists t. split; [reflexivity | apply Hinv].
  - destruct candidateUrls; left; reflexivity.
Qed.

(** C5 (as amended).  The suggestion of a missing entry, when present, is one
    of the normalized new URLs: the normal form of some new URL, whose path is
    more than half similar to the path of the normalized old URL and at least
    as similar as the path of every other normalized new URL.  There is no
    suggestion when the normalized old URL does not parse or no normalized new
    URL is more than half similar. *)
Theorem missing_suggestion (oldUrls newUrls : list string)
    (redirectMap : option (JS.Map string)) (e : MissingEntry) :
  In e (missing (compare oldUrls newUrls redirectMap)) ->
  match suggestion e with
  | Some s =>
      (exists x, In x newUrls /\ s = normalize x)
      /\ exists t c,
          newURL (normalize (missing_oldUrl e)) = Some t /\ newURL s = Some c
          /\ (1 # 2 < calculateSimilarity (pathname t) (pathname c))%Q
          /\ forall x c', In x newUrls -> newURL (normalize x) = Some c' ->
                          (calculateSimilarity (pathname t) (pathname c')
                           <= calculateSimilarity (pathname t) (pathname c))%Q
  | None =>
      newURL (normalize (missing_oldUrl e)) = None
      \/ exists t,
          newURL (normalize (missing_oldUrl e)) = Some t
          /\ forall x c', In x newUrls -> newURL (normalize x) = Some c' ->
                          (calculateSimilarity (pathname t) (pathname c') <= 1 # 2)%Q
  end.
Proof.
  intros He.
  destruct (compareUrls_buckets oldUrls newUrls redirectMap) as [_ [_ Hx]].
  rewrite Hx in He. apply missingOf_In in He. destruct He as [[k v] [Hin [_ ->]]].
  apply normalizedOldUrls_In in Hin. simpl in *. destruct Hin as [_ ->].
  pose proof (findSimilarUrl_spec (normalize v) (JS.Set_from (map normalize newUrls))) as H.
  destruct (similar (normalize v) (JS.Set_from (map normalize newUrls))) as [s |].
  - destruct H as [Hs [t [c [Ht [Hc [Hhalf Hmax]]]]]].
    apply JSFacts.Set_from_In, in_map_iff in Hs. destruct Hs as [x [<- Hx']].
    split; [exists x; auto |]. exists t, c. repeat split; auto.
    intros x' c' Hx'' Hc'. apply (Hmax (normalize x')); [| exact Hc'].
    apply JSFacts.Set_from_In, in_map, Hx''.
  - destruct H as [H | [t [Ht Hall]]]; [now left |]. right. exists t. split; [exact Ht |].
    intros x c' Hx' Hc'. apply (Hall (normalize x)); [| exact Hc'].
    apply JSFacts.Set_from_In, in_map, Hx'.
Qed.

End ComparisonFacts.

(** C1 (the defect).  The first loop says it checks each old URL, but it runs
    over the map of normalized old URLs, and that map keeps one entry per
    normal form.  Two old URLs that differ in a trailing slash share one: the
    second takes the place of the first, which ends up in no bucket, and the
    buckets hold one entry for two old URLs. *)
Lemma compareUrls_loses_old_url :
  let oldUrls := ["http://a.com/x"; "http://a.com/x/"] in
  let R := compareUrls WHATWG.parse oldUrls [] None in
  matched R = [] /\ redirected R = []
  /\ missing R = [{| missing_oldUrl := "http://a.com/x/"; suggestion := None |}]
  /\ totalOldUrls (summary R) = 2%nat
  /\ (List.length (matched R) + List.length (redirected R) + List.length (missing R))%nat
     <> List.length oldUrls.
Proof. vm_compute. repeat split; try reflexivity. discriminate. Qed.

(** C2 (as stated) fails: the old URL below has a redirect entry whose target
    is a new URL, but its own normal form is a new URL too, and the direct
    match is tried first: it is matched, and nothing is redirected. *)
Lemma compareUrls_redirect_rule_counterexample :
  let R := compareUrls WHATWG.parse
             ["https://site.example/a"]
             ["https://site.example/a"; "https://site.example/b"]
             (Some [("https://site.example/a", "https://site.example/b")]) in
  redirected R = [] /\ matched R = [directMatch "https://site.example/a"].
Proof. vm_compute. split; reflexivity. Qed.

(** The redirect rule at work on a redirect whose source is not a new URL. *)
Lemma compareUrls_redirect_rule_witness :
  In (mappedMatch "https://old.site/legacy" "https://new.site/shiny")
     (redirected (compareUrls WHATWG.parse
                    ([] ++ "https://old.site/legacy" :: [])
                    ["https://new.site/shiny"]
                    (Some [("https://old.site/legacy", "https://new.site/shiny")]))).
Proof.
  refine (proj1 (proj1 (compareUrls_redirect_rule WHATWG.parse [] [] ["https://new.site/shiny"]
                          [("https://old.site/legacy", "https://new.site/shiny")]
                          "https://old.site/legacy" "https://new.site/shiny" _ _ _) _)).
  - simpl. tauto.
  - reflexivity.
  - vm_compute. left. reflexivity.
  - vm_compute. intros [H | []]. discriminate H.
Defined.

(** C4 (as stated) fails three times.  With one old URL out of one
    redirected the ratio is 1, which to two decimals reads "1.00", but
    [matchRate] is the percentage, the string "100.00".  With no old URLs but
    one new URL, [newCount] is 1, not 0.  And with 23 old URLs out of 160
    matched the percentage is 14.375, which to two decimals reads "14.38",
    but the binary64 quotient times 100 falls just short of it and
    [matchRate] is "14.37". *)
Lemma compareUrls_summary_counterexample :
  let R := compareUrls WHATWG.parse
             ["https://old.site/legacy"] ["https://new.site/shiny"]
             (Some [("https://old.site/legacy", "https://new.site/shiny")]) in
  let ratio := (inject_Z (Z.of_nat (List.length (matched R) + List.length (redirected R)))
                / inject_Z (Z.of_nat 1))%Q in
  let pages := numbered "https://site.example/page" 160 in
  let R' := compareUrls WHATWG.parse pages (firstn 23 pages) None in
  matchRate (summary R) = RateString "100.00"
  /\ JS.toFixed ratio 2 = "1.00"
  /\ newCount (summary (compareUrls WHATWG.parse [] ["https://new.site/"] None)) = 1%nat
  /\ matchedCount (summary R') = 23%nat
  /\ totalOldUrls (summary R') = 160%nat
  /\ JS.toFixed (23 / 160 * 100) 2 = "14.38"
  /\ matchRate (summary R') = RateString "14.37".
Proof. vm_compute. repeat split; reflexivity. Qed.

(** C5 (as stated) fails: the suggestion is taken from the normalized new
    URLs, and here it is not one of the new URLs as they were given. *)
Lemma missing_suggestion_counterexample :
  let newUrls := ["https://www.new.site/about/"] in
  let R := compareUrls WHATWG.parse ["https://old.site/about-us"] newUrls None in
  missing R = [{| missing_oldUrl := "https://old.site/about-us";
                  suggestion := Some "https://new.site/about" |}]
  /\ ~ In "https://new.site/about" newUrls.
Proof.
  vm_compute. split; [reflexivity |]. intros [H | []]. discriminate H.
Qed.

(** The suggestion of that missing entry is the normal form of a new URL. *)
Lemma missing_suggestion_witness :
  exists x, In x ["https://www.new.site/about/"]
            /\ "https://new.site/about" = normalizeUrl WHATWG.parse x.
Proof.
  refine (proj1 (missing_suggestion WHATWG.parse
                   ["https://old.site/about-us"] ["https://www.new.site/about/"] None
                   {| missing_oldUrl := "https://old.site/about-us";
                      suggestion := Some "https://new.site/about" |} _)).
  vm_compute. left. reflexivity.
Defined.

(** ** Nested sitemaps *)

Section SitemapFacts.
Variable world : World.

Lemma nestedSitemaps_ext (recurse recurse' : string -> bool -> outcome (list SitemapEntry))
    (sitemaps : list SitemapRef) :
  (forall sitemap sitemapUrl,
      In sitemap sitemaps -> sitemap_loc sitemap = Some sitemapUrl ->
      recurse sitemapUrl false = recurse' sitemapUrl false) ->
  forall urls, nestedSitemaps recurse sitemaps urls = nestedSitemaps recurse' sitemaps urls.
Proof.
  induction sitemaps as [| sitemap rest IH]; intros Hsame urls; simpl; [reflexivity |].
  destruct (sitemap_loc sitemap) as [sitemapUrl |] eqn:Hloc; [| reflexivity].
  rewrite <- (Hsame sitemap sitemapUrl (or_introl eq_refl) Hloc).
  assert (Hrest : forall s u, In s rest -> sitemap_loc s = Some u ->
                              recurse u false = recurse' u false).
  { intros s u Hin. apply Hsame. now right. }
  destruct (recurse sitemapUrl false); auto.
Qed.

Lemma nestedSitemaps_ends (recurse : string -> bool -> outcome (list SitemapEntry))
    (sitemaps : list SitemapRef) :
  (forall sitemap sitemapUrl,
      In sitemap sitemaps -> sitemap_loc sitemap = Some sitemapUrl ->
      recurse sitemapUrl false <> Pending) ->
  forall urls, nestedSitemaps recurse sitemaps urls <> Pending.
Proof.
  induction sitemaps as [| sitemap rest IH]; intros Hends urls; simpl; [discriminate |].
  destruct (sitemap_loc sitemap) as [sitemapUrl |] eqn:Hloc; [| discriminate].
  pose proof (Hends sitemap sitemapUrl (or_introl eq_refl) Hloc) as Hhere.
  assert (Hrest : forall s u, In s rest -> sitemap_loc s = Some u -> recurse u false <> Pending).
  { intros s u Hin. apply Hends. now right. }
  destruct (recurse sitemapUrl false); auto.
Qed.

Lemma parseSitemap_depth (d : nat) :
  forall filePath isFile,
    depthAtMost world d filePath isFile ->
    (forall fuel, (d < fuel)%nat ->
                  parseSitemap world fuel filePath isFile
                  = parseSitemap world (S d) filePath isFile)
    /\ parseSitemap world (S d) filePath isFile <> Pending.
Proof.
  induction d as [| d IH]; intros filePath isFile Hdepth.
  - simpl in Hdepth. split.
    + intros [| fuel] Hlt; [lia |]. simpl.
      destruct (world isFile filePath) as [message | [sitemaps | urlElements |]];
        [reflexivity | contradiction | reflexivity | reflexivity].
    + simpl. destruct (world isFile filePath) as [message | [sitemaps | urlElements |]];
        try discriminate; [contradiction |].
      destruct (mapUrlElements urlElements); discriminate.
  - simpl in Hdepth. split.
    + intros [| fuel] Hlt; [lia |].
      change (parseSitemap world (S fuel) filePath isFile)
        with (match world isFile filePath with
              | inl message => failedToParse message
              | inr (SitemapIndex sitemaps) => nestedSitemaps (parseSitemap world fuel) sitemaps []
              | inr (UrlSet urlElements) =>
                  match mapUrlElements urlElements with
                  | Some urls => Returned urls
                  | None => failedToParse typeErrorLoc
                  end
              | inr OtherRoot =>
                  failedToParse "Invalid sitemap format: no urlset or sitemapindex found"
              end).
      change (parseSitemap world (S (S d)) filePath isFile)
        with (match world isFile filePath with
              | inl message => failedToParse message
              | inr (SitemapIndex sitemaps) => nestedSitemaps (parseSitemap world (S d)) sitemaps []
              | inr (UrlSet urlElements) =>
                  match mapUrlElements urlElements with
                  | Some urls => Returned urls
                  | None => failedToParse typeErrorLoc
                  end
              | inr OtherRoot =>
                  failedToParse "Invalid sitemap format: no urlset or sitemapindex found"
              end).
      destruct (world isFile filePath) as [message | [sitemaps | urlElements |]];
        try reflexivity.
      apply nestedSitemaps_ext. intros sitemap sitemapUrl Hin Hloc.
      rewrite Forall_forall in Hdepth. specialize (Hdepth sitemap Hin). rewrite Hloc in Hdepth.
      apply (IH sitemapUrl false Hdepth). lia.
    + change (parseSitemap world (S (S d)) filePath isFile)
        with (match world isFile filePath with
              | inl message => failedToParse message
              | inr (SitemapIndex sitemaps) => nestedSitemaps (parseSitemap world (S d)) sitemaps []
              | inr (UrlSet urlElements) =>
                  match mapUrlElements urlElements with
                  | Some urls => Returned urls
                  | None => failedToParse typeErrorLoc
                  end
              | inr OtherRoot =>
                  failedToParse "Invalid sitemap format: no urlset or sitemapindex found"
              end).
      destruct (world isFile filePath) as [message | [sitemaps | urlElements |]];
        try discriminate.
      * apply nestedSitemaps_ends. intros sitemap sitemapUrl Hin Hloc.
        rewrite Forall_forall in Hdepth. specialize (Hdepth sitemap Hin). rewrite Hloc in Hdepth.
        apply (IH sitemapUrl false Hdepth).
      * destruct (mapUrlElements urlElements); discriminate.
Qed.

(** C3 (as amended).  [parseSitemap] keeps no set of visited sitemaps and has
    no depth cap: it follows every reference of every sitemap index.  It ends,
    by returning or by throwing, whenever the sitemaps reachable from the
    document lie at most [d] references deep, for any [d]; the outcome is the
    same for every amount of fuel above [d]. *)
Theorem parseSitemap_terminates (d : nat) (filePath : string) (isFile : bool) :
  depthAtMost world d filePath isFile ->
  exists result,
    result <> Pending
    /\ forall fuel, (d < fuel)%nat -> parseSitemap world fuel filePath isFile = result.
Proof.
  intros Hdepth. destruct (parseSitemap_depth d filePath isFile Hdepth) as [Hsame Hends].
  exists (parseSitemap world (S d) filePath isFile). split; assumption.
Qed.

End SitemapFacts.

Lemma selfReferencing_pending (fuel : nat) :
  parseSitemap selfReferencing fuel "https://site.example/sitemap.xml" false = Pending.
Proof.
  induction fuel as [| fuel IH]; [reflexivity |].
  change (parseSitemap selfReferencing (S fuel) "https://site.example/sitemap.xml" false)
    with (match parseSitemap selfReferencing fuel "https://site.example/sitemap.xml" false with
          | Returned nestedUrls => Returned ([] ++ nestedUrls)
          | Thrown _ => Returned []
          | Pending => Pending
          end).
  now rewrite IH.
Qed.

(** C3 (as stated) fails on all three counts.  On a sitemap index that lists
    itself the call is still running whatever the fuel; a chain of six nested
    indices is followed to its end, beyond any cap of four; and a sitemap
    listed twice is fetched twice. *)
Lemma parseSitemap_counterexample :
  (forall fuel,
      parseSitemap selfReferencing fuel "https://site.example/sitemap.xml" false = Pending)
  /\ parseSitemap sixDeep 7 "sitemap.xml" true
     = Returned [{| url := "https://site.example/page"; lastmod := None;
                    changefreq := None; priority := None |}]
  /\ parseSitemap listedTwice 2 "sitemap.xml" true
     = Returned [{| url := "https://site.example/page"; lastmod := None;
                    changefreq := None; priority := None |};
                 {| url := "https://site.example/page"; lastmod := None;
                    changefreq := None; priority := None |}].
Proof.
  split; [exact selfReferencing_pending |]. split; vm_compute; reflexivity.
Qed.

(** The chain of six indices ends, with any fuel above six. *)
Lemma parseSitemap_terminates_witness :
  exists result,
    result <> Pending
    /\ forall fuel, (6 < fuel)%nat -> parseSitemap sixDeep fuel "sitemap.xml" true = result.
Proof.
  apply (parseSitemap_terminates sixDeep 6 "sitemap.xml" true).
  repeat (simpl; constructor).
Defined.

(** ** The retry loop *)

Section RetryFacts.
Import StatusChecker.
Variable checkUrlStatus : nat -> nat -> string -> ProbeResult.
Variable options : Options.
Variable finish : nat -> nat.

Lemma probes_expectedLog (results : list ProbeResult) :
  forall attempt, probes (expectedLog (delay options) attempt results) = results.
Proof.
  induction results as [| r rest IH]; intros attempt; [reflexivity |].
  destruct rest as [| r' rest']; [reflexivity |].
  change (probes (expectedLog (delay options) attempt (r :: r' :: rest')))
    with (r :: probes (expectedLog (delay options) (attempt + 1) (r' :: rest'))).
  now rewrite IH.
Qed.

Lemma sleeps_expectedLog (results : list ProbeResult) :
  forall attempt,
    sleeps (expectedLog (delay options) attempt results)
    = map (fun k => (delay options * (attempt + Z.of_nat k))%Z)
          (seq 0 (List.length results - 1)).
Proof.
  induction results as [| r rest IH]; intros attempt; [reflexivity |].
  destruct rest as [| r' rest']; [reflexivity |].
  change (sleeps (expectedLog (delay options) attempt (r :: r' :: rest')))
    with ((delay options * attempt)%Z
          :: sleeps (expectedLog (delay options) (attempt + 1) (r' :: rest'))).
  rewrite IH.
  replace (List.length (r :: r' :: rest') - 1)%nat with (S (List.length (r' :: rest') - 1))
    by (simpl; lia).
  simpl seq. simpl map. f_equal.
  - f_equal. lia.
  - rewrite <- seq_shift, map_map. apply map_ext. intros k. f_equal. lia.
Qed.

Lemma last_default {A} (l : list A) (d d' : A) : l <> [] -> List.last l d = List.last l d'.
Proof.
  induction l as [| a l IH]; intros Hne; [contradiction |].
  destruct l as [| b l]; [reflexivity |].
  change (List.last (b :: l) d = List.last (b :: l) d'). apply IH. discriminate.
Qed.

Lemma retryable_status (r : ProbeResult) :
  retryable r = true <-> statusCode r = 0%Z \/ (500 <= statusCode r)%Z.
Proof. unfold retryable. now rewrite orb_true_iff, Z.eqb_eq, Z.leb_le. Qed.

(** The loop from one of its states: it ends within the attempts that are
    left, having probed some [ps] in turn, and it stops on a result that
    asks for a retry only when no attempt is left. *)
Lemma retryLoop_spec (fuel : nat) (index : nat) (url : string) :
  forall st,
    (Z.to_nat (retryAttempts options - attempts st) < fuel)%nat ->
    exists st' ps,
      retryLoop checkUrlStatus options fuel index url st = Some st'
      /\ log st' = log st ++ expectedLog (delay options) (attempts st + 1) ps
      /\ result st' = List.last (map Some ps) (result st)
      /\ calls st' = (calls st + List.length ps)%nat
      /\ ps = map (fun k => checkUrlStatus index k url) (seq (calls st) (List.length ps))
      /\ Forall (fun r => retryable r = true) (removelast ps)
      /\ (List.length ps <= Z.to_nat (retryAttempts options - attempts st))%nat
      /\ ((attempts st <? retryAttempts options)%Z = true -> ps <> [])
      /\ (forall r, List.last (map Some ps) None = Some r -> retryable r = true ->
                    (retryAttempts options <= attempts st + Z.of_nat (List.length ps))%Z).
Proof.
  induction fuel as [| fuel IH]; intros st Hfuel; [lia |].
  simpl. destruct (attempts st <? retryAttempts options)%Z eqn:Hlt.
  - apply Z.ltb_lt in Hlt.
    set (r := checkUrlStatus index (calls st) url).
    destruct (retryable r) eqn:Hretry.
    + destruct (attempts st + 1 <? retryAttempts options)%Z eqn:Hmore.
      * apply Z.ltb_lt in Hmore.
        match goal with
        | |- context [retryLoop _ _ fuel index url ?s] => destruct (IH s) as [st' [ps H]]
        end.
        { simpl. lia. }
        simpl in H.
        destruct H as [Hrun [Hlog [Hres [Hcalls [Hps [Hall [Hlen [Hne Hlast]]]]]]]].
        assert (Hps' : ps <> []) by (apply Hne; now apply Z.ltb_lt).
        exists st', (r :: ps). split; [exact Hrun |].
        destruct ps as [| p ps']; [contradiction |].
        repeat split.
        -- rewrite Hlog, <- !app_assoc. reflexivity.
        -- rewrite Hres. simpl map.
           change (List.last (Some r :: Some p :: map Some ps') (result st))
             with (List.last (Some p :: map Some ps') (result st)).
           apply last_default. discriminate.
        -- rewrite Hcalls. simpl. lia.
        -- simpl. f_equal. simpl in Hps. exact Hps.
        -- constructor; assumption.
        -- simpl in *. lia.
        -- discriminate.
        -- intros r' Hr' Hretry'.
           change (List.last (map Some (r :: p :: ps')) None)
             with (List.last (map Some (p :: ps')) None) in Hr'.
           specialize (Hlast r' Hr' Hretry'). cbn [List.length] in *. lia.
      * apply Z.ltb_ge in Hmore.
        eexists. exists [r]. repeat split; simpl; auto; try lia. discriminate.
    + eexists. exists [r]. repeat split; simpl; auto; try lia; [discriminate|].
      intros r' [= <-]. congruence.
  - exists st, []. apply Z.ltb_ge in Hlt.
    repeat split; simpl; auto; try lia; try discriminate.
    now rewrite app_nil_r.
Qed.

Lemma task_spec (fuel : nat) (index : nat) (url : string) :
  (Z.to_nat (retryAttempts options) < fuel)%nat ->
  exists run,
    task checkUrlStatus options fuel index url = Some run
    /\ run_url run = url
    /\ followsPolicy checkUrlStatus options index run.
Proof.
  intros Hfuel. unfold task.
  match goal with
  | |- context [retryLoop _ _ fuel index url ?s] =>
      destruct (retryLoop_spec fuel index url s) as [st' [ps H]]
  end.
  { simpl. rewrite Z.sub_0_r. exact Hfuel. }
  simpl in H. destruct H as [Hrun [Hlog [Hres [Hcalls [Hps [Hall [Hlen [Hne Hlast]]]]]]]].
  rewrite Hrun. eexists. split; [reflexivity |]. split; [reflexivity |].
  unfold followsPolicy. cbn [run_url run_result run_log]. rewrite Hlog, probes_expectedLog.
  rewrite Z.sub_0_r in Hlen.
  split; [reflexivity |]. split; [exact Hps |]. split.
  { intros Hpos. assert (ps <> []) by (apply Hne; now apply Z.ltb_lt).
    destruct ps; [congruence | simpl; lia]. }
  split; [exact Hlen |]. split.
  { eapply Forall_impl; [| exact Hall]. intros r. apply retryable_status. }
  split.
  { eapply Forall_impl; [| exact Hall]. intros r Hr. apply retryable_status in Hr. lia. }
  split.
  { intros r Hr Hstatus. apply retryable_status in Hstatus.
    specialize (Hlast r Hr Hstatus). lia. }
  split.
  { rewrite sleeps_expectedLog, <- seq_shift, map_map. apply map_ext.
    intros k. f_equal. lia. }
  split.
  { intros Hone. rewrite Hone in Hlen. rewrite sleeps_expectedLog.
    destruct ps as [| p [| p' ps']]; simpl in *; [reflexivity | reflexivity | lia]. }
  exact Hres.
Qed.

Lemma tasks_spec (fuel : nat) (urls : list string) :
  (Z.to_nat (retryAttempts options) < fuel)%nat ->
  forall index,
    exists runs,
      tasks checkUrlStatus options fuel index urls = Some runs
      /\ map run_url runs = urls
      /\ forall place run,
           nth_error runs place = Some run ->
           followsPolicy checkUrlStatus options (index + place) run.
Proof.
  intros Hfuel. induction urls as [| url rest IH]; intros index; simpl.
  - exists []. split; [reflexivity |]. split; [reflexivity |].
    intros [| place] run; discriminate.
  - destruct (task_spec fuel index url Hfuel) as [run1 [Htask [Hurl Hpolicy]]].
    destruct (IH (S index)) as [runs [Hruns [Hurls Hall]]].
    rewrite Htask, Hruns. exists (run1 :: runs). split; [reflexivity |].
    split; [simpl; now rewrite Hurl, Hurls |].
    intros [| place] run'; simpl.
    + intros [= <-]. now rewrite Nat.add_0_r.
    + intros H. rewrite <- Nat.add_succ_comm. now apply Hall.
Qed.

(** Whatever the order of the pushes, every task that was started or was
    waiting pushes once. *)
Lemma pushOrder_permutation (n : nat) :
  forall step running waiting,
    (List.length running + List.length waiting <= n)%nat ->
    (running = [] -> waiting = []) ->
    Permutation (pushOrder finish n step running waiting) (running ++ waiting).
Proof.
  induction n as [| n IH]; intros step running waiting Hn Hstart.
  - destruct running; [| simpl in Hn; lia]. rewrite (Hstart eq_refl). constructor.
  - destruct running as [| first others].
    + rewrite (Hstart eq_refl). constructor.
    + cbn [pushOrder].
      set (running := first :: others) in *.
      set (chosen := (finish step mod List.length running)%nat).
      assert (Hchosen : (chosen < List.length running)%nat)
        by (apply Nat.mod_upper_bound; discriminate).
      assert (Hsplit : running
                       = firstn chosen running ++ nth chosen running first
                         :: skipn (S chosen) running).
      { clearbody running chosen. clear - Hchosen. revert chosen Hchosen.
        induction running as [| a l IHl]; intros [| c] H; simpl in *; try lia;
          [reflexivity |].
        f_equal. apply IHl. lia. }
      assert (Hwait : firstn 1 waiting ++ skipn 1 waiting = waiting)
        by apply firstn_skipn.
      set (before := firstn chosen running) in *.
      set (after := skipn (S chosen) running) in *.
      set (pushed := nth chosen running first) in *.
      assert (Hall : running ++ waiting
                     = before ++ pushed :: (after ++ firstn 1 waiting) ++ skipn 1 waiting).
      { rewrite <- Hwait at 1. rewrite Hsplit at 1.
        rewrite <- !app_assoc. reflexivity. }
      rewrite Hall. apply Permutation_cons_app. rewrite app_assoc.
      rewrite app_assoc. rewrite <- (app_assoc before after).
      apply IH.
      * apply (f_equal (@List.length Run)) in Hall.
        rewrite !length_app in Hall. cbn [List.length] in Hall.
        rewrite !length_app in Hall. rewrite !length_app. lia.
      * intros Hempty. destruct waiting as [| w waiting']; [reflexivity |].
        cbn [firstn] in Hempty.
        apply (f_equal (@List.length Run)) in Hempty. rewrite !length_app in Hempty.
        cbn in Hempty. lia.
Qed.

(** [checkMultipleUrls] returns, with one task per URL, and the results are
    those of the tasks in some order. *)
Lemma checkMultipleUrls_spec (fuel : nat) (urls : list string) :
  (Z.to_nat (retryAttempts options) < fuel)%nat ->
  exists batch,
    checkMultipleUrls checkUrlStatus options finish fuel urls = Some batch
    /\ map run_url (runs batch) = urls
    /\ Permutation (results batch) (map run_result (runs batch))
    /\ completed batch = List.length urls
    /\ requests batch = List.length (flat_map (fun run => probes (run_log run)) (runs batch))
    /\ forall index run,
         nth_error (runs batch) index = Some run ->
         followsPolicy checkUrlStatus options index run.
Proof.
  intros Hfuel. unfold checkMultipleUrls.
  destruct (tasks_spec fuel urls Hfuel 0) as [runs [Hruns [Hurls Hall]]].
  rewrite Hruns. eexists. split; [reflexivity |]. cbn [StatusChecker.runs results completed requests].
  split; [exact Hurls |]. split; [| split; [| split; [reflexivity | exact Hall]]].
  - apply Permutation_map.
    apply Permutation_trans
      with (firstn (Pos.to_nat (concurrency options)) runs
            ++ skipn (Pos.to_nat (concurrency options)) runs);
      [| now rewrite firstn_skipn].
    apply pushOrder_permutation.
    + rewrite <- length_app, firstn_skipn. lia.
    + intros Hempty. destruct runs as [| run0 runs']; [now rewrite skipn_nil |].
      pose proof (Pos2Nat.is_pos (concurrency options)) as Hpos.
      destruct (Pos.to_nat (concurrency options)); [lia | discriminate].
  - rewrite <- Hurls. now rewrite length_map.
Qed.

(** C6.  In a batch every URL gets one task, and the results recorded are
    those of the tasks, one each, in the order the tasks push them.  A task
    probes its URL at least once when [retryAttempts] is positive; it probes
    again only after a result with status 0 or at least 500, never after a
    4xx, and after such a result it always does, until it has probed
    [retryAttempts] times; it sleeps [delay * k] before its [k]-th retry and
    at no other point of the loop, so with [retryAttempts = 1] it never
    sleeps between attempts; and the result it records is the last one it
    observed. *)
Theorem retry_policy (fuel : nat) (urls : list string) :
  (Z.to_nat (retryAttempts options) < fuel)%nat ->
  exists batch,
    checkMultipleUrls checkUrlStatus options finish fuel urls = Some batch
    /\ map run_url (runs batch) = urls
    /\ Permutation (results batch) (map run_result (runs batch))
    /\ completed batch = List.length urls
    /\ forall index run,
         nth_error (runs batch) index = Some run ->
         followsPolicy checkUrlStatus options index run.
Proof.
  intros Hfuel.
  destruct (checkMultipleUrls_spec fuel urls Hfuel)
    as (batch & Hrun & Hurls & Hperm & Hdone & _ & Hall).
  exists batch. auto.
Qed.

End RetryFacts.

(** Three URLs against a server that fails every task twice and then
    answers, with three attempts and the second of the running tasks always
    the first to push: each task sleeps [delay] and [2 * delay], and records
    the 200. *)
Lemma retry_policy_witness :
  let urls := ["https://site.example/"; "https://site.example/a"; "https://site.example/b"] in
  exists batch,
    StatusChecker.checkMultipleUrls failsTwice StatusChecker.defaultOptions (fun _ => 1%nat) 4
      urls = Some batch
    /\ map StatusChecker.run_url (StatusChecker.runs batch) = urls
    /\ Permutation (StatusChecker.results batch)
                   (map StatusChecker.run_result (StatusChecker.runs batch))
    /\ StatusChecker.completed batch = 3%nat
    /\ forall index run,
         nth_error (StatusChecker.runs batch) index = Some run ->
         StatusChecker.followsPolicy failsTwice StatusChecker.defaultOptions index run.
Proof.
  intros urls.
  apply (retry_policy failsTwice StatusChecker.defaultOptions (fun _ => 1%nat) 4 urls).
  vm_compute. lia.
Defined.

(** ** Categorisation of probe results *)

Section CategorizeFacts.
Import StatusChecker.

(** The bucket of one result: exactly one of the five tests holds. *)
Lemma one_bucket (r : ProbeResult) :
  (isOk r = true /\ isRedirection r = false /\ isClientError r = false
   /\ isServerError r = false /\ isLeftOver r = false)
  \/ (isOk r = false /\ isRedirection r = true /\ isClientError r = false
      /\ isServerError r = false /\ isLeftOver r = false)
  \/ (isOk r = false /\ isRedirection r = false /\ isClientError r = true
      /\ isServerError r = false /\ isLeftOver r = false)
  \/ (isOk r = false /\ isRedirection r = false /\ isClientError r = false
      /\ isServerError r = true /\ isLeftOver r = false)
  \/ (isOk r = false /\ isRedirection r = false /\ isClientError r = false
      /\ isServerError r = false /\ isLeftOver r = true).
Proof.
  unfold isOk, isRedirection, isClientError, isServerError, isLeftOver.
  destruct (Z.eqb_spec (statusCode r) 200), (Z.leb_spec 300 (statusCode r)),
    (Z.ltb_spec (statusCode r) 400), (Z.leb_spec 400 (statusCode r)),
    (Z.ltb_spec (statusCode r) 500), (Z.leb_spec 500 (statusCode r)),
    (Z.ltb_spec (statusCode r) 300); simpl; try lia; tauto.
Qed.

Lemma categorizeStep_bucket (c : Categorized) (t : Z) (r : ProbeResult) :
  categorizeStep (c, t) r =
  ((if isOk r then bumpOk c r
    else if isRedirection r then bumpRedirect c r
    else if isClientError r then bumpClientError c r
    else if isServerError r then bumpServerError c r
    else bumpNetworkError c r),
   (t + responseTime r)%Z).
Proof. reflexivity. Qed.

Lemma categorizeLoop (results : list ProbeResult) :
  forall c t,
    let c' := fst (fold_left categorizeStep results (c, t)) in
    let t' := snd (fold_left categorizeStep results (c, t)) in
    ok c' = ok c ++ filter isOk results
    /\ redirects c' = redirects c ++ filter isRedirection results
    /\ clientErrors c' = clientErrors c ++ filter isClientError results
    /\ serverErrors c' = serverErrors c ++ filter isServerError results
    /\ networkErrors c' = networkErrors c ++ filter isLeftOver results
    /\ okCount (summary c') = (okCount (summary c) + List.length (filter isOk results))%nat
    /\ redirectCount (summary c')
       = (redirectCount (summary c) + List.length (filter isRedirection results))%nat
    /\ clientErrorCount (summary c')
       = (clientErrorCount (summary c) + List.length (filter isClientError results))%nat
    /\ serverErrorCount (summary c')
       = (serverErrorCount (summary c) + List.length (filter isServerError results))%nat
    /\ networkErrorCount (summary c')
       = (networkErrorCount (summary c) + List.length (filter isLeftOver results))%nat
    /\ total (summary c') = total (summary c)
    /\ t' = (t + fold_right Z.add 0 (map responseTime results))%Z.
Proof.
  induction results as [| r results IH]; intros c t; cbv zeta.
  - simpl. rewrite !app_nil_r, !Nat.add_0_r, Z.add_0_r. repeat split; reflexivity.
  - change (fold_left categorizeStep (r :: results) (c, t))
      with (fold_left categorizeStep results (categorizeStep (c, t) r)).
    rewrite categorizeStep_bucket.
    match goal with
    | |- context [fold_left categorizeStep results (?c1, ?t1)] =>
        destruct (IH c1 t1) as [H1 [H2 [H3 [H4 [H5 [H6 [H7 [H8 [H9 [H10 [H11 H12]]]]]]]]]]];
        cbv zeta in *;
        rewrite H1, H2, H3, H4, H5, H6, H7, H8, H9, H10, H11, H12
    end.
    clear. simpl filter. simpl map. simpl fold_right.
    destruct (one_bucket r) as [B | [B | [B | [B | B]]]];
      destruct B as [B1 [B2 [B3 [B4 B5]]]]; rewrite B1, B2, B3, B4, B5; simpl;
      rewrite <- ?app_assoc; simpl; repeat split; try reflexivity; lia.
Qed.

(** What [categorizeResults] computes: five filters of the batch, their
    sizes, and the rounded mean of the response times. *)
Lemma categorizeResults_spec (results : list ProbeResult) :
  let c := categorizeResults results in
  ok c = filter isOk results
  /\ redirects c = filter isRedirection results
  /\ clientErrors c = filter isClientError results
  /\ serverErrors c = filter isServerError results
  /\ networkErrors c = filter isLeftOver results
  /\ okCount (summary c) = List.length (ok c)
  /\ redirectCount (summary c) = List.length (redirects c)
  /\ clientErrorCount (summary c) = List.length (clientErrors c)
  /\ serverErrorCount (summary c) = List.length (serverErrors c)
  /\ networkErrorCount (summary c) = List.length (networkErrors c)
  /\ total (summary c) = List.length results
  /\ avgResponseTime (summary c)
     = if (0 <? List.length results)%nat
       then JS.roundHalfUp (inject_Z (fold_right Z.add 0%Z (map responseTime results))
                            / inject_Z (Z.of_nat (List.length results)))
       else 0%Z.
Proof.
  unfold categorizeResults.
  match goal with
  | |- context [fold_left categorizeStep results (?c0, ?t0)] =>
      pose proof (categorizeLoop results c0 t0) as H;
      destruct (fold_left categorizeStep results (c0, t0)) as [c' t']
  end.
  simpl in H. destruct H as [H1 [H2 [H3 [H4 [H5 [H6 [H7 [H8 [H9 [H10 [H11 H12]]]]]]]]]]].
  simpl. rewrite H1, H2, H3, H4, H5, H6, H7, H8, H9, H10, H11, H12.
  repeat split; reflexivity.
Qed.

End CategorizeFacts.

(** C7 (the defect).  A response with status 204 is no network failure, yet
    [categorizeResults] files it under [networkErrors] and counts it there:
    the last branch takes every status that is neither 200 nor at least 300. *)
Lemma categorizeResults_no_content :
  let r := answer 204 "https://site.example/" in
  let c := StatusChecker.categorizeResults [r] in
  StatusChecker.networkErrors c = [r]
  /\ StatusChecker.networkErrorCount (StatusChecker.summary c) = 1%nat
  /\ StatusChecker.statusCode r <> 0%Z.
Proof. vm_compute. repeat split; try reflexivity. discriminate. Qed.

(** ** Titles and descriptions *)

(** C8 (as amended).  When exactly one side is absent (null, undefined or
    empty), the comparison says no match, similarity 0, and names the side
    that lacks the tag.  When both sides are absent it says match, similarity
    1 and no issue. *)
Theorem compare_absent (oldText newText : option string) :
  match JS.falsy oldText, JS.falsy newText with
  | true, true =>
      SeoComparison.compareTitles oldText newText
      = {| SeoComparison.match_ := true; SeoComparison.similarity := 1;
           SeoComparison.issue := None |}
      /\ SeoComparison.compareDescriptions oldText newText
         = {| SeoComparison.match_ := true; SeoComparison.similarity := 1;
              SeoComparison.issue := None |}
  | true, false =>
      SeoComparison.compareTitles oldText newText
      = {| SeoComparison.match_ := false; SeoComparison.similarity := 0;
           SeoComparison.issue := Some "Old page missing title tag" |}
      /\ SeoComparison.compareDescriptions oldText newText
         = {| SeoComparison.match_ := false; SeoComparison.similarity := 0;
              SeoComparison.issue := Some "Old page missing meta description" |}
  | false, true =>
      SeoComparison.compareTitles oldText newText
      = {| SeoComparison.match_ := false; SeoComparison.similarity := 0;
           SeoComparison.issue := Some "New page missing title tag" |}
      /\ SeoComparison.compareDescriptions oldText newText
         = {| SeoComparison.match_ := false; SeoComparison.similarity := 0;
              SeoComparison.issue := Some "New page missing meta description" |}
  | false, false => True
  end.
Proof.
  unfold SeoComparison.compareTitles, SeoComparison.compareDescriptions.
  destruct (JS.falsy oldText), (JS.falsy newText); simpl; auto.
Qed.

(** C8 (as stated) fails when both sides are absent: the comparison reports a
    match with similarity 1 and no issue. *)
Lemma compare_absent_counterexample :
  SeoComparison.compareTitles None None
  = {| SeoComparison.match_ := true; SeoComparison.similarity := 1;
       SeoComparison.issue := None |}
  /\ SeoComparison.compareDescriptions None (Some "")
     = {| SeoComparison.match_ := true; SeoComparison.similarity := 1;
          SeoComparison.issue := None |}.
Proof. split; reflexivity. Qed.

(** ** The URL constructor, read back

    What [WHATWG.parse] returns, and what it makes of a normal form. *)

Module WHATWGFacts.
Import JS.
Import WHATWG.

Lemma append_empty_r (s : string) : s +++ "" = s.
Proof. induction s as [| c s IH]; simpl; congruence. Qed.

Lemma append_assoc (a b c : string) : (a +++ b) +++ c = a +++ b +++ c.
Proof. induction a as [| x a IH]; simpl; congruence. Qed.

Lemma length_append (a b : string) :
  String.length (a +++ b) = (String.length a + String.length b)%nat.
Proof. induction a as [| x a IH]; simpl; congruence. Qed.

Lemma allChars_app (p : ascii -> bool) (a b : string) :
  allChars p (a +++ b) = allChars p a && allChars p b.
Proof.
  induction a as [| x a IH]; simpl; [reflexivity |].
  rewrite IH. apply andb_assoc.
Qed.

Lemma allChars_impl (p q : ascii -> bool) (s : string) :
  (forall c, p c = true -> q c = true) -> allChars p s = true -> allChars q s = true.
Proof.
  intros Hpq. induction s as [| c s IH]; simpl; [reflexivity |].
  rewrite !andb_true_iff. intros [Hc Hs]. auto.
Qed.

Lemma anyChar_false (p : ascii -> bool) (s : string) :
  anyChar p s = false -> allChars (fun c => negb (p c)) s = true.
Proof.
  induction s as [| c s IH]; simpl; [reflexivity |].
  rewrite orb_false_iff. intros [Hc Hs]. now rewrite Hc, IH.
Qed.

Lemma allChars_anyChar (p : ascii -> bool) (s : string) :
  allChars (fun c => negb (p c)) s = true -> anyChar p s = false.
Proof.
  induction s as [| c s IH]; simpl; [reflexivity |].
  rewrite andb_true_iff, negb_true_iff. intros [Hc Hs]. now rewrite Hc, IH.
Qed.

Lemma span_all (p : ascii -> bool) (s : string) :
  allChars p s = true -> span p s = (s, "").
Proof.
  induction s as [| c s IH]; simpl; [reflexivity |].
  rewrite andb_true_iff. intros [Hc Hs]. now rewrite Hc, IH.
Qed.

Lemma span_stop (p : ascii -> bool) (a b : string) (c : ascii) :
  allChars p a = true -> p c = false -> span p (a +++ String c b) = (a, String c b).
Proof.
  intros Ha Hc. induction a as [| x a IH]; simpl.
  - now rewrite Hc.
  - simpl in Ha. apply andb_true_iff in Ha. destruct Ha as [Hx Ha].
    now rewrite Hx, IH.
Qed.

Lemma trimEnd_id (p : ascii -> bool) (s : string) :
  allChars (fun c => negb (p c)) s = true -> trimEnd p s = s.
Proof.
  induction s as [| c s IH]; simpl; [reflexivity |].
  rewrite andb_true_iff, negb_true_iff. intros [Hc Hs]. now rewrite Hc, IH.
Qed.

Lemma dropWhile_id (p : ascii -> bool) (s : string) :
  allChars (fun c => negb (p c)) s = true -> dropWhile p s = s.
Proof.
  destruct s as [| c s]; simpl; [reflexivity |].
  rewrite andb_true_iff, negb_true_iff. intros [Hc Hs]. now rewrite Hc.
Qed.

Lemma filterString_id (keep : ascii -> bool) (s : string) :
  allChars keep s = true -> filterString keep s = s.
Proof.
  induction s as [| c s IH]; simpl; [reflexivity |].
  rewrite andb_true_iff. intros [Hc Hs]. now rewrite Hc, IH.
Qed.

Lemma toLowerCase_app (a b : string) :
  toLowerCase (a +++ b) = toLowerCase a +++ toLowerCase b.
Proof. induction a as [| x a IH]; simpl; congruence. Qed.

Lemma lowerChar_idem (c : ascii) : lowerChar (lowerChar c) = lowerChar c.
Proof. destruct c as [[] [] [] [] [] [] [] []]; reflexivity. Qed.

Lemma toLowerCase_idem (s : string) : toLowerCase (toLowerCase s) = toLowerCase s.
Proof.
  induction s as [| c s IH]; simpl; [reflexivity |]. now rewrite lowerChar_idem, IH.
Qed.

Lemma splitOn_not_nil (sep : ascii) (s : string) : splitOn sep s <> [].
Proof.
  induction s as [| c s IH]; simpl; [discriminate |].
  destruct (Ascii.eqb c sep); [discriminate |].
  destruct (splitOn sep s); discriminate.
Qed.

Lemma splitOn_app (sep : ascii) (a b : string) :
  allChars (fun c => negb (Ascii.eqb c sep)) a = true ->
  splitOn sep (a +++ String sep b) = a :: splitOn sep b.
Proof.
  induction a as [| x a IH]; simpl.
  - intros _. now rewrite Ascii.eqb_refl.
  - rewrite andb_true_iff, negb_true_iff. intros [Hx Ha].
    rewrite Hx, (IH Ha). reflexivity.
Qed.

Lemma splitOn_empty (sep : ascii) (s : string) : splitOn sep s = [""] -> s = "".
Proof.
  destruct s as [| c s]; simpl; [reflexivity |].
  destruct (Ascii.eqb c sep).
  - intros H. injection H as H. now apply splitOn_not_nil in H.
  - destruct (splitOn sep s); discriminate.
Qed.

Lemma substring_all (s : string) : substring 0 (String.length s) s = s.
Proof. induction s as [| c s IH]; simpl; congruence. Qed.

(** A host name that begins with [www.] is [www.] followed by what
    [replace] leaves. *)
Lemma replace_leading_www_spec (h : string) :
  (startsWith h "www." = true /\ h = "www." +++ replace_leading_www h)
  \/ (startsWith h "www." = false /\ replace_leading_www h = h).
Proof.
  unfold replace_leading_www. destruct (startsWith h "www.") eqn:E; [left | right; auto].
  split; [reflexivity |].
  destruct h as [| a [| b [| c [| d rest]]]]; cbn [startsWith] in E;
    rewrite ?andb_false_r in E; try discriminate.
  rewrite !andb_true_iff in E.
  destruct E as [Ha [Hb [Hc [Hd _]]]].
  apply Ascii.eqb_eq in Ha, Hb, Hc, Hd. subst. simpl. now rewrite Nat.sub_0_r, substring_all.
Qed.

Lemma hostChar_lower (c : ascii) :
  isForbiddenDomainCodePoint (lowerChar c) = false -> (code c <=? 127)%N = true ->
  hostChar (lowerChar c) = true.
Proof.
  destruct c as [[] [] [] [] [] [] [] []]; vm_compute; intros H1 H2;
    first [reflexivity | discriminate].
Qed.

Lemma hostChar_facts (c : ascii) :
  hostChar c = true ->
  lowerChar c = c /\ Ascii.eqb c "%" = false /\ Ascii.eqb c "[" = false
  /\ Ascii.eqb c "@" = false /\ Ascii.eqb c ":" = false /\ isAuthorityEnd c = false
  /\ (127 <? code c)%N = false /\ isForbiddenDomainCodePoint c = false
  /\ (32 <? code c)%N = true.
Proof.
  destruct c as [[] [] [] [] [] [] [] []]; vm_compute; intros H;
    first [discriminate | repeat split; reflexivity].
Qed.

Lemma toLowerCase_hostChars (s : string) : allChars hostChar s = true -> toLowerCase s = s.
Proof.
  induction s as [| c s IH]; simpl; [reflexivity |].
  rewrite andb_true_iff. intros [Hc Hs].
  destruct (hostChar_facts c Hc) as [-> _]. now rewrite IH.
Qed.

Lemma percentDecode_id (s : string) :
  allChars (fun c => negb (Ascii.eqb c "%")) s = true -> percentDecode s = s.
Proof.
  induction s as [| c s IH]; [reflexivity |].
  intros H. simpl in H. apply andb_true_iff in H. destruct H as [Hc Hs].
  apply negb_true_iff in Hc. specialize (IH Hs).
  destruct s as [| h [| l rest]]; simpl in *; rewrite ?Hc; simpl; congruence.
Qed.

Lemma allChars_and (p q : ascii -> bool) (s : string) :
  allChars p s = true -> allChars q s = true -> allChars (fun c => p c && q c) s = true.
Proof.
  induction s as [| c s IH]; simpl; [reflexivity |].
  rewrite !andb_true_iff. intros [Hp Hps] [Hq Hqs]. rewrite Hp, Hq. auto.
Qed.

Lemma hostChars_of_lower (domain : string) :
  anyChar (fun c => (127 <? code c)%N) domain = false ->
  anyChar isForbiddenDomainCodePoint (toLowerCase domain) = false ->
  allChars hostChar (toLowerCase domain) = true.
Proof.
  induction domain as [| c s IH]; simpl; [reflexivity |].
  rewrite !orb_false_iff. intros [Hc Hs] [Fc Fs].
  rewrite IH by assumption. rewrite hostChar_lower; auto.
  apply N.leb_le. apply N.ltb_ge in Hc. exact Hc.
Qed.

(** What the host parser returns is a domain that parses to itself, or an
    IPv4 address in dotted decimal. *)
Lemma parseHost_result (input h : string) :
  parseHost input = Some h -> domainOK h \/ exists a, h = serializeIPv4 a.
Proof.
  unfold parseHost.
  destruct (startsWith input "["); [discriminate |].
  destruct (anyChar (fun c => (127 <? code c)%N) (percentDecode input)) eqn:Hascii;
    [discriminate |].
  destruct (hasPunycodeLabel (toLowerCase (percentDecode input))) eqn:Hpuny; [discriminate |].
  destruct (toLowerCase (percentDecode input) =? "") eqn:Hempty; [discriminate |].
  destruct (anyChar isForbiddenDomainCodePoint (toLowerCase (percentDecode input))) eqn:Hforb;
    [discriminate |].
  destruct (endsInNumber (toLowerCase (percentDecode input))) eqn:Hnum.
  - destruct (parseIPv4 (toLowerCase (percentDecode input))) as [a |]; [| discriminate].
    simpl. intros [= <-]. right. now exists a.
  - intros [= <-]. left. repeat split; auto.
    + intros E. rewrite E in Hempty. discriminate.
    + now apply hostChars_of_lower.
Qed.

Lemma parseHost_domain (h : string) : domainOK h -> parseHost h = Some h.
Proof.
  intros [Hne [Hchars [Hpuny Hnum]]]. unfold parseHost.
  assert (Hbracket : startsWith h "[" = false).
  { destruct h as [| c s]; [reflexivity |]. simpl in Hchars.
    apply andb_true_iff in Hchars. destruct Hchars as [Hc _].
    destruct (hostChar_facts c Hc) as [_ [_ [Hb _]]].
    cbn [startsWith]. rewrite andb_true_r, Ascii.eqb_sym. exact Hb. }
  rewrite Hbracket.
  assert (Hdecode : percentDecode h = h).
  { apply percentDecode_id. eapply allChars_impl; [| exact Hchars].
    intros c Hc. destruct (hostChar_facts c Hc) as [_ [-> _]]. reflexivity. }
  rewrite Hdecode, (toLowerCase_hostChars h Hchars).
  assert (Hascii : anyChar (fun c => (127 <? code c)%N) h = false).
  { apply allChars_anyChar. eapply allChars_impl; [| exact Hchars].
    intros c Hc. destruct (hostChar_facts c Hc) as [_ [_ [_ [_ [_ [_ [-> _]]]]]]]. reflexivity. }
  assert (Hforb : anyChar isForbiddenDomainCodePoint h = false).
  { apply allChars_anyChar. eapply allChars_impl; [| exact Hchars].
    intros c Hc. destruct (hostChar_facts c Hc) as [_ [_ [_ [_ [_ [_ [_ [-> _]]]]]]]]. reflexivity. }
  rewrite Hascii, Hpuny, Hforb, Hnum.
  destruct (String.eqb_spec h ""); [contradiction | reflexivity].
Qed.

Lemma endsInNumber_www (h : string) :
  h <> "" -> endsInNumber ("www." +++ h) = endsInNumber h.
Proof.
  intros Hne. unfold endsInNumber.
  change (splitOn "." ("www." +++ h)) with ("www" :: splitOn "." h).
  simpl rev.
  pose proof (splitOn_not_nil "." h) as Hnil.
  pose proof (splitOn_empty "." h) as Hempty.
  destruct (rev (splitOn "." h)) as [| l [| l2 rest]] eqn:Hrev.
  - apply (f_equal (@rev string)) in Hrev. rewrite rev_involutive in Hrev. contradiction.
  - apply (f_equal (@rev string)) in Hrev. rewrite rev_involutive in Hrev. simpl in Hrev.
    destruct l as [| c l]; [now apply Hempty in Hrev |]. reflexivity.
  - destruct l as [| c l]; reflexivity.
Qed.

Lemma domainOK_strip (h : string) :
  domainOK h -> replace_leading_www h <> "" -> domainOK (replace_leading_www h).
Proof.
  intros Hok Hne. destruct (replace_leading_www_spec h) as [[_ Hh] | [_ ->]]; [| exact Hok].
  destruct Hok as [_ [Hchars [Hpuny Hnum]]].
  rewrite Hh in Hchars, Hpuny, Hnum.
  repeat split; [exact Hne | | |].
  - rewrite allChars_app in Hchars. apply andb_true_iff in Hchars. apply Hchars.
  - unfold hasPunycodeLabel in *.
    change (splitOn "." ("www." +++ replace_leading_www h))
      with ("www" :: splitOn "." (replace_leading_www h)) in Hpuny.
    simpl in Hpuny. exact Hpuny.
  - now rewrite endsInNumber_www in Hnum.
Qed.

Lemma parseHost_hostChars (h : string) :
  h <> "" -> allChars hostChar h = true -> hasPunycodeLabel h = false ->
  parseHost h = if endsInNumber h then option_map serializeIPv4 (parseIPv4 h) else Some h.
Proof.
  intros Hne Hchars Hpuny. unfold parseHost.
  assert (Hbracket : startsWith h "[" = false).
  { destruct h as [| c s]; [reflexivity |]. simpl in Hchars.
    apply andb_true_iff in Hchars. destruct Hchars as [Hc _].
    destruct (hostChar_facts c Hc) as [_ [_ [Hb _]]].
    cbn [startsWith]. rewrite andb_true_r, Ascii.eqb_sym. exact Hb. }
  rewrite Hbracket.
  assert (Hdecode : percentDecode h = h).
  { apply percentDecode_id. eapply allChars_impl; [| exact Hchars].
    intros c Hc. destruct (hostChar_facts c Hc) as [_ [-> _]]. reflexivity. }
  rewrite Hdecode, (toLowerCase_hostChars h Hchars).
  assert (Hascii : anyChar (fun c => (127 <? code c)%N) h = false).
  { apply allChars_anyChar. eapply allChars_impl; [| exact Hchars].
    intros c Hc. destruct (hostChar_facts c Hc) as [_ [_ [_ [_ [_ [_ [-> _]]]]]]]. reflexivity. }
  assert (Hforb : anyChar isForbiddenDomainCodePoint h = false).
  { apply allChars_anyChar. eapply allChars_impl; [| exact Hchars].
    intros c Hc. destruct (hostChar_facts c Hc) as [_ [_ [_ [_ [_ [_ [_ [-> _]]]]]]]]. reflexivity. }
  rewrite Hascii, Hpuny, Hforb.
  destruct (String.eqb_spec h ""); [contradiction | reflexivity].
Qed.

Lemma byteTextb_all : forallb byteTextb (map N.of_nat (seq 0 256)) = true.
Proof. vm_compute. reflexivity. Qed.

Lemma decimal_byte (n : N) : (n < 256)%N -> byteText (decimal n) n.
Proof.
  intros Hn. pose proof byteTextb_all as H. rewrite forallb_forall in H.
  specialize (H n). unfold byteTextb in H.
  rewrite !andb_true_iff, negb_true_iff in H.
  destruct H as [[Hne Hdigits] Hval].
  { apply in_map_iff. exists (N.to_nat n). split; [apply N2Nat.id |]. apply in_seq. lia. }
  repeat split; auto.
  - intros E. rewrite E in Hne. discriminate.
  - destruct (parseIPv4Number (decimal n)) as [m |]; [| discriminate].
    apply N.eqb_eq in Hval. now subst.
Qed.

Lemma digit_facts (c : ascii) :
  isAsciiDigit c = true ->
  hostChar c = true /\ Ascii.eqb c "." = false /\ Ascii.eqb "x" c = false
  /\ Ascii.eqb "w" c = false.
Proof.
  destruct c as [[] [] [] [] [] [] [] []]; vm_compute; intros H;
    first [discriminate | repeat split; reflexivity].
Qed.

Lemma digits_hostChars (s : string) : allChars isAsciiDigit s = true -> allChars hostChar s = true.
Proof. apply allChars_impl. intros c Hc. apply (digit_facts c Hc). Qed.

Lemma digits_no_dot (s : string) :
  allChars isAsciiDigit s = true -> allChars (fun c => negb (Ascii.eqb c ".")) s = true.
Proof.
  apply allChars_impl. intros c Hc. destruct (digit_facts c Hc) as [_ [-> _]]. reflexivity.
Qed.

Lemma splitOn_none (sep : ascii) (s : string) :
  allChars (fun c => negb (Ascii.eqb c sep)) s = true -> splitOn sep s = [s].
Proof.
  induction s as [| c s IH]; simpl; [reflexivity |].
  rewrite andb_true_iff, negb_true_iff. intros [Hc Hs]. now rewrite Hc, (IH Hs).
Qed.

Lemma bytes_of_sum (n1 n2 n3 n4 : N) :
  (n1 < 256 -> n2 < 256 -> n3 < 256 -> n4 < 256 ->
   let v := n4 + n1 * 16777216 + n2 * 65536 + n3 * 256 in
   v / 16777216 mod 256 = n1 /\ v / 65536 mod 256 = n2
   /\ v / 256 mod 256 = n3 /\ v mod 256 = n4)%N.
Proof.
  intros H1 H2 H3 H4 v. subst v.
  repeat split.
  - rewrite <- (N.div_unique (n4 + n1 * 16777216 + n2 * 65536 + n3 * 256) 16777216 n1
                  (n4 + n2 * 65536 + n3 * 256)) by lia.
    apply N.mod_small. exact H1.
  - rewrite <- (N.div_unique (n4 + n1 * 16777216 + n2 * 65536 + n3 * 256) 65536
                  (n1 * 256 + n2) (n4 + n3 * 256)) by lia.
    symmetry. apply (N.mod_unique _ _ n1); lia.
  - rewrite <- (N.div_unique (n4 + n1 * 16777216 + n2 * 65536 + n3 * 256) 256
                  (n1 * 65536 + n2 * 256 + n3) n4) by lia.
    symmetry. apply (N.mod_unique _ _ (n1 * 256 + n2)); lia.
  - symmetry. apply (N.mod_unique _ _ (n1 * 65536 + n2 * 256 + n3)); lia.
Qed.

(** Four byte texts joined by dots parse as the IPv4 address they spell. *)
Lemma parseHost_dotted (s1 s2 s3 s4 : string) (n1 n2 n3 n4 : N) :
  byteText s1 n1 -> byteText s2 n2 -> byteText s3 n3 -> byteText s4 n4 ->
  parseHost (s1 +++ "." +++ s2 +++ "." +++ s3 +++ "." +++ s4)
  = Some (serializeIPv4 (n4 + n1 * 16777216 + n2 * 65536 + n3 * 256)).
Proof.
  intros [E1 [D1 [P1 B1]]] [E2 [D2 [P2 B2]]] [E3 [D3 [P3 B3]]] [E4 [D4 [P4 B4]]].
  assert (Hsplit : splitOn "." (s1 +++ "." +++ s2 +++ "." +++ s3 +++ "." +++ s4)
                   = [s1; s2; s3; s4]).
  { cbn [append]. rewrite !splitOn_app by now apply digits_no_dot.
    rewrite splitOn_none by now apply digits_no_dot. reflexivity. }
  rewrite parseHost_hostChars.
  - assert (Hnum : endsInNumber (s1 +++ "." +++ s2 +++ "." +++ s3 +++ "." +++ s4) = true).
    { unfold endsInNumber. rewrite Hsplit. simpl rev.
      destruct s4 as [| c s4]; [contradiction |]. cbv iota beta.
      rewrite D4. reflexivity. }
    rewrite Hnum. unfold parseIPv4. rewrite Hsplit.
    assert (Hdrop : dropEmptyLast [s1; s2; s3; s4] = [s1; s2; s3; s4]).
    { unfold dropEmptyLast. simpl rev. destruct s4 as [| c s4]; [contradiction | reflexivity]. }
    rewrite Hdrop. simpl map. rewrite P1, P2, P3, P4. simpl existsb. cbv iota beta.
    simpl map. simpl removelast. simpl List.last. simpl existsb.
    apply N.ltb_lt in B1, B2, B3, B4.
    assert (H1 : (255 <? n1)%N = false) by (apply N.ltb_ge; apply N.ltb_lt in B1; lia).
    assert (H2 : (255 <? n2)%N = false) by (apply N.ltb_ge; apply N.ltb_lt in B2; lia).
    assert (H3 : (255 <? n3)%N = false) by (apply N.ltb_ge; apply N.ltb_lt in B3; lia).
    rewrite H1, H2, H3. simpl orb. cbv iota beta.
    assert (H4 : (256 ^ (5 - N.of_nat (List.length [n1; n2; n3; n4])) <=? n4)%N = false).
    { apply N.leb_gt. apply N.ltb_lt in B4. exact B4. }
    rewrite H4. reflexivity.
  - destruct s1; [contradiction | discriminate].
  - rewrite !allChars_app. simpl.
    rewrite (digits_hostChars s1 D1), (digits_hostChars s2 D2), (digits_hostChars s3 D3),
      (digits_hostChars s4 D4). reflexivity.
  - unfold hasPunycodeLabel. rewrite Hsplit.
    assert (Hx : forall s, s <> "" -> allChars isAsciiDigit s = true -> startsWith s "xn--" = false).
    { intros [| c s] Hs Hd; [contradiction |]. simpl in Hd. apply andb_true_iff in Hd.
      destruct Hd as [Hc _]. destruct (digit_facts c Hc) as [_ [_ [Hxc _]]].
      cbn [startsWith]. now rewrite Hxc. }
    cbn [existsb]. rewrite !Hx by assumption. reflexivity.
Qed.

(** An IPv4 address in dotted decimal parses to itself, and has no [www.]
    in front. *)
Lemma parseHost_ipv4 (a : N) :
  parseHost (serializeIPv4 a) = Some (serializeIPv4 a)
  /\ replace_leading_www (serializeIPv4 a) = serializeIPv4 a.
Proof.
  assert (Hb : forall x, (x mod 256 < 256)%N) by (intros x; apply N.mod_lt; discriminate).
  pose proof (decimal_byte _ (Hb (a / 16777216)%N)) as T1.
  pose proof (decimal_byte _ (Hb (a / 65536)%N)) as T2.
  pose proof (decimal_byte _ (Hb (a / 256)%N)) as T3.
  pose proof (decimal_byte _ (Hb a)) as T4.
  split.
  - unfold serializeIPv4 at 1. rewrite (parseHost_dotted _ _ _ _ _ _ _ _ T1 T2 T3 T4).
    f_equal. unfold serializeIPv4.
    destruct (bytes_of_sum _ _ _ _ (Hb (a / 16777216)%N) (Hb (a / 65536)%N)
                (Hb (a / 256)%N) (Hb a)) as [-> [-> [-> ->]]].
    reflexivity.
  - destruct (replace_leading_www_spec (serializeIPv4 a)) as [[Hw _] | [_ H]]; [| exact H].
    exfalso. unfold serializeIPv4 in Hw. destruct T1 as [E1 [D1 _]].
    destruct (decimal (a / 16777216 mod 256)) as [| c s]; [contradiction |].
    simpl in D1. apply andb_true_iff in D1. destruct D1 as [Hc _].
    destruct (digit_facts c Hc) as [_ [_ [_ Hwc]]].
    cbn [append startsWith] in Hw. rewrite Hwc in Hw. discriminate.
Qed.

Lemma ipv4_chars (a : N) :
  serializeIPv4 a <> "" /\ allChars hostChar (serializeIPv4 a) = true
  /\ startsWith (serializeIPv4 a) "www." = false.
Proof.
  assert (Hb : forall x, (x mod 256 < 256)%N) by (intros x; apply N.mod_lt; discriminate).
  destruct (decimal_byte _ (Hb (a / 16777216)%N)) as [E1 [D1 _]].
  destruct (decimal_byte _ (Hb (a / 65536)%N)) as [_ [D2 _]].
  destruct (decimal_byte _ (Hb (a / 256)%N)) as [_ [D3 _]].
  destruct (decimal_byte _ (Hb a)) as [_ [D4 _]].
  unfold serializeIPv4. repeat split.
  - destruct (decimal (a / 16777216 mod 256)); [contradiction | discriminate].
  - rewrite !allChars_app. simpl.
    rewrite (digits_hostChars _ D1), (digits_hostChars _ D2), (digits_hostChars _ D3),
      (digits_hostChars _ D4). reflexivity.
  - destruct (decimal (a / 16777216 mod 256)) as [| c s]; [contradiction |].
    simpl in D1. apply andb_true_iff in D1. destruct D1 as [Hc _].
    destruct (digit_facts c Hc) as [_ [_ [_ Hwc]]].
    cbn [append startsWith]. now rewrite Hwc.
Qed.

Lemma percentEncode_chars (c : ascii) :
  isSlash c = false -> allChars segmentChar (percentEncode c) = true.
Proof.
  destruct c as [[] [] [] [] [] [] [] []]; vm_compute; intros H;
    first [reflexivity | discriminate].
Qed.

Lemma segmentChar_facts (c : ascii) :
  segmentChar c = true ->
  percentEncode c = String c "" /\ isSlash c = false
  /\ (Ascii.eqb c "?" || Ascii.eqb c "#") = false /\ (32 <? code c)%N = true.
Proof.
  destruct c as [[] [] [] [] [] [] [] []]; vm_compute; intros H;
    first [discriminate | repeat split; reflexivity].
Qed.

Lemma Forall_removelast {A} (P : A -> Prop) (l : list A) : Forall P l -> Forall P (removelast l).
Proof.
  induction 1 as [| a l Ha Hl IH]; simpl; [constructor |].
  destruct l; [constructor | constructor; assumption].
Qed.

Lemma cleanSegment_empty : cleanSegment "".
Proof. repeat split. Qed.

Lemma segmentEnd_clean (buffer : string) (path : list string) (atSlash : bool) :
  allChars segmentChar buffer = true -> Forall cleanSegment path ->
  Forall cleanSegment (segmentEnd buffer path atSlash)
  /\ (atSlash = false -> segmentEnd buffer path atSlash <> []).
Proof.
  intros Hb Hp. unfold segmentEnd.
  destruct (isDoubleDotSegment buffer) eqn:Hdd.
  - destruct atSlash.
    + split; [now apply Forall_removelast | discriminate].
    + split.
      * apply Forall_app. split; [now apply Forall_removelast |].
        constructor; [apply cleanSegment_empty | constructor].
      * intros _ H. apply app_eq_nil in H. destruct H; discriminate.
  - destruct (isSingleDotSegment buffer) eqn:Hsd.
    + destruct atSlash.
      * split; [assumption | discriminate].
      * split.
        -- apply Forall_app. split; [assumption |].
           constructor; [apply cleanSegment_empty | constructor].
        -- intros _ H. apply app_eq_nil in H. destruct H; discriminate.
    + split.
      * apply Forall_app. split; [assumption |]. constructor; [| constructor].
        repeat split; assumption.
      * intros _ H. apply app_eq_nil in H. destruct H; discriminate.
Qed.

(** The segments the path state produces are clean, and there is at least one. *)
Lemma pathState_clean (s : string) :
  forall buffer path,
    allChars segmentChar buffer = true -> Forall cleanSegment path ->
    Forall cleanSegment (pathState s buffer path) /\ pathState s buffer path <> [].
Proof.
  induction s as [| c s IH]; intros buffer path Hb Hp; simpl.
  - destruct (segmentEnd_clean buffer path false Hb Hp) as [H1 H2]. auto.
  - destruct (isSlash c) eqn:Hc.
    + apply IH; [reflexivity |]. apply (segmentEnd_clean buffer path true Hb Hp).
    + apply IH; [| assumption]. rewrite allChars_app, Hb. simpl.
      now apply percentEncode_chars.
Qed.

Lemma segmentEnd_cleanSegment (buffer : string) (path : list string) (atSlash : bool) :
  cleanSegment buffer -> segmentEnd buffer path atSlash = path ++ [buffer].
Proof.
  intros [_ [Hsd Hdd]]. unfold segmentEnd. now rewrite Hdd, Hsd.
Qed.

Lemma pathState_char (c : ascii) (s buffer : string) (path : list string) :
  segmentChar c = true ->
  pathState (String c s) buffer path = pathState s (buffer +++ String c "") path.
Proof.
  intros Hc. destruct (segmentChar_facts c Hc) as [Henc [Hslash _]].
  simpl. now rewrite Hslash, Henc.
Qed.

Lemma pathState_segment (seg : string) :
  forall tail buffer path,
    allChars segmentChar seg = true ->
    pathState (seg +++ tail) buffer path = pathState tail (buffer +++ seg) path.
Proof.
  induction seg as [| c seg IH]; intros tail buffer path Hseg.
  - now rewrite append_empty_r.
  - simpl in Hseg. apply andb_true_iff in Hseg. destruct Hseg as [Hc Hseg].
    change (String c seg +++ tail) with (String c (seg +++ tail)).
    rewrite (pathState_char c _ _ _ Hc), (IH tail _ path Hseg), append_assoc. reflexivity.
Qed.

(** Clean segments, once serialized, are read back as they are. *)
Lemma pathState_serialized (rest : list string) :
  Forall cleanSegment rest ->
  forall seg buffer path,
    allChars segmentChar seg = true -> cleanSegment (buffer +++ seg) ->
    pathState (seg +++ serializePath rest) buffer path = path ++ (buffer +++ seg) :: rest.
Proof.
  induction 1 as [| s rest Hs Hrest IH]; intros seg buffer path Hseg Hclean;
    rewrite (pathState_segment seg _ buffer path Hseg).
  - change (serializePath []) with "". simpl pathState.
    now apply segmentEnd_cleanSegment.
  - change (serializePath (s :: rest)) with (String "/" (s +++ serializePath rest)).
    change (pathState (String "/" (s +++ serializePath rest)) (buffer +++ seg) path)
      with (pathState (s +++ serializePath rest) "" (segmentEnd (buffer +++ seg) path true)).
    rewrite (segmentEnd_cleanSegment _ path true Hclean).
    rewrite (IH s "" (path ++ [buffer +++ seg])); [| apply Hs | exact Hs].
    now rewrite <- app_assoc.
Qed.

Lemma serializePath_cons (s : string) (rest : list string) :
  serializePath (s :: rest) = String "/" (s +++ serializePath rest).
Proof. reflexivity. Qed.

Lemma serializePath_chars (segs : list string) :
  Forall cleanSegment segs ->
  allChars (fun c => segmentChar c || Ascii.eqb c "/") (serializePath segs) = true.
Proof.
  induction 1 as [| s rest [Hs _] Hrest IH]; [reflexivity |].
  rewrite serializePath_cons. simpl. rewrite allChars_app, IH, andb_true_r.
  eapply allChars_impl; [| exact Hs]. intros c ->. reflexivity.
Qed.

(** ** Trimming the trailing slash *)

Lemma endsWith_app (p suffix : string) :
  endsWith p suffix = true <-> exists q, p = q +++ suffix.
Proof.
  split.
  - induction p as [| c p IH]; cbn [endsWith].
    + rewrite orb_false_r. intros H. apply String.eqb_eq in H. subst. now exists "".
    + rewrite orb_true_iff. intros [H | H].
      * apply String.eqb_eq in H. exists "". now rewrite H.
      * destruct (IH H) as [q ->]. now exists (String c q).
  - intros [q ->]. induction q as [| c q IH].
    + destruct suffix; cbn [append endsWith]; rewrite String.eqb_refl; reflexivity.
    + change (String c q +++ suffix) with (String c (q +++ suffix)).
      cbn [endsWith]. rewrite IH. apply orb_true_r.
Qed.

Lemma substring_app (q r : string) : substring 0 (String.length q) (q +++ r) = q.
Proof.
  induction q as [| c q IH]; simpl.
  - destruct r; reflexivity.
  - now rewrite IH.
Qed.

Lemma slice_drop_last (q : string) (c : ascii) : slice (q +++ String c "") 0 (-1) = q.
Proof.
  unfold slice. rewrite length_append.
  change (0 <? 0)%Z with false. change (-1 <? 0)%Z with true. cbv iota.
  replace (Z.to_nat (Z.min 0 (Z.of_nat (String.length q + String.length (String c "")))))
    with 0%nat by (simpl; lia).
  replace (Z.to_nat (Z.max (Z.of_nat (String.length q + String.length (String c "")) + -1) 0
                     - Z.min 0 (Z.of_nat (String.length q + String.length (String c "")))))
    with (String.length q) by (simpl; lia).
  apply substring_app.
Qed.

Lemma trimPath_spec (p : string) :
  (exists q, q <> "" /\ p = q +++ "/" /\ trimPath p = q)
  \/ (JS.endsWith p "/" && (1 <? String.length p)%nat = false /\ trimPath p = p).
Proof.
  unfold trimPath. destruct (endsWith p "/" && (1 <? String.length p)%nat) eqn:E; [left | right; auto].
  apply andb_true_iff in E. destruct E as [Hends Hlen].
  apply endsWith_app in Hends. destruct Hends as [q ->].
  exists q. repeat split.
  - intros ->. simpl in Hlen. discriminate.
  - apply slice_drop_last.
Qed.

Lemma append_last_inv (a t q : string) (c : ascii) :
  t <> "" -> a +++ t = q +++ String c "" ->
  exists q2, t = q2 +++ String c "" /\ q = a +++ q2.
Proof.
  revert q. induction a as [| x a IH]; intros q Ht H; simpl in *.
  - exists q. auto.
  - destruct q as [| y q]; simpl in H.
    + injection H as _ H. destruct a; simpl in H; [contradiction | discriminate].
    + injection H as -> H. destruct (IH q Ht H) as [q2 [-> ->]]. now exists q2.
Qed.

Lemma serializePath_not_empty (segs : list string) : segs <> [] -> serializePath segs <> "".
Proof. destruct segs; [contradiction | discriminate]. Qed.

Lemma allChars_last (p : ascii -> bool) (q : string) (c : ascii) :
  allChars p (q +++ String c "") = true -> p c = true.
Proof.
  rewrite allChars_app. simpl. rewrite andb_true_r, andb_true_iff. tauto.
Qed.

(** Dropping the last slash of a serialized path leaves a serialized path. *)
Lemma serializePath_drop_slash (segs : list string) :
  Forall cleanSegment segs ->
  forall q, q <> "" -> serializePath segs = q +++ "/" ->
  exists segs', segs' <> [] /\ Forall cleanSegment segs' /\ q = serializePath segs'.
Proof.
  induction 1 as [| s rest Hs Hrest IH]; intros q Hq H.
  - destruct q; discriminate.
  - rewrite serializePath_cons in H.
    destruct rest as [| s2 rest].
    + exfalso. simpl in H. rewrite append_empty_r in H.
      destruct q as [| x q]; [contradiction |]. simpl in H. injection H as _ H.
      destruct Hs as [Hchars _]. rewrite H in Hchars.
      apply allChars_last in Hchars. discriminate.
    + change (String "/" (s +++ serializePath (s2 :: rest)))
        with (String "/" s +++ serializePath (s2 :: rest)) in H.
      apply append_last_inv in H; [| discriminate].
      destruct H as [q2 [Ht ->]].
      destruct q2 as [| y q2].
      * exists [s]. split; [discriminate |]. split; [now constructor |].
        simpl. now rewrite !append_empty_r.
      * destruct (IH (String y q2)) as [segs' [Hne [Hclean Hq2]]]; [discriminate | exact Ht |].
        exists (s :: segs'). split; [discriminate |]. split; [now constructor |].
        rewrite serializePath_cons, <- Hq2. reflexivity.
Qed.

(** The trimmed path of a parsed URL is again a serialized clean path. *)
Lemma trimPath_serialized (segs : list string) :
  segs <> [] -> Forall cleanSegment segs ->
  exists segs',
    segs' <> [] /\ Forall cleanSegment segs'
    /\ trimPath (serializePath segs) = serializePath segs'.
Proof.
  intros Hne Hclean.
  destruct (trimPath_spec (serializePath segs)) as [[q [Hq [Hp Ht]]] | [Hcond Ht]].
  - destruct (serializePath_drop_slash segs Hclean q Hq Hp) as [segs' [Hne' [Hclean' Hq']]].
    exists segs'. rewrite Ht, <- Hq'. repeat split; auto.
  - exists segs. rewrite Ht. auto.
Qed.

Lemma defaultPort_schemes (scheme : string) :
  defaultPort scheme <> None ->
  scheme = "http" \/ scheme = "https" \/ scheme = "ws" \/ scheme = "wss" \/ scheme = "ftp".
Proof.
  unfold defaultPort.
  destruct (String.eqb_spec scheme "http"); [auto |].
  destruct (String.eqb_spec scheme "https"); [auto |].
  destruct (String.eqb_spec scheme "ws"); [auto |].
  destruct (String.eqb_spec scheme "wss"); [auto |].
  destruct (String.eqb_spec scheme "ftp"); [auto 6 |].
  intros H. now contradiction H.
Qed.

(** What a successful parse is made of. *)
Lemma parse_inv (url : string) (urlObj : URL) :
  parse url = Some urlObj ->
  exists scheme host segments,
    defaultPort scheme <> None
    /\ protocol urlObj = scheme +++ ":"
    /\ parseHost host = Some (hostname urlObj)
    /\ pathname urlObj = serializePath (pathState segments "" []).
Proof.
  unfold parse.
  destruct (parseScheme (preprocess url)) as [[scheme rest] |]; [| discriminate].
  destruct (defaultPort scheme) as [d |] eqn:Hport; [| discriminate].
  destruct (span (fun c => negb (isAuthorityEnd c)) (dropWhile isSlash rest)) as [authority rest'].
  destruct (match afterLastAt authority with
            | Some b => (true, b)
            | None => (false, authority)
            end) as [atSignSeen buffer].
  destruct (atSignSeen && (buffer =? "")); [discriminate |].
  destruct (span (fun c => negb (Ascii.eqb c ":")) buffer) as [host afterHost].
  destruct (parseHost host) as [h |] eqn:Hhost; [| discriminate].
  destruct (match afterHost with
            | "" => Some ""
            | String _ p => parsePort scheme p
            end) as [prt |]; [| discriminate].
  destruct (span (fun c => negb (Ascii.eqb c "?" || Ascii.eqb c "#")) rest') as [pathPart ignored].
  intros [= <-]. simpl.
  eexists scheme, host, _. repeat split; try eassumption; try reflexivity. congruence.
Qed.

Lemma afterLastAt_none (s : string) :
  allChars (fun c => negb (Ascii.eqb c "@")) s = true -> afterLastAt s = None.
Proof.
  induction s as [| c s IH]; simpl; [reflexivity |].
  rewrite andb_true_iff, negb_true_iff. intros [Hc Hs]. now rewrite (IH Hs), Hc.
Qed.

Lemma preprocess_id (s : string) :
  allChars (fun c => (32 <? code c)%N) s = true -> preprocess s = s.
Proof.
  intros H. unfold preprocess.
  assert (H1 : allChars (fun c => negb (isC0ControlOrSpace c)) s = true).
  { eapply allChars_impl; [| exact H]. intros c Hc. unfold isC0ControlOrSpace.
    apply N.ltb_lt in Hc. apply negb_true_iff, N.leb_gt. exact Hc. }
  rewrite (dropWhile_id _ _ H1), (trimEnd_id _ _ H1).
  apply filterString_id. eapply allChars_impl; [| exact H]. intros c Hc.
  unfold isTabOrNewline. apply N.ltb_lt in Hc.
  apply negb_true_iff. rewrite !orb_false_iff. repeat split; apply N.eqb_neq; lia.
Qed.

(** A normal form, read again by the URL constructor. *)
Lemma parse_normal_form (scheme h : string) (segs : list string) :
  defaultPort scheme <> None ->
  h <> "" -> allChars hostChar h = true -> parseHost h = Some h ->
  segs <> [] -> Forall cleanSegment segs ->
  parse ((scheme +++ ":") +++ "//" +++ h +++ serializePath segs)
  = Some {| protocol := scheme +++ ":"; hostname := h; port := "";
            pathname := serializePath segs |}.
Proof.
  intros Hscheme Hne Hchars Hhost Hsegs Hclean.
  destruct segs as [| s rest]; [contradiction |].
  destruct h as [| c0 h0]; [contradiction |].
  assert (Hgt : allChars (fun c => (32 <? code c)%N)
                  (String c0 h0 +++ serializePath (s :: rest)) = true).
  { rewrite allChars_app. apply andb_true_iff. split.
    - eapply allChars_impl; [| exact Hchars]. intros c Hc. apply (hostChar_facts c Hc).
    - eapply allChars_impl; [| exact (serializePath_chars _ Hclean)].
      intros c Hc. apply orb_true_iff in Hc. destruct Hc as [Hc | Hc].
      + apply (segmentChar_facts c Hc).
      + apply Ascii.eqb_eq in Hc. now subst. }
  assert (Hpath : pathState (s +++ serializePath rest) "" [] = s :: rest).
  { inversion Hclean as [| ? ? Hs Hrest]; subst.
    apply (pathState_serialized rest Hrest s "" []); [apply Hs | exact Hs]. }
  assert (Hc0 : hostChar c0 = true).
  { simpl in Hchars. apply andb_true_iff in Hchars. apply Hchars. }
  destruct (hostChar_facts c0 Hc0) as [_ [_ [_ [_ [_ [Hend0 _]]]]]].
  assert (Hslash0 : isSlash c0 = false).
  { unfold isAuthorityEnd in Hend0. rewrite !orb_false_iff in Hend0. tauto. }
  assert (Hauth : span (fun c => negb (isAuthorityEnd c))
                    (String c0 h0 +++ serializePath (s :: rest))
                  = (String c0 h0, serializePath (s :: rest))).
  { rewrite serializePath_cons. apply span_stop; [| reflexivity].
    eapply allChars_impl; [| exact Hchars]. intros c Hc.
    destruct (hostChar_facts c Hc) as [_ [_ [_ [_ [_ [-> _]]]]]]. reflexivity. }
  assert (Hat : afterLastAt (String c0 h0) = None).
  { apply afterLastAt_none. eapply allChars_impl; [| exact Hchars]. intros c Hc.
    destruct (hostChar_facts c Hc) as [_ [_ [_ [-> _]]]]. reflexivity. }
  assert (Hcolon : span (fun c => negb (Ascii.eqb c ":")) (String c0 h0) = (String c0 h0, "")).
  { apply span_all. eapply allChars_impl; [| exact Hchars]. intros c Hc.
    destruct (hostChar_facts c Hc) as [_ [_ [_ [_ [-> _]]]]]. reflexivity. }
  assert (Hquery : span (fun c => negb (Ascii.eqb c "?" || Ascii.eqb c "#"))
                     (serializePath (s :: rest))
                   = (serializePath (s :: rest), "")).
  { apply span_all. eapply allChars_impl; [| exact (serializePath_chars _ Hclean)].
    intros c Hc. apply orb_true_iff in Hc. destruct Hc as [Hc | Hc].
    - destruct (segmentChar_facts c Hc) as [_ [_ [-> _]]]. reflexivity.
    - apply Ascii.eqb_eq in Hc. now subst. }
  assert (Hdrop : dropWhile isSlash
                    (String "/" (String "/" (String c0 (h0 +++ serializePath (s :: rest)))))
                  = String c0 h0 +++ serializePath (s :: rest)).
  { cbn [dropWhile isSlash Ascii.eqb Bool.eqb orb]. now rewrite Hslash0. }
  unfold parse. rewrite preprocess_id.
  - destruct (defaultPort_schemes scheme Hscheme) as [-> | [-> | [-> | [-> | ->]]]];
      cbn [append parseScheme span isAsciiAlpha isSchemeChar];
      cbn -[append serializePath parseHost span afterLastAt dropWhile pathState];
      rewrite Hdrop, Hauth, Hat; cbn [andb]; rewrite Hcolon, Hhost, Hquery;
      rewrite serializePath_cons; cbn [isSlash Ascii.eqb Bool.eqb orb];
      rewrite Hpath; reflexivity.
  - rewrite append_assoc, allChars_app. apply andb_true_iff. split.
    + destruct (defaultPort_schemes scheme Hscheme) as [-> | [-> | [-> | [-> | ->]]]];
        reflexivity.
    + exact Hgt.
Qed.

Lemma startsWith_app (p x : string) : startsWith (p +++ x) p = true.
Proof.
  induction p as [| c p IH]; [reflexivity |].
  cbn [append startsWith]. now rewrite Ascii.eqb_refl, IH.
Qed.

(** The host name of a parsed URL, once its [www.] is stripped, parses to
    itself, unless nothing is left of it. *)
Lemma stripped_host (host h : string) :
  parseHost host = Some h ->
  h <> "www." ->
  let h' := replace_leading_www h in
  h' <> "" /\ allChars hostChar h' = true /\ parseHost h' = Some h'.
Proof.
  intros Hparse Hnot h'.
  destruct (parseHost_result host h Hparse) as [Hok | [a ->]].
  - assert (Hne : h' <> "").
    { unfold h'. destruct (replace_leading_www_spec h) as [[_ Hh] | [_ ->]].
      - intros E. rewrite E in Hh. now apply Hnot.
      - apply Hok. }
    assert (Hok' : domainOK h') by now apply domainOK_strip.
    split; [exact Hne |]. split; [apply Hok' |]. now apply parseHost_domain.
  - destruct (ipv4_chars a) as [Hne [Hchars Hw]]. destruct (parseHost_ipv4 a) as [Hp Hr].
    unfold h'. rewrite Hr. auto.
Qed.

(** The normal form of a URL the model accepts is read back as it was
    written: as that URL with its [www.] stripped, its trailing slash trimmed
    and no port, unless the host name is [www.] alone. *)
Lemma parse_read_back (url : string) (urlObj : URL) :
  parse url = Some urlObj ->
  hostname urlObj <> "www." ->
  readBack parse url urlObj
    {| protocol := protocol urlObj;
       hostname := replace_leading_www (hostname urlObj);
       port := "";
       pathname := trimPath (pathname urlObj) |}.
Proof.
  intros Hparse Hnot.
  destruct (parse_inv url urlObj Hparse) as [scheme [host [segments [Hs [Hp [Hh Hpath]]]]]].
  destruct (stripped_host host (hostname urlObj) Hh Hnot) as [Hne [Hchars Hhost]].
  destruct (pathState_clean segments "" [] eq_refl (Forall_nil _)) as [Hclean Hsegs].
  destruct (trimPath_serialized _ Hsegs Hclean) as [segs' [Hne' [Hclean' Ht]]].
  split; [|now cbn].
  unfold normalizeUrl. rewrite Hparse.
  fold (trimPath (pathname urlObj)). rewrite Hpath, Ht, Hp.
  now apply parse_normal_form.
Qed.

End WHATWGFacts.

(** ** Normalization *)

Module StringFacts.
Import JS.

Lemma append_inj_l (a x y : string) : a +++ x = a +++ y -> x = y.
Proof. induction a as [|c a IH]; cbn [append]; [auto|]. intros [= H]. auto. Qed.

Lemma startsWith_prefix (s p q : string) :
  startsWith s (p +++ q) = true -> startsWith s p = true.
Proof.
  revert s. induction p as [|a p IH]; intros s; [reflexivity|].
  cbn [append startsWith]. destruct s as [|b s]; [discriminate|].
  rewrite !andb_true_iff. intros [Hab H]. split; [exact Hab|]. now apply IH.
Qed.

Lemma strip_length (h : string) :
  (String.length (replace_leading_www h) <= String.length h)%nat
  /\ (startsWith h "www." = true ->
      (String.length (replace_leading_www h) < String.length h)%nat).
Proof.
  destruct (WHATWGFacts.replace_leading_www_spec h) as [[Hw Hh]|[Hw ->]].
  - assert (Hlen : String.length h = (4 + String.length (replace_leading_www h))%nat).
    { rewrite Hh at 1. now rewrite WHATWGFacts.length_append. }
    lia.
  - split; [lia|congruence].
Qed.

(** Stripping [www.] once more: there is something to strip exactly when the
    host name began with two of them. *)
Lemma strip_twice (h : string) :
  startsWith (replace_leading_www h) "www." = startsWith h "www.www.".
Proof.
  destruct (WHATWGFacts.replace_leading_www_spec h) as [[Hw Hh]|[Hw ->]].
  - rewrite Hh at 2. reflexivity.
  - rewrite Hw. symmetry. destruct (startsWith h "www.www.") eqn:E; [|reflexivity].
    apply (startsWith_prefix h "www." "www.") in E. congruence.
Qed.

Lemma endsWith_length (p suffix : string) :
  endsWith p suffix = true -> (String.length suffix <= String.length p)%nat.
Proof.
  intros [q ->]%WHATWGFacts.endsWith_app. rewrite WHATWGFacts.length_append. lia.
Qed.

Lemma endsWith_snoc (q : string) (c : ascii) (suffix : string) :
  endsWith (q +++ String c "") (suffix +++ String c "") = endsWith q suffix.
Proof.
  destruct (endsWith q suffix) eqn:E.
  - apply WHATWGFacts.endsWith_app in E. destruct E as [r ->].
    apply WHATWGFacts.endsWith_app. exists r. now rewrite WHATWGFacts.append_assoc.
  - destruct (endsWith (q +++ String c "") (suffix +++ String c "")) eqn:E'; [|reflexivity].
    apply WHATWGFacts.endsWith_app in E'. destruct E' as [r Hr].
    rewrite <- WHATWGFacts.append_assoc in Hr.
    assert (q = r +++ suffix).
    { assert (Hlen : String.length q = String.length (r +++ suffix)).
      { apply (f_equal String.length) in Hr. rewrite !WHATWGFacts.length_append in Hr.
        rewrite WHATWGFacts.length_append. cbn in Hr. lia. }
      revert Hr Hlen. generalize (r +++ suffix) as t. clear.
      induction q as [|a q IH]; intros [|b t]; cbn; intros H Hlen; try discriminate;
        [reflexivity|].
      injection H as -> H. f_equal. apply IH; [exact H|lia]. }
    subst q. rewrite <- E. symmetry. apply WHATWGFacts.endsWith_app. now exists r.
Qed.

Lemma trim_length (p : string) :
  (String.length (trimPath p) <= String.length p)%nat
  /\ (endsWith p "/" && (1 <? String.length p)%nat = true ->
      (String.length (trimPath p) < String.length p)%nat).
Proof.
  destruct (WHATWGFacts.trimPath_spec p) as [(q & Hq & -> & ->)|[Hc ->]].
  - rewrite WHATWGFacts.length_append. cbn. lia.
  - split; [lia|congruence].
Qed.

(** Trimming the slash once more: there is one to trim exactly when the path
    ended in two slashes and was not just these two. *)
Lemma trim_twice (p : string) :
  endsWith (trimPath p) "/" && (1 <? String.length (trimPath p))%nat
  = endsWith p "//" && (2 <? String.length p)%nat.
Proof.
  destruct (WHATWGFacts.trimPath_spec p) as [(q & Hq & -> & ->)|[Hc ->]].
  - change "//" with ("/" +++ String "/" ""). change "/" with (String "/" "") at 2.
    rewrite endsWith_snoc. rewrite WHATWGFacts.length_append. cbn [String.length].
    f_equal. rewrite Nat.add_1_r. reflexivity.
  - rewrite Hc. symmetry. apply andb_false_iff.
    destruct (endsWith p "//") eqn:E; [|now left]. right.
    pose proof (endsWith_length _ _ E) as Hlen. cbn in Hlen.
    assert (Hs : endsWith p "/" = true).
    { apply WHATWGFacts.endsWith_app in E. destruct E as [r ->].
      apply WHATWGFacts.endsWith_app. exists (r +++ "/").
      now rewrite WHATWGFacts.append_assoc. }
    rewrite Hs in Hc. cbn [andb] in Hc. apply Nat.ltb_ge in Hc. lia.
Qed.

End StringFacts.

Section NormalizeFacts.
Variable newURL : string -> option URL.

Lemma normalizeUrl_parsed (url : string) (urlObj : URL) :
  newURL url = Some urlObj ->
  normalizeUrl newURL url
  = protocol urlObj +++ "//" +++ JS.replace_leading_www (hostname urlObj)
    +++ trimPath (pathname urlObj).
Proof. intros H. unfold normalizeUrl, trimPath. now rewrite H. Qed.

Lemma normalizeUrl_unparsed (url : string) :
  newURL url = None -> normalizeUrl newURL url = url.
Proof. intros H. unfold normalizeUrl. now rewrite H. Qed.

(** Normalizing the normal form: when it is read back as it was written,
    the second pass leaves it alone exactly when it finds no [www.] to strip
    and no slash to trim. *)
Lemma normalizeUrl_again (url : string) (urlObj again : URL) :
  newURL url = Some urlObj ->
  readBack newURL url urlObj again ->
  (normalizeUrl newURL (normalizeUrl newURL url) = normalizeUrl newURL url
   <-> JS.startsWith (hostname urlObj) "www.www." = false
       /\ JS.endsWith (pathname urlObj) "//" && (2 <? String.length (pathname urlObj))%nat
          = false).
Proof.
  intros Hparse (Hagain & Hp & Hh & Hpath).
  rewrite (normalizeUrl_parsed _ _ Hagain), (normalizeUrl_parsed _ _ Hparse).
  rewrite Hp, Hh, Hpath.
  rewrite <- StringFacts.strip_twice, <- StringFacts.trim_twice.
  set (h := JS.replace_leading_www (hostname urlObj)).
  set (p := trimPath (pathname urlObj)).
  destruct (StringFacts.strip_length h) as [Hhle Hhlt].
  destruct (StringFacts.trim_length p) as [Hple Hplt].
  split.
  - intros H. apply StringFacts.append_inj_l in H.
    change ("//" +++ JS.replace_leading_www h +++ trimPath p)
      with (String "/" (String "/" (JS.replace_leading_www h +++ trimPath p))) in H.
    change ("//" +++ h +++ p) with (String "/" (String "/" (h +++ p))) in H.
    injection H as H. apply (f_equal String.length) in H.
    rewrite !WHATWGFacts.length_append in H.
    split.
    + destruct (JS.startsWith h "www."); [|reflexivity]. specialize (Hhlt eq_refl). lia.
    + destruct (JS.endsWith p "/" && (1 <? String.length p)%nat); [|reflexivity].
      specialize (Hplt eq_refl). lia.
  - intros [Hw Hs].
    destruct (WHATWGFacts.replace_leading_www_spec h) as [[Hw' _]|[_ ->]]; [congruence|].
    destruct (WHATWGFacts.trimPath_spec p) as [(q & Hq & Hpq & _)|[_ ->]]; [|reflexivity].
    exfalso. rewrite Hpq in Hs.
    assert (Hends : JS.endsWith (q +++ "/") "/" = true)
      by (apply WHATWGFacts.endsWith_app; now exists q).
    rewrite Hends, WHATWGFacts.length_append in Hs. cbn in Hs.
    destruct q as [|c q]; [congruence|]. cbn in Hs.
    destruct (String.length q + 1)%nat eqn:E; [lia|discriminate].
Qed.

(** C9 (as amended).  Normalizing twice is the same as normalizing once on
    every input the URL constructor rejects: such an input is returned as it
    is, and so is a normal form the constructor rejects.  On an input it
    accepts and whose normal form it reads back as it was written, with the
    protocol, the host name and the path the normal form was put together
    from, normalizing twice is the same as normalizing once exactly when the
    host name does not begin with [www.www.] and the path does not end in
    two slashes, the path [//] apart. *)
Theorem normalizeUrl_idempotent (url : string) :
  match newURL url with
  | None =>
      normalizeUrl newURL url = url
      /\ normalizeUrl newURL (normalizeUrl newURL url) = normalizeUrl newURL url
  | Some urlObj =>
      (newURL (normalizeUrl newURL url) = None ->
       normalizeUrl newURL (normalizeUrl newURL url) = normalizeUrl newURL url)
      /\ forall again,
           readBack newURL url urlObj again ->
           (normalizeUrl newURL (normalizeUrl newURL url) = normalizeUrl newURL url
            <-> JS.startsWith (hostname urlObj) "www.www." = false
                /\ JS.endsWith (pathname urlObj) "//"
                   && (2 <? String.length (pathname urlObj))%nat = false)
  end.
Proof.
  destruct (newURL url) as [urlObj|] eqn:Hparse.
  - split.
    + apply normalizeUrl_unparsed.
    + intros again. now apply normalizeUrl_again.
  - pose proof (normalizeUrl_unparsed url Hparse) as H.
    split; [exact H|]. rewrite H. exact H.
Qed.

(** C10.  The normal form of a URL that parses is made of its protocol, host
    name and path only: the port takes no part in it.  Two URLs that differ
    only in their ports have the same normal form, so each is found in a set
    of normalized URLs built from the other. *)
Theorem normalizeUrl_drops_port (url url' : string) (urlObj urlObj' : URL) :
  newURL url = Some urlObj ->
  newURL url' = Some urlObj' ->
  protocol urlObj' = protocol urlObj ->
  hostname urlObj' = hostname urlObj ->
  pathname urlObj' = pathname urlObj ->
  normalizeUrl newURL url
  = protocol urlObj +++ "//" +++ JS.replace_leading_www (hostname urlObj)
    +++ trimPath (pathname urlObj)
  /\ normalizeUrl newURL url' = normalizeUrl newURL url
  /\ JS.Set_has (JS.Set_from (map (normalizeUrl newURL) [url]))
                (normalizeUrl newURL url') = true.
Proof.
  intros H H' Hp Hh Hpath.
  assert (Hsame : normalizeUrl newURL url' = normalizeUrl newURL url).
  { rewrite (normalizeUrl_parsed _ _ H), (normalizeUrl_parsed _ _ H'). now rewrite Hp, Hh, Hpath. }
  split; [now apply normalizeUrl_parsed |]. split; [exact Hsame |].
  rewrite Hsame. apply JSFacts.Set_has_In, JSFacts.Set_from_In. now left.
Qed.

End NormalizeFacts.

(** In the model of the URL constructor every URL it accepts is read back as
    it was written, the host name [www.] apart, so for these URLs the second
    pass changes the normal form exactly when there is another [www.] or
    another slash to remove. *)
Lemma normalizeUrl_modelled (url : string) (urlObj : URL) :
  WHATWG.parse url = Some urlObj ->
  hostname urlObj <> "www." ->
  (normalizeUrl WHATWG.parse (normalizeUrl WHATWG.parse url) = normalizeUrl WHATWG.parse url
   <-> JS.startsWith (hostname urlObj) "www.www." = false
       /\ JS.endsWith (pathname urlObj) "//" && (2 <? String.length (pathname urlObj))%nat
          = false).
Proof.
  intros Hparse Hnot.
  exact (normalizeUrl_again WHATWG.parse url urlObj _ Hparse
           (WHATWGFacts.parse_read_back url urlObj Hparse Hnot)).
Qed.

(** C9 (as stated) fails: only one [www.] is stripped at a time, so a host
    name that begins with two loses the second one on the second pass.  The
    same happens with a path that ends in two slashes.  And a normal form
    need not be read back as it was written: stripping the host name [www.]
    leaves none, the slashes that follow are skipped when the normal form is
    read again, and the first path segment becomes the host. *)
Lemma normalizeUrl_idempotent_counterexample :
  normalizeUrl WHATWG.parse (normalizeUrl WHATWG.parse "http://www.www.example.com/a")
  <> normalizeUrl WHATWG.parse "http://www.www.example.com/a"
  /\ normalizeUrl WHATWG.parse (normalizeUrl WHATWG.parse "http://example.com/a//")
     <> normalizeUrl WHATWG.parse "http://example.com/a//"
  /\ normalizeUrl WHATWG.parse "http://www./a/b" = "http:///a/b"
  /\ normalizeUrl WHATWG.parse "http:///a/b" = "http://a/b".
Proof. vm_compute. repeat split; discriminate. Qed.

(** A URL with an upper-case host name, one [www.] and one trailing slash:
    its normal form is read back as it was written and has nothing left to
    remove. *)
Lemma normalizeUrl_idempotent_witness :
  normalizeUrl WHATWG.parse (normalizeUrl WHATWG.parse "http://www.Example.com/a/")
  = normalizeUrl WHATWG.parse "http://www.Example.com/a/".
Proof.
  pose proof (normalizeUrl_idempotent WHATWG.parse "http://www.Example.com/a/") as H.
  change (WHATWG.parse "http://www.Example.com/a/")
    with (Some {| protocol := "http:"; hostname := "www.example.com"; port := "";
                  pathname := "/a/" |}) in H.
  apply (proj2 H {| protocol := "http:"; hostname := "example.com"; port := "";
                    pathname := "/a" |}).
  - repeat split.
  - split; reflexivity.
Defined.

(** A URL with port 8080 and the same URL without a port. *)
Lemma normalizeUrl_drops_port_witness :
  normalizeUrl WHATWG.parse "http://example.com:8080/a" = "http://example.com/a"
  /\ normalizeUrl WHATWG.parse "http://example.com/a"
     = normalizeUrl WHATWG.parse "http://example.com:8080/a"
  /\ JS.Set_has (JS.Set_from (map (normalizeUrl WHATWG.parse) ["http://example.com:8080/a"]))
                (normalizeUrl WHATWG.parse "http://example.com/a") = true.
Proof.
  apply (normalizeUrl_drops_port WHATWG.parse
           "http://example.com:8080/a" "http://example.com/a"
           {| protocol := "http:"; hostname := "example.com"; port := "8080"; pathname := "/a" |}
           {| protocol := "http:"; hostname := "example.com"; port := ""; pathname := "/a" |});
    reflexivity.
Defined.

(** ** More on maps *)

Module MapFacts.

Lemma Map_get_of_In {V} (m : JS.Map V) (k : string) (v : V) :
  NoDup (map fst m) -> In (k, v) m -> JS.Map_get m k = Some v.
Proof.
  induction m as [|[k' v'] m IH]; cbn; [tauto|].
  intros Hnd [[= -> ->]|Hin].
  - now rewrite String.eqb_refl.
  - inversion Hnd as [|? ? Hk Hm]; subst.
    destruct (String.eqb_spec k' k) as [->|_]; [|auto].
    exfalso. apply Hk. apply (in_map fst) in Hin. exact Hin.
Qed.

Lemma Map_has_keys {V} (m : JS.Map V) (k : string) :
  JS.Map_has m k = true <-> In k (map fst m).
Proof.
  unfold JS.Map_has. induction m as [|[k' v'] m IH]; cbn.
  - split; [discriminate|tauto].
  - destruct (String.eqb_spec k' k) as [->|Hne]; [tauto|].
    rewrite IH. split; [tauto|]. intros [H|H]; [congruence|exact H].
Qed.

End MapFacts.

(** ** [levenshteinDistance] *)

Section LevenshteinFacts.

Lemma lev_nil_l (t : list ascii) : lev [] t = List.length t.
Proof. destruct t; reflexivity. Qed.

Lemma lev_nil_r (s : list ascii) : lev s [] = List.length s.
Proof. destruct s; reflexivity. Qed.

Lemma lev_cons (a b : ascii) (s t : list ascii) :
  lev (a :: s) (b :: t)
  = if Ascii.eqb a b then lev s t
    else Nat.min (Nat.min (lev s t + 1) (lev (a :: s) t + 1)) (lev s (b :: t) + 1).
Proof. reflexivity. Qed.

(** One row of the matrix from the row above it. *)
Lemma fillRow_lev (c2 : ascii) (u : list ascii) (rest : string) (v : list ascii) :
  fillRow c2 rest (map (lev u) (exts v rest)) (lev u v) (lev (c2 :: u) v)
  = map (lev (c2 :: u)) (exts v rest).
Proof.
  revert v. induction rest as [|c1 rest IH]; intros v; [reflexivity|].
  cbn [exts map fillRow]. rewrite (lev_cons c2 c1 u v).
  f_equal. apply IH.
Qed.

Lemma nextRow_lev (c2 : ascii) (u : list ascii) (str1 : string) :
  nextRow (S (List.length u)) c2 str1 (map (lev u) ([] :: exts [] str1))
  = map (lev (c2 :: u)) ([] :: exts [] str1).
Proof.
  cbn [map nextRow]. f_equal.
  replace (S (List.length u)) with (lev (c2 :: u) []) by reflexivity.
  apply fillRow_lev.
Qed.

Lemma matrixRows_lev (str2 str1 : string) (u : list ascii) :
  matrixRows str2 (List.length u) str1 (map (lev u) ([] :: exts [] str1))
  = map (lev (rev (chars str2) ++ u)) ([] :: exts [] str1).
Proof.
  revert u. induction str2 as [|c2 str2 IH]; intros u; [reflexivity|].
  cbn [matrixRows]. rewrite nextRow_lev.
  change (S (List.length u)) with (List.length (c2 :: u)). rewrite IH.
  cbn [chars list_ascii_of_string rev]. fold (chars str2).
  now rewrite <- app_assoc.
Qed.

Lemma first_row (str1 : string) (v : list ascii) :
  map (lev []) (exts v str1) = seq (S (List.length v)) (String.length str1).
Proof.
  revert v. induction str1 as [|c s IH]; intros v; [reflexivity|].
  cbn [exts map String.length seq]. rewrite lev_nil_l. f_equal. apply IH.
Qed.

Lemma last_exts (str1 : string) (v : list ascii) :
  List.last (v :: exts v str1) [] = rev (chars str1) ++ v.
Proof.
  revert v. induction str1 as [|c s IH]; intros v; [reflexivity|].
  cbn [exts]. change (List.last (v :: (c :: v) :: exts (c :: v) s) [])
    with (List.last ((c :: v) :: exts (c :: v) s) []).
  rewrite IH. cbn [chars list_ascii_of_string rev]. fold (chars s).
  now rewrite <- app_assoc.
Qed.

Lemma last_map {A B} (f : A -> B) (l : list A) (d : A) :
  List.last (map f l) (f d) = f (List.last l d).
Proof.
  induction l as [|x [|y l] IH]; try reflexivity.
  exact IH.
Qed.

(** The matrix computes the recurrence on the two strings read backwards. *)
Lemma levenshteinDistance_lev (str1 str2 : string) :
  levenshteinDistance str1 str2 = lev (rev (chars str2)) (rev (chars str1)).
Proof.
  unfold levenshteinDistance.
  replace (seq 0 (S (String.length str1))) with (map (lev []) ([] :: exts [] str1))
    by (cbn [map seq]; f_equal; apply first_row).
  change 0%nat with (@List.length ascii []) at 1.
  rewrite (matrixRows_lev str2 str1 []), app_nil_r.
  set (u := rev (chars str2)).
  rewrite (last_default _ 0%nat (lev u [])) by discriminate.
  rewrite (last_map (lev u)), last_exts. now rewrite app_nil_r.
Qed.

End LevenshteinFacts.
Section EditFacts.

#[local] Hint Constructors Edit : core.

Lemma lev_Edit (s t : list ascii) : Edit (lev s t) s t.
Proof.
  revert t. induction s as [|a s IHs]; intros t.
  - rewrite lev_nil_l. induction t; cbn; auto.
  - induction t as [|b t IHt].
    + rewrite lev_nil_r. clear IHs. generalize a. induction s; intros; cbn in *; auto.
    + rewrite lev_cons. destruct (Ascii.eqb_spec a b) as [->|_]; [auto|].
      destruct (Nat.min_spec (Nat.min (lev s t + 1) (lev (a :: s) t + 1)) (lev s (b :: t) + 1))
        as [[_ ->]|[_ ->]].
      * destruct (Nat.min_spec (lev s t + 1) (lev (a :: s) t + 1)) as [[_ ->]|[_ ->]];
          rewrite Nat.add_1_r; auto.
      * rewrite Nat.add_1_r; auto.
Qed.

(** Dropping a character of either string changes the value by at most one. *)
Lemma lev_step (k : nat) :
  forall s t, (List.length s + List.length t <= k)%nat ->
    (forall a, lev s t <= S (lev (a :: s) t))%nat
    /\ (forall b, lev s t <= S (lev s (b :: t)))%nat
    /\ (forall a, lev (a :: s) t <= S (lev s t))%nat
    /\ (forall b, lev s (b :: t) <= S (lev s t))%nat.
Proof.
  induction k as [|k IH]; intros s t Hk.
  - destruct s, t; cbn in Hk; try lia.
    repeat split; intros; cbn; lia.
  - assert (Hins : forall s t, (List.length s + List.length t <= S k)%nat ->
                               forall b, (lev s (b :: t) <= S (lev s t))%nat).
    { intros s0 t0 H0 b. destruct s0 as [|c s0].
      - rewrite !lev_nil_l. cbn. lia.
      - rewrite lev_cons. destruct (Ascii.eqb c b).
        + cbn in H0. destruct (IH s0 t0 ltac:(lia)) as (H1 & _). apply H1.
        + lia. }
    assert (Hdel : forall s t, (List.length s + List.length t <= S k)%nat ->
                               forall a, (lev (a :: s) t <= S (lev s t))%nat).
    { intros s0 t0 H0 a. destruct t0 as [|c t0].
      - rewrite !lev_nil_r. cbn. lia.
      - rewrite lev_cons. destruct (Ascii.eqb a c).
        + cbn in H0. destruct (IH s0 t0 ltac:(lia)) as (_ & H2 & _). apply H2.
        + lia. }
    repeat split; intros x.
    + destruct t as [|b t]; [rewrite !lev_nil_r; cbn; lia|].
      rewrite (lev_cons x b). cbn in Hk.
      destruct (Ascii.eqb x b).
      * apply Hins. lia.
      * pose proof (Hins s t ltac:(lia) b).
        destruct (IH s t ltac:(lia)) as (H1 & _). specialize (H1 x). lia.
    + destruct s as [|a s]; [rewrite !lev_nil_l; cbn; lia|].
      rewrite (lev_cons a x). cbn in Hk.
      destruct (Ascii.eqb a x).
      * apply Hdel. lia.
      * pose proof (Hdel s t ltac:(lia) a).
        destruct (IH s t ltac:(lia)) as (_ & H2 & _). specialize (H2 x). lia.
    + apply Hdel, Hk.
    + apply Hins, Hk.
Qed.

Lemma lev_drop_l (a : ascii) (s t : list ascii) : (lev s t <= S (lev (a :: s) t))%nat.
Proof. now apply (lev_step (List.length s + List.length t) s t). Qed.

Lemma lev_drop_r (b : ascii) (s t : list ascii) : (lev s t <= S (lev s (b :: t)))%nat.
Proof. now apply (lev_step (List.length s + List.length t) s t). Qed.

Lemma lev_add_l (a : ascii) (s t : list ascii) : (lev (a :: s) t <= S (lev s t))%nat.
Proof. now apply (lev_step (List.length s + List.length t) s t). Qed.

Lemma lev_add_r (b : ascii) (s t : list ascii) : (lev s (b :: t) <= S (lev s t))%nat.
Proof. now apply (lev_step (List.length s + List.length t) s t). Qed.

Lemma lev_both (a b : ascii) (s t : list ascii) : (lev (a :: s) (b :: t) <= S (lev s t))%nat.
Proof.
  rewrite lev_cons. destruct (Ascii.eqb a b); lia.
Qed.

Lemma Edit_lev (n : nat) (s t : list ascii) : Edit n s t -> (lev s t <= n)%nat.
Proof.
  induction 1 as [|c n s t _ IH|a b n s t _ IH|a n s t _ IH|b n s t _ IH].
  - reflexivity.
  - rewrite lev_cons, Ascii.eqb_refl. exact IH.
  - pose proof (lev_both a b s t). lia.
  - pose proof (lev_add_l a s t). lia.
  - pose proof (lev_add_r b s t). lia.
Qed.

Lemma Edit_sym (n : nat) (s t : list ascii) : Edit n s t -> Edit n t s.
Proof. induction 1; auto. Qed.

Lemma Edit_app (n m : nat) (s t s' t' : list ascii) :
  Edit n s t -> Edit m s' t' -> Edit (n + m) (s ++ s') (t ++ t').
Proof. induction 1; intros H'; cbn; auto. Qed.

Lemma Edit_rev (n : nat) (s t : list ascii) : Edit n s t -> Edit n (rev s) (rev t).
Proof.
  induction 1 as [|c n s t _ IH|a b n s t _ IH|a n s t _ IH|b n s t _ IH]; cbn; auto.
  - rewrite <- (Nat.add_0_r n). apply Edit_app; auto.
  - rewrite <- Nat.add_1_r. apply Edit_app; auto.
  - rewrite <- Nat.add_1_r, <- (app_nil_r (rev t)). apply Edit_app; auto.
  - rewrite <- Nat.add_1_r, <- (app_nil_r (rev s)). apply Edit_app; auto.
Qed.

Lemma Edit_trans (n : nat) (s t : list ascii) :
  Edit n s t -> forall m u, Edit m t u -> exists k, (k <= n + m)%nat /\ Edit k s u.
Proof.
  induction 1 as [|c n s t _ IH|a b n s t _ IH|a n s t _ IH|b n s t _ IH]; intros m u H2.
  - exists m. split; [lia|exact H2].
  - remember (c :: t) as ct eqn:E. revert E.
    induction H2 as [|c' m t' u' H2 _|a' b' m t' u' H2 _|a' m t' u' H2 _|b' m t' u' H2 IH2];
      intros E; try discriminate.
    + injection E as -> ->. destruct (IH _ _ H2) as (k & Hk & He). exists k. split; [lia|auto].
    + injection E as -> ->. destruct (IH _ _ H2) as (k & Hk & He). exists (S k). split; [lia|auto].
    + injection E as -> ->. destruct (IH _ _ H2) as (k & Hk & He). exists (S k). split; [lia|auto].
    + destruct (IH2 E) as (k & Hk & He). exists (S k). split; [lia|auto].
  - remember (b :: t) as bt eqn:E. revert E.
    induction H2 as [|c' m t' u' H2 _|a' b' m t' u' H2 _|a' m t' u' H2 _|b' m t' u' H2 IH2];
      intros E; try discriminate.
    + injection E as -> ->. destruct (IH _ _ H2) as (k & Hk & He). exists (S k). split; [lia|auto].
    + injection E as -> ->. destruct (IH _ _ H2) as (k & Hk & He). exists (S k). split; [lia|auto].
    + injection E as -> ->. destruct (IH _ _ H2) as (k & Hk & He). exists (S k). split; [lia|auto].
    + destruct (IH2 E) as (k & Hk & He). exists (S k). split; [lia|auto].
  - destruct (IH _ _ H2) as (k & Hk & He). exists (S k). split; [lia|auto].
  - remember (b :: t) as bt eqn:E. revert E.
    induction H2 as [|c' m t' u' H2 _|a' b' m t' u' H2 _|a' m t' u' H2 _|b' m t' u' H2 IH2];
      intros E; try discriminate.
    + injection E as -> ->. destruct (IH _ _ H2) as (k & Hk & He). exists (S k). split; [lia|auto].
    + injection E as -> ->. destruct (IH _ _ H2) as (k & Hk & He). exists (S k). split; [lia|auto].
    + injection E as -> ->. destruct (IH _ _ H2) as (k & Hk & He). exists k. split; [lia|auto].
    + destruct (IH2 E) as (k & Hk & He). exists (S k). split; [lia|auto].
Qed.

Lemma Edit_lengths (n : nat) (s t : list ascii) :
  Edit n s t ->
  (List.length s <= List.length t + n)%nat /\ (List.length t <= List.length s + n)%nat.
Proof. induction 1; cbn; lia. Qed.

Lemma Edit_zero (s t : list ascii) : Edit 0 s t -> s = t.
Proof.
  remember 0%nat as n eqn:E. induction 1; try discriminate; auto.
  now rewrite IHEdit.
Qed.

Lemma Edit_refl (s : list ascii) : Edit 0 s s.
Proof. induction s; auto. Qed.

Lemma lev_max (s t : list ascii) : (lev s t <= Nat.max (List.length s) (List.length t))%nat.
Proof.
  revert t. induction s as [|a s IH]; intros t; [rewrite lev_nil_l; lia|].
  destruct t as [|b t]; [rewrite lev_nil_r; lia|].
  pose proof (lev_both a b s t). specialize (IH t). cbn [List.length]. lia.
Qed.

Lemma lev_rev (s t : list ascii) : lev (rev s) (rev t) = lev s t.
Proof.
  apply Nat.le_antisymm.
  - apply Edit_lev, Edit_rev, lev_Edit.
  - rewrite <- (rev_involutive s), <- (rev_involutive t) at 1.
    apply Edit_lev, Edit_rev, lev_Edit.
Qed.

Lemma lev_sym (s t : list ascii) : lev s t = lev t s.
Proof. apply Nat.le_antisymm; apply Edit_lev, Edit_sym, lev_Edit. Qed.

(** The matrix computes the recurrence on the two strings as they stand. *)
Lemma levenshteinDistance_chars (str1 str2 : string) :
  levenshteinDistance str1 str2 = lev (chars str1) (chars str2).
Proof. now rewrite levenshteinDistance_lev, lev_rev, lev_sym. Qed.

Lemma chars_inj (a b : string) : chars a = chars b -> a = b.
Proof.
  intros H. rewrite <- (string_of_list_ascii_of_string a), <- (string_of_list_ascii_of_string b).
  unfold chars in H. now rewrite H.
Qed.

Lemma chars_length (s : string) : List.length (chars s) = String.length s.
Proof. induction s; cbn; auto. Qed.

End EditFacts.
Section SimilarityFacts.

(** X1. [levenshteinDistance] is the edit distance: some script of that many
    single-character insertions, deletions and substitutions turns [str1]
    into [str2], and no script does it with fewer. *)
Theorem levenshteinDistance_least (str1 str2 : string) :
  Edit (levenshteinDistance str1 str2) (chars str1) (chars str2)
  /\ forall n, Edit n (chars str1) (chars str2) -> (levenshteinDistance str1 str2 <= n)%nat.
Proof.
  rewrite levenshteinDistance_chars. split; [apply lev_Edit|intros n; apply Edit_lev].
Qed.

(** X2. [levenshteinDistance] is a metric on strings: it is zero exactly on
    equal strings, symmetric, and satisfies the triangle inequality.  It is
    at least the difference of the two lengths and at most the greater of
    them. *)
Theorem levenshteinDistance_metric (a b c : string) :
  (levenshteinDistance a b = 0%nat <-> a = b)
  /\ levenshteinDistance a b = levenshteinDistance b a
  /\ (levenshteinDistance a c <= levenshteinDistance a b + levenshteinDistance b c)%nat
  /\ (String.length a - String.length b <= levenshteinDistance a b)%nat
  /\ (String.length b - String.length a <= levenshteinDistance a b)%nat
  /\ (levenshteinDistance a b <= Nat.max (String.length a) (String.length b))%nat.
Proof.
  rewrite !levenshteinDistance_chars, <- !chars_length.
  pose proof (Edit_lengths _ _ _ (lev_Edit (chars a) (chars b))) as Hlen.
  pose proof (lev_max (chars a) (chars b)) as Hmax.
  split; [split|split; [|split; [|lia]]].
  - intros H. apply chars_inj, Edit_zero. rewrite <- H. apply lev_Edit.
  - intros ->. apply Nat.le_0_r, Edit_lev, Edit_refl.
  - apply lev_sym.
  - destruct (Edit_trans _ _ _ (lev_Edit (chars a) (chars b)) _ _ (lev_Edit (chars b) (chars c)))
      as (k & Hk & He).
    apply Edit_lev in He. lia.
Qed.

Lemma levenshteinDistance_zero (a b : string) : levenshteinDistance a b = 0%nat <-> a = b.
Proof.
  rewrite levenshteinDistance_chars. split.
  - intros H. apply chars_inj, Edit_zero. rewrite <- H. apply lev_Edit.
  - intros ->. apply Nat.le_0_r, Edit_lev, Edit_refl.
Qed.

Lemma levenshteinDistance_sym (a b : string) :
  levenshteinDistance a b = levenshteinDistance b a.
Proof. rewrite !levenshteinDistance_chars. apply lev_sym. Qed.

Lemma levenshteinDistance_le (a b : string) :
  (levenshteinDistance a b <= Nat.max (String.length a) (String.length b))%nat.
Proof. rewrite levenshteinDistance_chars, <- !chars_length. apply lev_max. Qed.

Lemma ratioOf_range (L d : nat) :
  (0 < L)%nat -> (d <= L)%nat -> (0 <= ratioOf L d)%Q /\ (ratioOf L d <= 1)%Q.
Proof.
  intros HL Hd. unfold ratioOf.
  assert (HLq : (0 < inject_Z (Z.of_nat L))%Q)
    by (change 0%Q with (inject_Z 0); rewrite <- Zlt_Qlt; lia).
  split.
  - apply Qle_shift_div_l; [exact HLq|]. rewrite Qmult_0_l.
    unfold Qminus. rewrite <- inject_Z_opp, <- inject_Z_plus.
    change 0%Q with (inject_Z 0). rewrite <- Zle_Qle. lia.
  - apply Qle_shift_div_r; [exact HLq|]. rewrite Qmult_1_l.
    unfold Qminus. rewrite <- inject_Z_opp, <- inject_Z_plus.
    rewrite <- Zle_Qle. lia.
Qed.

Lemma ratioOf_one (L d : nat) : (0 < L)%nat -> (ratioOf L d == 1)%Q <-> d = 0%nat.
Proof.
  intros HL. unfold ratioOf.
  assert (HLq : ~ (inject_Z (Z.of_nat L) == 0)%Q).
  { change 0%Q with (inject_Z 0). rewrite inject_Z_injective. lia. }
  split.
  - intros H.
    assert (H' : (inject_Z (Z.of_nat L) - inject_Z (Z.of_nat d) == inject_Z (Z.of_nat L))%Q).
    { rewrite <- (Qmult_1_l (inject_Z (Z.of_nat L))) at 2. rewrite <- H.
      field. exact HLq. }
    unfold Qminus in H'. rewrite <- inject_Z_opp, <- inject_Z_plus, inject_Z_injective in H'.
    lia.
  - intros ->. cbn [Z.of_nat]. field. exact HLq.
Qed.

Lemma ratioOf_lt (L d : nat) (q : Q) :
  (0 < L)%nat -> (q < ratioOf L d)%Q <-> (q * inject_Z (Z.of_nat L) < inject_Z (Z.of_nat L - Z.of_nat d))%Q.
Proof.
  intros HL. unfold ratioOf.
  assert (HLq : (0 < inject_Z (Z.of_nat L))%Q)
    by (change 0%Q with (inject_Z 0); rewrite <- Zlt_Qlt; lia).
  unfold Z.sub. rewrite inject_Z_plus, inject_Z_opp. fold (Qminus (inject_Z (Z.of_nat L)) (inject_Z (Z.of_nat d))).
  split; intros H.
  - apply Qlt_shift_div_l in H || idtac.
    apply (Qmult_lt_r _ _ _ HLq) in H.
    setoid_replace ((inject_Z (Z.of_nat L) - inject_Z (Z.of_nat d)) / inject_Z (Z.of_nat L) * inject_Z (Z.of_nat L))%Q
      with (inject_Z (Z.of_nat L) - inject_Z (Z.of_nat d))%Q in H; [exact H|].
    field. intros E. rewrite E in HLq. now apply Qlt_irrefl in HLq.
  - apply Qlt_shift_div_l; assumption.
Qed.

Lemma calculateSimilarity_ratio (str1 str2 : string) :
  calculateSimilarity str1 str2
  = let L := Nat.max (String.length str1) (String.length str2) in
    if (L =? 0)%nat then 1%Q else ratioOf L (levenshteinDistance str1 str2).
Proof.
  unfold calculateSimilarity. cbv zeta.
  destruct (Nat.ltb_spec (String.length str2) (String.length str1)) as [H|H].
  - rewrite (Nat.max_l _ _ (Nat.lt_le_incl _ _ H)). reflexivity.
  - rewrite (Nat.max_r _ _ H). now rewrite (levenshteinDistance_sym str2 str1).
Qed.

Lemma calculateSimilarity_facts (str1 str2 : string) :
  (0 <= calculateSimilarity str1 str2)%Q
  /\ (calculateSimilarity str1 str2 <= 1)%Q
  /\ ((calculateSimilarity str1 str2 == 1)%Q <-> str1 = str2)
  /\ calculateSimilarity str1 str2 = calculateSimilarity str2 str1.
Proof.
  rewrite (calculateSimilarity_ratio str2 str1), calculateSimilarity_ratio. cbv zeta.
  rewrite (Nat.max_comm (String.length str2)), (levenshteinDistance_sym str2 str1).
  pose proof (levenshteinDistance_le str1 str2) as Hle.
  destruct (Nat.eqb_spec (Nat.max (String.length str1) (String.length str2)) 0) as [E|E].
  - repeat split; try discriminate.
    destruct str1, str2; cbn in E; try lia. reflexivity.
  - assert (HL : (0 < Nat.max (String.length str1) (String.length str2))%nat) by lia.
    destruct (ratioOf_range _ _ HL Hle) as [H0 H1].
    repeat split; try assumption.
    + intros H. apply ratioOf_one in H; [|lia]. now apply levenshteinDistance_zero.
    + intros H. apply ratioOf_one; [lia|]. now apply levenshteinDistance_zero.
Qed.

(** X3. [calculateSimilarity] lies between 0 and 1, is 1 exactly on equal
    strings, and does not depend on the order of its arguments. *)
Theorem calculateSimilarity_range (str1 str2 : string) :
  (0 <= calculateSimilarity str1 str2)%Q
  /\ (calculateSimilarity str1 str2 <= 1)%Q
  /\ ((calculateSimilarity str1 str2 == 1)%Q <-> str1 = str2)
  /\ calculateSimilarity str1 str2 = calculateSimilarity str2 str1.
Proof. apply calculateSimilarity_facts. Qed.

End SimilarityFacts.
(** ** URL patterns *)

Module PatternFacts.
Import Patterns.

Lemma patternStep_inv (target : string) (seen : list string) (st : Q * option string)
    (pattern : string) :
  patternInv target seen st -> patternInv target (seen ++ [pattern]) (patternStep target st pattern).
Proof.
  intros [Hmax Hst]. unfold patternStep.
  destruct (JS.Qltb (fst st) (calculateSimilarity target pattern)) eqn:E.
  - apply Qltb_lt in E. split; cbn [fst snd].
    + intros x [Hx|[<-|[]]]%in_app_iff; [|apply Qle_refl].
      apply Qle_trans with (fst st); [auto|now apply Qlt_le_weak].
    + split; [|split; [reflexivity|]].
      * exists seen, []. split; [reflexivity|].
        intros x Hx. apply Qle_lt_trans with (fst st); auto.
      * destruct (snd st) as [p|].
        -- destruct Hst as (_ & _ & H0). now apply Qlt_trans with (fst st).
        -- rewrite Hst in E. exact E.
  - apply Qltb_ge in E. split.
    + intros x [Hx|[<-|[]]]%in_app_iff; auto.
    + destruct (snd st) as [p|]; [|exact Hst].
      destruct Hst as ((before & after & -> & Hb) & Hf & H0).
      split; [|split; assumption].
      exists before, (after ++ [pattern]). split; [now rewrite <- app_assoc|exact Hb].
Qed.

Lemma patternLoop_inv (target : string) (patterns : list string) :
  patternInv target patterns (fold_left (patternStep target) patterns (0%Q, None)).
Proof.
  assert (G : forall rest seen st,
             patternInv target seen st ->
             patternInv target (seen ++ rest) (fold_left (patternStep target) rest st)).
  { induction rest as [|p rest IH]; intros seen st H; cbn [fold_left].
    - now rewrite app_nil_r.
    - replace (seen ++ p :: rest) with ((seen ++ [p]) ++ rest) by now rewrite <- app_assoc.
      apply IH, patternStep_inv, H. }
  apply (G patterns [] (0%Q, None)). split; [intros x []|reflexivity].
Qed.

Lemma findSimilarPattern_first (targetPattern : string) (patterns : list string) :
  match findSimilarPattern targetPattern patterns with
  | Some p =>
      (6 # 10 < calculateSimilarity targetPattern p)%Q
      /\ (forall x, In x patterns ->
            (calculateSimilarity targetPattern x <= calculateSimilarity targetPattern p)%Q)
      /\ exists before after,
           patterns = before ++ p :: after
           /\ forall x, In x before ->
                (calculateSimilarity targetPattern x < calculateSimilarity targetPattern p)%Q
  | None =>
      forall x, In x patterns -> (calculateSimilarity targetPattern x <= 6 # 10)%Q
  end.
Proof.
  unfold findSimilarPattern.
  destruct (patternLoop_inv targetPattern patterns) as [Hmax Hst].
  destruct (JS.Qltb (6 # 10) _) eqn:E.
  - apply Qltb_lt in E.
    destruct (snd _) as [p|].
    + destruct Hst as (Hfirst & Hf & _). rewrite Hf in *. auto.
    + rewrite Hst in E. discriminate.
  - apply Qltb_ge in E. intros x Hx. apply Qle_trans with (1 := Hmax x Hx), E.
Qed.

Lemma findSimilarPattern_Some (targetPattern : string) (patterns : list string) (p : string) :
  findSimilarPattern targetPattern patterns = Some p ->
  (6 # 10 < calculateSimilarity targetPattern p)%Q
  /\ In p patterns
  /\ forall x, In x patterns ->
       (calculateSimilarity targetPattern x <= calculateSimilarity targetPattern p)%Q.
Proof.
  intros H. pose proof (findSimilarPattern_inv_aux := patternLoop_inv targetPattern patterns).
  unfold findSimilarPattern in H.
  destruct findSimilarPattern_inv_aux as [Hmax Hst].
  destruct (JS.Qltb (6 # 10) _) eqn:E; [|discriminate].
  apply Qltb_lt in E. rewrite H in Hst.
  destruct Hst as ((before & after & Hp & _) & Hf & _). rewrite Hf in *.
  repeat split; auto. rewrite Hp. apply in_elt.
Qed.

Lemma similarity_one (a b : string) : (1 <= calculateSimilarity a b)%Q -> a = b.
Proof.
  intros H. destruct (calculateSimilarity_facts a b) as (_ & Hle & Hone & _).
  apply Hone. now apply Qle_antisym.
Qed.

Lemma similarity_refl (a : string) : (calculateSimilarity a a == 1)%Q.
Proof. now apply calculateSimilarity_facts. Qed.

(** A target that is itself listed is the pattern found. *)
Lemma findSimilarPattern_self (targetPattern : string) (patterns : list string) :
  In targetPattern patterns -> findSimilarPattern targetPattern patterns = Some targetPattern.
Proof.
  intros Hin. pose proof (findSimilarPattern_first targetPattern patterns) as H.
  destruct (findSimilarPattern targetPattern patterns) as [p|].
  - destruct H as (_ & Hmax & _). f_equal. symmetry. apply similarity_one.
    rewrite <- (similarity_refl targetPattern) at 1. now apply Hmax.
  - specialize (H _ Hin). rewrite (similarity_refl targetPattern) in H.
    exfalso. apply (Qle_not_lt _ _ H). reflexivity.
Qed.

(** X4. The pattern [findSimilarPattern] returns is the first of the listed
    patterns whose similarity to the target is the greatest, and that
    similarity is above 0.6; with no listed pattern above 0.6 it returns
    nothing. *)
Theorem findSimilarPattern_spec (targetPattern : string) (patterns : list string) :
  match findSimilarPattern targetPattern patterns with
  | Some p =>
      (6 # 10 < calculateSimilarity targetPattern p)%Q
      /\ (forall x, In x patterns ->
            (calculateSimilarity targetPattern x <= calculateSimilarity targetPattern p)%Q)
      /\ exists before after,
           patterns = before ++ p :: after
           /\ forall x, In x before ->
                (calculateSimilarity targetPattern x < calculateSimilarity targetPattern p)%Q
  | None =>
      forall x, In x patterns -> (calculateSimilarity targetPattern x <= 6 # 10)%Q
  end.
Proof. apply findSimilarPattern_first. Qed.

Section WithURL.
Variable newURL : string -> option URL.

Local Abbreviation patternsOf := (extractPatterns newURL).
Local Abbreviation detect := (detectPatternChanges newURL).
Local Abbreviation count := (patternCount newURL).

Lemma extractStep_stored (m : JS.Map nat) (url p : string) :
  stored (extractStep newURL m url) p = (stored m p + count p [url])%nat.
Proof.
  unfold extractStep, patternCount. cbn [filter].
  destruct (patternOf newURL url) as [q|]; [|cbn; lia].
  unfold countPattern. destruct (String.eqb_spec q p) as [->|Hne]; cbn [List.length].
  - unfold stored at 1. rewrite JSFacts.Map_get_set_same. lia.
  - unfold stored at 1 3. rewrite JSFacts.Map_get_set_other by congruence. lia.
Qed.

Lemma extractStep_positive (m : JS.Map nat) (url : string) :
  (forall p n, JS.Map_get m p = Some n -> (1 <= n)%nat) ->
  forall p n, JS.Map_get (extractStep newURL m url) p = Some n -> (1 <= n)%nat.
Proof.
  intros Hm p n. unfold extractStep.
  destruct (patternOf newURL url) as [q|]; [|apply Hm].
  unfold countPattern. destruct (String.eqb_spec q p) as [->|Hne].
  - rewrite JSFacts.Map_get_set_same. intros [= <-]. lia.
  - rewrite JSFacts.Map_get_set_other by congruence. apply Hm.
Qed.

Lemma extractStep_keys (m : JS.Map nat) (url : string) :
  NoDup (map fst m) -> NoDup (map fst (extractStep newURL m url)).
Proof.
  intros Hm. unfold extractStep. destruct (patternOf newURL url) as [q|]; [|exact Hm].
  unfold countPattern. rewrite JSFacts.Map_set_keys. now apply JSFacts.Set_add_NoDup.
Qed.

Lemma patternCount_app (p : string) (a b : list string) :
  count p (a ++ b) = (count p a + count p b)%nat.
Proof. unfold patternCount. now rewrite filter_app, length_app. Qed.

Lemma extractLoop (urls : list string) :
  forall m,
    (forall p n, JS.Map_get m p = Some n -> (1 <= n)%nat) ->
    NoDup (map fst m) ->
    let m' := fold_left (extractStep newURL) urls m in
    (forall p, stored m' p = (stored m p + count p urls)%nat)
    /\ (forall p n, JS.Map_get m' p = Some n -> (1 <= n)%nat)
    /\ NoDup (map fst m').
Proof.
  induction urls as [|url urls IH]; intros m Hpos Hnd; cbn [fold_left].
  - split; [|split; assumption]. intros p. unfold patternCount. cbn. lia.
  - destruct (IH _ (extractStep_positive m url Hpos) (extractStep_keys m url Hnd))
      as (Hs & Hp & Hk).
    split; [|split; assumption].
    intros p. rewrite Hs, extractStep_stored.
    change (url :: urls) with ([url] ++ urls). rewrite patternCount_app. lia.
Qed.

Lemma extractPatterns_facts (urls : list string) :
  (forall p, JS.Map_get (patternsOf urls) p
             = if (count p urls =? 0)%nat then None else Some (count p urls))
  /\ NoDup (map fst (patternsOf urls)).
Proof.
  destruct (extractLoop urls [] ltac:(discriminate) (NoDup_nil _)) as (Hs & Hp & Hk).
  split; [|exact Hk]. intros p. specialize (Hs p). specialize (Hp p).
  unfold stored in Hs. cbn [JS.Map_get] in Hs. fold (patternsOf urls) in *.
  destruct (JS.Map_get (patternsOf urls) p) as [n|].
  - specialize (Hp n eq_refl). cbn in Hs. rewrite <- Hs.
    destruct (Nat.eqb_spec n 0); [lia|reflexivity].
  - cbn in Hs. now rewrite <- Hs.
Qed.

(** X5. [extractPatterns] counts, for every pattern, the URLs whose first
    path segment it is: the pattern is a key exactly when some URL counts for
    it, and its value is their number. *)
Theorem extractPatterns_counts (urls : list string) (pattern : string) :
  JS.Map_get (extractPatterns newURL urls) pattern
  = if (patternCount newURL pattern urls =? 0)%nat then None
    else Some (patternCount newURL pattern urls).
Proof. apply extractPatterns_facts. Qed.

Lemma changeOf_sound (newP : JS.Map nat) (entry : string * nat) (c : PatternChange) :
  In c (changeOf newP entry) ->
  oldPattern c = fst entry /\ oldCount c = snd entry
  /\ newCount c = JS.Map_get newP (newPattern c)
  /\ JS.Map_has newP (newPattern c) = true
  /\ JS.Map_has newP (oldPattern c) = false
  /\ confidence c = calculateSimilarity (oldPattern c) (newPattern c)
  /\ (6 # 10 < confidence c)%Q /\ (confidence c < 1)%Q.
Proof.
  unfold changeOf. destruct (findSimilarPattern _ _) as [p|] eqn:E; [|intros []].
  destruct (String.eqb_spec p ""); [intros []|].
  destruct (String.eqb_spec p (fst entry)) as [|Hne]; [intros []|].
  cbn [negb andb]. intros [<-|[]]. cbn.
  destruct (findSimilarPattern_Some _ _ _ E) as (H6 & Hin & Hmax).
  repeat split; auto.
  - now apply MapFacts.Map_has_keys.
  - destruct (JS.Map_has newP (fst entry)) eqn:Eh; [|reflexivity].
    apply MapFacts.Map_has_keys in Eh. apply findSimilarPattern_self in Eh. congruence.
  - destruct (calculateSimilarity_facts (fst entry) p) as (_ & Hle & Hone & _).
    apply Qle_lteq in Hle. destruct Hle as [Hlt|Heq]; [exact Hlt|].
    apply Hone in Heq. congruence.
Qed.

(** X6. Every change [detectPatternChanges] reports pairs a pattern of the
    old site with a different pattern of the new site, each with its count;
    the old pattern does not occur on the new site at all, and the
    confidence is their similarity, above 0.6 and below 1. *)
Theorem detectPatternChanges_sound (oldUrls newUrls : list string) (c : PatternChange) :
  In c (changes (detectPatternChanges newURL oldUrls newUrls)) ->
  JS.Map_get (extractPatterns newURL oldUrls) (oldPattern c) = Some (oldCount c)
  /\ (exists n, newCount c = Some n /\ (1 <= n)%nat
               /\ JS.Map_get (extractPatterns newURL newUrls) (newPattern c) = Some n)
  /\ oldPattern c <> newPattern c
  /\ JS.Map_has (extractPatterns newURL newUrls) (oldPattern c) = false
  /\ confidence c = calculateSimilarity (oldPattern c) (newPattern c)
  /\ (6 # 10 < confidence c)%Q /\ (confidence c < 1)%Q.
Proof.
  cbn [detectPatternChanges changes]. intros [entry [Hentry Hc]]%in_flat_map.
  apply changeOf_sound in Hc.
  destruct Hc as (Ho & Hn & Hnew & Hhas & Hnot & Hconf & H6 & H1).
  destruct (extractPatterns_facts oldUrls) as [_ Hk].
  destruct (extractPatterns_facts newUrls) as [Hget _].
  repeat split; auto.
  - rewrite Ho, Hn. apply MapFacts.Map_get_of_In; [exact Hk|]. now destruct entry.
  - unfold JS.Map_has in Hhas. rewrite Hnew.
    destruct (JS.Map_get (patternsOf newUrls) (newPattern c)) as [n|] eqn:E; [|discriminate].
    exists n. repeat split. rewrite Hget in E.
    destruct (Nat.eqb_spec (count (newPattern c) newUrls) 0); [discriminate|].
    injection E as <-. lia.
  - intros Heq. rewrite Heq in Hnot. congruence.
Qed.

(** X7. A list of URLs compared with itself shows no pattern change. *)
Theorem detectPatternChanges_same (urls : list string) :
  changes (detectPatternChanges newURL urls urls) = [].
Proof.
  cbn [detectPatternChanges changes].
  destruct (flat_map _ _) as [|c rest] eqn:E; [reflexivity|].
  assert (Hin : In c (flat_map (changeOf (patternsOf urls)) (patternsOf urls)))
    by (rewrite E; now left).
  apply in_flat_map in Hin. destruct Hin as [entry [Hentry Hc]].
  apply changeOf_sound in Hc. destruct Hc as (Ho & _ & _ & _ & Hnot & _).
  assert (Hhas : JS.Map_has (patternsOf urls) (oldPattern c) = true).
  { apply MapFacts.Map_has_keys. rewrite Ho. now apply in_map. }
  congruence.
Qed.

End WithURL.

(** A blog that moved from [/blog/] to [/blogs/]. *)
Lemma detectPatternChanges_sound_witness :
  let oldUrls := ["http://a.example/blog/first"; "http://a.example/blog/second"] in
  let newUrls := ["http://a.example/blogs/first"] in
  let c := {| oldPattern := "/blog/"; newPattern := "/blogs/"; oldCount := 2;
              newCount := Some 1%nat; confidence := 6 # 7 |} in
  JS.Map_get (extractPatterns WHATWG.parse oldUrls) (oldPattern c) = Some (oldCount c)
  /\ (exists n, newCount c = Some n /\ (1 <= n)%nat
               /\ JS.Map_get (extractPatterns WHATWG.parse newUrls) (newPattern c) = Some n)
  /\ oldPattern c <> newPattern c
  /\ JS.Map_has (extractPatterns WHATWG.parse newUrls) (oldPattern c) = false
  /\ confidence c = calculateSimilarity (oldPattern c) (newPattern c)
  /\ (6 # 10 < confidence c)%Q /\ (confidence c < 1)%Q.
Proof.
  intros oldUrls newUrls c.
  apply (detectPatternChanges_sound WHATWG.parse oldUrls newUrls c).
  vm_compute. left. reflexivity.
Defined.

End PatternFacts.
(** ** More of [compareUrls], [extractUrls] and [parseSitemap] *)

Section ReportFacts.
Variable newURL : string -> option URL.

Local Abbreviation normalize := (normalizeUrl newURL).
Local Abbreviation compare := (compareUrls newURL).

Lemma normalizedOldUrls_has (oldUrls : list string) (k : string) :
  JS.Map_has (JS.Map_from (map (fun url => (normalize url, url)) oldUrls)) k = true
  <-> In k (map normalize oldUrls).
Proof.
  rewrite MapFacts.Map_has_keys, JSFacts.Map_from_keys, JSFacts.Set_from_In, map_map.
  reflexivity.
Qed.

Lemma isNewContent_spec (oldUrls : list string) (rm : option (JS.Map string)) (newUrl : string) :
  isNewContent newURL (JS.Map_from (map (fun url => (normalize url, url)) oldUrls)) rm newUrl = true
  <-> ~ In (normalize newUrl) (map normalize oldUrls)
      /\ forall redirects, rm = Some redirects ->
           forall mappedUrl, In mappedUrl (JS.Map_values redirects) ->
                             normalize mappedUrl <> normalize newUrl.
Proof.
  unfold isNewContent.
  destruct (JS.Map_has _ (normalize newUrl)) eqn:E; cbn [negb].
  - apply normalizedOldUrls_has in E. split; [discriminate|tauto].
  - assert (Hnot : ~ In (normalize newUrl) (map normalize oldUrls)).
    { rewrite <- normalizedOldUrls_has. congruence. }
    destruct rm as [redirects|]; cbn [negb].
    + rewrite negb_true_iff, <- not_true_iff_false, existsb_exists. split.
      * intros H. split; [exact Hnot|]. intros ? [= <-] mappedUrl Hin Heq.
        apply H. exists mappedUrl. split; [exact Hin|]. now apply String.eqb_eq.
      * intros [_ H] (mappedUrl & Hin & Heq). apply String.eqb_eq in Heq.
        exact (H redirects eq_refl mappedUrl Hin Heq).
    + split; [|reflexivity]. intros _. split; [exact Hnot|discriminate].
Qed.

Lemma new_In (oldUrls newUrls : list string) (rm : option (JS.Map string)) (e : NewEntry) :
  In e (new (compare oldUrls newUrls rm))
  <-> new_type e = "new_content"
      /\ In (new_newUrl e) newUrls
      /\ ~ In (normalize (new_newUrl e)) (map normalize oldUrls)
      /\ forall redirects, rm = Some redirects ->
           forall mappedUrl, In mappedUrl (JS.Map_values redirects) ->
                             normalize mappedUrl <> normalize (new_newUrl e).
Proof.
  cbn [compareUrls new]. rewrite in_map_iff. split.
  - intros (u & <- & Hu). apply filter_In in Hu. destruct Hu as [Hin Hnew].
    apply isNewContent_spec in Hnew. cbn. tauto.
  - intros (Ht & Hin & Hnew). exists (new_newUrl e). split.
    + destruct e as [u t]. cbn in *. now subst.
    + apply filter_In. split; [exact Hin|]. now apply isNewContent_spec.
Qed.

(** X8. The URLs [compareUrls] reports as new are the new URLs whose normal
    form is the normal form of no old URL and of no redirect target.  So no
    matched old URL and no redirect target of a redirected one shares its
    normal form with a URL reported as new. *)
Theorem compareUrls_new_content (oldUrls newUrls : list string)
    (redirectMap : option (JS.Map string)) :
  let R := compareUrls newURL oldUrls newUrls redirectMap in
  (forall e, In e (new R)
             <-> new_type e = "new_content"
                 /\ In (new_newUrl e) newUrls
                 /\ ~ In (normalizeUrl newURL (new_newUrl e)) (map (normalizeUrl newURL) oldUrls)
                 /\ forall redirects, redirectMap = Some redirects ->
                      forall mappedUrl, In mappedUrl (JS.Map_values redirects) ->
                        normalizeUrl newURL mappedUrl <> normalizeUrl newURL (new_newUrl e))
  /\ (forall e m, In e (new R) -> In m (matched R) ->
                  normalizeUrl newURL (oldUrl m) <> normalizeUrl newURL (new_newUrl e))
  /\ (forall e r, In e (new R) -> In r (redirected R) ->
                  normalizeUrl newURL (newUrl r) <> normalizeUrl newURL (new_newUrl e)).
Proof.
  intros R. split; [|split].
  - intros e. apply new_In.
  - intros e m He Hm. apply new_In in He. destruct He as (_ & _ & Hnot & _).
    intros Heq. apply Hnot. rewrite <- Heq. apply in_map.
    destruct (compareUrls_partition newURL oldUrls newUrls redirectMap)
      as (_ & _ & _ & Hall & _).
    rewrite Forall_forall in Hall. now apply Hall.
  - intros e r He Hr. apply new_In in He. destruct He as (_ & _ & _ & Hred).
    destruct (compareUrls_buckets newURL oldUrls newUrls redirectMap) as (_ & Hrd & _).
    unfold R in Hr. rewrite Hrd in Hr. apply redirectedOf_In in Hr.
    destruct Hr as (entry & mappedUrl & _ & Hv & ->). cbn [newUrl mappedMatch].
    unfold verdict in Hv.
    destruct (JS.Set_has _ (fst entry)); [discriminate|].
    destruct redirectMap as [redirects|]; [|discriminate].
    destruct (JS.Map_get redirects (snd entry)) as [target|] eqn:Hget; [|discriminate].
    destruct (JS.Set_has _ (normalize target)); [|discriminate].
    injection Hv as ->. apply (Hred redirects eq_refl).
    apply JSFacts.Map_get_In in Hget. apply (in_map snd) in Hget. exact Hget.
Qed.

(** X9. A list of URLs compared with itself: every entry is a direct match,
    one per distinct normal form, and nothing is missing, redirected or new,
    whatever the redirect map. *)
Theorem compareUrls_same (urls : list string) (redirectMap : option (JS.Map string)) :
  let R := compareUrls newURL urls urls redirectMap in
  missing R = [] /\ redirected R = [] /\ new R = []
  /\ List.length (matched R) = List.length (nodup string_dec (map (normalizeUrl newURL) urls))
  /\ Forall (fun m => In (oldUrl m) urls /\ newUrl m = oldUrl m /\ matchType m = "direct")
            (matched R).
Proof.
  intros R.
  destruct (compareUrls_buckets newURL urls urls redirectMap) as (Hm & Hr & Hx).
  fold R in Hm, Hr, Hx.
  set (S := JS.Set_from (map normalize urls)) in *.
  set (m := JS.Map_from (map (fun url => (normalize url, url)) urls)) in *.
  assert (Hdirect : forall entry, In entry m -> verdict newURL S redirectMap entry = Direct).
  { intros entry Hin. apply normalizedOldUrls_In in Hin. destruct Hin as [Hin Hfst].
    unfold verdict.
    replace (JS.Set_has S (fst entry)) with true; [reflexivity|].
    symmetry. apply normalizedNewUrls_has. rewrite Hfst. now apply in_map. }
  assert (Hmiss : missing R = []).
  { rewrite Hx. destruct (missingOf newURL S redirectMap m) as [|e l] eqn:E; [reflexivity|].
    assert (He : In e (missingOf newURL S redirectMap m)) by (rewrite E; now left).
    apply missingOf_In in He. destruct He as (entry & Hin & Hv & _).
    rewrite (Hdirect entry Hin) in Hv. discriminate. }
  assert (Hred : redirected R = []).
  { rewrite Hr. destruct (redirectedOf newURL S redirectMap m) as [|e l] eqn:E; [reflexivity|].
    assert (He : In e (redirectedOf newURL S redirectMap m)) by (rewrite E; now left).
    apply redirectedOf_In in He. destruct He as (entry & mappedUrl & Hin & Hv & _).
    rewrite (Hdirect entry Hin) in Hv. discriminate. }
  split; [exact Hmiss|]. split; [exact Hred|]. split; [|split].
  - destruct (new R) as [|e l] eqn:E; [reflexivity|].
    assert (He : In e (new R)) by (rewrite E; now left).
    apply new_In in He. destruct He as (_ & Hin & Hnot & _).
    exfalso. apply Hnot. now apply in_map.
  - pose proof (compareUrls_partition newURL urls urls redirectMap) as Hlen.
    cbv zeta in Hlen. destruct Hlen as (Hlen & _).
    fold R in Hlen. rewrite Hmiss, Hred in Hlen. cbn [List.length] in Hlen. lia.
  - apply Forall_forall. intros e He. rewrite Hm in He. apply matchedOf_In in He.
    destruct He as (entry & Hin & _ & ->). apply normalizedOldUrls_In in Hin.
    cbn. tauto.
Qed.

End ReportFacts.

Section SitemapMore.

Lemma extractLoop_spec (sitemapData : list SitemapEntry) :
  forall acc,
    fold_left (fun urlSet item => if url item =? "" then urlSet else JS.Set_add urlSet (url item))
              sitemapData acc
    = fold_left JS.Set_add (filter (fun u => negb (u =? "")) (map url sitemapData)) acc.
Proof.
  induction sitemapData as [|item rest IH]; intros acc; cbn; [reflexivity|].
  destruct (url item =? ""); cbn; apply IH.
Qed.

Lemma fold_Set_add_fixed (l : list string) :
  forall acc, NoDup (acc ++ l) -> fold_left JS.Set_add l acc = acc ++ l.
Proof.
  induction l as [|x l IH]; intros acc Hnd; cbn [fold_left]; [now rewrite app_nil_r|].
  assert (Hx : JS.Set_has acc x = false).
  { apply JSFacts.Set_has_not_In. intros Hin. apply NoDup_remove_2 in Hnd.
    apply Hnd, in_or_app. now left. }
  unfold JS.Set_add at 2. rewrite Hx.
  rewrite IH; rewrite <- app_assoc; [reflexivity|exact Hnd].
Qed.

Lemma extractUrls_filter (sitemapData : list SitemapEntry) :
  extractUrls sitemapData
  = JS.Set_from (filter (fun u => negb (u =? "")) (map url sitemapData)).
Proof. apply extractLoop_spec. Qed.

(** X10. [extractUrls] returns every non-empty [url] of the entries once:
    the list has no duplicates, a string is in it exactly when it is the
    non-empty [url] of some entry, and entries whose URLs are non-empty and
    distinct come back in their order. *)
Theorem extractUrls_spec (sitemapData : list SitemapEntry) :
  NoDup (extractUrls sitemapData)
  /\ (forall u, In u (extractUrls sitemapData)
                <-> u <> "" /\ exists item, In item sitemapData /\ url item = u)
  /\ (NoDup (map url sitemapData) -> ~ In "" (map url sitemapData) ->
      extractUrls sitemapData = map url sitemapData).
Proof.
  rewrite extractUrls_filter. split; [apply JSFacts.Set_from_NoDup|]. split.
  - intros u. rewrite JSFacts.Set_from_In, filter_In, in_map_iff, negb_true_iff.
    split.
    + intros [(item & Hu & Hin) Hne]. split; [|now exists item].
      intros ->. discriminate.
    + intros [Hne (item & Hin & Hu)]. split; [now exists item|].
      now apply String.eqb_neq.
  - intros Hnd Hne.
    assert (Hf : filter (fun u => negb (u =? "")) (map url sitemapData) = map url sitemapData).
    { apply forallb_filter_id, forallb_forall. intros u Hu.
      apply negb_true_iff, String.eqb_neq. intros ->. contradiction. }
    rewrite Hf. apply (fold_Set_add_fixed (map url sitemapData) []). exact Hnd.
Qed.

End SitemapMore.

Section NestedSitemaps.
Variable world : World.

Lemma nestedSitemaps_collect (fuel : nat) (sitemaps : list SitemapRef) :
  Forall (fun sitemap => exists sitemapUrl,
              sitemap_loc sitemap = Some sitemapUrl
              /\ parseSitemap world fuel sitemapUrl false <> Pending) sitemaps ->
  forall urls,
    nestedSitemaps (parseSitemap world fuel) sitemaps urls
    = Returned (urls ++ flat_map (collected world fuel) sitemaps).
Proof.
  induction 1 as [|sitemap rest (sitemapUrl & Hloc & Hends) _ IH]; intros urls; cbn.
  - now rewrite app_nil_r.
  - unfold collected at 1. rewrite Hloc.
    destruct (parseSitemap world fuel sitemapUrl false) as [nested|message|];
      [|now rewrite IH|contradiction].
    now rewrite IH, app_assoc.
Qed.

Lemma nestedSitemaps_thrown (recurse : string -> bool -> outcome (list SitemapEntry))
    (sitemaps : list SitemapRef) :
  forall urls message,
    nestedSitemaps recurse sitemaps urls = Thrown message ->
    message = "Failed to parse sitemap: " +++ typeErrorLoc
    /\ Exists (fun sitemap => sitemap_loc sitemap = None) sitemaps.
Proof.
  induction sitemaps as [|sitemap rest IH]; intros urls message; cbn; [discriminate|].
  destruct (sitemap_loc sitemap) as [sitemapUrl|] eqn:Hloc.
  - destruct (recurse sitemapUrl false); try discriminate;
      intros H; apply IH in H; destruct H; auto.
  - intros [= <-]. auto.
Qed.

Lemma mapUrlElements_none (urlElements : list UrlElement) :
  mapUrlElements urlElements = None -> Exists (fun e => url_loc e = None) urlElements.
Proof.
  induction urlElements as [|e rest IH]; cbn; [discriminate|].
  destruct (url_loc e) eqn:Hloc; [|auto].
  destruct (mapUrlElements rest); [discriminate|auto].
Qed.

(** X11. A sitemap index whose references all carry a [loc] never makes
    [parseSitemap] throw: when the sitemaps below it lie at most [d]
    references deep, the call returns what the references that could be
    parsed returned, in order, and a reference that fails adds nothing. *)
Theorem parseSitemap_index (d : nat) (filePath : string) (isFile : bool)
    (sitemaps : list SitemapRef) :
  depthAtMost world d filePath isFile ->
  world isFile filePath = inr (SitemapIndex sitemaps) ->
  Forall (fun sitemap => sitemap_loc sitemap <> None) sitemaps ->
  forall fuel, (d < fuel)%nat ->
    parseSitemap world fuel filePath isFile
    = Returned (flat_map (collected world d) sitemaps).
Proof.
  intros Hdepth Hroot Hlocs fuel Hfuel.
  destruct d as [|d]; cbn [depthAtMost] in Hdepth; rewrite Hroot in Hdepth; [contradiction|].
  destruct (parseSitemap_depth world (S d) filePath isFile) as [Hsame _].
  { cbn [depthAtMost]. now rewrite Hroot. }
  rewrite (Hsame fuel Hfuel).
  change (parseSitemap world (S (S d)) filePath isFile)
    with (match world isFile filePath with
          | inl message => failedToParse message
          | inr (SitemapIndex sitemaps) => nestedSitemaps (parseSitemap world (S d)) sitemaps []
          | inr (UrlSet urlElements) =>
              match mapUrlElements urlElements with
              | Some urls => Returned urls
              | None => failedToParse typeErrorLoc
              end
          | inr OtherRoot =>
              failedToParse "Invalid sitemap format: no urlset or sitemapindex found"
          end).
  rewrite Hroot. apply (nestedSitemaps_collect (S d) sitemaps).
  rewrite Forall_forall in *. intros sitemap Hin.
  specialize (Hdepth sitemap Hin). specialize (Hlocs sitemap Hin).
  destruct (sitemap_loc sitemap) as [sitemapUrl|]; [|contradiction].
  exists sitemapUrl. split; [reflexivity|].
  apply (parseSitemap_depth world d sitemapUrl false Hdepth).
Qed.

(** X12. When [parseSitemap] throws, the fault lies with the document it was
    called on, not with a sitemap nested below it: the file or URL could not
    be read or parsed, its root is neither a [urlset] nor a [sitemapindex],
    or one of its elements has no [loc].  The message is the cause behind
    the words "Failed to parse sitemap: ". *)
Theorem parseSitemap_throws (fuel : nat) (filePath : string) (isFile : bool) (message : string) :
  parseSitemap world fuel filePath isFile = Thrown message ->
  exists cause,
    message = "Failed to parse sitemap: " +++ cause
    /\ match world isFile filePath with
       | inl failure => cause = failure
       | inr (SitemapIndex sitemaps) =>
           cause = typeErrorLoc /\ Exists (fun sitemap => sitemap_loc sitemap = None) sitemaps
       | inr (UrlSet urlElements) =>
           cause = typeErrorLoc /\ Exists (fun e => url_loc e = None) urlElements
       | inr OtherRoot =>
           cause = "Invalid sitemap format: no urlset or sitemapindex found"
       end.
Proof.
  destruct fuel as [|fuel]; [discriminate|].
  change (parseSitemap world (S fuel) filePath isFile)
    with (match world isFile filePath with
          | inl message => failedToParse message
          | inr (SitemapIndex sitemaps) => nestedSitemaps (parseSitemap world fuel) sitemaps []
          | inr (UrlSet urlElements) =>
              match mapUrlElements urlElements with
              | Some urls => Returned urls
              | None => failedToParse typeErrorLoc
              end
          | inr OtherRoot =>
              failedToParse "Invalid sitemap format: no urlset or sitemapindex found"
          end).
  destruct (world isFile filePath) as [failure|[sitemaps|urlElements|]].
  - intros [= <-]. now exists failure.
  - intros H. apply nestedSitemaps_thrown in H. destruct H as [-> H].
    exists typeErrorLoc. auto.
  - destruct (mapUrlElements urlElements) eqn:E; [discriminate|].
    intros [= <-]. exists typeErrorLoc. split; [reflexivity|]. split; [reflexivity|].
    now apply mapUrlElements_none.
  - intros [= <-]. now eexists.
Qed.

End NestedSitemaps.

(** The index of [listedTwice] returns the page of its sitemap twice. *)
Lemma parseSitemap_index_witness :
  parseSitemap listedTwice 2 "sitemap.xml" true
  = Returned (flat_map (collected listedTwice 1)
                [{| sitemap_loc := Some "https://site.example/pages.xml" |};
                 {| sitemap_loc := Some "https://site.example/pages.xml" |}]).
Proof.
  apply (parseSitemap_index listedTwice 1 "sitemap.xml" true); [| reflexivity | | lia].
  - vm_compute. repeat constructor.
  - repeat constructor; discriminate.
Defined.

(** A document that cannot be fetched. *)
Lemma parseSitemap_throws_witness :
  exists cause,
    "Failed to parse sitemap: Request failed with status code 404"
    = "Failed to parse sitemap: " +++ cause
    /\ cause = "Request failed with status code 404".
Proof.
  apply (parseSitemap_throws selfReferencing 1 "https://site.example/missing.xml" false).
  reflexivity.
Defined.
(** ** The URL comparison CSV *)

Module ExportFacts.
Import ExportService.

Lemma needsQuotes_cons (c : ascii) (str : string) :
  needsQuotes (String c str) = false ->
  Ascii.eqb c dquote = false /\ Ascii.eqb c "," = false /\ Ascii.eqb c newline = false
  /\ needsQuotes str = false.
Proof.
  unfold needsQuotes. cbn [JS.anyChar]. rewrite !(Ascii.eqb_sym _ c).
  destruct (Ascii.eqb c ","), (Ascii.eqb c dquote), (Ascii.eqb c newline); cbn;
    try discriminate; try (rewrite ?orb_true_r; discriminate).
  intros H. repeat split; try reflexivity. exact H.
Qed.

Lemma readFrom_plain (str rest : string) :
  needsQuotes str = false ->
  readFrom false (str +++ rest) = pushStr str (readFrom false rest).
Proof.
  induction str as [|c str IH]; intros H; [reflexivity|].
  apply needsQuotes_cons in H. destruct H as (Hq & Hc & Hn & H).
  cbn [append readFrom pushStr]. rewrite Hq, Hc, Hn. f_equal. auto.
Qed.

Lemma readFrom_quoted (str rest : string) :
  fieldEnd rest ->
  readFrom true (doubleQuotes str +++ String dquote rest) = pushStr str (readFrom false rest).
Proof.
  intros Hend. induction str as [|c str IH].
  - cbn [doubleQuotes append pushStr readFrom]. rewrite Ascii.eqb_refl.
    destruct rest as [|c' rest']; [reflexivity|].
    destruct Hend as [->| ->]; reflexivity.
  - cbn [doubleQuotes pushStr]. destruct (Ascii.eqb c dquote) eqn:E.
    + apply Ascii.eqb_eq in E. subst c.
      cbn [append readFrom]. rewrite !Ascii.eqb_refl. now rewrite IH.
    + cbn [append readFrom]. rewrite E. now rewrite IH.
Qed.

Lemma read_field (field : option string) (rest : string) :
  fieldEnd rest ->
  readFrom false (escapeCSV field +++ rest) = pushStr (orEmpty field) (readFrom false rest).
Proof.
  intros Hend. destruct field as [str|]; [|reflexivity].
  cbn [escapeCSV orEmpty]. destruct (needsQuotes str) eqn:E.
  - cbn [append]. rewrite WHATWGFacts.append_assoc. cbn [append readFrom].
    rewrite Ascii.eqb_refl. now apply readFrom_quoted.
  - now apply readFrom_plain.
Qed.

Lemma pushStr_fresh (s : string) (fields : list string) (records : list (list string)) :
  pushStr s (("" :: fields) :: records) = (s :: fields) :: records.
Proof.
  induction s as [|c s IH]; [reflexivity|]. cbn [pushStr]. now rewrite IH.
Qed.

Lemma line_cons (field : option string) (row : list (option string)) :
  row <> [] -> line (field :: row) = escapeCSV field +++ "," +++ line row.
Proof. destruct row; [congruence|reflexivity]. Qed.

Lemma read_line (row : list (option string)) (rest : string) (records : list (list string)) :
  row <> [] ->
  (rest = "" \/ exists rest', rest = String newline rest') ->
  readFrom false rest = [""] :: records ->
  readFrom false (line row +++ rest) = map orEmpty row :: records.
Proof.
  intros Hrow Hend Hrest. induction row as [|field row IH]; [congruence|].
  destruct row as [|field' row].
  - change (line [field]) with (escapeCSV field). rewrite read_field.
    + rewrite Hrest. apply pushStr_fresh.
    + destruct Hend as [->|[rest' ->]]; cbn; auto.
  - rewrite line_cons by discriminate.
    rewrite !WHATWGFacts.append_assoc. rewrite read_field by (cbn; auto).
    cbn [append readFrom]. change (Ascii.eqb "," dquote) with false. cbn [Ascii.eqb].
    change (Ascii.eqb "," ",") with true. cbv iota.
    rewrite IH by discriminate. cbn [newField]. apply pushStr_fresh.
Qed.

Lemma concat_cons (sep x : string) (l : list string) :
  l <> [] -> String.concat sep (x :: l) = x +++ sep +++ String.concat sep l.
Proof. destruct l; [congruence|reflexivity]. Qed.

Lemma read_lines (rows : list (list (option string))) :
  rows <> [] ->
  Forall (fun row => row <> []) rows ->
  readCSV (String.concat (String newline "") (map line rows)) = map (map orEmpty) rows.
Proof.
  unfold readCSV. intros Hrows Hall. induction rows as [|row rows IH]; [congruence|].
  inversion Hall as [|? ? Hrow Hrest]; subst.
  destruct rows as [|row' rows].
  - cbn [map String.concat]. rewrite <- (WHATWGFacts.append_empty_r (line row)).
    apply read_line; auto.
  - change (map line (row :: row' :: rows)) with (line row :: map line (row' :: rows)).
    rewrite concat_cons by discriminate.
    apply read_line; [exact Hrow| |].
    + right. eexists. reflexivity.
    + cbn [append readFrom]. change (Ascii.eqb newline dquote) with false.
      change (Ascii.eqb newline ",") with false. rewrite Ascii.eqb_refl. cbv iota.
      unfold newRecord. f_equal. apply IH; [discriminate|exact Hrest].
Qed.

Lemma rowsOf_five (urlComparison : UrlComparison) :
  Forall (fun row => List.length row = 5%nat) (rowsOf urlComparison).
Proof.
  unfold rowsOf. repeat (apply Forall_app; split);
    apply Forall_forall; intros row [x [<- _]]%in_map_iff; reflexivity.
Qed.

Lemma csv_reads_back (urlComparison : UrlComparison) :
  readCSV (generateURLComparisonCSV (Some urlComparison))
  = ["# URL Comparison Report"]
    :: ["Old URL"; "New URL"; "Match Type"; "Status"; "Notes"]
    :: map (map orEmpty) (rowsOf urlComparison).
Proof.
  cbn [generateURLComparisonCSV].
  change ("# URL Comparison Report" :: line headers :: map line (rowsOf urlComparison))
    with (map line ([Some "# URL Comparison Report"] :: headers :: rowsOf urlComparison)).
  rewrite read_lines; [reflexivity|discriminate|].
  constructor; [discriminate|]. constructor; [discriminate|].
  eapply Forall_impl; [|apply rowsOf_five]. intros row H ->. discriminate.
Qed.

Lemma parseFrom_fieldEnd (rest : string) :
  fieldEnd rest -> parseFrom InPlain rest = parseFrom FieldStart rest.
Proof.
  destruct rest as [|c rest]; [reflexivity|]. intros [->| ->]; reflexivity.
Qed.

Lemma strayCR_cons (c : ascii) (str : string) :
  needsQuotes (String c str) = false ->
  strayCR (String c str) = Ascii.eqb c cr || strayCR str.
Proof.
  intros H. unfold strayCR. rewrite H.
  apply needsQuotes_cons in H. destruct H as (_ & _ & _ & ->).
  cbn [JS.anyChar negb]. rewrite !andb_true_r. now rewrite (Ascii.eqb_sym cr c).
Qed.

(** A plain field without a carriage return is read as it is. *)
Lemma parseFrom_plain (str rest : string) (place : Place) :
  place <> InQuoted ->
  fieldEnd rest ->
  needsQuotes str = false ->
  strayCR str = false ->
  parseFrom place (str +++ rest) = option_map (pushStr str) (parseFrom FieldStart rest).
Proof.
  intros Hplace Hend. revert place Hplace.
  induction str as [|c str IH]; intros place Hplace Hq Hcr.
  - cbn [append pushStr]. destruct (parseFrom FieldStart rest) eqn:E.
    + destruct place; [exact E| |congruence]. now rewrite parseFrom_fieldEnd.
    + destruct place; [exact E| |congruence]. now rewrite parseFrom_fieldEnd.
  - rewrite (strayCR_cons _ _ Hq) in Hcr. apply orb_false_iff in Hcr. destruct Hcr as [Hc Hcr].
    apply needsQuotes_cons in Hq. destruct Hq as (Hd & Hcomma & Hn & Hq).
    cbn [append parseFrom pushStr]. rewrite Hd, Hcomma, Hn, Hc.
    rewrite (IH InPlain) by (auto; discriminate).
    destruct place; [| |congruence];
      destruct (parseFrom FieldStart rest); reflexivity.
Qed.

(** A plain field with a carriage return is not read at all, unless the
    carriage return is its last character and a line feed comes next. *)
Lemma parseFrom_stray (str rest : string) (place : Place) :
  place <> InQuoted ->
  (rest = "" \/ exists rest', rest = String "," rest') ->
  needsQuotes str = false ->
  strayCR str = true ->
  parseFrom place (str +++ rest) = None.
Proof.
  intros Hplace Hend. revert place Hplace.
  induction str as [|c str IH]; intros place Hplace Hq Hcr; [discriminate|].
  rewrite (strayCR_cons _ _ Hq) in Hcr.
  apply needsQuotes_cons in Hq. destruct Hq as (Hd & Hcomma & Hn & Hq).
  cbn [append parseFrom]. rewrite Hd, Hcomma, Hn.
  destruct (Ascii.eqb c cr) eqn:Hc.
  - assert (Hnext : match str +++ rest with
                    | String c' _ => Ascii.eqb c' newline = false
                    | "" => True
                    end).
    { destruct str as [|c' str'].
      - destruct Hend as [->|[rest' ->]]; cbn; auto.
      - apply needsQuotes_cons in Hq. cbn [append]. tauto. }
    destruct (str +++ rest) as [|c' s'].
    + destruct place; [reflexivity|reflexivity|congruence].
    + rewrite Hnext. destruct place; [reflexivity|reflexivity|congruence].
  - cbn [orb] in Hcr. rewrite (IH InPlain) by (auto; discriminate).
    destruct place; [reflexivity|reflexivity|congruence].
Qed.

Lemma parseFrom_quoted (str rest : string) :
  fieldEnd rest ->
  parseFrom InQuoted (doubleQuotes str +++ String dquote rest)
  = option_map (pushStr str) (parseFrom FieldStart rest).
Proof.
  intros Hend. induction str as [|c str IH].
  - cbn [doubleQuotes append pushStr parseFrom]. rewrite Ascii.eqb_refl.
    destruct rest as [|c' rest']; [reflexivity|].
    assert (H : Ascii.eqb c' dquote = false
                /\ Ascii.eqb c' "," || Ascii.eqb c' newline || Ascii.eqb c' cr = true).
    { destruct Hend as [->| ->]; split; reflexivity. }
    destruct H as [-> ->]. rewrite parseFrom_fieldEnd by exact Hend.
    now destruct (parseFrom FieldStart (String c' rest')).
  - cbn [doubleQuotes pushStr]. destruct (Ascii.eqb c dquote) eqn:E.
    + apply Ascii.eqb_eq in E. subst c.
      cbn [append parseFrom]. rewrite !Ascii.eqb_refl. rewrite IH.
      now destruct (parseFrom FieldStart rest).
    + cbn [append parseFrom]. rewrite E, IH.
      now destruct (parseFrom FieldStart rest).
Qed.

(** One field as [escapeCSV] writes it, and what is read of it. *)
Lemma parse_field (field : option string) (rest : string) :
  fieldEnd rest ->
  (strayCR (orEmpty field) = true -> rest = "" \/ exists rest', rest = String "," rest') ->
  parseFrom FieldStart (escapeCSV field +++ rest)
  = if strayCR (orEmpty field) then None
    else option_map (pushStr (orEmpty field)) (parseFrom FieldStart rest).
Proof.
  intros Hend Hstray. destruct field as [str|].
  - cbn [escapeCSV orEmpty] in *. destruct (needsQuotes str) eqn:E.
    + assert (Hs : strayCR str = false) by (unfold strayCR; rewrite E; apply andb_false_r).
      rewrite Hs. cbn [append]. rewrite WHATWGFacts.append_assoc. cbn [append parseFrom].
      rewrite Ascii.eqb_refl. now apply parseFrom_quoted.
    + destruct (strayCR str) eqn:Hs.
      * apply parseFrom_stray; auto. discriminate.
      * apply parseFrom_plain; auto. discriminate.
  - cbn [escapeCSV orEmpty append]. change (strayCR "") with false. cbv iota.
    now destruct (parseFrom FieldStart rest).
Qed.

Lemma parse_recordEnd (rest : string) :
  recordEnd rest ->
  parseFrom FieldStart rest = option_map (cons [""]) (afterRecord rest).
Proof.
  intros [->|(c & rest' & ->)]; [reflexivity|].
  cbn [parseFrom afterRecord]. change (Ascii.eqb newline dquote) with false.
  change (Ascii.eqb newline ",") with false. rewrite Ascii.eqb_refl. cbv iota.
  unfold newRecord. reflexivity.
Qed.

Lemma parse_line (row : list (option string)) (rest : string) :
  row <> [] ->
  strayCR (orEmpty (List.last row None)) = false ->
  recordEnd rest ->
  parseFrom FieldStart (line row +++ rest)
  = if clean row then option_map (cons (map orEmpty row)) (afterRecord rest) else None.
Proof.
  intros Hrow Hlast Hend. induction row as [|field row IH]; [congruence|].
  destruct row as [|field' row].
  - change (line [field]) with (escapeCSV field). cbn [List.last] in Hlast.
    cbn [clean forallb]. rewrite Hlast. cbn [negb andb].
    rewrite parse_field.
    + rewrite Hlast, (parse_recordEnd _ Hend).
      destruct (afterRecord rest); [|reflexivity]. cbn [option_map map].
      now rewrite pushStr_fresh.
    + destruct Hend as [->|(c & rest' & ->)]; cbn; auto.
    + rewrite Hlast. discriminate.
  - rewrite line_cons by discriminate.
    rewrite !WHATWGFacts.append_assoc. rewrite parse_field; [|cbn; auto|].
    2:{ intros _. right. eexists. reflexivity. }
    change (clean (field :: field' :: row))
      with (negb (strayCR (orEmpty field)) && clean (field' :: row)).
    destruct (strayCR (orEmpty field)); [reflexivity|]. cbn [negb andb].
    cbn [append parseFrom]. change (Ascii.eqb "," dquote) with false.
    change (Ascii.eqb "," ",") with true. cbv iota.
    rewrite IH; [|discriminate|exact Hlast].
    destruct (clean (field' :: row)); [|reflexivity].
    destruct (afterRecord rest); [|reflexivity].
    cbn [option_map newField map]. now rewrite pushStr_fresh.
Qed.

Lemma line_not_empty (row : list (option string)) :
  (2 <= List.length row)%nat -> exists c s, line row = String c s.
Proof.
  destruct row as [|field [|field' row]]; cbn [List.length]; try lia. intros _.
  rewrite line_cons by discriminate.
  destruct (escapeCSV field) as [|c s]; cbn [append]; eauto.
Qed.

Lemma parse_lines (row : list (option string)) (rows : list (list (option string))) :
  Forall (fun row => row <> [] /\ strayCR (orEmpty (List.last row None)) = false)
         (row :: rows) ->
  Forall (fun row => (2 <= List.length row)%nat) rows ->
  parseCSV (String.concat (String newline "") (map line (row :: rows)))
  = if forallb clean (row :: rows) then Some (map (map orEmpty) (row :: rows)) else None.
Proof.
  unfold parseCSV. revert row. induction rows as [|row' rows IH]; intros row Hall Hlong.
  - inversion Hall as [|? ? [Hrow Hlast] _]; subst.
    cbn [map String.concat forallb]. rewrite <- (WHATWGFacts.append_empty_r (line row)).
    rewrite parse_line; [|exact Hrow|exact Hlast|now left].
    rewrite andb_true_r. now destruct (clean row).
  - inversion Hall as [|? ? [Hrow Hlast] Hrest]; subst.
    inversion Hlong as [|? ? Hlen Hlong']; subst.
    change (map line (row :: row' :: rows)) with (line row :: map line (row' :: rows)).
    rewrite concat_cons by discriminate.
    assert (Hnext : exists c s, String.concat (String newline "") (map line (row' :: rows))
                                = String c s).
    { destruct (line_not_empty row' Hlen) as (c & s & Hline).
      destruct rows as [|row'' rows].
      - cbn [map String.concat]. eauto.
      - change (map line (row' :: row'' :: rows)) with (line row' :: map line (row'' :: rows)).
        rewrite concat_cons by discriminate. rewrite Hline. cbn [append]. eauto. }
    destruct Hnext as (c & s & Hnext).
    rewrite parse_line; [|exact Hrow|exact Hlast|].
    2:{ right. exists c, s. cbn [append]. now rewrite Hnext. }
    cbn [append afterRecord]. rewrite (IH row' Hrest Hlong').
    change (forallb clean (row :: row' :: rows))
      with (clean row && forallb clean (row' :: rows)).
    destruct (clean row); [|reflexivity]. cbn [andb].
    now destruct (forallb clean (row' :: rows)).
Qed.

Lemma rowsOf_last (urlComparison : UrlComparison) :
  Forall (fun row => row <> [] /\ strayCR (orEmpty (List.last row None)) = false)
         (rowsOf urlComparison).
Proof.
  unfold rowsOf. repeat (apply Forall_app; split);
    apply Forall_forall; intros row [x [<- _]]%in_map_iff; (split; [discriminate|reflexivity]).
Qed.

Lemma csv_parses_back (urlComparison : UrlComparison) :
  parseCSV (generateURLComparisonCSV (Some urlComparison))
  = if forallb clean (rowsOf urlComparison)
    then Some (["# URL Comparison Report"]
               :: ["Old URL"; "New URL"; "Match Type"; "Status"; "Notes"]
               :: map (map orEmpty) (rowsOf urlComparison))
    else None.
Proof.
  cbn [generateURLComparisonCSV].
  change ("# URL Comparison Report" :: line headers :: map line (rowsOf urlComparison))
    with (map line ([Some "# URL Comparison Report"] :: headers :: rowsOf urlComparison)).
  rewrite parse_lines.
  - reflexivity.
  - constructor; [split; [discriminate|reflexivity]|].
    constructor; [split; [discriminate|reflexivity]|]. apply rowsOf_last.
  - constructor; [cbn; lia|].
    eapply Forall_impl; [|apply rowsOf_five]. intros row ->. lia.
Qed.

(** X13. Read by a reader that keeps to RFC 4180, the text of
    [generateURLComparisonCSV] gives back the title, the header and the rows
    that were pushed, field for field, whatever commas, quotes and line feeds
    the URLs contain, as long as no field has a carriage return without
    having a comma, a quote or a line feed as well.  [escapeCSV] leaves such
    a field without quotes, and then the reader turns the text down.
    ([null] and [undefined] fields read back as empty ones.) *)
Theorem generateURLComparisonCSV_reads_back (urlComparison : UrlComparison) :
  parseCSV (generateURLComparisonCSV (Some urlComparison))
  = if forallb clean (rowsOf urlComparison)
    then Some (["# URL Comparison Report"]
               :: ["Old URL"; "New URL"; "Match Type"; "Status"; "Notes"]
               :: map (map orEmpty) (rowsOf urlComparison))
    else None.
Proof. apply csv_parses_back. Qed.

Lemma doubleQuotes_inj (a b : string) : doubleQuotes a = doubleQuotes b -> a = b.
Proof.
  revert b. induction a as [|c a IH]; intros [|d b]; cbn [doubleQuotes].
  - reflexivity.
  - destruct (Ascii.eqb d dquote); discriminate.
  - destruct (Ascii.eqb c dquote); discriminate.
  - destruct (Ascii.eqb_spec c dquote) as [->|Hc], (Ascii.eqb_spec d dquote) as [->|Hd].
    + intros [= H]. f_equal. auto.
    + intros [= Heq H]. congruence.
    + intros [= Heq H]. congruence.
    + intros [= -> H]. f_equal. auto.
Qed.

Lemma append_inj_r (a b tail : string) : a +++ tail = b +++ tail -> a = b.
Proof.
  intros H.
  assert (Hlen : String.length a = String.length b).
  { apply (f_equal String.length) in H. rewrite !WHATWGFacts.length_append in H. lia. }
  revert b H Hlen. induction a as [|c a IH]; intros [|d b] H Hlen; cbn in *;
    try discriminate; [reflexivity|].
  injection H as -> H. f_equal. apply IH; [exact H|lia].
Qed.

Lemma needsQuotes_dquote (str : string) : needsQuotes (String dquote str) = true.
Proof. unfold needsQuotes. cbn [JS.anyChar]. rewrite Ascii.eqb_refl. now rewrite orb_true_r. Qed.

(** X14. [escapeCSV] loses nothing of a string: a string without comma,
    quote or line feed is left as it is, any other one is put between quotes
    with its quotes doubled, and two different strings never give the same
    field. *)
Theorem escapeCSV_injective (a b : string) :
  (needsQuotes a = false -> escapeCSV (Some a) = a)
  /\ (needsQuotes a = true ->
      escapeCSV (Some a) = String dquote "" +++ doubleQuotes a +++ String dquote "")
  /\ (escapeCSV (Some a) = escapeCSV (Some b) -> a = b).
Proof.
  cbn [escapeCSV]. split; [|split].
  - now intros ->.
  - now intros ->.
  - destruct (needsQuotes a) eqn:Ea, (needsQuotes b) eqn:Eb.
    + intros [= H]. apply append_inj_r in H. now apply doubleQuotes_inj.
    + intros <-. now rewrite needsQuotes_dquote in Eb.
    + intros ->. now rewrite needsQuotes_dquote in Ea.
    + auto.
Qed.

(** X15. The CSV written for a report of [compareUrls] has, after the title
    and the header, one record for each matched, each redirected and each
    missing entry, and none for the URLs found only on the new site: the
    report object carries them under [new], the CSV reads [newOnly]. *)
Theorem generateURLComparisonCSV_of_report (newURL : string -> option URL)
    (oldUrls newUrls : list string) (redirectMap : option (JS.Map string)) :
  let R := compareUrls newURL oldUrls newUrls redirectMap in
  let records := readCSV (generateURLComparisonCSV (Some (reportOf R))) in
  List.length records
  = (2 + matchedCount (summary R) + redirectedCount (summary R) + missingCount (summary R))%nat
  /\ Forall (fun record => nth 2 record "" <> "New Content") records.
Proof.
  intros R records. unfold records. rewrite csv_reads_back.
  unfold rowsOf, reportOf. cbn [uc_matched uc_redirected uc_missing uc_newOnly each map].
  rewrite app_nil_r. split.
  - cbn [List.length]. rewrite length_map, !length_app, !length_map.
    change (matchedCount (summary R)) with (List.length (matched R)).
    change (redirectedCount (summary R)) with (List.length (redirected R)).
    change (missingCount (summary R)) with (List.length (missing R)). lia.
  - constructor; [discriminate|]. constructor; [discriminate|].
    rewrite !map_app, !map_map. repeat (apply Forall_app; split);
      apply Forall_forall; intros record [x [<- _]]%in_map_iff; discriminate.
Qed.

End ExportFacts.
(** ** Status results *)

Module StatusFacts.
Import StatusChecker StatusReport.

Lemma chainFrom_index (redirects : list RedirectEntry) :
  forall index,
    map hop_index (chainFrom index redirects) = seq (index + 1) (List.length redirects)
    /\ List.length (chainFrom index redirects) = List.length redirects.
Proof.
  induction redirects as [|r rest IH]; intros index; cbn; [auto|].
  destruct (IH (S index)) as [H1 H2]. rewrite H1, H2.
  replace (S index + 1)%nat with (S (index + 1)) by lia. auto.
Qed.

Lemma checked_redirect (r : CheckResult) :
  checked r ->
  isRedirect (probe r) = true -> (300 <= statusCode (probe r) < 400)%Z /\ error r = None.
Proof.
  intros (u & outcome & s & e & ts & ->).
  destruct outcome as [failure|response]; cbn; [discriminate|].
  destruct (res response); cbn; [|discriminate].
  rewrite andb_true_iff, Z.leb_le, Z.ltb_lt. auto.
Qed.

(** X16. The result of [checkUrlStatus] is for the URL that was asked; it
    carries an error exactly when the request failed, and then it has no
    redirect chain, no headers, the URL itself as final URL, and is no
    redirect; without an error it is a redirect exactly when the status is a
    3xx; the hops of the redirect chain are numbered from 1. *)
Theorem checkUrlStatus_result (url : string) (outcome : Failure + Response)
    (startTime endTime : Z) (timestamp : string) :
  let r := checkUrlStatus url outcome startTime endTime timestamp in
  StatusChecker.url (probe r) = url
  /\ responseTime (probe r) = (endTime - startTime)%Z
  /\ (error r = None <-> exists response final, outcome = inr response /\ res response = Some final)
  /\ (error r <> None ->
      redirectChain r = [] /\ finalUrl (probe r) = url /\ isRedirect (probe r) = false
      /\ contentType r = None /\ contentLength r = None /\ server r = None)
  /\ (error r = None ->
      (isRedirect (probe r) = true <-> (300 <= statusCode (probe r) < 400)%Z))
  /\ map hop_index (redirectChain r) = seq 1 (List.length (redirectChain r)).
Proof.
  destruct outcome as [failure|response]; cbn.
  - repeat split; try discriminate; try congruence.
    intros (response & final & H & _). discriminate.
  - destruct (res response) as [final|] eqn:Hres; cbn.
    + repeat split; try congruence.
      * intros _. now exists response, final.
      * rewrite andb_true_iff, Z.leb_le, Z.ltb_lt in *. tauto.
      * rewrite andb_true_iff, Z.leb_le, Z.ltb_lt in *. tauto.
      * rewrite andb_true_iff, Z.leb_le, Z.ltb_lt. tauto.
      * destruct (redirectable response) as [[redirects|]|]; try reflexivity.
        destruct (chainFrom_index redirects 0) as [H1 H2]. now rewrite H1, H2.
    + repeat split; try discriminate; try congruence.
      intros (response' & final & [= <-] & H). congruence.
Qed.

Lemma filter_map_probe (f : ProbeResult -> bool) (results : list CheckResult) :
  filter f (map probe results) = map probe (filter (fun r => f (probe r)) results).
Proof.
  induction results as [|r rs IH]; [reflexivity|]. cbn [map filter].
  destruct (f (probe r)); cbn [map]; now rewrite IH.
Qed.

(** X17. [findBrokenLinks] lists the results [categorizeResults] files under
    [clientErrors], in the same order and as many as [clientErrorCount]:
    those with a status from 400 to 499. *)
Theorem findBrokenLinks_clientErrors (results : list CheckResult) :
  let categorized := categorizeResults (map probe results) in
  map broken_url (findBrokenLinks results) = map StatusChecker.url (clientErrors categorized)
  /\ map broken_statusCode (findBrokenLinks results) = map statusCode (clientErrors categorized)
  /\ List.length (findBrokenLinks results) = clientErrorCount (summary categorized)
  /\ Forall (fun link => (400 <= broken_statusCode link < 500)%Z) (findBrokenLinks results).
Proof.
  intros categorized.
  destruct (categorizeResults_spec (map probe results))
    as (_ & _ & Hc & _ & _ & _ & _ & Hn & _).
  fold categorized in Hc, Hn. rewrite Hn, Hc. unfold findBrokenLinks.
  rewrite filter_map_probe. unfold isClientError.
  rewrite !map_map, !length_map. repeat split.
  apply Forall_forall. intros link [r [<- Hr]]%in_map_iff. apply filter_In in Hr.
  destruct Hr as [_ Hr]. cbn. rewrite andb_true_iff, Z.leb_le, Z.ltb_lt in Hr. exact Hr.
Qed.

Lemma filter_length_le {A} (f : A -> bool) (l : list A) :
  (List.length (filter f l) <= List.length l)%nat.
Proof. induction l as [|x l IH]; cbn; [lia|]. destruct (f x); cbn; lia. Qed.

Lemma four_codes (l : list CheckResult) :
  (List.length (filter (hasStatus 301) l) + List.length (filter (hasStatus 302) l)
   + List.length (filter (hasStatus 307) l) + List.length (filter (hasStatus 308) l)
   <= List.length l)%nat.
Proof.
  unfold hasStatus. induction l as [|r l IH]; cbn [filter List.length]; [lia|].
  destruct (Z.eqb_spec (statusCode (probe r)) 301), (Z.eqb_spec (statusCode (probe r)) 302),
    (Z.eqb_spec (statusCode (probe r)) 307), (Z.eqb_spec (statusCode (probe r)) 308);
    cbn [List.length]; lia.
Qed.

(** X18. In the analysis of [analyzeRedirects] the counted redirects are the
    results flagged [isRedirect]; the four counts by status (301, 302, 307,
    308) never add up to more than the total, there is one chain summary per
    redirect, and the long chains are redirects with more than two hops.
    When the results come from [checkUrlStatus], every counted redirect is
    in the [redirects] bucket of [categorizeResults], so the total is at
    most [redirectCount]. *)
Theorem analyzeRedirects_counts (results : list CheckResult) :
  let analysis := analyzeRedirects results in
  totalRedirects analysis = List.length (filter (fun r => isRedirect (probe r)) results)
  /\ (r301 (redirectTypes analysis) + r302 (redirectTypes analysis)
      + r307 (redirectTypes analysis) + r308 (redirectTypes analysis)
      <= totalRedirects analysis)%nat
  /\ List.length (redirectChains analysis) = totalRedirects analysis
  /\ Forall (fun r => In r results /\ isRedirect (probe r) = true
                      /\ (2 < List.length (redirectChain r))%nat) (longChains analysis)
  /\ (Forall checked results ->
      (totalRedirects analysis
       <= redirectCount (summary (categorizeResults (map probe results))))%nat).
Proof.
  unfold analyzeRedirects.
  cbn [totalRedirects redirectTypes r301 r302 r307 r308 redirectChains longChains].
  split; [reflexivity|]. split; [apply four_codes|]. split; [apply length_map|]. split.
  - apply Forall_forall. intros r [[Hin Hr]%filter_In Hlong]%filter_In.
    apply Nat.ltb_lt in Hlong. auto.
  - intros Hall.
    destruct (categorizeResults_spec (map probe results))
      as (_ & Hr & _ & _ & _ & _ & Hn & _).
    rewrite Hn, Hr. clear Hn Hr.
    induction Hall as [|r rs Hr _ IH]; cbn [map filter List.length]; [lia|].
    destruct (isRedirect (probe r)) eqn:E.
    + destruct (checked_redirect r Hr E) as [Hcode _].
      unfold isRedirection at 1.
      replace ((300 <=? statusCode (probe r))%Z && (statusCode (probe r) <? 400)%Z) with true
        by (symmetry; rewrite andb_true_iff, Z.leb_le, Z.ltb_lt; lia).
      cbn [List.length]. lia.
    + destruct (isRedirection (probe r)); cbn [List.length]; lia.
Qed.

End StatusFacts.
(** ** Rounding *)

Module RoundFacts.

Lemma roundHalfUp_between (x : Q) (lo hi : Z) :
  (inject_Z lo <= x)%Q -> (x <= inject_Z hi)%Q -> (lo <= JS.roundHalfUp x <= hi)%Z.
Proof.
  intros Hlo Hhi. destruct (roundHalfUp_nearest x) as [H1 H2].
  split.
  - assert (H : (inject_Z lo < inject_Z (JS.roundHalfUp x) + (1 # 2))%Q)
      by (eapply Qle_lt_trans; eassumption).
    revert H. generalize (JS.roundHalfUp x) as r. intros r H.
    unfold Qlt in H. cbn in H. lia.
  - assert (H : (inject_Z (JS.roundHalfUp x) - (1 # 2) <= inject_Z hi)%Q)
      by (eapply Qle_trans; eassumption).
    revert H. generalize (JS.roundHalfUp x) as r. intros r H.
    unfold Qle in H. cbn in H. lia.
Qed.

Lemma roundHalfUp_Z (z : Z) : JS.roundHalfUp (inject_Z z) = z.
Proof.
  pose proof (roundHalfUp_between (inject_Z z) z z (Qle_refl _) (Qle_refl _)). lia.
Qed.

Lemma roundHalfUp_le (x y : Q) : (x <= y)%Q -> (JS.roundHalfUp x <= JS.roundHalfUp y)%Z.
Proof.
  intros H. unfold JS.roundHalfUp. apply Qfloor_resp_le. now apply Qplus_le_l.
Qed.

Lemma mean_between (sum lo hi : Z) (n : nat) :
  (0 < n)%nat -> (lo * Z.of_nat n <= sum)%Z -> (sum <= hi * Z.of_nat n)%Z ->
  (inject_Z lo <= inject_Z sum / inject_Z (Z.of_nat n))%Q
  /\ (inject_Z sum / inject_Z (Z.of_nat n) <= inject_Z hi)%Q.
Proof.
  intros Hn Hlo Hhi.
  assert (Hq : (0 < inject_Z (Z.of_nat n))%Q)
    by (change 0%Q with (inject_Z 0); rewrite <- Zlt_Qlt; lia).
  split.
  - apply Qle_shift_div_l; [exact Hq|]. rewrite <- inject_Z_mult, <- Zle_Qle. exact Hlo.
  - apply Qle_shift_div_r; [exact Hq|]. rewrite <- inject_Z_mult, <- Zle_Qle. exact Hhi.
Qed.

End RoundFacts.

(** ** More of [categorizeResults] and [checkMultipleUrls] *)

Section BatchFacts.
Import StatusChecker.

Lemma five_filters (results : list ProbeResult) :
  Permutation (filter isOk results ++ filter isRedirection results
               ++ filter isClientError results ++ filter isServerError results
               ++ filter isLeftOver results) results.
Proof.
  induction results as [|r rs IH]; [constructor|]. cbn [filter].
  destruct (one_bucket r) as [B|[B|[B|[B|B]]]];
    destruct B as (B1 & B2 & B3 & B4 & B5); rewrite B1, B2, B3, B4, B5.
  - cbn. now constructor.
  - apply Permutation_sym, Permutation_cons_app, Permutation_sym, IH.
  - rewrite (app_assoc (filter isOk rs)). cbn [app].
    apply Permutation_sym, Permutation_cons_app, Permutation_sym.
    rewrite <- app_assoc. exact IH.
  - rewrite (app_assoc (filter isOk rs)), (app_assoc (filter isOk rs ++ _)). cbn [app].
    apply Permutation_sym, Permutation_cons_app, Permutation_sym.
    rewrite <- !app_assoc. exact IH.
  - rewrite (app_assoc (filter isOk rs)), (app_assoc (filter isOk rs ++ _)),
      (app_assoc ((filter isOk rs ++ _) ++ _)). cbn [app].
    apply Permutation_sym, Permutation_cons_app, Permutation_sym.
    rewrite <- !app_assoc. exact IH.
Qed.

Lemma times_between (results : list ProbeResult) (lo hi : Z) :
  Forall (fun r => (lo <= responseTime r <= hi)%Z) results ->
  (lo * Z.of_nat (List.length results) <= fold_right Z.add 0 (map responseTime results))%Z
  /\ (fold_right Z.add 0 (map responseTime results) <= hi * Z.of_nat (List.length results))%Z.
Proof.
  induction 1 as [|r rs Hr _ IH]; cbn [map fold_right List.length]; [lia|]. lia.
Qed.

(** X19. [categorizeResults] puts every result in exactly one of its five
    lists, so the five counts add up to [total], the number of results; and
    [avgResponseTime] lies between the least and the greatest response time
    (it is 0 for an empty batch). *)
Theorem categorizeResults_partition (results : list ProbeResult) :
  let c := categorizeResults results in
  Permutation (ok c ++ redirects c ++ clientErrors c ++ serverErrors c ++ networkErrors c)
              results
  /\ (okCount (summary c) + redirectCount (summary c) + clientErrorCount (summary c)
      + serverErrorCount (summary c) + networkErrorCount (summary c))%nat = total (summary c)
  /\ total (summary c) = List.length results
  /\ (results = [] -> avgResponseTime (summary c) = 0%Z)
  /\ (forall lo hi,
        results <> [] ->
        Forall (fun r => (lo <= responseTime r <= hi)%Z) results ->
        (lo <= avgResponseTime (summary c) <= hi)%Z).
Proof.
  intros c.
  destruct (categorizeResults_spec results)
    as (H1 & H2 & H3 & H4 & H5 & H6 & H7 & H8 & H9 & H10 & H11 & H12).
  fold c in H1, H2, H3, H4, H5, H6, H7, H8, H9, H10, H11, H12.
  assert (Hperm : Permutation (ok c ++ redirects c ++ clientErrors c ++ serverErrors c
                               ++ networkErrors c) results)
    by (rewrite H1, H2, H3, H4, H5; apply five_filters).
  split; [exact Hperm|]. split; [|split; [exact H11|split]].
  - rewrite H6, H7, H8, H9, H10, H11, <- (Permutation_length Hperm), !length_app. lia.
  - intros ->. rewrite H12. reflexivity.
  - intros lo hi Hne Hall. rewrite H12.
    destruct results as [|r rs]; [congruence|].
    replace (0 <? List.length (r :: rs))%nat with true by reflexivity.
    destruct (times_between (r :: rs) lo hi Hall) as [Hlo Hhi].
    destruct (RoundFacts.mean_between _ lo hi (List.length (r :: rs)) ltac:(cbn; lia) Hlo Hhi).
    now apply RoundFacts.roundHalfUp_between.
Qed.

Variable checkUrlStatus : nat -> nat -> string -> ProbeResult.
Variable options : Options.
Variable finish : nat -> nat.

Lemma last_Some {A} (l : list A) : l <> [] -> List.last (map Some l) None <> None.
Proof.
  induction l as [| a l IH]; [congruence |]. intros _.
  destruct l as [| b l]; [discriminate |].
  change (List.last (map Some (a :: b :: l)) None) with (List.last (map Some (b :: l)) None).
  apply IH. discriminate.
Qed.

(** What a task that follows the policy costs and records. *)
Lemma policy_budget (index : nat) (run : Run) :
  followsPolicy checkUrlStatus options index run ->
  (List.length (probes (run_log run)) <= Z.to_nat (retryAttempts options))%nat
  /\ ((0 < retryAttempts options)%Z ->
      run_result run <> None /\ (1 <= List.length (probes (run_log run)))%nat)
  /\ ((retryAttempts options <= 0)%Z ->
      run_result run = None /\ List.length (probes (run_log run)) = 0%nat).
Proof.
  intros (_ & _ & Hpos & Hmax & _ & _ & _ & _ & _ & Hres).
  cbv zeta in Hpos, Hmax. split; [exact Hmax |]. split.
  - intros H. specialize (Hpos H). split; [| lia].
    rewrite Hres. apply last_Some. intros E. rewrite E in Hpos. simpl in Hpos. lia.
  - intros H. assert (E : probes (run_log run) = []).
    { destruct (probes (run_log run)); [reflexivity | simpl in Hmax; lia]. }
    rewrite Hres, E. split; reflexivity.
Qed.

Lemma requests_between (runs : list Run) (lo hi : nat) :
  Forall (fun run => (lo <= List.length (probes (run_log run)) <= hi)%nat) runs ->
  (lo * List.length runs <= List.length (flat_map (fun run => probes (run_log run)) runs))%nat
  /\ (List.length (flat_map (fun run => probes (run_log run)) runs)
      <= hi * List.length runs)%nat.
Proof.
  induction 1 as [| run runs Hrun _ IH]; cbn [flat_map List.length]; [lia |].
  rewrite length_app. lia.
Qed.

Lemma policy_everywhere (runs : list Run) (P : Run -> Prop) :
  (forall index run, nth_error runs index = Some run ->
                     followsPolicy checkUrlStatus options index run) ->
  (forall index run, followsPolicy checkUrlStatus options index run -> P run) ->
  Forall P runs.
Proof.
  intros Hall HP. apply Forall_forall. intros run Hin.
  apply In_nth_error in Hin. destruct Hin as [index Hindex]. eauto.
Qed.

(** X20. [checkMultipleUrls] records one result per URL.  With a positive
    [retryAttempts] no result is [null], and the batch makes at least one
    request per URL and at most [retryAttempts] per URL.  With
    [retryAttempts] zero or negative it makes no request at all and every
    recorded result is [null]. *)
Theorem checkMultipleUrls_budget (fuel : nat) (urls : list string) :
  (Z.to_nat (retryAttempts options) < fuel)%nat ->
  exists batch,
    checkMultipleUrls checkUrlStatus options finish fuel urls = Some batch
    /\ List.length (results batch) = List.length urls
    /\ ((0 < retryAttempts options)%Z ->
        Forall (fun result => result <> None) (results batch)
        /\ (List.length urls <= requests batch)%nat
        /\ (requests batch <= Z.to_nat (retryAttempts options) * List.length urls)%nat)
    /\ ((retryAttempts options <= 0)%Z ->
        Forall (fun result => result = None) (results batch) /\ requests batch = 0%nat).
Proof.
  intros Hfuel.
  destruct (checkMultipleUrls_spec checkUrlStatus options finish fuel urls Hfuel)
    as (batch & Hrun & Hurls & Hperm & _ & Hreq & Hall).
  exists batch. split; [exact Hrun |].
  assert (Hlen : List.length (runs batch) = List.length urls)
    by (rewrite <- Hurls; now rewrite length_map).
  split; [rewrite (Permutation_length Hperm), length_map; exact Hlen |]. split.
  - intros Hpos.
    assert (Hres : Forall (fun run => run_result run <> None) (runs batch)).
    { apply (policy_everywhere _ _ Hall). intros index run H.
      now apply (policy_budget index run H). }
    assert (Hcost : Forall (fun run => (1 <= List.length (probes (run_log run))
                                        <= Z.to_nat (retryAttempts options))%nat)
                           (runs batch)).
    { apply (policy_everywhere _ _ Hall). intros index run H.
      destruct (policy_budget index run H) as (Hmax & Hone & _). split; [now apply Hone | exact Hmax]. }
    destruct (requests_between _ _ _ Hcost) as [Hlo Hhi]. rewrite <- Hreq, Hlen in Hlo, Hhi.
    split; [| lia].
    apply (Permutation_Forall (Permutation_sym Hperm)). apply Forall_map. exact Hres.
  - intros Hzero.
    assert (Hres : Forall (fun run => run_result run = None) (runs batch)).
    { apply (policy_everywhere _ _ Hall). intros index run H.
      now apply (policy_budget index run H). }
    assert (Hcost : Forall (fun run => (0 <= List.length (probes (run_log run)) <= 0)%nat)
                           (runs batch)).
    { apply (policy_everywhere _ _ Hall). intros index run H.
      destruct (policy_budget index run H) as (_ & _ & Hnone). destruct (Hnone Hzero). lia. }
    destruct (requests_between _ _ _ Hcost) as [_ Hhi]. rewrite <- Hreq in Hhi.
    split; [| lia].
    apply (Permutation_Forall (Permutation_sym Hperm)). apply Forall_map. exact Hres.
Qed.

End BatchFacts.

(** Three attempts against a server that fails twice: one URL, three
    requests, and a result. *)
Lemma checkMultipleUrls_budget_witness :
  exists batch,
    StatusChecker.checkMultipleUrls failsTwice StatusChecker.defaultOptions (fun _ => 0%nat) 4
      ["https://site.example/"] = Some batch
    /\ List.length (StatusChecker.results batch) = 1%nat
    /\ ((0 < 3)%Z ->
        Forall (fun result => result <> None) (StatusChecker.results batch)
        /\ (1 <= StatusChecker.requests batch)%nat
        /\ (StatusChecker.requests batch <= 3 * 1)%nat)
    /\ ((3 <= 0)%Z ->
        Forall (fun result => result = None) (StatusChecker.results batch)
        /\ StatusChecker.requests batch = 0%nat).
Proof.
  apply (checkMultipleUrls_budget failsTwice StatusChecker.defaultOptions (fun _ => 0%nat) 4
           ["https://site.example/"]).
  vm_compute. lia.
Defined.
(** ** SEO comparison *)

Module SeoFacts.
Import SeoComparison SeoValidation.

Lemma calculateTextSimilarity_cases (str1 str2 : string) :
  calculateTextSimilarity str1 str2
  = if (str1 =? "") || (str2 =? "") then 0%Q
    else if str1 =? str2 then 1%Q
    else calculateSimilarity str1 str2.
Proof. reflexivity. Qed.

Lemma textSimilarity_facts (str1 str2 : string) :
  (0 <= calculateTextSimilarity str1 str2)%Q
  /\ (calculateTextSimilarity str1 str2 <= 1)%Q
  /\ (str1 = "" \/ str2 = "" -> calculateTextSimilarity str1 str2 = 0%Q)
  /\ ((calculateTextSimilarity str1 str2 == 1)%Q <-> str1 = str2 /\ str1 <> "")
  /\ calculateTextSimilarity str1 str2 = calculateTextSimilarity str2 str1.
Proof.
  rewrite !calculateTextSimilarity_cases.
  destruct (calculateSimilarity_facts str1 str2) as (H0 & H1 & Hone & Hsym).
  rewrite (String.eqb_sym str2 str1), (orb_comm (str2 =? "")), <- Hsym.
  destruct (String.eqb_spec str1 "") as [E1|E1], (String.eqb_spec str2 "") as [E2|E2];
    cbn [orb]; [| | |destruct (String.eqb_spec str1 str2) as [E|E]];
    repeat split; try reflexivity; try assumption; try discriminate;
    try (intros [H1' H2']; congruence); try (intros [H'|H']; congruence);
    try (intros _; congruence).
  now apply Hone.
Qed.

(** X21. [calculateTextSimilarity] lies between 0 and 1, is 0 as soon as one
    string is empty (even when both are), is 1 exactly on two equal strings
    that are not empty, and does not depend on the order of its arguments. *)
Theorem calculateTextSimilarity_range (str1 str2 : string) :
  (0 <= calculateTextSimilarity str1 str2)%Q
  /\ (calculateTextSimilarity str1 str2 <= 1)%Q
  /\ (str1 = "" \/ str2 = "" -> calculateTextSimilarity str1 str2 = 0%Q)
  /\ ((calculateTextSimilarity str1 str2 == 1)%Q <-> str1 = str2 /\ str1 <> "")
  /\ calculateTextSimilarity str1 str2 = calculateTextSimilarity str2 str1.
Proof. apply textSimilarity_facts. Qed.

Lemma round2_range (x : Q) :
  (0 <= x)%Q -> (x <= 1)%Q -> (0 <= round2 x)%Q /\ (round2 x <= 1)%Q.
Proof.
  intros H0 H1. unfold round2.
  destruct (RoundFacts.roundHalfUp_between (x * inject_Z 100) 0 100) as [Hlo Hhi].
  - change (inject_Z 0) with (0 * inject_Z 100)%Q. apply Qmult_le_compat_r; [exact H0|discriminate].
  - change (inject_Z 100) with (1 * inject_Z 100)%Q at 2.
    apply Qmult_le_compat_r; [exact H1|discriminate].
  - generalize dependent (JS.roundHalfUp (x * inject_Z 100)). intros r Hlo Hhi.
    unfold Qle, Qdiv, Qmult, Qinv. cbn. lia.
Qed.

Lemma round2_one : (round2 1 == 1)%Q.
Proof. reflexivity. Qed.

Lemma round2_below (x : Q) : (x < 8 # 10)%Q -> (round2 x <= 8 # 10)%Q.
Proof.
  intros H. unfold round2.
  assert (Hr : (JS.roundHalfUp (x * inject_Z 100) <= 80)%Z).
  { change 80%Z with (JS.roundHalfUp (inject_Z 80)).
    apply RoundFacts.roundHalfUp_le.
    setoid_replace (inject_Z 80) with ((8 # 10) * inject_Z 100)%Q by reflexivity.
    apply Qmult_le_compat_r; [now apply Qlt_le_weak|discriminate]. }
  generalize dependent (JS.roundHalfUp (x * inject_Z 100)). intros r Hr.
  unfold Qle, Qdiv, Qmult, Qinv. cbn. lia.
Qed.

Lemma toLowerCase_empty (s : string) : JS.toLowerCase s = "" -> s = "".
Proof. destruct s; [reflexivity|discriminate]. Qed.

Lemma toLowerCase_length (s : string) : String.length (JS.toLowerCase s) = String.length s.
Proof. induction s as [|c s IH]; cbn; [reflexivity|now rewrite IH]. Qed.

Lemma falsy_text (s : option string) : JS.falsy s = false -> text s <> "" /\ s = Some (text s).
Proof.
  destruct s as [s|]; cbn; [|discriminate].
  destruct (String.eqb_spec s ""); [discriminate|auto].
Qed.

Lemma compared_coherent (similarity : Q) (lengthDiff limit : Z)
    (changed lengthIssue partly : string) :
  (0 <= similarity)%Q -> (similarity <= 1)%Q ->
  coherent lengthIssue
    {| match_ := Qle_bool (8 # 10) similarity;
       SeoComparison.similarity := round2 similarity;
       issue := if JS.Qltb similarity (1 # 2) then Some changed
                else if (limit <? lengthDiff)%Z then Some lengthIssue
                else if JS.Qltb similarity (8 # 10) then Some partly
                else None |}.
Proof.
  intros H0 H1. destruct (round2_range similarity H0 H1) as [R0 R1].
  unfold coherent. cbn [match_ SeoComparison.similarity issue].
  split; [exact R0|]. split; [exact R1|].
  destruct (Qle_bool (8 # 10) similarity) eqn:E.
  - apply Qle_bool_iff in E.
    assert (Hhalf : JS.Qltb similarity (1 # 2) = false).
    { apply Qltb_ge. apply Qle_trans with (8 # 10); [discriminate|exact E]. }
    assert (H8 : JS.Qltb similarity (8 # 10) = false) by now apply Qltb_ge.
    rewrite Hhalf, H8. repeat split; try discriminate; auto.
    intros _. destruct (limit <? lengthDiff)%Z; auto.
  - assert (Hlt : (similarity < 8 # 10)%Q).
    { apply Qnot_le_lt. intros H. apply Qle_bool_iff in H. congruence. }
    assert (H8 : JS.Qltb similarity (8 # 10) = true) by now apply Qltb_lt.
    rewrite H8. repeat split; try discriminate.
    + destruct (JS.Qltb similarity (1 # 2)), (limit <? lengthDiff)%Z; discriminate.
    + intros _. now apply round2_below.
Qed.

Lemma absent_coherent (lengthIssue : string) (issue : option string) :
  issue <> None ->
  coherent lengthIssue {| match_ := false; similarity := 0; SeoComparison.issue := issue |}.
Proof.
  intros H. unfold coherent. cbn. repeat split; try discriminate; try congruence.
Qed.

Lemma compareTitles_coherent (oldTitle newTitle : option string) :
  coherent "Title length differs significantly" (compareTitles oldTitle newTitle).
Proof.
  unfold compareTitles.
  destruct (JS.falsy oldTitle) eqn:Eo, (JS.falsy newTitle) eqn:En; cbn [andb].
  - unfold coherent. cbn. repeat split; try discriminate; auto.
  - now apply absent_coherent.
  - now apply absent_coherent.
  - apply compared_coherent; apply textSimilarity_facts.
Qed.

Lemma compareDescriptions_coherent (oldDesc newDesc : option string) :
  coherent "Description length differs significantly" (compareDescriptions oldDesc newDesc).
Proof.
  unfold compareDescriptions.
  destruct (JS.falsy oldDesc) eqn:Eo, (JS.falsy newDesc) eqn:En; cbn [andb].
  - unfold coherent. cbn. repeat split; try discriminate; auto.
  - now apply absent_coherent.
  - now apply absent_coherent.
  - apply compared_coherent; apply textSimilarity_facts.
Qed.

Lemma same_text_perfect (t : string) (limit : Z) (changed lengthIssue partly : string) :
  t <> "" -> (0 <= limit)%Z ->
  let similarity := calculateTextSimilarity (JS.toLowerCase t) (JS.toLowerCase t) in
  perfect
    {| match_ := Qle_bool (8 # 10) similarity;
       SeoComparison.similarity := round2 similarity;
       issue := if JS.Qltb similarity (1 # 2) then Some changed
                else if (limit <? lengthDiff t t)%Z then Some lengthIssue
                else if JS.Qltb similarity (8 # 10) then Some partly
                else None |}.
Proof.
  intros Ht Hlimit similarity.
  assert (Hs : similarity = 1%Q).
  { unfold similarity. rewrite calculateTextSimilarity_cases.
    destruct (String.eqb_spec (JS.toLowerCase t) "") as [E|_].
    - now apply toLowerCase_empty in E.
    - cbn [orb]. now rewrite String.eqb_refl. }
  rewrite Hs. unfold lengthDiff. rewrite Z.sub_diag. cbn [Z.abs].
  replace (limit <? 0)%Z with false by (symmetry; apply Z.ltb_ge; exact Hlimit).
  unfold perfect. cbn [match_ SeoComparison.similarity issue].
  repeat split; reflexivity.
Qed.

Lemma compareTitles_same (t : option string) : perfect (compareTitles t t).
Proof.
  unfold compareTitles. destruct (JS.falsy t) eqn:E; cbn [andb].
  - unfold perfect. cbn. repeat split; reflexivity.
  - apply same_text_perfect; [now apply falsy_text|lia].
Qed.

Lemma compareDescriptions_same (t : option string) : perfect (compareDescriptions t t).
Proof.
  unfold compareDescriptions. destruct (JS.falsy t) eqn:E; cbn [andb].
  - unfold perfect. cbn. repeat split; reflexivity.
  - apply same_text_perfect; [now apply falsy_text|lia].
Qed.

(** X22. The comparisons [compareTitles] and [compareDescriptions] return
    hang together: the reported similarity lies between 0 and 1; a
    comparison without issue is a match; a match carries no issue except,
    possibly, the one about differing lengths; a comparison that is no match
    reports a similarity of at most 0.8.  A text compared with itself is a
    match with similarity 1 and no issue. *)
Theorem compare_texts_coherent (oldText newText : option string) :
  coherent "Title length differs significantly" (compareTitles oldText newText)
  /\ coherent "Description length differs significantly"
       (compareDescriptions oldText newText)
  /\ perfect (compareTitles oldText oldText)
  /\ perfect (compareDescriptions oldText oldText).
Proof.
  split; [apply compareTitles_coherent|]. split; [apply compareDescriptions_coherent|].
  split; [apply compareTitles_same|apply compareDescriptions_same].
Qed.

(** *** Headings *)

Lemma validateH1_valid (h1Array : option (list string)) :
  valid (validateH1 h1Array) = true <-> exists heading, h1Array = Some [heading].
Proof.
  destruct h1Array as [[|heading [|second rest]]|]; cbn; split;
    try discriminate; try (intros [h [= ]]); eauto.
Qed.

Lemma validateH1_issue (h1Array : option (list string)) :
  match h1_issue (validateH1 h1Array) with
  | None => valid (validateH1 h1Array) = true
  | Some issue => valid (validateH1 h1Array) = false /\ issue <> ""
  end.
Proof.
  destruct h1Array as [[|heading [|second rest]]|]; cbn; try reflexivity;
    (split; [reflexivity|discriminate]).
Qed.

Lemma h1Similarity_single (o n : string) :
  h1Similarity (Some [o]) (Some [n])
  = calculateTextSimilarity (JS.toLowerCase o) (JS.toLowerCase n).
Proof.
  unfold h1Similarity, firstHeading.
  destruct (String.eqb_spec o "") as [->|Ho]; [reflexivity|].
  destruct (String.eqb_spec n "") as [->|Hn]; [|reflexivity].
  destruct (textSimilarity_facts (JS.toLowerCase o) (JS.toLowerCase "")) as (_ & _ & H & _).
  symmetry. apply H. now right.
Qed.

Lemma h1Similarity_range (oldH1 newH1 : option (list string)) :
  (0 <= h1Similarity oldH1 newH1)%Q /\ (h1Similarity oldH1 newH1 <= 1)%Q.
Proof.
  unfold h1Similarity. destruct (firstHeading oldH1), (firstHeading newH1);
    try (split; discriminate).
  split; apply textSimilarity_facts.
Qed.

Lemma pushIssue_length (label : string) (issue : option string) (issues : list string) :
  List.length (pushIssue label issue issues)
  = (List.length issues
     + match issue with Some i => if (i =? "")%string then 0 else 1 | None => 0 end)%nat.
Proof.
  unfold pushIssue. destruct issue as [i|]; [|lia].
  destruct (i =? ""); [lia|]. rewrite length_app. reflexivity.
Qed.

Lemma orNull_none (issues : list string) : orNull issues = None <-> issues = [].
Proof. destruct issues; cbn; split; congruence. Qed.

Lemma compareH1Tags_facts (oldH1 newH1 : option (list string)) :
  let c := compareH1Tags oldH1 newH1 in
  (oldValid c = true <-> exists heading, oldH1 = Some [heading])
  /\ (newValid c = true <-> exists heading, newH1 = Some [heading])
  /\ (h1_issues c = None <-> oldValid c = true /\ newValid c = true)
  /\ (h1_match c = true
      <-> exists o n,
            oldH1 = Some [o] /\ newH1 = Some [n]
            /\ (8 # 10 <= calculateTextSimilarity (JS.toLowerCase o) (JS.toLowerCase n))%Q)
  /\ (0 <= h1_similarity c)%Q /\ (h1_similarity c <= 1)%Q
  /\ (h1_match c = false -> oldValid c = true -> newValid c = true ->
      (h1_similarity c <= 8 # 10)%Q).
Proof.
  intros c. unfold c, compareH1Tags.
  cbn [oldValid newValid h1_issues h1_match h1_similarity].
  split; [apply validateH1_valid|]. split; [apply validateH1_valid|].
  destruct (h1Similarity_range oldH1 newH1) as [S0 S1].
  split; [|split; [|split; [|split]]].
  - rewrite orNull_none.
    pose proof (validateH1_issue oldH1) as Ho. pose proof (validateH1_issue newH1) as Hn.
    destruct (h1_issue (validateH1 oldH1)) as [io|], (h1_issue (validateH1 newH1)) as [inw|];
      cbn [pushIssue].
    + destruct Ho as [Ho Hio], Hn as [Hn Hin].
      apply String.eqb_neq in Hio, Hin. rewrite Hio, Hin. rewrite Ho.
      split; [destruct (_ ++ _) eqn:E; [apply app_eq_nil in E; destruct E; discriminate|discriminate]|].
      intros [? _]. discriminate.
    + destruct Ho as [Ho Hio]. apply String.eqb_neq in Hio. rewrite Hio, Ho.
      split; [discriminate|]. intros [? _]. discriminate.
    + destruct Hn as [Hn Hin]. apply String.eqb_neq in Hin. rewrite Hin, Hn.
      split; [discriminate|]. intros [_ ?]. discriminate.
    + rewrite Ho, Hn. tauto.
  - rewrite !andb_true_iff, !validateH1_valid. split.
    + intros [[[o ->] [n ->]] H]. exists o, n. rewrite h1Similarity_single in H.
      apply Qle_bool_iff in H. auto.
    + intros (o & n & -> & -> & H). rewrite h1Similarity_single.
      apply Qle_bool_iff in H. eauto.
  - now apply round2_range.
  - now apply round2_range.
  - intros Hm Ho Hn. rewrite Ho, Hn in Hm. cbn [andb] in Hm.
    apply round2_below, Qnot_le_lt. intros H. apply Qle_bool_iff in H. congruence.
Qed.

(** X23. [compareH1Tags]: a side is valid exactly when it has one H1; the
    list of issues is [null] exactly when both sides are valid; the headings
    match exactly when each side has one H1 and the two, in lower case, are
    at least 0.8 similar (so never when one of them is empty); and the
    reported similarity lies between 0 and 1. *)
Theorem compareH1Tags_spec (oldH1 newH1 : option (list string)) :
  let c := compareH1Tags oldH1 newH1 in
  (oldValid c = true <-> exists heading, oldH1 = Some [heading])
  /\ (newValid c = true <-> exists heading, newH1 = Some [heading])
  /\ (h1_issues c = None <-> oldValid c = true /\ newValid c = true)
  /\ (h1_match c = true
      <-> exists o n,
            oldH1 = Some [o] /\ newH1 = Some [n]
            /\ (8 # 10 <= calculateTextSimilarity (JS.toLowerCase o) (JS.toLowerCase n))%Q)
  /\ (0 <= h1_similarity c)%Q /\ (h1_similarity c <= 1)%Q.
Proof.
  intros c. destruct (compareH1Tags_facts oldH1 newH1) as (H1 & H2 & H3 & H4 & H5 & H6 & _).
  split; [exact H1|]. split; [exact H2|]. split; [exact H3|]. split; [exact H4|].
  split; [exact H5|exact H6].
Qed.

End SeoFacts.
(** ** Canonical URLs and the match score *)

Module ScoreFacts.
Import SeoComparison SeoValidation.

Lemma compareCanonical_match (oldCanonical newCanonical newUrl : option string) :
  canonical_match (compareCanonical oldCanonical newCanonical newUrl)
  = negb (JS.falsy newCanonical) && negb (JS.falsy newUrl)
    && (dropEndSlash (text newCanonical) =? dropEndSlash (text newUrl)).
Proof.
  unfold compareCanonical.
  destruct (negb (JS.falsy newCanonical) && negb (JS.falsy newUrl)); reflexivity.
Qed.

Lemma compareCanonical_issues (oldCanonical newCanonical newUrl : option string) :
  canonical_issues (compareCanonical oldCanonical newCanonical newUrl)
  = orNull ((if JS.falsy oldCanonical then ["Old page missing canonical tag"] else [])
            ++ (if JS.falsy newCanonical then ["New page missing canonical tag"] else [])
            ++ (if negb (JS.falsy newCanonical) && negb (JS.falsy newUrl)
                   && negb (dropEndSlash (text newCanonical) =? dropEndSlash (text newUrl))
                then ["Canonical URL does not match page URL"] else [])).
Proof.
  unfold compareCanonical.
  destruct (JS.falsy oldCanonical), (JS.falsy newCanonical), (JS.falsy newUrl);
    cbn [negb andb app]; try reflexivity;
    destruct (dropEndSlash (text newCanonical) =? dropEndSlash (text newUrl));
    reflexivity.
Qed.

Lemma dropEndSlash_slash (u : string) : dropEndSlash (u +++ "/") = u.
Proof.
  unfold dropEndSlash.
  replace (JS.endsWith (u +++ "/") "/") with true
    by (symmetry; apply WHATWGFacts.endsWith_app; now exists u).
  apply WHATWGFacts.slice_drop_last.
Qed.

Lemma falsy_text_some (s : option string) :
  JS.falsy s = false -> text s <> "" /\ s = Some (text s).
Proof. apply SeoFacts.falsy_text. Qed.

Lemma orNull_none_iff (issues : list string) : orNull issues = None <-> issues = [].
Proof. apply SeoFacts.orNull_none. Qed.

Lemma truthy_some (s : string) : s <> "" -> JS.falsy (Some s) = false.
Proof. intros H. cbn. now apply String.eqb_neq. Qed.

(** X24. [compareCanonical] reports a match exactly when the new canonical
    URL and the page URL are both present and equal once a slash at the very
    end of each is dropped; the old canonical URL plays no part in it.  So a
    canonical URL that differs from the page URL only by a final slash
    matches.  The list of issues is [null] exactly when both canonical URLs
    are present and the new one matches or there is no page URL to compare
    it with. *)
Theorem compareCanonical_spec (oldCanonical newCanonical newUrl : option string) :
  let c := compareCanonical oldCanonical newCanonical newUrl in
  (canonical_match c = true
   <-> exists canonical url,
         newCanonical = Some canonical /\ newUrl = Some url
         /\ canonical <> "" /\ url <> ""
         /\ dropEndSlash canonical = dropEndSlash url)
  /\ (forall other,
        canonical_match (compareCanonical other newCanonical newUrl) = canonical_match c)
  /\ (forall url, url <> "" -> JS.endsWith url "/" = false ->
        canonical_match (compareCanonical oldCanonical (Some (url +++ "/")) (Some url)) = true
        /\ canonical_match (compareCanonical oldCanonical (Some url) (Some (url +++ "/"))) = true)
  /\ (canonical_issues c = None
      <-> JS.falsy oldCanonical = false /\ JS.falsy newCanonical = false
          /\ (JS.falsy newUrl = true \/ canonical_match c = true)).
Proof.
  intros c. unfold c. split; [|split; [|split]].
  - rewrite compareCanonical_match, !andb_true_iff, !negb_true_iff. split.
    + intros [[Hn Hu] He]. apply falsy_text_some in Hn, Hu.
      destruct Hn as [Hn ->], Hu as [Hu ->]. apply String.eqb_eq in He.
      cbn [text] in *. eauto 10.
    + intros (canonical & url & -> & -> & Hc & Hu & He). cbn [text].
      rewrite !truthy_some by assumption. rewrite He, String.eqb_refl. auto.
  - intros other. now rewrite !compareCanonical_match.
  - intros url Hu Hends. rewrite !compareCanonical_match. cbn [text].
    assert (Hus : url +++ "/" <> "") by (destruct url; discriminate).
    rewrite !truthy_some by assumption. cbn [negb andb].
    rewrite dropEndSlash_slash. unfold dropEndSlash. rewrite Hends.
    now rewrite String.eqb_refl.
  - rewrite compareCanonical_issues, compareCanonical_match, orNull_none_iff.
    destruct (JS.falsy oldCanonical), (JS.falsy newCanonical), (JS.falsy newUrl);
      cbn [negb andb app]; try (split; [discriminate|intros (? & ? & ?); discriminate]).
    + split; [auto|reflexivity].
    + destruct (dropEndSlash (text newCanonical) =? dropEndSlash (text newUrl)); cbn [negb].
      * split; [auto|reflexivity].
      * split; [discriminate|]. intros (_ & _ & [H|H]); discriminate.
Qed.

End ScoreFacts.
(** ** The match score and the summary *)

Module SummaryFacts.
Import SeoComparison SeoValidation.

Lemma scaled (x : Q) (k : Z) (lo hi : Q) :
  (0 <= k)%Z -> (lo <= x)%Q -> (x <= hi)%Q ->
  (lo * inject_Z k <= x * inject_Z k)%Q /\ (x * inject_Z k <= hi * inject_Z k)%Q.
Proof.
  intros Hk Hlo Hhi.
  assert (H0 : (0 <= inject_Z k)%Q) by (change 0%Q with (inject_Z 0); now rewrite <- Zle_Qle).
  split; now apply Qmult_le_compat_r.
Qed.

Lemma textPoints (lengthIssue : string) (c : Comparison) (k : Z) :
  (0 <= k)%Z -> coherent lengthIssue c ->
  let points := if match_ c then inject_Z k else (similarity c * inject_Z k)%Q in
  (0 <= points)%Q /\ (points <= inject_Z k)%Q
  /\ (match_ c = false -> (points <= (8 # 10) * inject_Z k)%Q)
  /\ (match_ c = true -> points = inject_Z k).
Proof.
  intros Hk (H0 & H1 & _ & _ & H8) points. unfold points.
  assert (Hq : (0 <= inject_Z k)%Q) by (change 0%Q with (inject_Z 0); now rewrite <- Zle_Qle).
  destruct (match_ c).
  - repeat split; try discriminate; [exact Hq|apply Qle_refl].
  - destruct (scaled (similarity c) k 0 1 Hk H0 H1) as [A B].
    destruct (scaled (similarity c) k 0 (8 # 10) Hk H0 (H8 eq_refl)) as [_ C].
    rewrite Qmult_0_l in A. rewrite Qmult_1_l in B.
    repeat split; try discriminate; auto.
Qed.

Lemma h1Points_range (oldH1 newH1 : option (list string)) :
  let c := compareH1Tags oldH1 newH1 in
  (0 <= h1Points c)%Q /\ (h1Points c <= 25)%Q
  /\ (h1_match c = false -> (h1Points c <= 20)%Q)
  /\ (h1_match c = true -> h1Points c = 25%Q).
Proof.
  intros c. destruct (SeoFacts.compareH1Tags_facts oldH1 newH1) as (_ & _ & _ & _ & H0 & H1 & H8).
  fold c in H0, H1, H8. unfold h1Points.
  destruct (h1_match c); [repeat split; discriminate|].
  destruct (oldValid c), (newValid c); cbn [andb orb];
    try (repeat split; discriminate).
  destruct (scaled (h1_similarity c) 25 0 (8 # 10) ltac:(lia) H0 (H8 eq_refl eq_refl eq_refl))
    as [A B].
  rewrite Qmult_0_l in A. change (inject_Z 25) with 25%Q in *.
  repeat split; try discriminate; auto.
  - apply Qle_trans with (1 := B). discriminate.
  - intros _. apply Qle_trans with (1 := B). discriminate.
Qed.

Lemma canonicalPoints_range (c : CanonicalComparison) :
  (0 <= canonicalPoints c)%Q /\ (canonicalPoints c <= 20)%Q
  /\ (canonical_match c = false -> canonicalPoints c = 0%Q)
  /\ (canonical_match c = true -> canonicalPoints c = 20%Q).
Proof. unfold canonicalPoints. destruct (canonical_match c); repeat split; discriminate. Qed.

Lemma calculateMatchScore_sum (comparison : Comparisons) :
  calculateMatchScore comparison
  = JS.roundHalfUp ((0 + titlePoints (title comparison) + descriptionPoints (description comparison)
                     + h1Points (h1 comparison) + canonicalPoints (canonical comparison))
                    / (0 + 30 + 25 + 25 + 20) * 100).
Proof. reflexivity. Qed.

Lemma score_value (t d h c : Q) :
  ((0 + t + d + h + c) / (0 + 30 + 25 + 25 + 20) * 100 == t + d + h + c)%Q.
Proof. field. Qed.

Lemma roundHalfUp_comp (x y : Q) : (x == y)%Q -> JS.roundHalfUp x = JS.roundHalfUp y.
Proof.
  intros H. unfold JS.roundHalfUp. apply Qfloor_comp. now rewrite H.
Qed.

(** The score of the comparisons [compareSEOData] makes. *)
Lemma score_facts (oldSEO newSEO : SEOData) (newUrl : option string) :
  let c := compared (compareSEOData oldSEO newSEO newUrl) in
  let score := matchScore (compareSEOData oldSEO newSEO newUrl) in
  (0 <= score <= 100)%Z
  /\ (score = 100%Z
      <-> match_ (title c) = true /\ match_ (description c) = true
          /\ h1_match (h1 c) = true /\ canonical_match (canonical c) = true)
  /\ (canonical_match (canonical c) = false -> (score <= 80)%Z).
Proof.
  unfold compareSEOData. cbv zeta. cbn [compared matchScore].
  rewrite calculateMatchScore_sum.
  cbn [title description h1 canonical].
  set (t := compareTitles _ _). set (d := compareDescriptions _ _).
  set (h := compareH1Tags _ _). set (cn := compareCanonical _ _ _).
  rewrite (roundHalfUp_comp _ _ (score_value _ _ _ _)).
  assert (HT : (0 <= titlePoints t)%Q /\ (titlePoints t <= 30)%Q
               /\ (match_ t = false -> (titlePoints t <= (8 # 10) * 30)%Q)
               /\ (match_ t = true -> titlePoints t = 30%Q))
    by exact (textPoints _ t 30 ltac:(lia) (SeoFacts.compareTitles_coherent _ _)).
  assert (HD : (0 <= descriptionPoints d)%Q /\ (descriptionPoints d <= 25)%Q
               /\ (match_ d = false -> (descriptionPoints d <= (8 # 10) * 25)%Q)
               /\ (match_ d = true -> descriptionPoints d = 25%Q))
    by exact (textPoints _ d 25 ltac:(lia) (SeoFacts.compareDescriptions_coherent _ _)).
  destruct HT as (T0 & T1 & T8 & Tm). destruct HD as (D0 & D1 & D8 & Dm).
  destruct (h1Points_range (seo_h1 oldSEO) (seo_h1 newSEO)) as (H0 & H1 & H8 & Hm).
  destruct (canonicalPoints_range cn) as (C0 & C1 & C8 & Cm).
  fold h in H0, H1, H8, Hm.
  set (tp := titlePoints t) in *. set (dp := descriptionPoints d) in *.
  set (hp := h1Points h) in *. set (cp := canonicalPoints cn) in *.
  assert (Hsum0 : (inject_Z 0 <= tp + dp + hp + cp)%Q).
  { apply Qle_trans with (0 + 0 + 0 + 0)%Q; [discriminate|].
    repeat apply Qplus_le_compat; assumption. }
  assert (Hsum1 : (tp + dp + hp + cp <= inject_Z 100)%Q).
  { apply Qle_trans with (30 + 25 + 25 + 20)%Q; [|discriminate].
    repeat apply Qplus_le_compat; assumption. }
  split; [now apply RoundFacts.roundHalfUp_between|]. split.
  - split.
    + intros Hs.
      assert (Hnot : forall q x, (tp + dp + hp + cp <= q)%Q -> (q <= inject_Z x)%Q ->
                              (x < 100)%Z -> False).
      { intros q x Hq Hx Hlt.
        pose proof (RoundFacts.roundHalfUp_between _ 0 x Hsum0 (Qle_trans _ _ _ Hq Hx)). lia. }
      destruct (match_ t) eqn:Et.
      2:{ exfalso. apply (Hnot ((8 # 10) * 30 + 25 + 25 + 20)%Q 94%Z); [|discriminate|lia].
          repeat apply Qplus_le_compat; auto. }
      destruct (match_ d) eqn:Ed.
      2:{ exfalso. apply (Hnot (30 + (8 # 10) * 25 + 25 + 20)%Q 95%Z); [|discriminate|lia].
          repeat apply Qplus_le_compat; auto. }
      destruct (h1_match h) eqn:Eh.
      2:{ exfalso. apply (Hnot (30 + 25 + 20 + 20)%Q 95%Z); [|discriminate|lia].
          repeat apply Qplus_le_compat; auto. }
      destruct (canonical_match cn) eqn:Ec; [auto|].
      exfalso. apply (Hnot (30 + 25 + 25 + 0)%Q 80%Z); [|discriminate|lia].
      repeat apply Qplus_le_compat; auto. rewrite (C8 eq_refl). apply Qle_refl.
    + intros (Et & Ed & Eh & Ec).
      rewrite (Tm Et), (Dm Ed), (Hm Eh), (Cm Ec). reflexivity.
  - intros Ec.
    assert (Hx : (tp + dp + hp + cp <= inject_Z 80)%Q).
    { apply Qle_trans with (30 + 25 + 25 + 0)%Q; [|discriminate].
      repeat apply Qplus_le_compat; auto. rewrite (C8 Ec). apply Qle_refl. }
    apply (RoundFacts.roundHalfUp_between _ 0 80 Hsum0 Hx).
Qed.

Lemma severity_facts (oldSEO newSEO : SEOData) (newUrl : option string) :
  let r := compareSEOData oldSEO newSEO newUrl in
  (severity r = "none" <-> (90 <= matchScore r)%Z)
  /\ (severity r = "minor" <-> (75 <= matchScore r < 90)%Z)
  /\ (severity r = "moderate" <-> (50 <= matchScore r < 75)%Z)
  /\ (severity r = "major" <-> (matchScore r < 50)%Z).
Proof.
  unfold compareSEOData. cbv zeta. cbn [severity matchScore].
  match goal with
  | |- context [calculateMatchScore ?c] => generalize (calculateMatchScore c) as score
  end.
  intros score.
  destruct (Z.leb_spec 90 score), (Z.leb_spec 75 score), (Z.leb_spec 50 score);
    repeat split; intros; try discriminate; try reflexivity; try lia.
Qed.

(** X25. The score [compareSEOData] gives lies between 0 and 100.  It is 100
    exactly when title, description, H1 and canonical URL all match, and at
    most 80 when the canonical URL does not.  The severity is [none] from 90
    up, [minor] from 75, [moderate] from 50 and [major] below, so a page
    whose canonical URL does not match is never rated [none]. *)
Theorem compareSEOData_score (oldSEO newSEO : SEOData) (newUrl : option string) :
  let r := compareSEOData oldSEO newSEO newUrl in
  let c := compared r in
  (0 <= matchScore r <= 100)%Z
  /\ (matchScore r = 100%Z
      <-> match_ (title c) = true /\ match_ (description c) = true
          /\ h1_match (h1 c) = true /\ canonical_match (canonical c) = true)
  /\ (canonical_match (canonical c) = false -> (matchScore r <= 80)%Z)
  /\ (severity r = "none" <-> (90 <= matchScore r)%Z)
  /\ (severity r = "minor" <-> (75 <= matchScore r < 90)%Z)
  /\ (severity r = "moderate" <-> (50 <= matchScore r < 75)%Z)
  /\ (severity r = "major" <-> (matchScore r < 50)%Z)
  /\ (canonical_match (canonical c) = false -> severity r <> "none").
Proof.
  intros r c.
  destruct (score_facts oldSEO newSEO newUrl) as (H1 & H2 & H3).
  destruct (severity_facts oldSEO newSEO newUrl) as (S1 & S2 & S3 & S4).
  fold r in H1, H2, H3, S1, S2, S3, S4. fold c in H2, H3.
  repeat (split; [assumption|]).
  intros Hc Hs. apply S1 in Hs. specialize (H3 Hc). lia.
Qed.

End SummaryFacts.
(** ** [generateSummary] *)

Module TallyFacts.
Import SeoComparison SeoValidation SeoBatch.

Lemma howMany_cons {A} (f : A -> bool) (x : A) (l : list A) :
  howMany f (x :: l) = ((if f x then 1 else 0) + howMany f l)%nat.
Proof. unfold howMany. cbn [filter]. destruct (f x); reflexivity. Qed.

Lemma howMany_ext {A} (f g : A -> bool) (l : list A) :
  (forall x, In x l -> f x = g x) -> howMany f l = howMany g l.
Proof.
  intros H. induction l as [|x l IH]; [reflexivity|].
  rewrite !howMany_cons, (H x (or_introl eq_refl)), IH; [reflexivity|].
  intros y Hy. apply H. now right.
Qed.

Lemma howMany_map {A B} (f : B -> bool) (g : A -> B) (l : list A) :
  howMany f (map g l) = howMany (fun x => f (g x)) l.
Proof.
  induction l as [|x l IH]; [reflexivity|]. cbn [map]. now rewrite !howMany_cons, IH.
Qed.

Lemma tallyStep_counts (t : Tally) (comp : SEOResult) :
  let t' := tallyStep t comp in
  t_perfect t' = ((if isPerfect comp then 1 else 0) + t_perfect t)%nat
  /\ t_minor t' = ((if rated "minor" comp then 1 else 0) + t_minor t)%nat
  /\ t_moderate t' = ((if rated "moderate" comp then 1 else 0) + t_moderate t)%nat
  /\ t_major t' = ((if rated "major" comp then 1 else 0) + t_major t)%nat
  /\ t_totalScore t' = (t_totalScore t + matchScore comp)%Z.
Proof.
  unfold tallyStep, rated, isPerfect. cbv zeta.
  destruct (95 <=? matchScore comp)%Z; cbn [negb andb]; [cbn; repeat split; reflexivity|].
  destruct (String.eqb_spec (severity comp) "minor") as [E|_].
  - rewrite E. cbn. repeat split; reflexivity.
  - destruct (String.eqb_spec (severity comp) "moderate") as [E|_].
    + rewrite E. cbn. repeat split; reflexivity.
    + destruct (String.eqb_spec (severity comp) "major") as [E|_];
        cbn; repeat split; reflexivity.
Qed.

Lemma tallyStep_issues (t : Tally) (comp : SEOResult) :
  t_counts (tallyStep t comp)
  = {| missingTitles :=
         bump (mentions "missing" (issue (title (compared comp)))) (missingTitles (t_counts t));
       missingDescriptions :=
         bump (mentions "missing" (issue (description (compared comp))))
              (missingDescriptions (t_counts t));
       missingH1s :=
         bump (someMention "Missing" (h1_issues (h1 (compared comp))))
              (missingH1s (t_counts t));
       multipleH1s :=
         bump (someMention "Multiple" (h1_issues (h1 (compared comp))))
              (multipleH1s (t_counts t));
       canonicalMismatches :=
         bump (someMention "Canonical" (canonical_issues (canonical (compared comp))))
              (canonicalMismatches (t_counts t)) |}.
Proof.
  unfold tallyStep. cbv zeta.
  destruct (95 <=? matchScore comp)%Z; [reflexivity|].
  destruct (severity comp =? "minor"); [reflexivity|].
  destruct (severity comp =? "moderate"); [reflexivity|].
  destruct (severity comp =? "major"); reflexivity.
Qed.

Lemma bump_count (b : bool) (n : nat) : bump b n = ((if b then 1 else 0) + n)%nat.
Proof. destruct b; reflexivity. Qed.

Lemma tallyLoop (comparisons : list SEOResult) :
  forall t,
    let t' := fold_left tallyStep comparisons t in
    t_perfect t' = (t_perfect t + howMany isPerfect comparisons)%nat
    /\ t_minor t' = (t_minor t + howMany (rated "minor") comparisons)%nat
    /\ t_moderate t' = (t_moderate t + howMany (rated "moderate") comparisons)%nat
    /\ t_major t' = (t_major t + howMany (rated "major") comparisons)%nat
    /\ t_totalScore t' = (t_totalScore t + fold_right Z.add 0 (map matchScore comparisons))%Z
    /\ missingTitles (t_counts t')
       = (missingTitles (t_counts t)
          + howMany (fun c => mentions "missing" (issue (title (compared c)))) comparisons)%nat
    /\ missingDescriptions (t_counts t')
       = (missingDescriptions (t_counts t)
          + howMany (fun c => mentions "missing" (issue (description (compared c))))
                    comparisons)%nat
    /\ missingH1s (t_counts t')
       = (missingH1s (t_counts t)
          + howMany (fun c => someMention "Missing" (h1_issues (h1 (compared c))))
                    comparisons)%nat
    /\ multipleH1s (t_counts t')
       = (multipleH1s (t_counts t)
          + howMany (fun c => someMention "Multiple" (h1_issues (h1 (compared c))))
                    comparisons)%nat
    /\ canonicalMismatches (t_counts t')
       = (canonicalMismatches (t_counts t)
          + howMany (fun c => someMention "Canonical"
                                (canonical_issues (canonical (compared c))))
                    comparisons)%nat.
Proof.
  induction comparisons as [|comp rest IH]; intros t; cbv zeta.
  - unfold howMany. cbn. repeat split; lia.
  - cbn [fold_left map fold_right]. rewrite !howMany_cons.
    destruct (IH (tallyStep t comp)) as (H1 & H2 & H3 & H4 & H5 & H6 & H7 & H8 & H9 & H10).
    cbv zeta in *. rewrite H1, H2, H3, H4, H5, H6, H7, H8, H9, H10.
    destruct (tallyStep_counts t comp) as (S1 & S2 & S3 & S4 & S5). cbv zeta in *.
    rewrite S1, S2, S3, S4, S5, tallyStep_issues.
    cbn [missingTitles missingDescriptions missingH1s multipleH1s canonicalMismatches].
    rewrite !bump_count. repeat split; lia.
Qed.


Lemma mentions_title (oldTitle newTitle : option string) :
  mentions "missing" (issue (compareTitles oldTitle newTitle))
  = xorb (JS.falsy oldTitle) (JS.falsy newTitle).
Proof.
  unfold compareTitles.
  destruct (JS.falsy oldTitle), (JS.falsy newTitle); cbn [andb xorb]; try reflexivity.
  cbn [issue].
  destruct (JS.Qltb _ (1 # 2)); [reflexivity|].
  destruct (20 <? _)%Z; [reflexivity|].
  destruct (JS.Qltb _ (8 # 10)); reflexivity.
Qed.

Lemma mentions_description (oldDesc newDesc : option string) :
  mentions "missing" (issue (compareDescriptions oldDesc newDesc))
  = xorb (JS.falsy oldDesc) (JS.falsy newDesc).
Proof.
  unfold compareDescriptions.
  destruct (JS.falsy oldDesc), (JS.falsy newDesc); cbn [andb xorb]; try reflexivity.
  cbn [issue].
  destruct (JS.Qltb _ (1 # 2)); [reflexivity|].
  destruct (30 <? _)%Z; [reflexivity|].
  destruct (JS.Qltb _ (8 # 10)); reflexivity.
Qed.

Lemma mentions_canonical (oldCanonical newCanonical newUrl : option string) :
  someMention "Canonical"
    (canonical_issues (compareCanonical oldCanonical newCanonical newUrl))
  = negb (JS.falsy newCanonical) && negb (JS.falsy newUrl)
    && negb (dropEndSlash (text newCanonical) =? dropEndSlash (text newUrl)).
Proof.
  rewrite ScoreFacts.compareCanonical_issues.
  destruct (JS.falsy oldCanonical), (JS.falsy newCanonical), (JS.falsy newUrl);
    cbn [negb andb app]; try reflexivity;
    destruct (dropEndSlash (text newCanonical) =? dropEndSlash (text newUrl)); reflexivity.
Qed.

Lemma digits_of_uint (d : Decimal.uint) :
  JS.allChars JS.isAsciiDigit (NilEmpty.string_of_uint d) = true.
Proof. induction d; cbn; auto. Qed.

Lemma decimal_digits (n : N) : JS.allChars JS.isAsciiDigit (JS.decimal n) = true.
Proof. apply digits_of_uint. Qed.

Lemma includes_cons (c : ascii) (s sub : string) :
  includes (String c s) sub = JS.startsWith (String c s) sub || includes s sub.
Proof. reflexivity. Qed.

(** No digit and no bracket starts the word [Missing]. *)
Lemma no_Missing (digits : string) :
  JS.allChars JS.isAsciiDigit digits = true -> includes (digits +++ ")") "Missing" = false.
Proof.
  induction digits as [|c digits IH]; intros H; [reflexivity|].
  cbn [JS.allChars] in H. apply andb_true_iff in H. destruct H as [Hc H].
  cbn [append]. rewrite includes_cons, (IH H), orb_false_r.
  cbn [JS.startsWith]. replace (Ascii.eqb "M" c) with false; [reflexivity|].
  symmetry. apply Ascii.eqb_neq. intros <-. discriminate.
Qed.

Lemma several_issue (label : string) (n : N) :
  label = "Old: " \/ label = "New: " ->
  let issue := label +++ "Multiple H1 tags found (" +++ JS.decimal n +++ ")" in
  includes issue "Missing" = false /\ includes issue "Multiple" = true.
Proof.
  intros [-> | ->]; cbv zeta; split.
  - cbn [append]. rewrite !includes_cons. cbn [JS.startsWith Ascii.eqb Bool.eqb andb orb].
    apply no_Missing, decimal_digits.
  - reflexivity.
  - cbn [append]. rewrite !includes_cons. cbn [JS.startsWith Ascii.eqb Bool.eqb andb orb].
    apply no_Missing, decimal_digits.
  - reflexivity.
Qed.


Lemma h1_words (oldH1 newH1 : option (list string)) :
  someMention "Missing" (h1_issues (compareH1Tags oldH1 newH1)) = lacksH1 oldH1 || lacksH1 newH1
  /\ someMention "Multiple" (h1_issues (compareH1Tags oldH1 newH1))
     = severalH1 oldH1 || severalH1 newH1.
Proof.
  unfold compareH1Tags. cbn [h1_issues].
  assert (Hlack : forall h, lacksH1 h = true ->
                    h1_issue (validateH1 h) = Some "Missing H1 tag").
  { intros [[|? ?]|]; cbn; try discriminate; reflexivity. }
  assert (Hone : forall h, lacksH1 h = false -> severalH1 h = false ->
                   h1_issue (validateH1 h) = None).
  { intros [[|? [|? ?]]|]; cbn; try discriminate; reflexivity. }
  assert (Hmany : forall h, severalH1 h = true ->
                    lacksH1 h = false
                    /\ exists n, h1_issue (validateH1 h)
                                 = Some ("Multiple H1 tags found (" +++ JS.decimal n +++ ")")).
  { intros [[|? [|? ?]]|]; cbn [severalH1 lacksH1]; try discriminate.
    intros _. split; [reflexivity|]. eexists. reflexivity. }
  destruct (lacksH1 oldH1) eqn:Lo, (lacksH1 newH1) eqn:Ln.
  - rewrite (Hlack _ Lo), (Hlack _ Ln).
    assert (So : severalH1 oldH1 = false) by (destruct oldH1 as [[|? [|? ?]]|]; cbn in *; congruence).
    assert (Sn : severalH1 newH1 = false) by (destruct newH1 as [[|? [|? ?]]|]; cbn in *; congruence).
    rewrite So, Sn. split; reflexivity.
  - rewrite (Hlack _ Lo).
    assert (So : severalH1 oldH1 = false) by (destruct oldH1 as [[|? [|? ?]]|]; cbn in *; congruence).
    rewrite So. destruct (severalH1 newH1) eqn:Sn.
    + destruct (Hmany _ Sn) as [_ [n ->]].
      destruct (several_issue "New: " n (or_intror eq_refl)) as [A B]. cbv zeta in A, B.
      cbn [pushIssue String.eqb Ascii.eqb Bool.eqb append app orNull someMention existsb] in *.
      rewrite A, B. split; reflexivity.
    + rewrite (Hone _ Ln Sn). split; reflexivity.
  - rewrite (Hlack _ Ln).
    assert (Sn : severalH1 newH1 = false) by (destruct newH1 as [[|? [|? ?]]|]; cbn in *; congruence).
    rewrite Sn. destruct (severalH1 oldH1) eqn:So.
    + destruct (Hmany _ So) as [_ [n ->]].
      destruct (several_issue "Old: " n (or_introl eq_refl)) as [A B]. cbv zeta in A, B.
      cbn [pushIssue String.eqb Ascii.eqb Bool.eqb append app orNull someMention existsb] in *.
      rewrite A, B. split; reflexivity.
    + rewrite (Hone _ Lo So). split; reflexivity.
  - destruct (severalH1 oldH1) eqn:So, (severalH1 newH1) eqn:Sn.
    + destruct (Hmany _ So) as [_ [n ->]]. destruct (Hmany _ Sn) as [_ [m ->]].
      destruct (several_issue "Old: " n (or_introl eq_refl)) as [A B].
      destruct (several_issue "New: " m (or_intror eq_refl)) as [A' B']. cbv zeta in A, B, A', B'.
      cbn [pushIssue String.eqb Ascii.eqb Bool.eqb append app orNull someMention existsb] in *.
      rewrite A, B, A', B'. split; reflexivity.
    + destruct (Hmany _ So) as [_ [n ->]]. rewrite (Hone _ Ln Sn).
      destruct (several_issue "Old: " n (or_introl eq_refl)) as [A B]. cbv zeta in A, B.
      cbn [pushIssue String.eqb Ascii.eqb Bool.eqb append app orNull someMention existsb] in *.
      rewrite A, B. split; reflexivity.
    + destruct (Hmany _ Sn) as [_ [n ->]]. rewrite (Hone _ Lo So).
      destruct (several_issue "New: " n (or_intror eq_refl)) as [A B]. cbv zeta in A, B.
      cbn [pushIssue String.eqb Ascii.eqb Bool.eqb append app orNull someMention existsb] in *.
      rewrite A, B. split; reflexivity.
    + rewrite (Hone _ Lo So), (Hone _ Ln Sn). split; reflexivity.
Qed.


Lemma rated_range (r : SEOResult) (word : string) (lo hi : Z) :
  (hi <= 95)%Z ->
  (severity r = word <-> (lo <= matchScore r < hi)%Z) ->
  rated word r = (lo <=? matchScore r)%Z && (matchScore r <? hi)%Z.
Proof.
  intros Hhi Hs. apply Bool.eq_true_iff_eq. unfold rated, isPerfect.
  rewrite !andb_true_iff, negb_true_iff, Z.leb_gt, Z.leb_le, Z.ltb_lt, String.eqb_eq, Hs.
  lia.
Qed.

Lemma comparisonsOf_scores (pages : list Pages) :
  Forall (fun c => (0 <= matchScore c <= 100)%Z
                   /\ isPerfect c = (95 <=? matchScore c)%Z && (matchScore c <? 101)%Z
                   /\ rated "minor" c = (75 <=? matchScore c)%Z && (matchScore c <? 90)%Z
                   /\ rated "moderate" c = (50 <=? matchScore c)%Z && (matchScore c <? 75)%Z
                   /\ rated "major" c = (0 <=? matchScore c)%Z && (matchScore c <? 50)%Z)
         (comparisonsOf pages).
Proof.
  apply Forall_forall. intros c [p [<- _]]%in_map_iff.
  destruct (SummaryFacts.score_facts (oldSEO p) (newSEO p) (pageUrl p)) as (Hs & _).
  destruct (SummaryFacts.severity_facts (oldSEO p) (newSEO p) (pageUrl p))
    as (_ & S2 & S3 & S4).
  cbv zeta in *. set (r := compareSEOData _ _ _) in *.
  split; [exact Hs|]. split; [|split; [|split]].
  - unfold isPerfect. replace (matchScore r <? 101)%Z with true; [now rewrite andb_true_r|].
    symmetry. apply Z.ltb_lt. lia.
  - now apply rated_range.
  - now apply rated_range.
  - apply rated_range; [lia|]. rewrite S4. lia.
Qed.

Lemma one_range (s : Z) :
  (0 <= s <= 100)%Z ->
  ((if (95 <=? s)%Z && (s <? 101)%Z then 1 else 0)
   + (if (75 <=? s)%Z && (s <? 90)%Z then 1 else 0)
   + (if (50 <=? s)%Z && (s <? 75)%Z then 1 else 0)
   + (if (0 <=? s)%Z && (s <? 50)%Z then 1 else 0)
   + (if (90 <=? s)%Z && (s <? 95)%Z then 1 else 0))%nat = 1%nat.
Proof.
  intros Hs.
  destruct (Z.leb_spec 95 s); [|destruct (Z.leb_spec 90 s); [|destruct (Z.leb_spec 75 s);
    [|destruct (Z.leb_spec 50 s)]]];
    repeat match goal with
           | |- context [(?a <=? s)%Z] =>
               first [replace (a <=? s)%Z with true by (symmetry; apply Z.leb_le; lia)
                     |replace (a <=? s)%Z with false by (symmetry; apply Z.leb_gt; lia)]
           | |- context [(s <? ?a)%Z] =>
               first [replace (s <? a)%Z with true by (symmetry; apply Z.ltb_lt; lia)
                     |replace (s <? a)%Z with false by (symmetry; apply Z.ltb_ge; lia)]
           end; reflexivity.
Qed.

Lemma five_ranges (comparisons : list SEOResult) :
  Forall (fun c => (0 <= matchScore c <= 100)%Z) comparisons ->
  (scored 95 101 comparisons + scored 75 90 comparisons + scored 50 75 comparisons
   + scored 0 50 comparisons + scored 90 95 comparisons)%nat = List.length comparisons.
Proof.
  unfold scored. induction 1 as [|c rest Hc _ IH]; [reflexivity|].
  rewrite !howMany_cons. cbn [List.length]. rewrite <- IH.
  pose proof (one_range (matchScore c) Hc). lia.
Qed.

Lemma scores_between (comparisons : list SEOResult) (lo hi : Z) :
  Forall (fun c => (lo <= matchScore c <= hi)%Z) comparisons ->
  (lo * Z.of_nat (List.length comparisons) <= fold_right Z.add 0 (map matchScore comparisons))%Z
  /\ (fold_right Z.add 0 (map matchScore comparisons)
      <= hi * Z.of_nat (List.length comparisons))%Z.
Proof.
  induction 1 as [|c rest Hc _ IH]; cbn [map fold_right List.length]; lia.
Qed.

Lemma generateSummary_tally (comparisons : list SEOResult) :
  comparisons <> [] ->
  let s := generateSummary (Some comparisons) in
  totalCompared s = List.length comparisons
  /\ perfectMatches s = howMany isPerfect comparisons
  /\ minorIssues s = howMany (rated "minor") comparisons
  /\ moderateIssues s = howMany (rated "moderate") comparisons
  /\ majorIssues s = howMany (rated "major") comparisons
  /\ avgMatchScore s
     = JS.roundHalfUp (inject_Z (fold_right Z.add 0%Z (map matchScore comparisons))
                       / inject_Z (Z.of_nat (List.length comparisons)))
  /\ issueCounts s
     = Some {| missingTitles :=
                 howMany (fun c => mentions "missing" (issue (title (compared c)))) comparisons;
               missingDescriptions :=
                 howMany (fun c => mentions "missing" (issue (description (compared c))))
                         comparisons;
               missingH1s :=
                 howMany (fun c => someMention "Missing" (h1_issues (h1 (compared c))))
                         comparisons;
               multipleH1s :=
                 howMany (fun c => someMention "Multiple" (h1_issues (h1 (compared c))))
                         comparisons;
               canonicalMismatches :=
                 howMany (fun c => someMention "Canonical"
                                     (canonical_issues (canonical (compared c))))
                         comparisons |}.
Proof.
  intros Hne. destruct comparisons as [|c rest]; [congruence|].
  unfold generateSummary. cbv zeta.
  match goal with
  | |- context [fold_left tallyStep ?l ?t0] =>
      destruct (tallyLoop l t0) as (H1 & H2 & H3 & H4 & H5 & H6 & H7 & H8 & H9 & H10)
  end.
  cbv zeta in *.
  cbn [totalCompared perfectMatches minorIssues moderateIssues majorIssues avgMatchScore
         issueCounts].
  rewrite H1, H2, H3, H4, H5.
  cbn [t_perfect t_minor t_moderate t_major t_totalScore t_counts missingTitles
         missingDescriptions missingH1s multipleH1s canonicalMismatches] in *.
  rewrite Z.add_0_l. repeat split.
  destruct (t_counts _) as [a b c' d e]. cbn in H6, H7, H8, H9, H10.
  now rewrite H6, H7, H8, H9, H10.
Qed.

Lemma buckets_of (cs : list SEOResult) :
  cs <> [] ->
  Forall (fun c => (0 <= matchScore c <= 100)%Z
                   /\ isPerfect c = (95 <=? matchScore c)%Z && (matchScore c <? 101)%Z
                   /\ rated "minor" c = (75 <=? matchScore c)%Z && (matchScore c <? 90)%Z
                   /\ rated "moderate" c = (50 <=? matchScore c)%Z && (matchScore c <? 75)%Z
                   /\ rated "major" c = (0 <=? matchScore c)%Z && (matchScore c <? 50)%Z) cs ->
  let s := generateSummary (Some cs) in
  totalCompared s = List.length cs
  /\ perfectMatches s = scored 95 101 cs
  /\ minorIssues s = scored 75 90 cs
  /\ moderateIssues s = scored 50 75 cs
  /\ majorIssues s = scored 0 50 cs
  /\ (perfectMatches s + minorIssues s + moderateIssues s + majorIssues s
      + scored 90 95 cs)%nat = totalCompared s
  /\ (0 <= avgMatchScore s <= 100)%Z.
Proof.
  intros Hne Hall s.
  destruct (generateSummary_tally cs Hne) as (H1 & H2 & H3 & H4 & H5 & H6 & _).
  fold s in H1, H2, H3, H4, H5, H6. clearbody s.
  assert (Hrange : Forall (fun c => (0 <= matchScore c <= 100)%Z) cs)
    by (eapply Forall_impl; [|exact Hall]; intros c Hc; apply Hc).
  rewrite Forall_forall in Hall.
  assert (E1 : howMany isPerfect cs = scored 95 101 cs)
    by (apply howMany_ext; intros c Hc; apply (Hall c Hc)).
  assert (E2 : howMany (rated "minor") cs = scored 75 90 cs)
    by (apply howMany_ext; intros c Hc; apply (Hall c Hc)).
  assert (E3 : howMany (rated "moderate") cs = scored 50 75 cs)
    by (apply howMany_ext; intros c Hc; apply (Hall c Hc)).
  assert (E4 : howMany (rated "major") cs = scored 0 50 cs)
    by (apply howMany_ext; intros c Hc; apply (Hall c Hc)).
  pose proof (five_ranges cs Hrange) as Hfive.
  destruct (scores_between cs 0 100 Hrange) as [Hlo Hhi].
  assert (Hpos : (0 < List.length cs)%nat) by (destruct cs; [congruence|cbn; lia]).
  destruct (RoundFacts.mean_between _ 0 100 (List.length cs) Hpos Hlo Hhi) as [Mlo Mhi].
  pose proof (RoundFacts.roundHalfUp_between _ 0 100 Mlo Mhi) as Havg.
  rewrite H1, H2, H3, H4, H5, H6, E1, E2, E3, E4.
  repeat split; try reflexivity; try assumption; apply Havg.
Qed.

(** X26. In the summary of a batch of page comparisons, [perfectMatches]
    counts the scores from 95, [minorIssues] those from 75 to 89,
    [moderateIssues] those from 50 to 74 and [majorIssues] those below 50;
    a comparison that scores 90 to 94 is counted in none of the four, so
    they add up to [totalCompared] less the number of those.  The average
    score lies between 0 and 100, and an empty batch gives all zeros. *)
Theorem generateSummary_buckets (pages : list Pages) :
  let comparisons := comparisonsOf pages in
  let s := generateSummary (Some comparisons) in
  totalCompared s = List.length comparisons
  /\ List.length comparisons = List.length pages
  /\ perfectMatches s = scored 95 101 comparisons
  /\ minorIssues s = scored 75 90 comparisons
  /\ moderateIssues s = scored 50 75 comparisons
  /\ majorIssues s = scored 0 50 comparisons
  /\ (perfectMatches s + minorIssues s + moderateIssues s + majorIssues s
      + scored 90 95 comparisons)%nat = totalCompared s
  /\ (0 <= avgMatchScore s <= 100)%Z
  /\ (pages = [] -> avgMatchScore s = 0%Z /\ issueCounts s = None).
Proof.
  intros comparisons s.
  assert (Hlen : List.length comparisons = List.length pages) by apply length_map.
  destruct pages as [|p pages].
  - repeat split; reflexivity || (cbn; lia).
  - assert (Hne : comparisons <> []) by discriminate.
    pose proof (comparisonsOf_scores (p :: pages)) as Hall. fold comparisons in Hall.
    clearbody comparisons.
    destruct (buckets_of comparisons Hne Hall) as (B1 & B2 & B3 & B4 & B5 & B6 & B7).
    fold s in B1, B2, B3, B4, B5, B6, B7. clearbody s.
    split; [exact B1|]. split; [exact Hlen|]. split; [exact B2|]. split; [exact B3|].
    split; [exact B4|]. split; [exact B5|]. split; [exact B6|]. split; [exact B7|].
    intros Hnil. discriminate Hnil.
Qed.

(** X27. For a batch that is not empty the summary also counts issues:
    [missingTitles] and [missingDescriptions] the pages where the text is
    there on one side only (not those where it is missing on both),
    [missingH1s] the pages where either side has no H1, [multipleH1s] those
    where either side has several, and [canonicalMismatches] those whose new
    canonical URL and page URL are both there and differ.  A missing
    canonical tag is not counted. *)
Theorem generateSummary_issues (page : Pages) (pages : list Pages) :
  issueCounts (generateSummary (Some (comparisonsOf (page :: pages))))
  = Some {| missingTitles :=
              howMany (fun p => xorb (JS.falsy (seo_title (oldSEO p)))
                                     (JS.falsy (seo_title (newSEO p)))) (page :: pages);
            missingDescriptions :=
              howMany (fun p => xorb (JS.falsy (seo_description (oldSEO p)))
                                     (JS.falsy (seo_description (newSEO p)))) (page :: pages);
            missingH1s :=
              howMany (fun p => lacksH1 (seo_h1 (oldSEO p)) || lacksH1 (seo_h1 (newSEO p)))
                      (page :: pages);
            multipleH1s :=
              howMany (fun p => severalH1 (seo_h1 (oldSEO p)) || severalH1 (seo_h1 (newSEO p)))
                      (page :: pages);
            canonicalMismatches := howMany canonicalDiffers (page :: pages) |}.
Proof.
  set (cs := comparisonsOf (page :: pages)).
  assert (Hne : cs <> []) by discriminate.
  destruct (generateSummary_tally cs Hne) as (_ & _ & _ & _ & _ & _ & ->).
  unfold cs, comparisonsOf. rewrite !howMany_map. f_equal. f_equal.
  - apply howMany_ext. intros p _. apply mentions_title.
  - apply howMany_ext. intros p _. apply mentions_description.
  - apply howMany_ext. intros p _. apply h1_words.
  - apply howMany_ext. intros p _. apply h1_words.
  - apply howMany_ext. intros p _. apply mentions_canonical.
Qed.

End TallyFacts.
(** ** The URLs picked for testing *)

Module ProcessingFacts.
Import Processing.

Lemma addByTraffic_picked (candidates : list MatchEntry) (sortedGSC : list GscEntry) :
  forall urlsToTest urlPaths,
    picked candidates urlsToTest urlPaths ->
    (List.length urlsToTest <= maxUrls)%nat ->
    let result := addByTraffic candidates sortedGSC urlsToTest urlPaths in
    incl result candidates /\ NoDup (map oldUrl result)
    /\ (List.length result <= maxUrls)%nat
    /\ exists added, result = urlsToTest ++ added.
Proof.
  induction sortedGSC as [|gscEntry rest IH]; intros urlsToTest urlPaths Hp Hlen; cbv zeta;
    cbn [addByTraffic].
  - destruct Hp as (Hi & Hn & _). repeat split; auto. exists []. now rewrite app_nil_r.
  - destruct (Nat.leb_spec maxUrls (List.length urlsToTest)) as [Hfull|Hroom].
    + destruct Hp as (Hi & Hn & _). repeat split; auto. exists []. now rewrite app_nil_r.
    + destruct (find _ candidates) as [matchedUrl|] eqn:Hfind;
        [|destruct (IH urlsToTest urlPaths Hp Hlen) as (A & B & C & D); auto].
      destruct (JS.Set_has urlPaths (oldUrl matchedUrl)) eqn:Hhas; cbn [negb];
        [destruct (IH urlsToTest urlPaths Hp Hlen) as (A & B & C & D); auto|].
      apply find_some in Hfind. destruct Hfind as [Hin _].
      destruct Hp as (Hi & Hn & Hk).
      apply JSFacts.Set_has_not_In in Hhas.
      destruct (IH (urlsToTest ++ [matchedUrl]) (JS.Set_add urlPaths (oldUrl matchedUrl)))
        as (A & B & C & [added D]).
      * split; [|split].
        -- intros x [Hx|[<-|[]]]%in_app_iff; auto.
        -- rewrite map_app. cbn [map]. apply NoDup_app; [exact Hn|repeat constructor; auto|].
           intros k Hk1 [<-|[]]. apply Hhas, Hk, Hk1.
        -- intros k. rewrite JSFacts.Set_add_In, map_app, in_app_iff, Hk. cbn. intuition.
      * rewrite length_app. cbn. lia.
      * repeat split; auto. exists ([matchedUrl] ++ added). now rewrite D, <- app_assoc.
Qed.


Lemma filter_split {A} (f : A -> bool) (l : list A) :
  (List.length (filter f l) + List.length (filter (fun x => negb (f x)) l))%nat = List.length l.
Proof. induction l as [|x l IH]; cbn; [reflexivity|]. destruct (f x); cbn; lia. Qed.

Lemma NoDup_map_filter {A B} (g : A -> B) (f : A -> bool) (l : list A) :
  NoDup (map g l) -> NoDup (map g (filter f l)).
Proof.
  induction l as [|x l IH]; cbn; [auto|]. intros H. inversion H as [|? ? Hx Hl]; subst.
  destruct (f x); cbn; [|auto]. constructor; [|auto].
  intros Hin. apply Hx. apply in_map_iff in Hin. destruct Hin as (y & Hy & Hyin).
  apply filter_In in Hyin. rewrite <- Hy. apply in_map. tauto.
Qed.

Lemma incl_firstn {A} (n : nat) (l : list A) : incl (firstn n l) l.
Proof.
  revert n. induction l as [|x l IH]; intros [|n] y; cbn; try tauto.
  intros [H|H]; [now left|right; now apply (IH n)].
Qed.

Lemma NoDup_firstn {A} (n : nat) (l : list A) : NoDup l -> NoDup (firstn n l).
Proof.
  revert n. induction l as [|x l IH]; intros [|n] H; cbn; try constructor.
  - inversion H; subst. intros Hin. apply incl_firstn in Hin. contradiction.
  - inversion H; subst. auto.
Qed.

(** The last two steps: fill up from the candidates not yet picked, and cut
    at ten. *)
Lemma fill_up (candidates urlsToTest : list MatchEntry) :
  incl urlsToTest candidates ->
  NoDup (map oldUrl urlsToTest) ->
  (List.length urlsToTest <= maxUrls)%nat ->
  let urlPaths := JS.Set_from (map oldUrl urlsToTest) in
  let remainingUrls := filter (fun u => negb (JS.Set_has urlPaths (oldUrl u))) candidates in
  let urls :=
    firstn maxUrls
      (urlsToTest ++ firstn (maxUrls - List.length urlsToTest) remainingUrls) in
  (List.length urls <= maxUrls)%nat
  /\ incl urls candidates
  /\ (exists added, urls = urlsToTest ++ added)
  /\ (NoDup (map oldUrl candidates) ->
      NoDup (map oldUrl urls)
      /\ List.length urls = Nat.min maxUrls (List.length candidates)).
Proof.
  intros Hincl Hnd Hlen urlPaths remainingUrls urls.
  set (more := firstn (maxUrls - List.length urlsToTest) remainingUrls) in *.
  assert (Hmore : (List.length more <= maxUrls - List.length urlsToTest)%nat)
    by apply firstn_le_length.
  assert (Hall : firstn maxUrls (urlsToTest ++ more) = urlsToTest ++ more).
  { apply firstn_all2. rewrite length_app. lia. }
  unfold urls. rewrite Hall.
  assert (Hrem : incl remainingUrls candidates) by (intros x Hx; now apply filter_In in Hx).
  split; [rewrite length_app; lia|]. split; [|split; [now exists more|]].
  - intros x [Hx|Hx]%in_app_iff; [auto|]. apply Hrem. now apply incl_firstn in Hx.
  - intros Hcand.
    assert (Hpaths : forall u, JS.Set_has urlPaths (oldUrl u) = true
                               <-> In (oldUrl u) (map oldUrl urlsToTest)).
    { intros u. unfold urlPaths. now rewrite JSFacts.Set_has_In, JSFacts.Set_from_In. }
    split.
    + rewrite map_app. apply NoDup_app.
      * exact Hnd.
      * unfold more. rewrite <- firstn_map. apply NoDup_firstn.
        now apply NoDup_map_filter.
      * intros k Hk1 Hk2. apply in_map_iff in Hk2. destruct Hk2 as (u & <- & Hu).
        apply incl_firstn in Hu. apply filter_In in Hu. destruct Hu as [_ Hu].
        apply negb_true_iff in Hu. apply Hpaths in Hk1. congruence.
    + assert (Hpicked : List.length (filter (fun u => JS.Set_has urlPaths (oldUrl u)) candidates)
                        = List.length urlsToTest).
      { rewrite <- (length_map oldUrl (filter _ _)), <- (length_map oldUrl urlsToTest).
        apply Permutation_length, NoDup_Permutation.
        - now apply NoDup_map_filter.
        - exact Hnd.
        - intros k. split.
          + intros (u & <- & Hu)%in_map_iff. apply filter_In in Hu. now apply Hpaths.
          + intros Hk. pose proof Hk as Hk'. apply in_map_iff in Hk. destruct Hk as (u & <- & Hu).
            apply in_map, filter_In. split; [auto|]. now apply Hpaths. }
      pose proof (filter_split (fun u => JS.Set_has urlPaths (oldUrl u)) candidates) as Hsplit.
      rewrite Hpicked in Hsplit.
      change (List.length urlsToTest + List.length remainingUrls = List.length candidates)%nat
        in Hsplit.
      rewrite length_app. unfold more. rewrite length_firstn. lia.
Qed.

Lemma selectImportantUrls_stages (comparison : Results) (gscData : option (list GscEntry)) :
  selectImportantUrls comparison gscData
  = filledUp (matched comparison ++ redirected comparison)
             (afterTraffic (matched comparison ++ redirected comparison) gscData).
Proof. destruct gscData as [[|g gs]|]; reflexivity. Qed.

Lemma homepageFirst_picked (candidates : list MatchEntry) :
  picked candidates (homepageFirst candidates)
         (JS.Set_from (map oldUrl (homepageFirst candidates)))
  /\ (List.length (homepageFirst candidates) <= maxUrls)%nat.
Proof.
  unfold homepageFirst. destruct (filter isHomepage candidates) as [|home rest] eqn:E.
  - unfold picked. cbn. split; [|unfold maxUrls; lia].
    split; [intros x []|]. split; [constructor|]. intros k. reflexivity.
  - cbn [firstn]. assert (Hin : In home candidates).
    { assert (H : In home (filter isHomepage candidates)) by (rewrite E; now left).
      now apply filter_In in H. }
    split; [|unfold maxUrls; cbn; lia]. split; [|split].
    + intros x [<-|[]]. exact Hin.
    + cbn. repeat constructor. intros [].
    + intros k. apply JSFacts.Set_from_In.
Qed.

Lemma afterTraffic_picked (candidates : list MatchEntry) (gscData : option (list GscEntry)) :
  let chosen := afterTraffic candidates gscData in
  incl chosen candidates /\ NoDup (map oldUrl chosen)
  /\ (List.length chosen <= maxUrls)%nat
  /\ exists added, chosen = homepageFirst candidates ++ added.
Proof.
  destruct (homepageFirst_picked candidates) as [Hpicked Hlen].
  unfold afterTraffic. destruct gscData as [[|g gs]|].
  - destruct Hpicked as (A & B & _). repeat split; auto. exists []. now rewrite app_nil_r.
  - apply addByTraffic_picked; assumption.
  - destruct Hpicked as (A & B & _). repeat split; auto. exists []. now rewrite app_nil_r.
Qed.

Lemma selectImportantUrls_facts (comparison : Results) (gscData : option (list GscEntry)) :
  let candidates := matched comparison ++ redirected comparison in
  let urls := selectImportantUrls comparison gscData in
  (List.length urls <= 10)%nat
  /\ incl urls candidates
  /\ (forall home rest, filter isHomepage candidates = home :: rest ->
                         exists others, urls = home :: others)
  /\ (filter isHomepage candidates = [] ->
      forall gscData', gscData = Some gscData' ->
      forall first rest, sortByTraffic gscData' = first :: rest ->
      forall u, find (fun u => oldUrl u =? gsc_url first) candidates = Some u ->
                exists others, urls = u :: others)
  /\ (NoDup (map oldUrl candidates) ->
      NoDup (map oldUrl urls)
      /\ List.length urls = Nat.min 10 (List.length candidates)).
Proof.
  intros candidates urls. unfold urls. rewrite selectImportantUrls_stages. fold candidates.
  destruct (afterTraffic_picked candidates gscData) as (Ci & Cn & Cl & [added Ca]).
  destruct (fill_up candidates _ Ci Cn Cl) as (F1 & F2 & [more F3] & F4).
  cbv zeta in F1, F2, F3, F4.
  fold (filledUp candidates (afterTraffic candidates gscData)) in F1, F2, F3, F4.
  split; [exact F1|]. split; [exact F2|]. split; [|split; [|exact F4]].
  - intros home rest E. rewrite F3, Ca. unfold homepageFirst. rewrite E. cbn [firstn app]. eauto.
  - intros E gscData' -> first rest Hsort u Hfind. rewrite F3.
    assert (Hs : homepageFirst candidates = []) by (unfold homepageFirst; now rewrite E).
    unfold afterTraffic. destruct gscData' as [|g gs]; [discriminate|].
    rewrite Hsort, Hs. cbn [addByTraffic List.length map].
    replace (maxUrls <=? 0)%nat with false by reflexivity.
    rewrite Hfind. cbn [JS.Set_from fold_left JS.Set_has existsb negb app].
    match goal with
    | |- context [addByTraffic candidates rest [u] ?paths] =>
        destruct (addByTraffic_picked candidates rest [u] paths) as (_ & _ & _ & [extra ->])
    end.
    + apply find_some in Hfind. destruct Hfind as [Hin _]. split; [|split].
      * intros x [<-|[]]. exact Hin.
      * cbn. repeat constructor. intros [].
      * intros k. rewrite JSFacts.Set_add_In. cbn. intuition (subst; auto).
    + unfold maxUrls. cbn. lia.
    + cbn [app]. eauto.
Qed.

Lemma insertByTraffic_perm (a : GscEntry) (sorted : list GscEntry) :
  Permutation (insertByTraffic a sorted) (a :: sorted).
Proof.
  induction sorted as [|b rest IH]; cbn; [reflexivity|].
  destruct (traffic b <=? traffic a)%Z; [reflexivity|].
  rewrite IH. apply perm_swap.
Qed.

Lemma insertByTraffic_top (a : GscEntry) (sorted : list GscEntry) (first : GscEntry)
    (rest : list GscEntry) :
  (forall e, In e sorted -> forall f tail, sorted = f :: tail -> (traffic e <= traffic f)%Z) ->
  insertByTraffic a sorted = first :: rest ->
  forall e, In e (a :: sorted) -> (traffic e <= traffic first)%Z.
Proof.
  destruct sorted as [|b tail]; cbn [insertByTraffic].
  - intros _ [= <- <-] e [<-|[]]. lia.
  - intros Htop. destruct (Z.leb_spec (traffic b) (traffic a)).
    + intros [= <- <-] e [<-|He]; [lia|]. specialize (Htop e He b tail eq_refl). lia.
    + intros [= <- <-] e [<-|He]; [lia|]. exact (Htop e He b tail eq_refl).
Qed.

Lemma sortByTraffic_top (gscData : list GscEntry) :
  Permutation (sortByTraffic gscData) gscData
  /\ forall first rest, sortByTraffic gscData = first :: rest ->
       In first gscData /\ forall e, In e gscData -> (traffic e <= traffic first)%Z.
Proof.
  induction gscData as [|a l [IHp IHt]]; cbn [sortByTraffic fold_right].
  - split; [reflexivity|discriminate].
  - fold (sortByTraffic l). split.
    + rewrite insertByTraffic_perm. now constructor.
    + intros first rest E. split.
      * assert (H : In first (insertByTraffic a (sortByTraffic l))) by (rewrite E; now left).
        apply (Permutation_in first (insertByTraffic_perm a (sortByTraffic l))) in H.
        destruct H as [<-|H]; [now left|right]. now apply (Permutation_in _ IHp).
      * intros e He.
        apply (insertByTraffic_top a (sortByTraffic l) first rest); [|exact E|].
        -- intros x Hx f tail Ef. apply (IHt f tail Ef).
           now apply (Permutation_in _ IHp).
        -- destruct He as [<-|He]; [now left|right].
           now apply (Permutation_in _ (Permutation_sym IHp)).
Qed.

(** X28. [selectImportantUrls] picks at most ten entries, all of them
    matched or redirected entries of the comparison.  The first entry with a
    URL that ends in a slash, if there is one, comes first; if there is none,
    the entry for the row of the Search Console data first in the sorted
    order does, a row no other row has more traffic than.  When no two
    candidates share an old URL, no old URL is picked twice and as many
    entries are picked as there are candidates, up to ten. *)
Theorem selectImportantUrls_spec (comparison : Results) (gscData : option (list GscEntry)) :
  let candidates := matched comparison ++ redirected comparison in
  let urls := selectImportantUrls comparison gscData in
  (List.length urls <= 10)%nat
  /\ incl urls candidates
  /\ (forall home rest, filter isHomepage candidates = home :: rest ->
                         exists others, urls = home :: others)
  /\ (filter isHomepage candidates = [] ->
      forall gscData', gscData = Some gscData' ->
      forall first rest, sortByTraffic gscData' = first :: rest ->
      forall u, find (fun u => oldUrl u =? gsc_url first) candidates = Some u ->
                exists others, urls = u :: others)
  /\ (forall gscData' first rest, sortByTraffic gscData' = first :: rest ->
        In first gscData' /\ forall e, In e gscData' -> (traffic e <= traffic first)%Z)
  /\ (NoDup (map oldUrl candidates) ->
      NoDup (map oldUrl urls)
      /\ List.length urls = Nat.min 10 (List.length candidates)).
Proof.
  intros candidates urls.
  destruct (selectImportantUrls_facts comparison gscData) as (H1 & H2 & H3 & H4 & H5).
  split; [exact H1|]. split; [exact H2|]. split; [exact H3|]. split; [exact H4|].
  split; [|exact H5]. intros gscData'. apply sortByTraffic_top.
Qed.

End ProcessingFacts.
(** ** No old URL twice *)

Section DistinctFacts.
Variable newURL : string -> option URL.

Local Abbreviation normalize := (normalizeUrl newURL).

Lemma buckets_perm (S : JS.Set_) (rm : option (JS.Map string)) (m : JS.Map string) :
  Permutation (map oldUrl (matchedOf newURL S rm m)
               ++ map oldUrl (redirectedOf newURL S rm m)
               ++ map missing_oldUrl (missingOf newURL S rm m))
              (map snd m).
Proof.
  induction m as [|entry m IH]; [constructor|].
  unfold matchedOf, redirectedOf, missingOf in *. cbn [flat_map map].
  destruct (verdict newURL S rm entry); cbn [app map oldUrl missing_oldUrl directMatch mappedMatch].
  - now constructor.
  - apply Permutation_sym, Permutation_cons_app, Permutation_sym, IH.
  - rewrite app_assoc. apply Permutation_sym, Permutation_cons_app, Permutation_sym.
    rewrite <- app_assoc. exact IH.
Qed.

Lemma normalizedOldUrls_values (oldUrls : list string) :
  NoDup (map snd (JS.Map_from (map (fun url => (normalize url, url)) oldUrls))).
Proof.
  set (m := JS.Map_from (map (fun url => (normalize url, url)) oldUrls)).
  assert (Hkeys : NoDup (map fst m)).
  { unfold m. rewrite JSFacts.Map_from_keys. apply JSFacts.Set_from_NoDup. }
  assert (Hfst : map fst m = map normalize (map snd m)).
  { rewrite map_map. apply map_ext_in. intros entry Hin.
    now apply (normalizedOldUrls_In newURL oldUrls) in Hin. }
  rewrite Hfst in Hkeys. now apply NoDup_map_inv in Hkeys.
Qed.

Lemma buckets_distinct (oldUrls newUrls : list string) (redirectMap : option (JS.Map string)) :
  let R := compareUrls newURL oldUrls newUrls redirectMap in
  NoDup (map oldUrl (matched R) ++ map oldUrl (redirected R)
         ++ map missing_oldUrl (missing R)).
Proof.
  intros R. destruct (compareUrls_buckets newURL oldUrls newUrls redirectMap) as (Hm & Hr & Hx).
  fold R in Hm, Hr, Hx. rewrite Hm, Hr, Hx.
  eapply Permutation_NoDup; [apply Permutation_sym, buckets_perm|].
  apply normalizedOldUrls_values.
Qed.

(** X29. [compareUrls] reports no old URL twice: the old URLs of the
    matched, redirected and missing entries are all different.  So the
    entries [selectImportantUrls] picks from a report are for different old
    URLs, and there are ten of them, or as many as the report has matched and
    redirected entries when these are fewer. *)
Theorem compareUrls_distinct (oldUrls newUrls : list string)
    (redirectMap : option (JS.Map string)) (gscData : option (list Processing.GscEntry)) :
  let R := compareUrls newURL oldUrls newUrls redirectMap in
  let urls := Processing.selectImportantUrls R gscData in
  NoDup (map oldUrl (matched R) ++ map oldUrl (redirected R)
         ++ map missing_oldUrl (missing R))
  /\ NoDup (map oldUrl urls)
  /\ List.length urls
     = Nat.min 10 (matchedCount (summary R) + redirectedCount (summary R)).
Proof.
  intros R urls. pose proof (buckets_distinct oldUrls newUrls redirectMap) as Hnd.
  cbv zeta in Hnd. fold R in Hnd. split; [exact Hnd|].
  pose proof (ProcessingFacts.selectImportantUrls_facts R gscData) as H.
  cbv zeta in H. destruct H as (_ & _ & _ & _ & H). fold urls in H.
  assert (Hc : NoDup (map oldUrl (matched R ++ redirected R))).
  { rewrite map_app. rewrite app_assoc in Hnd. now apply NoDup_app_remove_r in Hnd. }
  destruct (H Hc) as [H1 H2]. split; [exact H1|].
  rewrite H2, length_app. reflexivity.
Qed.

End DistinctFacts.
(** ** The redirect mapping *)

Module CsvFacts.
Import CsvParser.

Lemma trimEnd_idem (p : ascii -> bool) (s : string) :
  JS.trimEnd p (JS.trimEnd p s) = JS.trimEnd p s.
Proof.
  induction s as [|c s IH]; [reflexivity|]. cbn [JS.trimEnd].
  destruct (p c && (JS.trimEnd p s =? "")) eqn:E; [reflexivity|].
  cbn [JS.trimEnd]. now rewrite IH, E.
Qed.

Lemma trimEnd_head (p : ascii -> bool) (c : ascii) (s : string) :
  p c = false -> JS.trimEnd p (String c s) = String c (JS.trimEnd p s).
Proof. intros H. cbn [JS.trimEnd]. now rewrite H. Qed.

Lemma dropWhile_head (p : ascii -> bool) (s : string) :
  JS.dropWhile p s = "" \/ exists c t, JS.dropWhile p s = String c t /\ p c = false.
Proof.
  induction s as [|c s IH]; [now left|]. cbn [JS.dropWhile].
  destruct (p c) eqn:E; [exact IH|]. right. eauto.
Qed.

Lemma trim_idem (s : string) : trim (trim s) = trim s.
Proof.
  unfold trim. destruct (dropWhile_head isWhiteSpace s) as [->|(c & t & -> & Hc)].
  - reflexivity.
  - rewrite (trimEnd_head _ c t Hc). cbn [JS.dropWhile]. rewrite Hc.
    rewrite <- (trimEnd_head _ c t Hc). apply trimEnd_idem.
Qed.

Lemma redirectRow_keys (m : JS.Map string) (row : Row) :
  NoDup (map fst m) -> NoDup (map fst (redirectRow m row)).
Proof.
  intros H. unfold redirectRow. destruct (oldUrlOf row), (newUrlOf row); auto.
  rewrite JSFacts.Map_set_keys. now apply JSFacts.Set_add_NoDup.
Qed.

Lemma redirectLoop (rows : list Row) :
  forall m,
    NoDup (map fst m) ->
    let m' := fold_left redirectRow rows m in
    NoDup (map fst m')
    /\ forall entry, In entry m' -> In entry m \/ written rows entry.
Proof.
  induction rows as [|row rows IH]; intros m Hm; cbv zeta; cbn [fold_left].
  - split; [exact Hm|]. auto.
  - destruct (IH _ (redirectRow_keys m row Hm)) as [Hk Hin]. split; [exact Hk|].
    intros entry He. destruct (Hin entry He) as [H|(r & o & n & Hr & Ho & Hn & ->)].
    + unfold redirectRow in H.
      destruct (oldUrlOf row) as [o|] eqn:Ho; [|now left].
      destruct (newUrlOf row) as [n|] eqn:Hn; [|now left].
      apply JSFacts.Map_set_In in H. destruct H as [H| ->]; [now left|].
      right. exists row, o, n. repeat split; auto. now left.
    + right. exists r, o, n. repeat split; auto. now right.
Qed.

Lemma redirect_last (after : list Row) (k v : string) :
  (forall row oldUrl, In row after -> oldUrlOf row = Some oldUrl -> newUrlOf row <> None ->
                      trim oldUrl <> k) ->
  forall m, JS.Map_get m k = Some v -> JS.Map_get (fold_left redirectRow after m) k = Some v.
Proof.
  induction after as [|row after IH]; intros Hafter m Hget; cbn [fold_left]; [exact Hget|].
  apply IH.
  - intros r o Hr. apply Hafter. now right.
  - unfold redirectRow.
    destruct (oldUrlOf row) as [o|] eqn:Ho; [|exact Hget].
    destruct (newUrlOf row) as [n|] eqn:Hn; [|exact Hget].
    rewrite JSFacts.Map_get_set_other; [exact Hget|].
    intros Heq. apply (Hafter row o (or_introl eq_refl) Ho); [congruence|auto].
Qed.

(** X30. [parseRedirectMapping] keeps one entry per old URL, with the old
    and the new URL both trimmed.  Every entry comes from a row that has a
    cell for each of the two; rows that lack one are passed over.  Of the
    rows for the same trimmed old URL the last one decides the target. *)
Theorem parseRedirectMapping_spec (rows : list Row) :
  let redirectMap := parseRedirectMapping rows in
  NoDup (map fst redirectMap)
  /\ (forall k v, In (k, v) redirectMap ->
                  trim k = k /\ trim v = v /\ written rows (k, v))
  /\ (forall before row after oldUrl newUrl,
        rows = before ++ row :: after ->
        oldUrlOf row = Some oldUrl -> newUrlOf row = Some newUrl ->
        (forall later o, In later after -> oldUrlOf later = Some o ->
                         newUrlOf later <> None -> trim o <> trim oldUrl) ->
        JS.Map_get redirectMap (trim oldUrl) = Some (trim newUrl)).
Proof.
  intros redirectMap. unfold redirectMap, parseRedirectMapping.
  destruct (redirectLoop rows [] (NoDup_nil _)) as [Hk Hin]. cbv zeta in Hk, Hin.
  split; [exact Hk|]. split.
  - intros k v H. destruct (Hin _ H) as [[]|Hw].
    destruct Hw as (row & o & n & Hr & Ho & Hn & [= -> ->]).
    split; [apply trim_idem|]. split; [apply trim_idem|].
    exists row, o, n. auto.
  - intros before row after o n -> Ho Hn Hlater.
    rewrite fold_left_app. cbn [fold_left].
    apply redirect_last; [exact Hlater|].
    unfold redirectRow at 1. rewrite Ho, Hn. apply JSFacts.Map_get_set_same.
Qed.

End CsvFacts.
